(* ===== verification/_CoqProject ===== *)
-Q . S2P
Prelude.v
Prometheus.v
Utf8.v
Database.v
Channel.v
Interleave.v
Fanin.v
Sql.v
SqlSyntax.v
SqlPrint.v
PrimaryQuery.v
Scraper.v
PrimaryKey.v
PrimaryQueryText.v
PrimaryKeySpec.v
PrimaryKeyTheorems.v
ScrapeSteps.v
EndToEnd.v
Orchestrator.v
Exporter.v
CycleOrder.v
SharedChannel.v
Process.v
Rotation.v
