(* ===== verification/Prelude.v ===== *)
(** * Verification of the [primary_key] scraper of mysqld_exporter

    The program under study is a database-metrics exporter.  The repository
    file [src/collector/primary.go] is one of its scrapers: it runs one SQL
    query against [information_schema] and publishes one gauge sample for
    every base table that has no [PRIMARY KEY] constraint.  The scraper is
    written against four collaborators that live outside the file: the
    [database/sql] cursor API, the Prometheus metric constructors, the metric
    channel it is handed, and the [Scraper] interface through which the
    scrape orchestrator drives it.

    ** Files, in dependency order

    - [Prelude] (this file): the execution monad in which Go code is
      modelled (state passing over a world, with panics and loop fuel as
      outcomes), Go [error] values, [defer], [fmt.Sprint] on one string, the
      tactics and hint databases of the development ([exec], [exec_simpl]),
      and the string and list lemmas the components share.
    - [Prometheus]: the part of the Prometheus client the scraper calls:
      [BuildFQName], [NewDesc] with its name checks, [NewConstMetric] with
      its label-count and UTF-8 checks ([utf8_valid] follows RFC 3629),
      [MustNewConstMetric], which panics where [NewConstMetric] fails, and
      the metric channel ([Sink], [sink_send]).
    - [Utf8]: the UTF-8 encoder of Unicode scalar values ([encode]) and
      the proof that [utf8_valid] accepts exactly the byte strings that
      are encodings ([utf8_valid_iff_encoding]), so that the validator
      the panic path depends on is tied to the encoding it stands for.
    - [Database]: [database/sql] as the scraper uses it.  A cursor
      ([Rows]) is a heap object: the world ([World]) maps cursor handles to
      cursor states and holds the channel.  [QueryContext], [Next], [Scan],
      [Close] and [Err] are the operations, each the lift to the heap of
      a function on one cursor ([query_rows], [next_rows], [scan_rows],
      [close_rows]); the server is an oracle ([DB]) from the query text
      to rows, possibly cut short by a driver error.
    - [Channel]: the metric channel as Go implements it, a queue of
      bounded capacity between a producer and the consumer that drains
      it: the interface [Producer], the step relation [sys_step] (send,
      hand-over on an unbuffered channel, receive, close, the panic of a
      send after close), the eager schedule [sys_next], the proof that
      [Sink] is what a producer sees of it, and the producer run alone
      to its end as a function ([produce]).
    - [Interleave]: interleavings of a family of sequences ([merges], by
      the way a log of writes grows; [merge_by], by a schedule) and what
      they keep: every element, and the order of every member.
    - [Fanin]: the same channel in front of several producers ([Pool],
      [pool_step]), of any kinds ([Worker]); schedules as functions
      ([pool_do], [pool_run]).
    - [Sql]: three-valued logic, comparison under a collation (the
      interface [Collation], with the binary collation as an instance),
      [left_join], [where_], [anti_join] and [order_by] (a stable merge
      sort, [NULL] first).
    - [SqlSyntax]: the fragment of SQL the query is written in, as
      syntax: a lexer, a parser and an evaluator of syntax trees over
      tables with named columns, built from the operators of [Sql].
    - [SqlPrint]: the printer of the fragment ([query_tokens],
      [print_query]) and the round trip: the lexer and the parser read
      back what is printed of a well-formed tree ([parse_print]).
    - [PrimaryQuery]: the constant [primaryQuery], byte for byte, and its
      meaning clause by clause ([select_list], [from_clause], [join_on],
      [where_clause], [order_by_key], composed by [primaryQuery_rows]),
      the reference definition [tables_without_primary_key] and the
      theorems that the query computes it.
    - [Scraper]: the interface [Scraper] ([Name], [Help], [Version],
      [Scrape]) as a class, the packed [scraper] the registry stores, and
      [ScraperLaws], what the orchestrator relies on from an implementation.
    - [PrimaryKey]: the model of the code, and nothing else:
      [primarySubsystem], [PrimarylabelNames], [CheckPrimaryKeyDesc], the
      type [ScrapePrimaryKey], its four methods in [Module
      ScrapePrimaryKey], and the instance [ScrapePrimaryKey_Scraper] for
      the source's [var _ Scraper = ScrapePrimaryKey{}].  The body of
      [Scrape] is [scrape_loop] (the [for primaryRows.Next()] loop),
      [scan_primary] (the [Scan] into the three variables [locals]) and
      [primary_metric] (the [MustNewConstMetric] call).
    - [PrimaryQueryText]: the text of [primaryQuery] parsed into
      [primaryQuery_ast] (one tree per clause), and the proof that the
      evaluation of that tree over the two tables is the clause-by-clause
      meaning of [PrimaryQuery]; the label names checked against the
      [SELECT] list; the text as the print of its tree.
    - [PrimaryKeySpec]: the reference definition of a scrape ([Scrape_spec],
      by structural recursion on the rows of the result set,
      [scrape_rows]), the refinement lemmas from the code model to it, and
      the instance [ScrapePrimaryKey_laws] that discharges [ScraperLaws].
    - [PrimaryKeyTheorems]: the properties of [Scrape], each with a run on
      a concrete database.
    - [ScrapeSteps]: a call of [Scrape] as a [Frame] that moves statement
      by statement ([frame_next]) as the producer of a channel of bounded
      capacity, interleaved with the consumer.  The frame holds the
      cursor of the call and the three variables; its steps are the
      statements of the source on them: [query_rows], then [next_rows],
      [scan_rows] and [NewConstMetric] per iteration, and [close_rows]
      when the call returns or panics ([leave]); the instance
      [frame_producer] of [Channel.Producer], the properties of the
      runs, and the call run statement by statement as a function
      ([Scrape_steps]).
    - [EndToEnd]: [Scrape] against a server that parses the text it is
      sent and evaluates it ([mysqld]): from the contents of the two
      [information_schema] tables to the samples on the channel, in the
      order of the answer of the server; runs against two databases, and
      two runs in a row.
    - [Orchestrator]: the scrape cycle of the exporter, modelled from the
      design document because its code is not in the repository:
      selection by allow/deny list and version ([eligible],
      [selection]), the cycle as a state machine ([Phase], [cycle_step])
      in which the units of work of the selected scrapers ([launch])
      interleave their sends and a deadline may elapse, the meta-metrics
      ([report]), and the sequential schedule as a function ([Collect]).
    - [Exporter]: the cycle over the registry of the repository's
      scrapers ([scrapers], which holds [primary_key]), and its
      properties.
    - [CycleOrder]: what a cycle keeps of the order of the samples: the
      logs of the units ([logs]), the invariant that the samples emitted
      are an interleaving of them ([order_inv]), and the cycle on any
      schedule of its units as a function ([run_by], [Collect_by]).
    - [SharedChannel]: the call of [Scrape] as one goroutine among
      others on one bounded channel, and the pool of the goroutines of
      the selected scrapers ([goroutine]) as a refinement of the Running
      phase of the cycle ([pool_cycle]).
    - [Process]: the exporter across cycles, from the design document:
      the instance and its connection, established on first use and
      released once ([Connection], [Teardown]), and the process that
      serves one scrape request at a time, each by one cycle on a sink
      of its own ([process_step], [serve]).
    - [Rotation]: the reconfiguration of the instance between cycles
      ([Reconfigure]), the exporter with the instances it has retired
      ([Managed], [managed_step]), and the exporter as a function of
      the requests, reconfigurations and shutdowns it goes through
      ([run_events]).

    ** How Go code is modelled

    A Go function that mutates memory is a value of [exec W A]: a function
    from the world [W] to an [outcome A] and the new world.  An outcome is a
    normal return, a panic carrying its message, or [OutOfFuel], which only
    models of loops can produce and which the termination theorems rule
    out.  A function returning [error] returns [option error], with [None]
    for Go's [nil].  [defer] runs its argument when the body returns and
    when it panics, as Go does.  Strings are byte strings, as in Go.  The
    float [5.7] of [Version] is the binary64 number Go's constant denotes.

    ** Fuel and bounds

    [scrape_loop] is the only loop of the source.  It is a fixpoint on a
    fuel parameter; [Scrape] passes [loop_fuel], the number of rows the
    cursor has not fetched plus one (for the call of [Next] that returns
    [false]).  [PrimaryKeySpec.scrape_loop_refines] shows that with this
    fuel the loop equals the structural reference [scrape_rows], which has
    no fuel, so [OutOfFuel] is never the outcome of [Scrape]
    ([PrimaryKeyTheorems.Scrape_terminates]).

    The systems of [Channel] need no fuel: [sys_step] is a relation, and
    [Channel.sys_size] bounds the steps of every run, for every producer
    and every capacity (zero is the unbuffered channel).  The schedule
    [sys_run] takes fuel; [sys_size] units deliver everything
    ([Channel.sys_run_delivered]).

    The pools of [Fanin] need no fuel either: [Fanin.pool_size] bounds
    the steps of every run, and [Fanin.pool_deliver] finds a run that
    delivers everything by induction on it.  The schedules [pool_run]
    and [run_by] recurse on the schedule they are given.

    The interpreter [Channel.produce] takes fuel; the [weight] of the
    producer is enough and more changes nothing
    ([Channel.produce_enough], [Channel.produce_fuel]).  For a call of
    [Scrape] the weight is two steps per row of the result set and three
    more, which [Scrape_steps] passes.

    The cycle of the orchestrator needs no fuel: [cycle_step] is a
    relation, and [Orchestrator.steps_left] bounds the steps of every run
    by the samples the launched units have yet to send.

    ** How concurrency is modelled

    A scraper cannot observe the channel or the cursors of others
    ([ScraperLaws], proved for [ScrapePrimaryKey]), so what a scraper
    does in a cycle is the samples it sends on a channel of its own and
    what it returns.  A cycle interleaves these sends, one sample per
    step, in any order; [Orchestrator.scrape_all_launch] shows that
    scrapers run one after the other on one shared world leave exactly
    these samples.  The deadline is an event that may happen at any step
    while units run; afterwards the running units are abandoned and what
    they would still send is dropped.

    Within one scraper, [PrimaryKey] runs [Scrape] as one function in
    which a send appends to the channel and returns.  [ScrapeSteps] runs
    the same call against a channel of bounded capacity whose consumer
    receives concurrently, every interleaving included, and shows that a
    complete run returns and delivers what the function does.

    The two views of a cycle meet in [SharedChannel].  The goroutines of
    the selected scrapers, the call of [Scrape] statement by statement
    among them, write to one channel of bounded capacity
    ([Fanin.pool_step]); every state they reach stands for a state of
    the Running phase of [cycle_step], in which a write to the channel
    is a sample emitted, a receive of the consumer is not seen, and the
    consumer that closes the channel is the deadline that elapses: what
    the goroutines do afterwards, the panic of a late send included, the
    cycle does not see.  So the cycle, in which a send always returns,
    is an abstraction of the bounded channel, and what holds of every
    state of a cycle holds of the goroutines.

    ** What the theorems show

    - Refinement: on every context, instance and world, [Scrape] equals
      [Scrape_spec].
    - Functional behaviour on each branch: the context already done, the
      query refused, every row scanned and sent, a row that does not scan
      (a [NULL] column), a driver error in the middle of the result set, a
      label that is not valid UTF-8, the channel closed.
    - Resources: every cursor [Scrape] opens is closed when it returns,
      on the error and panic paths too; no other cursor is touched.
    - The channel only grows, by gauge samples of [CheckPrimaryKeyDesc]
      with value [0] and three labels.
    - The text of the query parses, and its evaluation is the meaning
      [PrimaryQuery] gives it; the labels of the metric are the selected
      columns.
    - The query: its [WHERE] over the [LEFT JOIN] is an anti-join; a table
      is reported iff it is a base table outside [performance_schema] and
      [mysql] that no primary-key constraint names; rows come out sorted
      by table name; one row of three columns per reported table.

      The exclusion is stated on the rows themselves: no constraint row
      of type [PRIMARY KEY] carries the schema and the name of a
      reported table, so that a change of a literal of the [ON] clause
      is seen.
    - Lemmas of the library, not properties of the program: a
      well-formed statement printed and parsed is read back as itself
      ([SqlPrint.parse_print]), and [primaryQuery] is the print of
      [primaryQuery_ast] up to white space.
    - The channel ([ScrapeSteps]): over a channel of any capacity and
      under every interleaving with the consumer, a call of [Scrape]
      that comes to its end has done what [Scrape] does and closed its
      cursor; no deadlock
      while the channel is open; when the consumer closes the channel
      under a running call, the next send panics and the rest is lost;
      a call at its send on a full channel waits for the consumer alone.
      Run to its end as a function, statement by statement, the call
      is [Scrape] on every channel, the closed one included: the same
      outcome, the same samples, and the same cursor in the same state.
    - The scraper across runs: against databases that answer the query
      alike it does the same; run twice it appends the same samples
      twice; it does not observe what the channel holds.
    - End to end ([EndToEnd]): from the rows of the two
      [information_schema] tables to the samples on the channel; a
      [NULL] engine aborts the scrape; tables of the same name are
      reported in the order the server chose, which the query leaves
      open.
    - Order ([Interleave], [CycleOrder], [Fanin], [SharedChannel]): the
      samples a cycle emits are an interleaving of the samples of the
      selected scrapers, each in the order in which its scraper sends
      them, and every interleaving is emitted by some run; so the tables
      without primary key are reported in the order of the query, with
      samples of other scrapers in between at most.  The same holds of
      what the consumer receives from goroutines on a bounded channel,
      which never deadlock while the channel is open; when it is closed
      under them the cycle ends with what was written and reports the
      units left as timed out.
    - The process ([Process], [Rotation]): over any run, an instance
      establishes at most one connection and releases it at most once;
      across reconfigurations every retired instance has released what
      it established, so at most one connection is live at any time;
      every response is the whole stream of one cycle; two finished
      runs of the cycle, under any interleaving, clocks and deadlines,
      against targets that report the same version and answer the query
      alike emit the same descriptors and label values up to order when
      neither timed out, and the one that timed out emits a part of
      what the other does.
    - The cycle ([Exporter]): a finished cycle emits samples of the
      selected scrapers and nothing else, then one outcome for each of
      them and for no other, that of [primary_key] iff it is enabled and
      the target reports at least version 5.7; whatever the registry
      and the run, the outcome of [primary_key] is a timeout only when
      the deadline elapsed and otherwise what [Scrape] returned; the
      failure of the query of [primary_key] is isolated, its panic is
      not; every run ends; the stream stays well-formed.
    - The descriptor: for every valid namespace the descriptor built as
      the source builds it is valid, with the name
      [<namespace>_primary_key_check].

    ** Assumptions

    - In [PrimaryKey] and in the cycle, a send on an open channel
      returns: the consumer drains the channel.  [ScrapeSteps] drops
      the assumption for a call of [Scrape] on a channel of its own,
      [SharedChannel] for the goroutines of a cycle together, where the
      scrapers other than [primary_key] are the samples they send.
      A send on a closed channel panics, as in Go.
    - Comparison of SQL strings is by a collation that is an equivalence
      with a total preorder; theorems of [PrimaryQuery] hold for each.
    - A [context.Context] is reduced to [ctx.Err()] at the time of the
      query; cancellation while rows are fetched shows as the driver
      error that ends the result set.
    - The constant [namespace] is used by the source and declared
      outside it; the development takes ["mysql"], and nothing but the
      literal name of the descriptor depends on the value
      ([PrimaryKeyTheorems.CheckPrimaryKeyDesc_any_namespace]).
    - The rows of [information_schema.tables] and
      [information_schema.table_constraints] ([TablesRow],
      [ConstraintRow]) carry the columns the query names; the schema
      itself is the server's and not in the repository.
    - In a cycle, the duration of a scraper and the answer of the
      version probe are given ([clock], [probe]); a unit of work that
      panics ends the cycle, as a panic in a goroutine ends a Go
      process.

    ** What is not modelled

    Network I/O, the MySQL server and the Go scheduler are not modelled;
    the database is an oracle that answers a query text with rows or with
    an error.  Logging has no effect on the scraper's result and is left
    out.  Time is not modelled: the duration of a scraper is given, the
    deadline is an event, and the grace period after it has no
    counterpart.  Concurrent first use of the connection of
    an instance is atomic, and an instance is reconfigured between
    cycles only: the design document promises the outcome of a race,
    not a mechanism that could be modelled.  The HTTP exposition and
    the command line are not modelled. *)

From Stdlib Require Export Ascii String.
From stdpp Require Export base tactics option list strings gmap sorting.

(** ** Go error values

    The scraper only passes errors through, so an error is identified by
    the operation that produced it and its payload. *)

Inductive error : Type :=
| ErrContextCanceled
| ErrDeadlineExceeded
| ErrDriver (msg : string)
| ErrRowsClosed
| ErrScanNoNext
| ErrScanArity (want got : nat)
| ErrScanNull (column : nat)
| ErrInvalidDesc (msg : string)
| ErrCardinality (want got : nat)
| ErrInvalidUTF8 (value : string)
| ErrSendOnClosedChannel
| ErrNilDereference.

#[export] Instance error_eq_dec : EqDecision error.
Proof. solve_decision. Defined.

(** ** Outcomes and the execution monad *)

Inductive outcome (A : Type) : Type :=
| Returned (a : A)
| Panicked (e : error)
| OutOfFuel.

Arguments Returned {A} a.
Arguments Panicked {A} e.
Arguments OutOfFuel {A}.

#[export] Instance outcome_eq_dec `{EqDecision A} : EqDecision (outcome A).
Proof. solve_decision. Defined.

Definition exec (W A : Type) : Type := W → outcome A * W.

#[export] Instance exec_ret {W} : MRet (exec W) :=
  λ A a w, (Returned a, w).

#[export] Instance exec_bind {W} : MBind (exec W) :=
  λ A B k m w,
    match m w with
    | (Returned a, w') => k a w'
    | (Panicked e, w') => (Panicked e, w')
    | (OutOfFuel, w') => (OutOfFuel, w')
    end.

Definition gets {W A} (f : W → A) : exec W A := λ w, (Returned (f w), w).
Definition modify {W} (f : W → W) : exec W unit := λ w, (Returned (), f w).
Definition panic {W A} (e : error) : exec W A := λ w, (Panicked e, w).
Definition out_of_fuel {W A} : exec W A := λ w, (OutOfFuel, w).

(** [defer d body]: Go's [defer d()] placed before [body].  The deferred
    call runs when the body returns and when it panics; a panic of the
    deferred call replaces the body's outcome. *)
Definition defer {W A} (d : exec W unit) (body : exec W A) : exec W A :=
  λ w,
    match body w with
    | (OutOfFuel, w1) => (OutOfFuel, w1)
    | (r, w1) =>
        match d w1 with
        | (Returned _, w2) => (r, w2)
        | (Panicked e, w2) => (Panicked e, w2)
        | (OutOfFuel, w2) => (OutOfFuel, w2)
        end
    end.

(** [terminates r]: the run did not exhaust the model's fuel. *)
Definition terminates {A} (r : outcome A) : bool :=
  match r with OutOfFuel => false | _ => true end.

Definition panics {A} (r : outcome A) : bool :=
  match r with Panicked _ => true | _ => false end.

(** ** Automation *)

Create HintDb exec discriminated.
Create Rewrite HintDb exec_simpl.

Ltac exec_unfold :=
  unfold mbind, mret, exec_bind, exec_ret, gets, modify, panic, out_of_fuel in *.

Ltac case_run :=
  repeat match goal with
  | |- context [match ?m ?w with pair _ _ => _ end] =>
      let r := fresh "r" in let w' := fresh "w" in let E := fresh "E" in
      destruct (m w) as [r w'] eqn:E; try destruct r
  end.

(** ** Laws of the monad, stated pointwise *)

Section exec_laws.
Context {W A B C : Type}.
Implicit Types (w : W) (a : A).

Lemma exec_bind_ret_l a (k : A → exec W B) w : (mret a ≫= k) w = k a w.
Proof. reflexivity. Qed.

Lemma exec_bind_ret_r (m : exec W A) w : (m ≫= mret) w = m w.
Proof. exec_unfold. by destruct (m w) as [[] ?]. Qed.

Lemma exec_bind_assoc (m : exec W A) (k : A → exec W B) (h : B → exec W C) w :
  ((m ≫= k) ≫= h) w = (m ≫= (λ a, k a ≫= h)) w.
Proof. exec_unfold. by destruct (m w) as [[] ?]. Qed.

Lemma exec_bind_returned (m : exec W A) (k : A → exec W B) w a w' :
  m w = (Returned a, w') → (m ≫= k) w = k a w'.
Proof. exec_unfold. by intros ->. Qed.

Lemma exec_bind_panicked (m : exec W A) (k : A → exec W B) w e w' :
  m w = (Panicked e, w') → (m ≫= k) w = (Panicked e, w').
Proof. exec_unfold. by intros ->. Qed.

Lemma defer_returned (d : exec W unit) (body : exec W A) w a w1 w2 :
  body w = (Returned a, w1) → d w1 = (Returned (), w2) →
  defer d body w = (Returned a, w2).
Proof. unfold defer. by intros -> ->. Qed.

Lemma defer_panicked (d : exec W unit) (body : exec W A) w e w1 w2 :
  body w = (Panicked e, w1) → d w1 = (Returned (), w2) →
  defer d body w = (Panicked e, w2).
Proof. unfold defer. by intros -> ->. Qed.

(** A deferred call that returns leaves the body's outcome in place. *)
Lemma defer_run (d : exec W unit) (body : exec W A) w r w1 w2 :
  body w = (r, w1) → terminates r = true → d w1 = (Returned (), w2) →
  defer d body w = (r, w2).
Proof. unfold defer. intros -> Hr ->. by destruct r. Qed.

Lemma gets_run (f : W → A) w : gets f w = (Returned (f w), w).
Proof. done. Qed.

End exec_laws.

#[export] Hint Rewrite @exec_bind_ret_l @exec_bind_ret_r : exec_simpl.

(** ** Strings

    stdpp keeps [simpl] from unfolding string concatenation; these are its
    equations. *)

Lemma string_app_cons (c : ascii) (s1 s2 : string) :
  String c s1 +:+ s2 = String c (s1 +:+ s2).
Proof. reflexivity. Qed.

Lemma string_app_nil_l (s : string) : "" +:+ s = s.
Proof. reflexivity. Qed.

Lemma string_app_assoc (s1 s2 s3 : string) :
  (s1 +:+ s2) +:+ s3 = s1 +:+ (s2 +:+ s3).
Proof.
  induction s1 as [|c s1 IH]; [done|]. by rewrite !string_app_cons, IH.
Qed.

Lemma string_app_nil_r (s : string) : s +:+ "" = s.
Proof. induction s as [|c s IH]; [done|]. by rewrite string_app_cons, IH. Qed.

Lemma string_app_length (s1 s2 : string) :
  String.length (s1 +:+ s2) = String.length s1 + String.length s2.
Proof.
  induction s1 as [|c s1 IH]; [done|]. rewrite string_app_cons. simpl.
  by rewrite IH.
Qed.

#[export] Hint Rewrite string_app_cons string_app_nil_l string_app_assoc
  string_app_nil_r : exec_simpl.

(** ** Lists *)

Section lists.
Context {A : Type}.
Implicit Types (l : list A).

Lemma list_filter_none (P : A → Prop) `{∀ x, Decision (P x)} l :
  Forall (λ x, ¬ P x) l → filter P l = [].
Proof. induction 1; [done|]. by rewrite filter_cons_False. Qed.

Lemma list_filter_all (P : A → Prop) `{∀ x, Decision (P x)} l :
  Forall P l → filter P l = l.
Proof. induction 1; [done|]. rewrite filter_cons_True by done. by f_equal. Qed.

Lemma forallb_elem_of (f : A → bool) l :
  forallb f l = true ↔ ∀ x, x ∈ l → f x = true.
Proof. rewrite forallb_forall. by setoid_rewrite list_elem_of_In. Qed.

Lemma forallb_false_elem_of (f : A → bool) l :
  forallb f l = false ↔ ∃ x, x ∈ l ∧ f x = false.
Proof.
  induction l as [|x l IH]; simpl.
  - split; [done|]. by intros (? & ?%elem_of_nil & _).
  - rewrite andb_false_iff, IH. setoid_rewrite elem_of_cons. naive_solver.
Qed.

(** The first element of a list that fails a decidable test. *)
Lemma list_first_failure (P : A → Prop) `{∀ x, Decision (P x)} l x :
  x ∈ l → ¬ P x →
  ∃ good bad rest, l = good ++ bad :: rest ∧ Forall P good ∧ ¬ P bad.
Proof.
  intros Hx Hn. induction l as [|y l IH]; [by apply elem_of_nil in Hx|].
  destruct (decide (P y)) as [Hy|Hy]; [|by exists [], y, l].
  apply elem_of_cons in Hx as [->|Hx]; [done|].
  destruct (IH Hx) as (good & bad & rest & -> & ? & ?).
  exists (y :: good), bad, rest. auto.
Qed.

End lists.

(** A function whose images over a list are pairwise distinct is
    injective on the list. *)
Lemma NoDup_fmap_inj_on {A B} (f : A → B) (l : list A) x y :
  NoDup (f <$> l) → x ∈ l → y ∈ l → f x = f y → x = y.
Proof.
  induction l as [|z l IH]; [by intros _ ?%elem_of_nil|].
  rewrite fmap_cons, NoDup_cons, !elem_of_cons, list_elem_of_fmap.
  intros [Hz Hnd] [->|Hx] [->|Hy] Hf; [done|..|by apply IH];
    destruct Hz; [exists y|exists x]; auto.
Qed.

(** ** Go's [fmt.Sprint] on one string operand: the operand itself. *)

Definition Sprint (s : string) : string := s.

(** Filtering commutes with a map that respects the test. *)
Lemma list_filter_fmap_iff {A B} (f : A → B) (P : A → Prop) (Q : B → Prop)
    `{∀ x, Decision (P x)} `{∀ y, Decision (Q y)} (l : list A) :
  (∀ x, Q (f x) ↔ P x) → filter Q (f <$> l) = f <$> filter P l.
Proof.
  intros HPQ. induction l as [|x l IH]; [done|].
  rewrite fmap_cons, !filter_cons, IH.
  destruct (decide (P x)) as [HP|HP], (decide (Q (f x))) as [HQ|HQ];
    try done; by apply HPQ in HQ || apply HPQ in HP.
Qed.

(** ** Sorting commutes with a map that respects the order *)

Section merge_sort_fmap.
Context {A B : Type} (f : A → B).
Context (R1 : relation A) `{!RelDecision R1}.
Context (R2 : relation B) `{!RelDecision R2}.
Context (Hf : ∀ x y, R1 x y ↔ R2 (f x) (f y)).

Lemma list_merge_fmap l1 l2 :
  list_merge R2 (f <$> l1) (f <$> l2) = f <$> list_merge R1 l1 l2.
Proof.
  revert l2. induction l1 as [|x1 l1 IH1]; intros l2; [by destruct l2|].
  induction l2 as [|x2 l2 IH2]; [done|]. rewrite !fmap_cons in *. simpl.
  destruct (decide (R1 x1 x2)) as [H1|H1], (decide (R2 (f x1) (f x2))) as [H2|H2];
    try (by apply Hf in H1); try (by apply Hf in H2).
  - rewrite fmap_cons. f_equal. apply (IH1 (x2 :: l2)).
  - rewrite fmap_cons. f_equal. apply IH2.
Qed.

Implicit Types (st : list (option (list A))) (l : list A).

Local Notation stack_fmap :=
  (fmap (M := list) (fmap (M := option) (fmap (M := list) f))).

Lemma merge_list_to_stack_fmap st l :
  merge_list_to_stack R2 (stack_fmap st) (f <$> l) =
    stack_fmap (merge_list_to_stack R1 st l).
Proof.
  revert l. induction st as [|[l'|] st IH]; intros l; [done| |done].
  simpl. f_equal. rewrite <-IH. f_equal. apply list_merge_fmap.
Qed.

Lemma merge_stack_fmap st :
  merge_stack R2 (stack_fmap st) = f <$> merge_stack R1 st.
Proof.
  induction st as [|[l|] st IH]; [done| |done].
  simpl. rewrite <-list_merge_fmap. by f_equal.
Qed.

Lemma merge_sort_aux_fmap st l :
  merge_sort_aux R2 (stack_fmap st) (f <$> l) = f <$> merge_sort_aux R1 st l.
Proof.
  revert st. induction l as [|x l IH]; intros st; [apply merge_stack_fmap|].
  simpl. rewrite <-IH. f_equal. apply (merge_list_to_stack_fmap st [x]).
Qed.

Lemma merge_sort_fmap l : merge_sort R2 (f <$> l) = f <$> merge_sort R1 l.
Proof. apply (merge_sort_aux_fmap []). Qed.

End merge_sort_fmap.
