(* ===== verification/Prometheus.v ===== *)
(** * The metric data model and the metric channel

    The Prometheus client as [src/collector/primary.go] uses it: metric
    descriptors ([NewDesc], [BuildFQName]), constant metrics
    ([MustNewConstMetric], which panics where [NewConstMetric] returns an
    error) and the channel of metrics a scraper writes to.  The validity
    checks are the ones the constructors perform: a well-formed metric
    name, well-formed and distinct label names, as many label values as
    label names, every label value valid UTF-8. *)

From Stdlib Require Import Floats.
From S2P Require Import Prelude.

(** ** Character classes and UTF-8 *)

Definition byte_of (c : ascii) : N := Ascii.N_of_ascii c.

Definition is_alpha (c : ascii) : bool :=
  let n := byte_of c in
  ((65 <=? n) && (n <=? 90) || (97 <=? n) && (n <=? 122))%N.

Definition is_digit (c : ascii) : bool :=
  let n := byte_of c in ((48 <=? n) && (n <=? 57))%N.

Definition is_underscore (c : ascii) : bool := (byte_of c =? 95)%N.
Definition is_colon (c : ascii) : bool := (byte_of c =? 58)%N.

Fixpoint string_forallb (p : ascii → bool) (s : string) : bool :=
  match s with
  | EmptyString => true
  | String c s' => p c && string_forallb p s'
  end.

(** A continuation byte of a multi-byte sequence. *)
Definition is_cont (c : ascii) : bool :=
  let n := byte_of c in ((128 <=? n) && (n <=? 191))%N.

Definition in_range (lo hi : N) (c : ascii) : bool :=
  let n := byte_of c in ((lo <=? n) && (n <=? hi))%N.

(** The second byte allowed after a three-byte lead. *)
Definition second_of_three (lead : ascii) (c : ascii) : bool :=
  let n := byte_of lead in
  if (n =? 224)%N then in_range 160 191 c
  else if (n =? 237)%N then in_range 128 159 c
  else is_cont c.

(** The second byte allowed after a four-byte lead. *)
Definition second_of_four (lead : ascii) (c : ascii) : bool :=
  let n := byte_of lead in
  if (n =? 240)%N then in_range 144 191 c
  else if (n =? 244)%N then in_range 128 143 c
  else is_cont c.

(** Go's [utf8.ValidString]: the well-formed byte sequences of UTF-8. *)
Fixpoint utf8_valid (s : string) : bool :=
  match s with
  | EmptyString => true
  | String b0 s1 =>
    if in_range 0 127 b0 then utf8_valid s1
    else match s1 with
    | EmptyString => false
    | String b1 s2 =>
      if in_range 194 223 b0 then is_cont b1 && utf8_valid s2
      else match s2 with
      | EmptyString => false
      | String b2 s3 =>
        if in_range 224 239 b0
        then second_of_three b0 b1 && is_cont b2 && utf8_valid s3
        else match s3 with
        | EmptyString => false
        | String b3 s4 =>
          in_range 240 244 b0 && second_of_four b0 b1 && is_cont b2 &&
          is_cont b3 && utf8_valid s4
        end
      end
    end
  end.

(** ** Descriptors *)

Inductive ValueType : Type := CounterValue | GaugeValue | UntypedValue.

#[export] Instance ValueType_eq_dec : EqDecision ValueType.
Proof. solve_decision. Defined.

Record Desc : Type := mkDesc {
  fqName : string;
  help : string;
  variableLabels : list string;
  constLabels : list (string * string);
  desc_err : option error;
}.

#[export] Instance Desc_eq_dec : EqDecision Desc.
Proof. solve_decision. Defined.

(** [prometheus.BuildFQName]: the non-empty parts joined by ["_"]; an empty
    name gives the empty string whatever the other parts are. *)
Definition BuildFQName (namespace subsystem name : string) : string :=
  if decide (name = "") then ""
  else (if decide (namespace = "") then "" else namespace +:+ "_") +:+
       (if decide (subsystem = "") then "" else subsystem +:+ "_") +:+ name.

Definition IsValidMetricName (s : string) : bool :=
  match s with
  | EmptyString => false
  | String c s' =>
      (is_alpha c || is_underscore c || is_colon c) &&
      string_forallb
        (λ c, is_alpha c || is_digit c || is_underscore c || is_colon c) s'
  end.

Definition IsValidLabelName (s : string) : bool :=
  match s with
  | EmptyString => false
  | String c s' =>
      (is_alpha c || is_underscore c) &&
      string_forallb (λ c, is_alpha c || is_digit c || is_underscore c) s'
  end.

(** Label names starting with two underscores are reserved. *)
Definition checkLabelName (s : string) : bool :=
  IsValidLabelName s && negb (String.prefix "__" s).

(** [prometheus.NewDesc]: the descriptor, carrying the error that every
    later use of it reports when a name is malformed or repeated. *)
Definition NewDesc (fq hlp : string) (vls : list string)
    (cls : list (string * string)) : Desc :=
  let names := vls ++ cls.*1 in
  mkDesc fq hlp vls cls
    (if negb (IsValidMetricName fq)
     then Some (ErrInvalidDesc "invalid metric name")
     else if negb (forallb checkLabelName names)
     then Some (ErrInvalidDesc "invalid label name")
     else if negb (bool_decide (NoDup names))
     then Some (ErrInvalidDesc "duplicate label names")
     else None).

(** ** Metric samples *)

Record Metric : Type := mkMetric {
  m_desc : Desc;
  m_type : ValueType;
  m_value : float;
  m_labels : list string;
}.

(** The label schema of a descriptor is fixed: a sample carries one value
    per declared label, each valid UTF-8, and its descriptor is valid. *)
Definition metric_wf (m : Metric) : bool :=
  bool_decide (desc_err (m_desc m) = None) &&
  bool_decide (length (m_labels m) = length (variableLabels (m_desc m))) &&
  forallb utf8_valid (m_labels m).

Definition validateLabelValues (vals : list string) (expected : nat)
    : option error :=
  if negb (bool_decide (length vals = expected))
  then Some (ErrCardinality expected (length vals))
  else match List.find (λ v, negb (utf8_valid v)) vals with
       | Some v => Some (ErrInvalidUTF8 v)
       | None => None
       end.

Definition NewConstMetric (d : Desc) (vt : ValueType) (v : float)
    (lvs : list string) : error + Metric :=
  match desc_err d with
  | Some e => inl e
  | None =>
      match validateLabelValues lvs (length (variableLabels d)) with
      | Some e => inl e
      | None => inr (mkMetric d vt v lvs)
      end
  end.

Definition MustNewConstMetric {W} (d : Desc) (vt : ValueType) (v : float)
    (lvs : list string) : exec W Metric :=
  match NewConstMetric d vt v lvs with
  | inl e => panic e
  | inr m => mret m
  end.

(** ** The metric channel

    A Go channel of metrics with one consumer that keeps draining it, as
    the exposition layer does during a collection: a send on the open
    channel appends to what was sent, a send on a closed channel panics. *)

Record Sink : Type := mkSink {
  sent : list Metric;
  sink_closed : bool;
}.

Definition sink_send (m : Metric) (s : Sink) : error + Sink :=
  if sink_closed s then inl ErrSendOnClosedChannel
  else inr (mkSink (sent s ++ [m]) false).

Definition sink_close (s : Sink) : Sink := mkSink (sent s) true.

(** ** Properties of the constructors *)

Section fqname.
Implicit Types (ns sub name : string).

Lemma BuildFQName_full ns sub name :
  ns ≠ "" → sub ≠ "" → name ≠ "" →
  BuildFQName ns sub name = ns +:+ "_" +:+ sub +:+ "_" +:+ name.
Proof.
  intros ???. unfold BuildFQName. repeat case_decide; try done.
  by rewrite !string_app_assoc.
Qed.

Lemma BuildFQName_empty_name ns sub : BuildFQName ns sub "" = "".
Proof. done. Qed.

End fqname.

Lemma string_forallb_app p s1 s2 :
  string_forallb p (s1 +:+ s2) = string_forallb p s1 && string_forallb p s2.
Proof.
  induction s1 as [|c s1 IH]; [done|]. rewrite string_app_cons. simpl.
  by rewrite IH, andb_assoc.
Qed.

(** A string of 7-bit bytes is valid UTF-8. *)
Lemma utf8_valid_ascii s :
  string_forallb (in_range 0 127) s = true → utf8_valid s = true.
Proof.
  induction s as [|c s IH]; simpl; [done|].
  intros [Hc Hs]%andb_prop. rewrite Hc. auto.
Qed.

Lemma validateLabelValues_None vals n :
  validateLabelValues vals n = None ↔
  length vals = n ∧ forallb utf8_valid vals = true.
Proof.
  unfold validateLabelValues. case_bool_decide; simpl.
  - destruct (List.find _ vals) as [v|] eqn:Hf.
    + apply find_some in Hf as [Hin Hv]. split; [done|]. intros [_ Hall].
      rewrite forallb_forall in Hall. apply Hall in Hin.
      by rewrite Hin in Hv.
    + split; [intros _|done]. split; [done|]. apply forallb_forall.
      intros v Hin. pose proof (find_none _ _ Hf v Hin) as Hv.
      by apply negb_false_iff.
  - split; [done|]. by intros [? _].
Qed.

Lemma NewConstMetric_inr d vt v lvs m :
  NewConstMetric d vt v lvs = inr m ↔
  desc_err d = None ∧ length lvs = length (variableLabels d) ∧
  forallb utf8_valid lvs = true ∧ m = mkMetric d vt v lvs.
Proof.
  unfold NewConstMetric. destruct (desc_err d); [naive_solver|].
  destruct (validateLabelValues _ _) eqn:Hv.
  - split; [done|]. intros (_ & Hl & Hu & _).
    pose proof (proj2 (validateLabelValues_None _ _) (conj Hl Hu)). congruence.
  - apply validateLabelValues_None in Hv. naive_solver.
Qed.

(** Every sample [NewConstMetric] builds respects the label schema. *)
Lemma NewConstMetric_wf d vt v lvs m :
  NewConstMetric d vt v lvs = inr m → metric_wf m = true.
Proof.
  intros (Hd & Hl & Hu & ->)%NewConstMetric_inr. unfold metric_wf; simpl.
  rewrite Hu. by rewrite !bool_decide_eq_true_2.
Qed.

Lemma sink_send_open m s :
  sink_closed s = false → sink_send m s = inr (mkSink (sent s ++ [m]) false).
Proof. unfold sink_send. by intros ->. Qed.

Lemma sink_send_closed m s :
  sink_closed s = true → sink_send m s = inl ErrSendOnClosedChannel.
Proof. unfold sink_send. by intros ->. Qed.

Lemma sink_send_inr m s s' :
  sink_send m s = inr s' ↔
  sink_closed s = false ∧ s' = mkSink (sent s ++ [m]) false.
Proof. unfold sink_send. destruct (sink_closed s); naive_solver. Qed.
