(* ===== verification/Utf8.v ===== *)
(** * UTF-8: the validator against the encoder

    [Prometheus.utf8_valid] decides which label values [NewConstMetric]
    accepts.  This file says what it accepts: exactly the encodings of
    sequences of Unicode scalar values (RFC 3629).  [encode] is the
    encoder; a byte string is valid iff it is the encoding of some
    sequence of scalar values. *)

From Stdlib Require Import Zify.
From S2P Require Import Prelude Prometheus.

#[local] Ltac Zify.zify_post_hook ::= Z.to_euclidean_division_equations.
#[local] Open Scope N_scope.

(** A Unicode scalar value: a code point that is not a surrogate. *)
Definition is_scalar (n : N) : bool :=
  (n <=? 55295) || (57344 <=? n) && (n <=? 1114111).

Definition byte (n : N) : ascii := Ascii.ascii_of_N n.

Definition encode_scalar (n : N) : string :=
  if n <=? 127 then String (byte n) ""
  else if n <=? 2047 then
    String (byte (192 + n / 64)) (String (byte (128 + n mod 64)) "")
  else if n <=? 65535 then
    String (byte (224 + n / 4096))
      (String (byte (128 + (n / 64) mod 64))
         (String (byte (128 + n mod 64)) ""))
  else
    String (byte (240 + n / 262144))
      (String (byte (128 + (n / 4096) mod 64))
         (String (byte (128 + (n / 64) mod 64))
            (String (byte (128 + n mod 64)) ""))).

Fixpoint encode (cps : list N) : string :=
  match cps with
  | [] => ""
  | n :: cps' => encode_scalar n +:+ encode cps'
  end.

(** ** Bytes *)

Lemma byte_of_byte n : n < 256 → byte_of (byte n) = n.
Proof. apply Ascii.N_ascii_embedding. Qed.

Lemma byte_byte_of c : byte (byte_of c) = c.
Proof. apply Ascii.ascii_N_embedding. Qed.

Lemma byte_of_lt c : byte_of c < 256.
Proof. apply Ascii.N_ascii_bounded. Qed.

Lemma byte_eq n c : n = byte_of c → byte n = c.
Proof. intros ->. apply byte_byte_of. Qed.

Lemma in_range_true lo hi c :
  in_range lo hi c = true ↔ lo ≤ byte_of c ≤ hi.
Proof. unfold in_range. rewrite andb_true_iff, !N.leb_le. done. Qed.

Lemma in_range_false lo hi c :
  in_range lo hi c = false ↔ byte_of c < lo ∨ hi < byte_of c.
Proof.
  rewrite <-not_true_iff_false, in_range_true. lia.
Qed.

Lemma is_cont_true c : is_cont c = true ↔ 128 ≤ byte_of c ≤ 191.
Proof. apply (in_range_true 128 191). Qed.

Lemma second_of_three_true b0 b1 :
  second_of_three b0 b1 = true ↔
  128 ≤ byte_of b1 ≤ 191 ∧
  (byte_of b0 = 224 → 160 ≤ byte_of b1) ∧
  (byte_of b0 = 237 → byte_of b1 ≤ 159).
Proof.
  unfold second_of_three.
  destruct (N.eqb_spec (byte_of b0) 224), (N.eqb_spec (byte_of b0) 237);
    rewrite ?in_range_true, ?is_cont_true; lia.
Qed.

Lemma second_of_four_true b0 b1 :
  second_of_four b0 b1 = true ↔
  128 ≤ byte_of b1 ≤ 191 ∧
  (byte_of b0 = 240 → 144 ≤ byte_of b1) ∧
  (byte_of b0 = 244 → byte_of b1 ≤ 143).
Proof.
  unfold second_of_four.
  destruct (N.eqb_spec (byte_of b0) 240), (N.eqb_spec (byte_of b0) 244);
    rewrite ?in_range_true, ?is_cont_true; lia.
Qed.

(** ** The validator, sequence by sequence *)

Lemma utf8_valid_1 b0 s :
  byte_of b0 ≤ 127 → utf8_valid (String b0 s) = utf8_valid s.
Proof.
  intros H0. simpl. by rewrite (proj2 (in_range_true 0 127 b0)) by lia.
Qed.

Lemma utf8_valid_2 b0 b1 s :
  194 ≤ byte_of b0 ≤ 223 →
  utf8_valid (String b0 (String b1 s)) = is_cont b1 && utf8_valid s.
Proof.
  intros H0. simpl.
  rewrite (proj2 (in_range_false 0 127 b0)) by lia.
  by rewrite (proj2 (in_range_true 194 223 b0)) by lia.
Qed.

Lemma utf8_valid_3 b0 b1 b2 s :
  224 ≤ byte_of b0 ≤ 239 →
  utf8_valid (String b0 (String b1 (String b2 s))) =
    second_of_three b0 b1 && is_cont b2 && utf8_valid s.
Proof.
  intros H0. simpl.
  rewrite (proj2 (in_range_false 0 127 b0)) by lia.
  rewrite (proj2 (in_range_false 194 223 b0)) by lia.
  by rewrite (proj2 (in_range_true 224 239 b0)) by lia.
Qed.

Lemma utf8_valid_4 b0 b1 b2 b3 s :
  240 ≤ byte_of b0 →
  utf8_valid (String b0 (String b1 (String b2 (String b3 s)))) =
    in_range 240 244 b0 && second_of_four b0 b1 && is_cont b2 && is_cont b3 &&
    utf8_valid s.
Proof.
  intros H0. simpl.
  rewrite (proj2 (in_range_false 0 127 b0)) by lia.
  rewrite (proj2 (in_range_false 194 223 b0)) by lia.
  by rewrite (proj2 (in_range_false 224 239 b0)) by lia.
Qed.

(** ** Every encoding is valid *)

Lemma utf8_valid_encode_scalar n s :
  is_scalar n = true → utf8_valid (encode_scalar n +:+ s) = utf8_valid s.
Proof.
  unfold is_scalar, encode_scalar.
  rewrite orb_true_iff, andb_true_iff, !N.leb_le. intros Hn.
  destruct (N.leb_spec n 127); [|destruct (N.leb_spec n 2047);
    [|destruct (N.leb_spec n 65535)]];
    rewrite !string_app_cons, string_app_nil_l.
  - rewrite utf8_valid_1; [done|]. rewrite byte_of_byte; lia.
  - rewrite utf8_valid_2 by (rewrite byte_of_byte; lia).
    rewrite (proj2 (is_cont_true _)); [done|]. rewrite byte_of_byte; lia.
  - rewrite utf8_valid_3 by (rewrite byte_of_byte; lia).
    rewrite (proj2 (second_of_three_true _ _)), (proj2 (is_cont_true _));
      [done|rewrite ?byte_of_byte; lia..].
  - rewrite utf8_valid_4 by (rewrite byte_of_byte; lia).
    rewrite (proj2 (in_range_true 240 244 _)),
      (proj2 (second_of_four_true _ _)), !(proj2 (is_cont_true _));
      [done|rewrite ?byte_of_byte; lia..].
Qed.

Lemma utf8_valid_encode cps :
  Forall (λ n, is_scalar n = true) cps → utf8_valid (encode cps) = true.
Proof.
  induction 1 as [|n cps Hn _ IH]; [done|].
  simpl. by rewrite utf8_valid_encode_scalar.
Qed.

(** ** Every valid string is an encoding *)

(** The sequence a valid string starts with. *)
Lemma utf8_valid_inv b0 s :
  utf8_valid (String b0 s) = true →
  byte_of b0 ≤ 127 ∧ utf8_valid s = true ∨
  (∃ b1 s', s = String b1 s' ∧ 194 ≤ byte_of b0 ≤ 223 ∧
     is_cont b1 = true ∧ utf8_valid s' = true) ∨
  (∃ b1 b2 s', s = String b1 (String b2 s') ∧ 224 ≤ byte_of b0 ≤ 239 ∧
     second_of_three b0 b1 = true ∧ is_cont b2 = true ∧
     utf8_valid s' = true) ∨
  (∃ b1 b2 b3 s', s = String b1 (String b2 (String b3 s')) ∧
     240 ≤ byte_of b0 ≤ 244 ∧ second_of_four b0 b1 = true ∧
     is_cont b2 = true ∧ is_cont b3 = true ∧ utf8_valid s' = true).
Proof.
  simpl. destruct (in_range 0 127 b0) eqn:H1.
  { apply in_range_true in H1. left. split; [lia|done]. }
  destruct s as [|b1 s]; [done|]. destruct (in_range 194 223 b0) eqn:H2.
  { apply in_range_true in H2. rewrite andb_true_iff. right; left. eauto 10. }
  destruct s as [|b2 s]; [done|]. destruct (in_range 224 239 b0) eqn:H3.
  { apply in_range_true in H3. rewrite !andb_true_iff.
    intros [[??]?]. right; right; left. eauto 10. }
  destruct s as [|b3 s]; [done|]. rewrite !andb_true_iff.
  intros [[[[H4%in_range_true ?] ?] ?] ?]. right; right; right. eauto 12.
Qed.

Lemma decode_1 b0 :
  byte_of b0 ≤ 127 →
  ∃ n, is_scalar n = true ∧ encode_scalar n = String b0 "".
Proof.
  intros H0. exists (byte_of b0). unfold is_scalar, encode_scalar. split.
  - apply orb_true_iff. left. apply N.leb_le. lia.
  - destruct (N.leb_spec (byte_of b0) 127); [|lia]. by rewrite byte_byte_of.
Qed.

Lemma decode_2 b0 b1 :
  194 ≤ byte_of b0 ≤ 223 → is_cont b1 = true →
  ∃ n, is_scalar n = true ∧ encode_scalar n = String b0 (String b1 "").
Proof.
  intros H0 H1%is_cont_true.
  exists ((byte_of b0 - 192) * 64 + (byte_of b1 - 128)).
  unfold is_scalar, encode_scalar. split.
  - apply orb_true_iff. left. apply N.leb_le. lia.
  - destruct (N.leb_spec ((byte_of b0 - 192) * 64 + (byte_of b1 - 128)) 127);
      [lia|].
    destruct (N.leb_spec ((byte_of b0 - 192) * 64 + (byte_of b1 - 128)) 2047);
      [|lia].
    f_equal; [|f_equal]; apply byte_eq; lia.
Qed.

Lemma decode_3 b0 b1 b2 :
  224 ≤ byte_of b0 ≤ 239 → second_of_three b0 b1 = true → is_cont b2 = true →
  ∃ n, is_scalar n = true ∧
       encode_scalar n = String b0 (String b1 (String b2 "")).
Proof.
  intros H0 (H1 & Hlo & Hhi)%second_of_three_true H2%is_cont_true.
  set (n := (byte_of b0 - 224) * 4096 + (byte_of b1 - 128) * 64 +
            (byte_of b2 - 128)).
  assert (2048 ≤ n ≤ 65535 ∧ (n ≤ 55295 ∨ 57344 ≤ n)) as Hn by (subst n; lia).
  exists n. unfold is_scalar, encode_scalar. split.
  - rewrite orb_true_iff, andb_true_iff, !N.leb_le. lia.
  - destruct (N.leb_spec n 127); [lia|].
    destruct (N.leb_spec n 2047); [lia|].
    destruct (N.leb_spec n 65535); [|lia].
    f_equal; [|f_equal; [|f_equal]]; apply byte_eq; subst n; lia.
Qed.

Lemma decode_4 b0 b1 b2 b3 :
  240 ≤ byte_of b0 ≤ 244 → second_of_four b0 b1 = true →
  is_cont b2 = true → is_cont b3 = true →
  ∃ n, is_scalar n = true ∧
       encode_scalar n = String b0 (String b1 (String b2 (String b3 ""))).
Proof.
  intros H0 (H1 & Hlo & Hhi)%second_of_four_true H2%is_cont_true
    H3%is_cont_true.
  set (n := (byte_of b0 - 240) * 262144 + (byte_of b1 - 128) * 4096 +
            (byte_of b2 - 128) * 64 + (byte_of b3 - 128)).
  assert (65536 ≤ n ≤ 1114111) as Hn by (subst n; lia).
  exists n. unfold is_scalar, encode_scalar. split.
  - rewrite orb_true_iff, andb_true_iff, !N.leb_le. lia.
  - destruct (N.leb_spec n 127); [lia|].
    destruct (N.leb_spec n 2047); [lia|].
    destruct (N.leb_spec n 65535); [lia|].
    f_equal; [|f_equal; [|f_equal; [|f_equal]]]; apply byte_eq; subst n; lia.
Qed.

Lemma utf8_valid_decode s :
  utf8_valid s = true →
  ∃ cps, Forall (λ n, is_scalar n = true) cps ∧ encode cps = s.
Proof.
  remember (String.length s) as k eqn:Hk. revert s Hk.
  induction k as [k IH] using lt_wf_ind. intros [|b0 s] -> Hs; [by exists []|].
  assert (∀ n pre s', is_scalar n = true → encode_scalar n = pre →
            (String.length s' < String.length (String b0 s))%nat →
            utf8_valid s' = true →
            ∃ cps, Forall (λ n, is_scalar n = true) cps ∧
                   encode cps = pre +:+ s') as Hstep.
  { intros n pre s' Hn <- Hlen Hs'.
    destruct (IH _ Hlen s' eq_refl Hs') as (cps & ? & <-).
    exists (n :: cps). by split; [constructor|]. }
  destruct (utf8_valid_inv _ _ Hs)
    as [[H0 Hs']|[(b1 & s' & -> & H0 & H1 & Hs')|
        [(b1 & b2 & s' & -> & H0 & H1 & H2 & Hs')|
         (b1 & b2 & b3 & s' & -> & H0 & H1 & H2 & H3 & Hs')]]].
  - destruct (decode_1 b0 H0) as (n & Hn & He).
    apply (Hstep n _ s Hn He); [simpl; lia|done].
  - destruct (decode_2 b0 b1 H0 H1) as (n & Hn & He).
    apply (Hstep n _ s' Hn He); [simpl; lia|done].
  - destruct (decode_3 b0 b1 b2 H0 H1 H2) as (n & Hn & He).
    apply (Hstep n _ s' Hn He); [simpl; lia|done].
  - destruct (decode_4 b0 b1 b2 b3 H0 H1 H2 H3) as (n & Hn & He).
    apply (Hstep n _ s' Hn He); [simpl; lia|done].
Qed.

(** A byte string is valid UTF-8 iff it is the encoding of a sequence of
    scalar values. *)
Theorem utf8_valid_iff_encoding s :
  utf8_valid s = true ↔
  ∃ cps, Forall (λ n, is_scalar n = true) cps ∧ encode cps = s.
Proof.
  split; [apply utf8_valid_decode|].
  intros (cps & Hcps & <-). by apply utf8_valid_encode.
Qed.
