(* ===== verification/Database.v ===== *)
(** * The database boundary

    Go's [database/sql] as [src/collector/primary.go] uses it: a handle
    answers [QueryContext] with a cursor or with an error; the cursor is
    advanced by [Next], read by [Scan] and released by [Close].  Cursors are
    heap objects, so the world holds a map from cursor handles to cursor
    states next to the metric channel.  Each operation is a function on
    one cursor ([query_rows], [next_rows], [scan_rows], [close_rows])
    lifted to the heap, so that a model which holds its cursor itself
    runs the same functions.

    The server itself is an oracle ([DB]): a function from the query text to
    the rows it returns, possibly cut short by an error in the middle of the
    result set, or to the error the query fails with. *)

From S2P Require Import Prelude Prometheus.

(** ** Data *)

(** A column value as the driver hands it over; [None] is SQL's [NULL]. *)
Definition sqlval : Type := option string.
Definition RawRow : Type := list sqlval.

(** [context.Context], reduced to what a query observes: [ctx.Err()]. *)
Record Context : Type := mkContext { ctx_err : option error }.

Inductive QueryResult : Type :=
| QueryFails (e : error)
| QueryRows (rows : list RawRow) (tail : option error).

Record DB : Type := mkDB { db_answer : string → QueryResult }.

(** The state of a [*sql.Rows]: the rows not yet fetched, the row [Next]
    last fetched, whether the cursor was closed, the error [Err] reports,
    and the error the driver will raise once the pending rows are
    exhausted ([None] for a regular end of the result set). *)
Record Rows : Type := mkRows {
  pending : list RawRow;
  current : option RawRow;
  rows_closed : bool;
  lasterr : option error;
  tail_err : option error;
}.

Record World : Type := mkWorld {
  w_sink : Sink;
  w_rows : gmap nat Rows;
}.

(** [*instance]: the owned handle on one database. *)
Record instance : Type := mkInstance { inst_db : DB }.

Definition getDB (i : instance) : DB := inst_db i.

(** ** Operations *)

Definition set_rows (h : nat) (r : Rows) (w : World) : World :=
  mkWorld (w_sink w) (<[h := r]> (w_rows w)).

Definition set_sink (s : Sink) (w : World) : World :=
  mkWorld s (w_rows w).

(** Run [f] on the cursor behind [h]; a handle that points to no cursor is
    a nil dereference. *)
Definition with_rows {A} (h : nat) (f : Rows → A * Rows) : exec World A :=
  λ w, match w_rows w !! h with
       | None => (Panicked ErrNilDereference, w)
       | Some r => let '(a, r') := f r in (Returned a, set_rows h r' w)
       end.

Definition open_rows (rows : list RawRow) (tail : option error) : Rows :=
  mkRows rows None false None tail.

(** What a query gives: the context's error when it is already done, the
    server's error when the query fails, else a cursor on the rows. *)
Definition query_rows (db : DB) (ctx : Context) (query : string)
    : error + Rows :=
  match ctx_err ctx with
  | Some e => inl e
  | None =>
      match db_answer db query with
      | QueryFails e => inl e
      | QueryRows rows tail => inr (open_rows rows tail)
      end
  end.

(** [db.QueryContext(ctx, query)]: the error of the query, or its cursor
    at a fresh handle. *)
Definition QueryContext (db : DB) (ctx : Context) (query : string)
    : exec World (error + nat) :=
  match query_rows db ctx query with
  | inl e => mret (inl e)
  | inr r =>
      λ w, let h := fresh (dom (w_rows w)) in
           (Returned (inr h), set_rows h r w)
  end.

(** [rows.Next()]: fetches the next row; at the end of the result set, or
    on a driver error, records the error and closes the cursor. *)
Definition next_rows (r : Rows) : bool * Rows :=
  if rows_closed r then (false, r)
  else match pending r with
       | row :: rest =>
           (true, mkRows rest (Some row) false (lasterr r) (tail_err r))
       | [] =>
           (false, mkRows [] (current r) true (tail_err r) (tail_err r))
       end.

Definition Next (h : nat) : exec World bool := with_rows h next_rows.

(** Conversion of the columns of a row into [*string] destinations, left
    to right; the destinations before a failing column are assigned. *)
Fixpoint convert_assign (col : nat) (dests : list string) (row : RawRow)
    : option error * list string :=
  match dests, row with
  | _ :: dests', Some v :: row' =>
      let '(e, ds) := convert_assign (S col) dests' row' in (e, v :: ds)
  | d :: dests', None :: _ => (Some (ErrScanNull col), d :: dests')
  | _, _ => (None, dests)
  end.

(** [rows.Scan(&d1, ..., &dn)] on destinations currently holding [dests]. *)
Definition scan_rows (dests : list string) (r : Rows)
    : option error * list string :=
  match lasterr r with
  | Some e => (Some e, dests)
  | None =>
      if rows_closed r then (Some ErrRowsClosed, dests)
      else match current r with
           | None => (Some ErrScanNoNext, dests)
           | Some row =>
               if decide (length dests = length row)
               then convert_assign 0 dests row
               else (Some (ErrScanArity (length row) (length dests)), dests)
           end
  end.

Definition Scan (h : nat) (dests : list string)
    : exec World (option error * list string) :=
  with_rows h (λ r, (scan_rows dests r, r)).

(** [rows.Close()]: idempotent. *)
Definition close_rows (r : Rows) : Rows :=
  mkRows (pending r) (current r) true (lasterr r) (tail_err r).

Definition Close (h : nat) : exec World unit :=
  with_rows h (λ r, ((), close_rows r)).

(** [rows.Err()]. *)
Definition Err (h : nat) : exec World (option error) :=
  with_rows h (λ r, (lasterr r, r)).

(** [ch <- m]. *)
Definition send (m : Metric) : exec World unit :=
  λ w, match sink_send m (w_sink w) with
       | inl e => (Panicked e, w)
       | inr s => (Returned (), set_sink s w)
       end.

(** ** Cursor invariants *)

(** No cursor of the world is left open. *)
Definition all_closed (w : World) : Prop :=
  map_Forall (λ _ r, rows_closed r = true) (w_rows w).

(** [closed_mono w w']: a run from [w] to [w'] reopened no cursor. *)
Definition closed_mono (w w' : World) : Prop :=
  ∀ h r, w_rows w !! h = Some r → rows_closed r = true →
         ∃ r', w_rows w' !! h = Some r' ∧ rows_closed r' = true.

#[export] Instance closed_mono_preorder : PreOrder closed_mono.
Proof.
  split; [intros w h r; eauto|].
  intros w1 w2 w3 H12 H23 h r Hh Hc.
  destruct (H12 h r Hh Hc) as (r' & Hh' & Hc'). eauto.
Qed.

Section rows.
Implicit Types (r : Rows) (w : World) (h : nat).

Lemma next_rows_true r r' :
  next_rows r = (true, r') →
  ∃ row, pending r = row :: pending r' ∧ current r' = Some row ∧
         rows_closed r = false ∧ rows_closed r' = false ∧
         lasterr r' = lasterr r ∧ tail_err r' = tail_err r.
Proof.
  unfold next_rows. destruct (rows_closed r) eqn:Hc; [done|].
  destruct (pending r) as [|row rest]; [done|].
  intros [= <-]. exists row. simpl. auto 10.
Qed.

Lemma next_rows_false r r' :
  next_rows r = (false, r') →
  rows_closed r' = true ∧
  (rows_closed r = true ∧ r' = r ∨
   rows_closed r = false ∧ pending r = [] ∧ lasterr r' = tail_err r).
Proof.
  unfold next_rows. destruct (rows_closed r) eqn:Hc; [naive_solver|].
  destruct (pending r) as [|row rest]; [|done].
  intros [= <-]. naive_solver.
Qed.

(** [Next] never reopens a cursor and never lengthens the result set. *)
Lemma next_rows_pending_le r : length (pending (next_rows r).2) ≤ length (pending r).
Proof.
  unfold next_rows. destruct (rows_closed r); [done|].
  destruct (pending r); simpl; lia.
Qed.

Lemma next_rows_closed_mono r :
  rows_closed r = true → rows_closed (next_rows r).2 = true.
Proof. unfold next_rows. intros Hc. by rewrite Hc. Qed.

Lemma close_rows_closed r : rows_closed (close_rows r) = true.
Proof. done. Qed.

Lemma close_rows_idemp r : close_rows (close_rows r) = close_rows r.
Proof. done. Qed.

Lemma scan_rows_closed dests r :
  rows_closed r = true → lasterr r = None →
  scan_rows dests r = (Some ErrRowsClosed, dests).
Proof. unfold scan_rows. by intros -> ->. Qed.

Lemma with_rows_lookup {A} h (f : Rows → A * Rows) w r :
  w_rows w !! h = Some r →
  with_rows h f w = (Returned (f r).1, set_rows h (f r).2 w).
Proof. unfold with_rows. intros ->. by destruct (f r). Qed.

Lemma with_rows_nil {A} h (f : Rows → A * Rows) w :
  w_rows w !! h = None → with_rows h f w = (Panicked ErrNilDereference, w).
Proof. unfold with_rows. by intros ->. Qed.

Lemma set_rows_lookup h r w : w_rows (set_rows h r w) !! h = Some r.
Proof. apply lookup_insert_eq. Qed.

Lemma set_rows_lookup_ne h h' r w :
  h ≠ h' → w_rows (set_rows h r w) !! h' = w_rows w !! h'.
Proof. apply lookup_insert_ne. Qed.

Lemma set_rows_sink h r w : w_sink (set_rows h r w) = w_sink w.
Proof. done. Qed.

Lemma set_rows_set_rows h r1 r2 w :
  set_rows h r2 (set_rows h r1 w) = set_rows h r2 w.
Proof. unfold set_rows; simpl. by rewrite insert_insert_eq. Qed.

Lemma set_rows_id h r w : w_rows w !! h = Some r → set_rows h r w = w.
Proof. destruct w as [s m]. unfold set_rows; simpl. intros Hh. by rewrite insert_id. Qed.

Lemma set_rows_closed_mono h r r' w :
  w_rows w !! h = Some r → (rows_closed r = true → rows_closed r' = true) →
  closed_mono w (set_rows h r' w).
Proof.
  intros Hh Hmono h1 r1 Hh1 Hc1. destruct (decide (h = h1)) as [->|Hne].
  - rewrite set_rows_lookup. simplify_eq. eauto.
  - rewrite set_rows_lookup_ne by done. eauto.
Qed.

Lemma set_rows_fresh_closed_mono h r w :
  w_rows w !! h = None → closed_mono w (set_rows h r w).
Proof.
  intros Hh h1 r1 Hh1 Hc1. rewrite set_rows_lookup_ne by congruence. eauto.
Qed.

Lemma all_closed_set_rows h r w :
  all_closed w → rows_closed r = true → all_closed (set_rows h r w).
Proof. intros Hw Hr. by apply map_Forall_insert_2. Qed.

End rows.

(** ** The operations, run *)

Section run.
Implicit Types (r : Rows) (w : World) (h : nat).

Lemma QueryContext_done db e q w :
  QueryContext db (mkContext (Some e)) q w = (Returned (inl e), w).
Proof. done. Qed.

Lemma QueryContext_fails db q e w :
  db_answer db q = QueryFails e →
  QueryContext db (mkContext None) q w = (Returned (inl e), w).
Proof. unfold QueryContext, query_rows; simpl. by intros ->. Qed.

Lemma QueryContext_rows db q rows tail w :
  db_answer db q = QueryRows rows tail →
  QueryContext db (mkContext None) q w =
    (Returned (inr (fresh (dom (w_rows w)))),
     set_rows (fresh (dom (w_rows w))) (open_rows rows tail) w).
Proof. unfold QueryContext, query_rows; simpl. by intros ->. Qed.

(** The handle [QueryContext] returns points to no earlier cursor. *)
Lemma fresh_handle_None w : w_rows w !! fresh (dom (w_rows w)) = None.
Proof. apply not_elem_of_dom, is_fresh. Qed.

Lemma send_open m w :
  sink_closed (w_sink w) = false →
  send m w = (Returned (), set_sink (mkSink (sent (w_sink w) ++ [m]) false) w).
Proof. unfold send. intros H. by rewrite sink_send_open. Qed.

Lemma send_closed m w :
  sink_closed (w_sink w) = true →
  send m w = (Panicked ErrSendOnClosedChannel, w).
Proof. unfold send. intros H. by rewrite sink_send_closed. Qed.

End run.

#[export] Hint Resolve set_rows_closed_mono set_rows_fresh_closed_mono
  next_rows_closed_mono close_rows_closed fresh_handle_None : exec.
#[export] Hint Rewrite set_rows_lookup set_rows_sink set_rows_set_rows
  : exec_simpl.
