(* ===== verification/Channel.v ===== *)
(** * The metric channel

    A scraper writes its samples with [ch <- m].  [Prometheus.Sink] models
    the channel as the sequence of samples written to it, which is what a
    scraper can tell of it.  This file models the channel as Go implements
    it: a queue of bounded capacity between a producer and the consumer
    that drains it, a send that waits for room, an unbuffered channel on
    which a send is a hand-over, and a send on a closed channel that
    panics.

    The producer is anything that keeps the interface [Producer]: a state
    whose next move is a step of its own, a send, or the end, with the
    sequence of samples it has yet to send ([sends]) and a bound on its
    steps ([weight]).  A list of samples is a producer; the row loop of
    the scraper is another ([ScrapeSteps]).

    [sys_step] is one action of the system of a producer, the channel and
    the consumer; [sys_next] is the schedule on which the producer moves
    whenever it can.

    Shown here, for every producer and every capacity: nothing is lost,
    duplicated or reordered ([sys_inv]); the queue stays within the
    capacity; every run ends ([sys_size]); while the channel is open there
    is no deadlock and everything can be delivered ([sys_deliver]); and
    every run is a run of the [Sink] it stands for ([sys_steps_sink]).

    [produce] is the producer alone, run to its end against the [Sink]:
    an interpreter on fuel, for which [weight] units are enough
    ([produce_enough], [produce_fuel]), and whose result is reached by a
    run of the system in which every send is a hand-over
    ([produce_run]). *)

From S2P Require Import Prelude Prometheus.

(** ** Producers *)

Inductive Move (P : Type) : Type :=
| Internal (p' : P)
| Send (m : Metric) (p' : P)
| Halt.
Arguments Internal {P} p'.
Arguments Send {P} m p'.
Arguments Halt {P}.

Class Producer (P : Type) : Type := {
  next : P → Move P;
  (** the state a panic at a send leaves *)
  crash : P → error → P;
  (** the samples yet to send, if every send is accepted *)
  sends : P → list Metric;
  weight : P → nat;
  next_internal p p' :
    next p = Internal p' → sends p' = sends p ∧ weight p' < weight p;
  next_send p m p' :
    next p = Send m p' → sends p = m :: sends p' ∧ weight p' < weight p;
  next_halt p : next p = Halt → sends p = [];
  crash_halt p e : next (crash p e) = Halt ∧ weight (crash p e) = 0;
}.

(** A list of samples, sent one after the other. *)
#[export, refine] Instance list_producer : Producer (list Metric) := {
  next l := match l with [] => Halt | m :: l' => Send m l' end;
  crash _ _ := [];
  sends l := l;
  weight := length;
}.
Proof.
  - by intros [|m l].
  - intros [|m l] m' l'; [done|]. intros [= <- <-]. simpl. auto with lia.
  - by intros [|m l].
  - done.
Defined.

(** ** The producer, the channel and the consumer *)

Record Sys (P : Type) : Type := mkSys {
  producer : P;
  buf : list Metric;
  received : list Metric;
  closed : bool;
}.
Arguments mkSys {P} producer buf received closed.
Arguments producer {P} s.
Arguments buf {P} s.
Arguments received {P} s.
Arguments closed {P} s.

(** A producer in front of a fresh channel. *)
Definition sys_init {P : Type} (p : P) : Sys P := mkSys p [] [] false.

Inductive sys_step {P : Type} `{Producer P} (cap : nat) : Sys P → Sys P → Prop :=
| sys_internal p p' buf rcv b :
    next p = Internal p' →
    sys_step cap (mkSys p buf rcv b) (mkSys p' buf rcv b)
| sys_send p m p' buf rcv :
    next p = Send m p' → length buf < cap →
    sys_step cap (mkSys p buf rcv false) (mkSys p' (buf ++ [m]) rcv false)
| sys_handoff p m p' rcv :
    next p = Send m p' → cap = 0 →
    sys_step cap (mkSys p [] rcv false) (mkSys p' [] (rcv ++ [m]) false)
| sys_send_closed p m p' buf rcv :
    next p = Send m p' →
    sys_step cap (mkSys p buf rcv true)
                 (mkSys (crash p ErrSendOnClosedChannel) buf rcv true)
| sys_recv p m buf rcv b :
    sys_step cap (mkSys p (m :: buf) rcv b) (mkSys p buf (rcv ++ [m]) b)
| sys_close p buf rcv :
    sys_step cap (mkSys p buf rcv false) (mkSys p buf rcv true).

(** The schedule of an eager producer: it moves whenever it can, and the
    consumer receives when it cannot. *)
Definition sys_next {P : Type} `{Producer P} (cap : nat) (s : Sys P)
    : option (Sys P) :=
  match next (producer s), buf s with
  | Internal p', _ => Some (mkSys p' (buf s) (received s) (closed s))
  | Send m p', bs =>
      if closed s
      then Some (mkSys (crash (producer s) ErrSendOnClosedChannel) bs
                   (received s) true)
      else if decide (length bs < cap)
      then Some (mkSys p' (bs ++ [m]) (received s) false)
      else match bs with
           | [] => Some (mkSys p' [] (received s ++ [m]) false)
           | b :: bs' => Some (mkSys (producer s) bs' (received s ++ [b]) false)
           end
  | Halt, b :: bs' => Some (mkSys (producer s) bs' (received s ++ [b]) (closed s))
  | Halt, [] => None
  end.

Fixpoint sys_run {P : Type} `{Producer P} (cap fuel : nat) (s : Sys P)
    : Sys P :=
  match fuel with
  | 0 => s
  | S fuel' =>
      match sys_next cap s with
      | Some s' => sys_run cap fuel' s'
      | None => s
      end
  end.

(** The producer alone, against the channel as it sees it: the consumer
    keeps up, so that a send on the open channel returns at once, and a
    send on the closed channel panics. *)
Fixpoint produce {P : Type} `{Producer P} (fuel : nat) (p : P) (k : Sink)
    : P * Sink :=
  match fuel with
  | 0 => (p, k)
  | S fuel' =>
      match next p with
      | Internal p' => produce fuel' p' k
      | Send m p' =>
          match sink_send m k with
          | inl e => (crash p e, k)
          | inr k' => produce fuel' p' k'
          end
      | Halt => (p, k)
      end
  end.

(** What the producer sees of the channel. *)
Definition sink_of {P : Type} (s : Sys P) : Sink :=
  mkSink (received s ++ buf s) (closed s).

(** What a channel goes through, as the producer sees it: a sample is
    written, or the channel is closed. *)
Inductive sink_step : Sink → Sink → Prop :=
| sink_step_send m k k' : sink_send m k = inr k' → sink_step k k'
| sink_step_close k : sink_closed k = false → sink_step k (sink_close k).

(** The producer is done and the queue is empty. *)
Definition delivered {P : Type} `{Producer P} (s : Sys P) : Prop :=
  next (producer s) = Halt ∧ buf s = [].

(** Of the samples [ms] the producer set out to send, the consumer and
    the queue hold a prefix in order, and the rest is what the producer
    has yet to send, as long as the channel is open or the producer has
    not come to its end. *)
Record sys_inv {P : Type} `{Producer P} (cap : nat) (ms : list Metric)
    (s : Sys P) : Prop := {
  sys_inv_prefix : received s ++ buf s `prefix_of` ms;
  sys_inv_sync :
    closed s = false ∨ next (producer s) ≠ Halt →
    received s ++ buf s ++ sends (producer s) = ms;
  sys_inv_cap : length (buf s) ≤ cap;
}.

(** The steps a system can still take are bounded by [sys_size]. *)
Definition sys_size {P : Type} `{Producer P} (s : Sys P) : nat :=
  2 * weight (producer s) + length (buf s) + (if closed s then 0 else 1).

Section system.
Context {P : Type} `{Producer P} (cap : nat).
Implicit Types (s : Sys P) (p : P) (ms : list Metric).

(** ** Nothing is lost, duplicated or reordered *)

Lemma sys_inv_init p : sys_inv cap (sends p) (sys_init p).
Proof. split; simpl; [apply prefix_nil|done|lia]. Qed.

Lemma sys_step_inv ms s s' :
  sys_step cap s s' → sys_inv cap ms s → sys_inv cap ms s'.
Proof.
  intros Hstep [Hpre Hsync Hcap].
  destruct Hstep as [p p' b r c Hn|p m p' b r Hn ?|p m p' r Hn ?|
                     p m p' b r Hn|p m b r c|p b r];
    simpl in *; split; simpl; try done; rewrite ?length_app; simpl;
    try lia.
  - intros _. destruct (next_internal _ _ Hn) as [-> _].
    apply Hsync. right. congruence.
  - rewrite <-Hsync by auto. destruct (next_send _ _ _ Hn) as [-> _].
    exists (sends p'). by rewrite <-!app_assoc.
  - intros _. rewrite <-Hsync by auto.
    destruct (next_send _ _ _ Hn) as [-> _]. by rewrite <-!app_assoc.
  - rewrite <-Hsync by auto. destruct (next_send _ _ _ Hn) as [-> _].
    exists (sends p'). by rewrite !app_nil_r, <-!app_assoc.
  - intros _. rewrite <-Hsync by auto.
    destruct (next_send _ _ _ Hn) as [-> _]. by rewrite <-!app_assoc.
  - intros [?|Hh]; [done|]. by destruct (crash_halt p ErrSendOnClosedChannel).
  - by rewrite <-app_assoc.
  - intros Hc. rewrite <-app_assoc. by apply Hsync.
  - intros [?|Hh]; [done|]. apply Hsync. by left.
Qed.

Lemma sys_steps_inv ms s s' :
  rtc (sys_step cap) s s' → sys_inv cap ms s → sys_inv cap ms s'.
Proof. induction 1; eauto using sys_step_inv. Qed.

Lemma sys_inv_reachable p s :
  rtc (sys_step cap) (sys_init p) s → sys_inv cap (sends p) s.
Proof. intros Hrun. eapply sys_steps_inv; [done|apply sys_inv_init]. Qed.

(** Once everything is delivered on an open channel, the consumer holds
    every sample, in the order of the sends. *)
Lemma delivered_received ms s :
  sys_inv cap ms s → closed s = false → delivered s → received s = ms.
Proof.
  intros [_ Hsync _] Hc [Hh Hb]. rewrite <-Hsync, Hb by auto.
  by rewrite (next_halt _ Hh), !app_nil_r.
Qed.

(** ** Every run ends *)

Lemma sys_step_size s s' : sys_step cap s s' → sys_size s' < sys_size s.
Proof.
  destruct 1 as [p p' b r c Hn|p m p' b r Hn ?|p m p' r Hn ?|
                 p m p' b r Hn|p m b r c|p b r];
    unfold sys_size; simpl; rewrite ?length_app; simpl;
    try (destruct (next_internal _ _ Hn) as [_ ?]);
    try (destruct (next_send _ _ _ Hn) as [_ ?]);
    try (destruct (crash_halt p ErrSendOnClosedChannel) as [_ ->]);
    try destruct c; lia.
Qed.

Lemma sys_step_sn s : sn (sys_step cap) s.
Proof.
  remember (sys_size s) as n eqn:Hn. revert s Hn.
  induction n as [n IH] using lt_wf_ind. intros s ->.
  constructor. intros s' Hstep%sys_step_size. by eapply IH.
Qed.

(** ** The system is a sink *)

Lemma sys_step_sink s s' :
  sys_step cap s s' →
  sink_of s' = sink_of s ∨ sink_step (sink_of s) (sink_of s').
Proof.
  destruct 1; unfold sink_of; simpl; [by left|right|right|by left|left|right].
  - apply (sink_step_send m). by rewrite app_assoc.
  - apply (sink_step_send m). by rewrite !app_nil_r.
  - by rewrite <-app_assoc.
  - by apply (sink_step_close (mkSink _ false)).
Qed.

(** Every run of the system is a run of its sink: what the producer does
    by itself and what the consumer receives are not seen. *)
Lemma sys_steps_sink s s' :
  rtc (sys_step cap) s s' → rtc sink_step (sink_of s) (sink_of s').
Proof.
  induction 1 as [|s s1 s' Hstep _ IH]; [done|].
  destruct (sys_step_sink _ _ Hstep) as [<-|Hs]; [done|by eapply rtc_l].
Qed.

(** The closed flag only rises, and a closed channel accepts nothing. *)
Lemma sys_step_closed s s' :
  sys_step cap s s' → closed s = true →
  closed s' = true ∧ received s' ++ buf s' = received s ++ buf s.
Proof. destruct 1; simpl; try done. by rewrite <-app_assoc. Qed.

Lemma sys_steps_closed s s' :
  rtc (sys_step cap) s s' → closed s = true →
  closed s' = true ∧ received s' ++ buf s' = received s ++ buf s.
Proof.
  induction 1 as [|s s1 s' Hstep _ IH]; [done|]. intros Hc.
  destruct (sys_step_closed _ _ Hstep Hc) as [Hc1 <-]. by apply IH.
Qed.

(** A producer at a send on a full channel waits: nothing moves it but
    the consumer. *)
Lemma sys_step_blocked s s' m p' :
  next (producer s) = Send m p' → closed s = false →
  0 < cap → cap ≤ length (buf s) →
  sys_step cap s s' → producer s' = producer s.
Proof.
  intros Hn Hc Hcap Hfull Hstep.
  destruct Hstep; simpl in *; try done; try congruence; lia.
Qed.

(** ** The eager schedule *)

Lemma sys_next_step s s' : sys_next cap s = Some s' → sys_step cap s s'.
Proof.
  destruct s as [p b r c]. unfold sys_next. simpl.
  destruct (next p) as [p'|m p'|] eqn:Hn.
  - intros [= <-]. by constructor.
  - destruct c; [intros [= <-]; by econstructor|].
    destruct (decide (length b < cap)); [intros [= <-]; by constructor|].
    destruct b as [|m' b]; intros [= <-]; constructor; simpl in *; auto with lia.
  - destruct b; [done|]. intros [= <-]. constructor.
Qed.

(** No deadlock: the schedule stops only when everything is delivered,
    whatever the capacity, and it does not close the channel. *)
Lemma sys_next_None s : sys_next cap s = None → delivered s.
Proof.
  destruct s as [p b r c]. unfold sys_next, delivered. simpl.
  destruct (next p) as [p'|m p'|]; [done| |by destruct b].
  destruct c; [done|]. destruct (decide (length b < cap)); [done|].
  by destruct b.
Qed.

Lemma sys_next_open s s' :
  closed s = false → sys_next cap s = Some s' → closed s' = false.
Proof.
  destruct s as [p b r c]. unfold sys_next. simpl. intros ->.
  destruct (next p) as [p'|m p'|]; [by intros [= <-]| |].
  - destruct (decide (length b < cap)); [by intros [= <-]|].
    by destruct b; intros [= <-].
  - by destruct b; intros [= <-].
Qed.

Lemma sys_run_steps fuel s : rtc (sys_step cap) s (sys_run cap fuel s).
Proof.
  revert s. induction fuel as [|fuel IH]; intros s; simpl; [done|].
  destruct (sys_next cap s) as [s'|] eqn:Hn; [|done].
  eapply rtc_l; [by apply sys_next_step|apply IH].
Qed.

(** With [sys_size] steps of fuel the schedule delivers everything. *)
Lemma sys_run_delivered fuel s :
  closed s = false → sys_size s ≤ fuel →
  delivered (sys_run cap fuel s) ∧ closed (sys_run cap fuel s) = false.
Proof.
  revert s. induction fuel as [|fuel IH]; intros s Hc Hsize.
  { unfold sys_size in Hsize. rewrite Hc in Hsize. lia. }
  simpl. destruct (sys_next cap s) as [s'|] eqn:Hn.
  - apply IH; [by eapply sys_next_open|].
    apply sys_next_step, sys_step_size in Hn. lia.
  - by split; [apply sys_next_None|].
Qed.

(** Liveness: from every state of a system whose channel is open,
    everything the producer set out to send can be delivered. *)
Lemma sys_deliver ms s :
  sys_inv cap ms s → closed s = false →
  ∃ s', rtc (sys_step cap) s s' ∧ delivered s' ∧ closed s' = false ∧
        received s' = ms.
Proof.
  intros Hinv Hc. exists (sys_run cap (sys_size s) s).
  pose proof (sys_run_steps (sys_size s) s) as Hrun.
  destruct (sys_run_delivered (sys_size s) s) as [Hd Hc']; [done..|].
  split_and!; [done..|]. apply (delivered_received ms); [|done..].
  by eapply sys_steps_inv.
Qed.

End system.

(** ** What every state of the producer satisfies *)

Section producer_invariant.
Context {P : Type} `{Producer P}.
Context (I : P → Prop).
Context (I_internal : ∀ p p', next p = Internal p' → I p → I p').
Context (I_send : ∀ p m p', next p = Send m p' → I p → I p').
Context (I_crash : ∀ p e, I p → I (crash p e)).

(** A property of the producer that its moves and its panic keep holds
    along every run, whatever the consumer does. *)
Lemma sys_steps_producer cap (s s' : Sys P) :
  rtc (sys_step cap) s s' → I (producer s) → I (producer s').
Proof.
  induction 1 as [|s s1 s' Hstep _ IH]; [done|]. intros HI. apply IH.
  destruct Hstep; simpl in *; eauto.
Qed.

Lemma produce_producer fuel p k : I p → I (produce fuel p k).1.
Proof.
  revert p k. induction fuel as [|fuel IH]; intros p k HI; simpl; [done|].
  destruct (next p) as [p'|m p'|] eqn:Hn; [eauto| |done].
  destruct (sink_send m k); simpl; eauto.
Qed.

End producer_invariant.

(** ** The producer alone *)

Section produce.
Context {P : Type} `{Producer P}.
Implicit Types (p : P) (k : Sink) (fuel : nat).

Lemma weight_0_halt p : weight p = 0 → next p = Halt.
Proof.
  intros Hw. destruct (next p) as [p'|m p'|] eqn:Hn; [| |done].
  - destruct (next_internal _ _ Hn). lia.
  - destruct (next_send _ _ _ Hn). lia.
Qed.

(** A producer at its end stays where it is. *)
Lemma produce_halt fuel p k : next p = Halt → produce fuel p k = (p, k).
Proof. intros Hn. destruct fuel; simpl; by rewrite ?Hn. Qed.

Lemma produce_internal fuel p p' k :
  next p = Internal p' → produce (S fuel) p k = produce fuel p' k.
Proof. simpl. by intros ->. Qed.

(** Fuel beyond the weight of the producer changes nothing. *)
Lemma produce_fuel fuel1 fuel2 p k :
  weight p ≤ fuel1 → weight p ≤ fuel2 → produce fuel1 p k = produce fuel2 p k.
Proof.
  revert fuel2 p k.
  induction fuel1 as [|fuel1 IH]; intros [|fuel2] p k H1 H2; simpl; try done.
  - by rewrite weight_0_halt by lia.
  - by rewrite weight_0_halt by lia.
  - destruct (next p) as [p'|m p'|] eqn:Hn; [| |done].
    + destruct (next_internal _ _ Hn). apply IH; lia.
    + destruct (next_send _ _ _ Hn). destruct (sink_send m k); [done|].
      apply IH; lia.
Qed.

(** With [weight] units of fuel the producer comes to its end. *)
Lemma produce_enough fuel p k :
  weight p ≤ fuel → next (produce fuel p k).1 = Halt.
Proof.
  revert p k. induction fuel as [|fuel IH]; intros p k Hw; simpl.
  { apply weight_0_halt. lia. }
  destruct (next p) as [p'|m p'|] eqn:Hn; [| |done].
  - destruct (next_internal _ _ Hn). apply IH. lia.
  - destruct (next_send _ _ _ Hn). destruct (sink_send m k); simpl.
    + by destruct (crash_halt p e).
    + apply IH. lia.
Qed.

(** The interpreter follows the step relation: its result is reached by
    a run on the unbuffered channel in which the consumer takes every
    sample as it is sent. *)
Lemma produce_run fuel p k :
  rtc (sys_step 0) (mkSys p [] (sent k) (sink_closed k))
    (mkSys (produce fuel p k).1 [] (sent (produce fuel p k).2)
       (sink_closed (produce fuel p k).2)).
Proof.
  revert p k. induction fuel as [|fuel IH]; intros p k; simpl; [done|].
  destruct (next p) as [p'|m p'|] eqn:Hn; [| |done].
  - eapply rtc_l; [by apply sys_internal|apply IH].
  - unfold sink_send. destruct k as [ms [|]]; simpl.
    + by eapply rtc_once, sys_send_closed.
    + eapply rtc_l; [by apply sys_handoff|]. apply (IH p' (mkSink _ false)).
Qed.

End produce.
