(* ===== verification/Interleave.v ===== *)
(** * Interleavings

    Several goroutines write to one channel: what the channel carries is
    an interleaving of what each of them wrote.  [merges ls ys] says that
    [ys] is an interleaving of the family of sequences [ls]: [ys] can be
    built by appending each element at the end of one member of the
    family and of [ys] at once, starting from empty sequences.  This is
    how a log of writes grows, so an invariant stated with [merges] is
    preserved by a write in one step ([merges_snoc], [merges_middle]).

    [merge_by] is the same notion as a function: it takes a schedule, the
    positions of the members whose head is taken next, and computes the
    interleaving.  [merges_iff_merge_by] shows that the two agree.

    An interleaving keeps every element ([merges_Permutation]) and the
    order of every member ([merges_sublist]); writing the members one
    after the other is an interleaving ([merges_concat]); an interleaving
    of a family is an interleaving of one member with an interleaving of
    the others ([merges_group]). *)

From S2P Require Import Prelude.

Section merges.
Context {A : Type}.
Implicit Types (x : A) (l ys : list A) (ls : list (list A)) (i n : nat).
Implicit Types (sched : list nat).

Inductive merges : list (list A) → list A → Prop :=
| merges_nil n : merges (replicate n []) []
| merges_snoc ls i l x ys :
    ls !! i = Some l → merges ls ys →
    merges (<[i := l ++ [x]]> ls) (ys ++ [x]).

(** The interleaving a schedule gives: the head of member [i] for each
    position [i] of the schedule, in turn; nothing if a member named by
    the schedule is empty or if something is left at the end. *)
Fixpoint merge_by sched ls : option (list A) :=
  match sched with
  | [] => match concat ls with [] => Some [] | _ :: _ => None end
  | i :: sched' =>
      match ls !! i with
      | Some (x :: l) => cons x <$> merge_by sched' (<[i := l]> ls)
      | _ => None
      end
  end.

(** ** Families of empty sequences *)

Lemma concat_nil_replicate ls : concat ls = [] → ls = replicate (length ls) [].
Proof.
  induction ls as [|l ls IH]; [done|]. simpl.
  intros [-> Hls]%app_eq_nil. by rewrite <-IH.
Qed.

Lemma concat_replicate_nil n : concat (replicate n (@nil A)) = [].
Proof. by induction n. Qed.

Lemma merges_empty ls : concat ls = [] → merges ls [].
Proof. intros ->%concat_nil_replicate. constructor. Qed.

Lemma concat_nil_lookup ls i l : concat ls = [] → ls !! i = Some l → l = [].
Proof.
  intros ->%concat_nil_replicate. by intros [-> _]%lookup_replicate.
Qed.

(** ** What an interleaving keeps *)

Lemma concat_insert_snoc ls i l x :
  ls !! i = Some l → concat (<[i := l ++ [x]]> ls) ≡ₚ concat ls ++ [x].
Proof.
  revert i. induction ls as [|l' ls IH]; intros [|i]; simpl; try done.
  - intros [= ->]. rewrite <-!app_assoc. f_equiv. apply Permutation_app_comm.
  - intros Hi. by rewrite IH, app_assoc.
Qed.

(** An interleaving has the elements of the family, each as often. *)
Lemma merges_Permutation ls ys : merges ls ys → ys ≡ₚ concat ls.
Proof.
  induction 1 as [n|ls i l x ys Hi _ IH].
  - by rewrite concat_replicate_nil.
  - by rewrite concat_insert_snoc, IH.
Qed.

Lemma merges_length ls ys : merges ls ys → length ys = length (concat ls).
Proof. by intros ->%merges_Permutation. Qed.

Lemma merges_nil_inv ls : merges ls [] → concat ls = [].
Proof. by intros ?%merges_Permutation%symmetry%Permutation_nil_r. Qed.

(** An interleaving keeps the order of every member of the family. *)
Lemma merges_sublist ls ys : merges ls ys → Forall (λ l, l `sublist_of` ys) ls.
Proof.
  induction 1 as [n|ls i l x ys Hi _ IH].
  - apply Forall_replicate. done.
  - apply Forall_insert.
    + eapply Forall_impl; [done|]. intros l' ?. by apply sublist_inserts_r.
    + apply sublist_app; [|done]. by eapply Forall_lookup_1 in IH.
Qed.

(** ** Building interleavings *)

(** A write by the member in the middle of the family. *)
Lemma merges_middle ls1 l ls2 ys x :
  merges (ls1 ++ l :: ls2) ys → merges (ls1 ++ (l ++ [x]) :: ls2) (ys ++ [x]).
Proof.
  intros Hm. replace (ls1 ++ (l ++ [x]) :: ls2)
    with (<[length ls1 := l ++ [x]]> (ls1 ++ l :: ls2)).
  - constructor; [apply list_lookup_middle|]; done.
  - by rewrite insert_app_r_alt, Nat.sub_diag by lia.
Qed.

(** The first element of an interleaving is the head of a member. *)
Lemma merges_cons ls i l x ys :
  ls !! i = Some l → merges ls ys → merges (<[i := x :: l]> ls) (x :: ys).
Proof.
  intros Hi Hm. revert i l Hi.
  induction Hm as [n|ls j l' y ys Hj Hm IH]; intros i l Hi.
  - apply lookup_replicate in Hi as [-> Hi].
    apply (merges_snoc _ i [] x []); [by apply lookup_replicate|constructor].
  - destruct (decide (i = j)) as [->|Hne].
    + rewrite list_lookup_insert_eq in Hi by by eapply lookup_lt_Some.
      injection Hi as <-. rewrite list_insert_insert_eq.
      rewrite <-(list_insert_insert_eq ls j (x :: l' ++ [y]) (x :: l')).
      apply (merges_snoc _ j (x :: l') y (x :: ys)); [|by apply IH].
      apply list_lookup_insert_eq. by eapply lookup_lt_Some.
    + rewrite list_lookup_insert_ne in Hi by done.
      rewrite list_insert_insert_ne by done.
      apply (merges_snoc _ j l' y (x :: ys)); [|by apply IH].
      by rewrite list_lookup_insert_ne.
Qed.

(** A member that writes nothing changes nothing. *)
Lemma merges_cons_nil ls ys : merges ls ys → merges ([] :: ls) ys.
Proof.
  induction 1 as [n|ls i l x ys Hi _ IH]; [apply (merges_nil (S n))|].
  by apply (merges_snoc ([] :: ls) (S i) l x ys).
Qed.

(** One member to its end, then an interleaving of the others. *)
Lemma merges_cons_list l ls ys : merges ls ys → merges (l :: ls) (l ++ ys).
Proof.
  intros Hm. induction l as [|x l IH]; [by apply merges_cons_nil|].
  by apply (merges_cons (l :: ls) 0 l x).
Qed.

(** The members one after the other. *)
Lemma merges_concat ls : merges ls (concat ls).
Proof.
  induction ls as [|l ls IH]; [apply (merges_nil 0)|].
  by apply merges_cons_list.
Qed.

Lemma sublist_full (l1 l2 : list A) :
  l1 `sublist_of` l2 → length l2 ≤ length l1 → l1 = l2.
Proof.
  induction 1 as [|x l1 l2 _ IH|x l1 l2 Hsub _]; simpl; intros Hlen.
  - done.
  - f_equal. apply IH. lia.
  - apply sublist_length in Hsub. lia.
Qed.

(** The interleavings of one sequence: itself. *)
Lemma merges_singleton l ys : merges [l] ys ↔ ys = l.
Proof.
  split; [|intros ->; rewrite <-(app_nil_r l) at 2; apply (merges_concat [l])].
  intros Hm. pose proof (merges_length _ _ Hm) as Hlen.
  apply merges_sublist in Hm. rewrite Forall_singleton in Hm.
  simpl in Hlen. rewrite app_nil_r in Hlen.
  symmetry. apply sublist_full; [done|lia].
Qed.

(** ** One member against the others *)

Lemma delete_insert_same ls i l : delete i (<[i := l]> ls) = delete i ls.
Proof.
  revert i. induction ls as [|l' ls IH]; intros [|i]; simpl; try done.
  by rewrite IH.
Qed.

Lemma delete_insert_lt ls i j l :
  j < i → delete i (<[j := l]> ls) = <[j := l]> (delete i ls).
Proof.
  revert i j. induction ls as [|l' ls IH]; intros [|i] [|j] ?; simpl;
    try done; try lia.
  f_equal. apply IH. lia.
Qed.

Lemma delete_insert_gt ls i j l :
  i < j → delete i (<[j := l]> ls) = <[pred j := l]> (delete i ls).
Proof.
  revert i j. induction ls as [|l' ls IH]; intros [|i] [|j] ?; simpl;
    try done; try lia.
  destruct j as [|j]; [lia|]. simpl. f_equal.
  apply (IH i (S j)). lia.
Qed.

Lemma concat_delete_nil ls i : concat ls = [] → concat (delete i ls) = [].
Proof.
  intros ->%concat_nil_replicate.
  rewrite delete_take_drop, take_replicate, drop_replicate, concat_app.
  by rewrite !concat_replicate_nil.
Qed.

(** An interleaving of a family is an interleaving of one member with
    an interleaving of the others. *)
Lemma merges_group ls ys i l :
  merges ls ys → ls !! i = Some l →
  ∃ zs, merges (delete i ls) zs ∧ merges [l; zs] ys.
Proof.
  intros Hm. revert i l.
  induction Hm as [n|ls j lj x ys Hj Hm IH]; intros i l Hi.
  - apply lookup_replicate in Hi as Hl. destruct Hl as [-> _]. exists [].
    split; [|apply (merges_nil 2)].
    by apply merges_empty, concat_delete_nil, concat_replicate_nil.
  - destruct (decide (i = j)) as [->|Hne].
    + rewrite list_lookup_insert_eq in Hi by by eapply lookup_lt_Some.
      injection Hi as <-. destruct (IH j lj Hj) as (zs & ? & ?).
      exists zs. rewrite delete_insert_same. split; [done|].
      by apply (merges_snoc [lj; zs] 0 lj x ys).
    + rewrite list_lookup_insert_ne in Hi by done.
      destruct (IH i l Hi) as (zs & Hzs & ?). exists (zs ++ [x]).
      split; [|by apply (merges_snoc [l; zs] 1 zs x ys)].
      destruct (decide (j < i)).
      * rewrite delete_insert_lt by done. apply merges_snoc; [|done].
        by rewrite list_lookup_delete_lt.
      * rewrite delete_insert_gt by lia. apply merges_snoc; [|done].
        rewrite list_lookup_delete_ge by lia.
        by replace (S (pred j)) with j by lia.
Qed.

Lemma merges_group_middle ls1 l ls2 ys :
  merges (ls1 ++ l :: ls2) ys →
  ∃ zs, merges (ls1 ++ ls2) zs ∧ merges [l; zs] ys.
Proof.
  intros Hm. rewrite <-(delete_middle ls1 ls2 l).
  eapply merges_group; [done|]. apply list_lookup_middle. done.
Qed.

(** ** Schedules *)

Lemma merge_by_merges sched ls ys : merge_by sched ls = Some ys → merges ls ys.
Proof.
  revert ls ys. induction sched as [|i sched IH]; intros ls ys; simpl.
  { destruct (concat ls) eqn:Hls; [|done]. intros [= <-]. by apply merges_empty. }
  destruct (ls !! i) as [[|x l]|] eqn:Hi; [done| |done].
  destruct (merge_by sched (<[i:=l]> ls)) as [ys'|] eqn:Hrest; [|done].
  intros [= <-]. rewrite <-(list_insert_id ls i (x :: l)) by done.
  rewrite <-(list_insert_insert_eq ls i (x :: l) l).
  apply merges_cons; [|by apply IH].
  apply list_lookup_insert_eq. by eapply lookup_lt_Some.
Qed.

(** A schedule extended by the write of member [i]. *)
Lemma merge_by_snoc sched ls ys i l x :
  ls !! i = Some l → merge_by sched ls = Some ys →
  merge_by (sched ++ [i]) (<[i := l ++ [x]]> ls) = Some (ys ++ [x]).
Proof.
  revert ls ys l. induction sched as [|j sched IH]; intros ls ys l Hi; simpl.
  - destruct (concat ls) eqn:Hls; [|done]. intros [= <-].
    pose proof (concat_nil_lookup ls i l Hls Hi) as ->.
    rewrite list_lookup_insert_eq by by eapply lookup_lt_Some. simpl.
    by rewrite list_insert_insert_eq, list_insert_id, Hls.
  - destruct (ls !! j) as [[|y l']|] eqn:Hj; [done| |done].
    destruct (merge_by sched (<[j:=l']> ls)) as [ys'|] eqn:Hrest; [|done].
    intros [= <-]. destruct (decide (i = j)) as [->|Hne].
    + rewrite Hj in Hi. injection Hi as <-.
      rewrite list_lookup_insert_eq by by eapply lookup_lt_Some. simpl.
      rewrite list_insert_insert_eq.
      rewrite <-(list_insert_insert_eq ls j (l' ++ [x]) l').
      erewrite IH; [done| |done].
      apply list_lookup_insert_eq. by eapply lookup_lt_Some.
    + rewrite list_lookup_insert_ne, Hj by done.
      rewrite list_insert_insert_ne by done.
      erewrite IH; [done| |done]. by rewrite list_lookup_insert_ne.
Qed.

Lemma merge_by_replicate n : merge_by [] (replicate n (@nil A)) = Some [].
Proof. simpl. by rewrite concat_replicate_nil. Qed.

(** The interleavings of a family are what the schedules give. *)
Theorem merges_iff_merge_by ls ys :
  merges ls ys ↔ ∃ sched, merge_by sched ls = Some ys.
Proof.
  split; [|intros [sched ?]; by eapply merge_by_merges].
  induction 1 as [n|ls i l x ys Hi _ [sched IH]].
  - exists []. apply merge_by_replicate.
  - exists (sched ++ [i]). by apply merge_by_snoc.
Qed.

End merges.
