(* ===== verification/Fanin.v ===== *)
(** * Several producers on one channel

    The scrapers of a cycle write to one channel, each from a goroutine of
    its own, and one consumer drains it.  [Channel] has one producer in
    front of the channel; this file has a pool of them ([Pool],
    [pool_step]): any producer that can move takes the next step, a send
    waits for room in the queue, on an unbuffered channel it is a
    hand-over, on a closed channel it panics, and the consumer receives
    whenever the queue is not empty.

    Shown here, for every capacity and every pool of producers that keep
    the interface [Channel.Producer]: what the consumer and the queue hold
    is an interleaving of what each producer has sent so far, so no sample
    is lost, duplicated, or overtaken by a later sample of the same
    producer ([pool_inv]); the queue stays within the capacity; every run
    is finite ([pool_size]); while the channel is open some step is
    possible until everything is delivered, so there is no deadlock
    ([pool_progress], [pool_deliver]).

    [pool_do] is one action of a schedule as a function, and [pool_run] a
    whole schedule.  [Worker] packs a producer of any type with its
    implementation of the interface, so that a pool can hold producers of
    different kinds, as a registry holds scrapers of different types. *)

From S2P Require Import Prelude Interleave Prometheus Channel.

Record Pool (P : Type) : Type := mkPool {
  workers : list P;
  pool_buf : list Metric;
  pool_received : list Metric;
  pool_closed : bool;
}.
Arguments mkPool {P} workers pool_buf pool_received pool_closed.
Arguments workers {P} _.
Arguments pool_buf {P} _.
Arguments pool_received {P} _.
Arguments pool_closed {P} _.

(** Producers in front of a fresh channel. *)
Definition pool_init {P : Type} (ps : list P) : Pool P := mkPool ps [] [] false.

Inductive pool_step {P : Type} `{Producer P} (cap : nat)
    : Pool P → Pool P → Prop :=
| pool_internal ps1 p ps2 p' b r c :
    next p = Internal p' →
    pool_step cap (mkPool (ps1 ++ p :: ps2) b r c)
                  (mkPool (ps1 ++ p' :: ps2) b r c)
| pool_send ps1 p ps2 m p' b r :
    next p = Send m p' → length b < cap →
    pool_step cap (mkPool (ps1 ++ p :: ps2) b r false)
                  (mkPool (ps1 ++ p' :: ps2) (b ++ [m]) r false)
| pool_handoff ps1 p ps2 m p' r :
    next p = Send m p' → cap = 0 →
    pool_step cap (mkPool (ps1 ++ p :: ps2) [] r false)
                  (mkPool (ps1 ++ p' :: ps2) [] (r ++ [m]) false)
| pool_send_closed ps1 p ps2 m p' b r :
    next p = Send m p' →
    pool_step cap (mkPool (ps1 ++ p :: ps2) b r true)
                  (mkPool (ps1 ++ crash p ErrSendOnClosedChannel :: ps2) b r true)
| pool_recv ps m b r c :
    pool_step cap (mkPool ps (m :: b) r c) (mkPool ps b (r ++ [m]) c)
| pool_close ps b r :
    pool_step cap (mkPool ps b r false) (mkPool ps b r true).

(** ** Schedules *)

(** An action of a schedule: producer [i] takes its next step, the
    consumer receives, or the consumer closes the channel. *)
Inductive Act : Type :=
| Work (i : nat)
| Recv
| Close.

(** One action; nothing if it is not possible: the producer has come to
    its end, it is at a send and the queue is full, there is nothing to
    receive, the channel is closed already. *)
Definition pool_do {P : Type} `{Producer P} (cap : nat) (a : Act) (s : Pool P)
    : option (Pool P) :=
  match a with
  | Work i =>
      match workers s !! i with
      | None => None
      | Some p =>
          match next p with
          | Internal p' =>
              Some (mkPool (<[i := p']> (workers s)) (pool_buf s)
                      (pool_received s) (pool_closed s))
          | Send m p' =>
              if pool_closed s
              then Some (mkPool (<[i := crash p ErrSendOnClosedChannel]> (workers s))
                           (pool_buf s) (pool_received s) true)
              else if decide (length (pool_buf s) < cap)
              then Some (mkPool (<[i := p']> (workers s)) (pool_buf s ++ [m])
                           (pool_received s) false)
              else match pool_buf s with
                   | [] => Some (mkPool (<[i := p']> (workers s)) []
                                   (pool_received s ++ [m]) false)
                   | _ :: _ => None
                   end
          | Halt => None
          end
      end
  | Recv =>
      match pool_buf s with
      | m :: b => Some (mkPool (workers s) b (pool_received s ++ [m])
                          (pool_closed s))
      | [] => None
      end
  | Close =>
      if pool_closed s then None
      else Some (mkPool (workers s) (pool_buf s) (pool_received s) true)
  end.

(** A schedule, action by action; an action that is not possible is
    skipped. *)
Fixpoint pool_run {P : Type} `{Producer P} (cap : nat) (acts : list Act)
    (s : Pool P) : Pool P :=
  match acts with
  | [] => s
  | a :: acts' => pool_run cap acts' (default s (pool_do cap a s))
  end.

(** ** The invariant *)

(** The log [s] of a producer [p] that set out to send [ms]: a prefix of
    [ms], and the rest is what [p] has yet to send, as long as the
    channel is open or [p] has not come to its end. *)
Definition worker_ok {P : Type} `{Producer P} (c : bool)
    (s : list Metric) (p : P) (ms : list Metric) : Prop :=
  s `prefix_of` ms ∧ (c = false ∨ next p ≠ Halt → s ++ sends p = ms).

(** Of the samples [mss] the producers set out to send, the consumer and
    the queue hold an interleaving of logs, one per producer. *)
Definition pool_inv {P : Type} `{Producer P} (cap : nat)
    (mss : list (list Metric)) (s : Pool P) : Prop :=
  (∃ ss, merges ss (pool_received s ++ pool_buf s) ∧
         Forall3 (worker_ok (pool_closed s)) ss (workers s) mss) ∧
  length (pool_buf s) ≤ cap.

(** Every producer is done and the queue is empty. *)
Definition pool_delivered {P : Type} `{Producer P} (s : Pool P) : Prop :=
  Forall (λ p, next p = Halt) (workers s) ∧ pool_buf s = [].

(** The same, as a test. *)
Definition halted {P : Type} `{Producer P} (p : P) : bool :=
  match next p with Halt => true | _ => false end.

Definition pool_done {P : Type} `{Producer P} (s : Pool P) : bool :=
  forallb halted (workers s) &&
  match pool_buf s with [] => true | _ :: _ => false end.

(** The steps a pool can still take are bounded by [pool_size]. *)
Definition pool_size {P : Type} `{Producer P} (s : Pool P) : nat :=
  2 * sum_list_with weight (workers s) + length (pool_buf s) +
  (if pool_closed s then 0 else 1).

(** A producer moves on: the steps of its own and the sends. *)
Definition moves {P : Type} `{Producer P} (p p' : P) : Prop :=
  next p = Internal p' ∨ ∃ m, next p = Send m p'.

Section pool.
Context {P : Type} `{Producer P} (cap : nat).
Implicit Types (s : Pool P) (p : P) (ps : list P) (m : Metric).
Implicit Types (ms X : list Metric) (ss mss : list (list Metric)).

(** ** The logs of the producers *)

Lemma worker_ok_init p : worker_ok false [] p (sends p).
Proof. split; [apply prefix_nil|done]. Qed.

Lemma worker_ok_internal c l p p' ms :
  next p = Internal p' → worker_ok c l p ms → worker_ok c l p' ms.
Proof.
  intros Hn [Hpre Hsync]. split; [done|]. intros _.
  destruct (next_internal _ _ Hn) as [-> _]. apply Hsync. right. congruence.
Qed.

Lemma worker_ok_send c l p m p' ms :
  next p = Send m p' → worker_ok c l p ms → worker_ok c (l ++ [m]) p' ms.
Proof.
  intros Hn [Hpre Hsync]. destruct (next_send _ _ _ Hn) as [Hs _].
  assert ((l ++ [m]) ++ sends p' = ms) as <-.
  { rewrite <-app_assoc. simpl. rewrite <-Hs. apply Hsync. right. congruence. }
  split; [by apply prefix_app_r|done].
Qed.

Lemma worker_ok_crash l p e ms :
  worker_ok true l p ms → worker_ok true l (crash p e) ms.
Proof.
  intros [Hpre _]. split; [done|]. intros [?|Hh]; [done|].
  by destruct (crash_halt p e).
Qed.

Lemma worker_ok_close l p ms : worker_ok false l p ms → worker_ok true l p ms.
Proof. intros [Hpre Hsync]. split; [done|]. intros _. by apply Hsync; left. Qed.

(** The log of the producer in the middle of the pool. *)
Lemma Forall3_middle_inv {A B C} (R : A → B → C → Prop) l k1 y k2 k' :
  Forall3 R l (k1 ++ y :: k2) k' →
  ∃ l1 x l2 k1' z k2', l = l1 ++ x :: l2 ∧ k' = k1' ++ z :: k2' ∧
    Forall3 R l1 k1 k1' ∧ R x y z ∧ Forall3 R l2 k2 k2'.
Proof.
  intros (l1 & l' & k1' & k'' & -> & -> & ? & Hr)%Forall3_app_inv_m.
  apply Forall3_cons_inv_m in Hr as (x & l2 & z & k2' & -> & -> & ? & ?).
  exists l1, x, l2, k1', z, k2'. done.
Qed.

Lemma logs_move c ss ps1 p ps2 mss p' :
  (∀ l ms, worker_ok c l p ms → worker_ok c l p' ms) →
  Forall3 (worker_ok c) ss (ps1 ++ p :: ps2) mss →
  Forall3 (worker_ok c) ss (ps1 ++ p' :: ps2) mss.
Proof.
  intros Hok (ss1 & l & ss2 & mss1 & ms & mss2 & -> & -> & ? & ? & ?)
    %Forall3_middle_inv.
  apply Forall3_app; [done|]. constructor; auto.
Qed.

Lemma logs_write c ss ps1 p ps2 mss p' m X :
  (∀ l ms, worker_ok c l p ms → worker_ok c (l ++ [m]) p' ms) →
  merges ss X → Forall3 (worker_ok c) ss (ps1 ++ p :: ps2) mss →
  ∃ ss', merges ss' (X ++ [m]) ∧
         Forall3 (worker_ok c) ss' (ps1 ++ p' :: ps2) mss.
Proof.
  intros Hok Hm (ss1 & l & ss2 & mss1 & ms & mss2 & -> & -> & ? & ? & ?)
    %Forall3_middle_inv.
  exists (ss1 ++ (l ++ [m]) :: ss2). split; [by apply merges_middle|].
  apply Forall3_app; [done|]. constructor; auto.
Qed.

(** ** Nothing is lost, duplicated or overtaken *)

Lemma pool_inv_init ps : pool_inv cap (sends <$> ps) (pool_init ps).
Proof.
  split; [|simpl; lia]. exists (replicate (length ps) []).
  split; [constructor|]. simpl.
  induction ps as [|p ps IH]; constructor; [apply worker_ok_init|done].
Qed.

Lemma pool_step_inv mss s s' :
  pool_step cap s s' → pool_inv cap mss s → pool_inv cap mss s'.
Proof.
  intros Hstep [(ss & Hm & Hl) Hcap].
  destruct Hstep as [ps1 p ps2 p' b r c Hn|ps1 p ps2 m p' b r Hn ?|
                     ps1 p ps2 m p' r Hn ?|ps1 p ps2 m p' b r Hn|
                     ps m b r c|ps b r];
    unfold pool_inv; simpl in *; (split; [|rewrite ?length_app; simpl; lia]).
  - exists ss. eauto using logs_move, worker_ok_internal.
  - rewrite app_assoc.
    eapply logs_write; eauto using worker_ok_send.
  - rewrite !app_nil_r in *.
    eapply logs_write; eauto using worker_ok_send.
  - exists ss. eauto using logs_move, worker_ok_crash.
  - exists ss. by rewrite <-app_assoc.
  - exists ss. split; [done|].
    eapply Forall3_impl; [done|]. apply worker_ok_close.
Qed.

Lemma pool_steps_inv mss s s' :
  rtc (pool_step cap) s s' → pool_inv cap mss s → pool_inv cap mss s'.
Proof. induction 1; eauto using pool_step_inv. Qed.

Lemma pool_inv_reachable ps s :
  rtc (pool_step cap) (pool_init ps) s → pool_inv cap (sends <$> ps) s.
Proof. intros Hrun. eapply pool_steps_inv; [done|apply pool_inv_init]. Qed.

Lemma logs_complete ss ps mss :
  Forall3 (worker_ok false) ss ps mss → Forall (λ p, next p = Halt) ps →
  ss = mss.
Proof.
  induction 1 as [|l p ms ss ps mss [_ Hsync] _ IH]; [done|].
  intros [Hh Hps]%Forall_cons. f_equal; [|by apply IH].
  rewrite <-Hsync by by left. by rewrite (next_halt _ Hh), app_nil_r.
Qed.

(** Once everything is delivered on an open channel, the consumer holds
    an interleaving of all that the producers set out to send. *)
Lemma pool_delivered_received mss s :
  pool_inv cap mss s → pool_closed s = false → pool_delivered s →
  merges mss (pool_received s).
Proof.
  intros [(ss & Hm & Hl) _] Hc [Hh Hb]. rewrite Hc in Hl.
  rewrite Hb, app_nil_r in Hm. by rewrite <-(logs_complete _ _ _ Hl Hh).
Qed.

Lemma halted_true p : halted p = true ↔ next p = Halt.
Proof. unfold halted. by destruct (next p). Qed.

Lemma halted_all ps :
  forallb halted ps = true ↔ Forall (λ p, next p = Halt) ps.
Proof.
  induction ps as [|p ps IH]; simpl; [by split|].
  by rewrite andb_true_iff, Forall_cons, IH, halted_true.
Qed.

Lemma pool_done_delivered s : pool_done s = true ↔ pool_delivered s.
Proof.
  unfold pool_done, pool_delivered. rewrite andb_true_iff, halted_all.
  destruct (pool_buf s); naive_solver.
Qed.

(** ** Every run ends *)

Lemma pool_size_middle ps1 p ps2 :
  sum_list_with weight (ps1 ++ p :: ps2) =
  sum_list_with weight ps1 + weight p + sum_list_with weight ps2.
Proof. rewrite sum_list_with_app. simpl. lia. Qed.

Lemma pool_step_size s s' : pool_step cap s s' → pool_size s' < pool_size s.
Proof.
  destruct 1 as [ps1 p ps2 p' b r c Hn|ps1 p ps2 m p' b r Hn ?|
                 ps1 p ps2 m p' r Hn ?|ps1 p ps2 m p' b r Hn|
                 ps m b r c|ps b r];
    unfold pool_size; simpl; rewrite ?pool_size_middle, ?length_app; simpl;
    try (destruct (next_internal _ _ Hn) as [_ ?]);
    try (destruct (next_send _ _ _ Hn) as [_ ?]);
    try (destruct (crash_halt p ErrSendOnClosedChannel) as [_ ->]);
    try destruct c; lia.
Qed.

Lemma pool_step_sn s : sn (pool_step cap) s.
Proof.
  remember (pool_size s) as n eqn:Hn. revert s Hn.
  induction n as [n IH] using lt_wf_ind. intros s ->.
  constructor. intros s' Hstep%pool_step_size. by eapply IH.
Qed.

(** ** No deadlock *)

(** Every producer has come to its end, or there is a first one that has
    not. *)
Lemma workers_active ps :
  Forall (λ p, next p = Halt) ps ∨
  ∃ ps1 p ps2, ps = ps1 ++ p :: ps2 ∧ next p ≠ Halt.
Proof.
  induction ps as [|p ps [IH|(ps1 & q & ps2 & -> & ?)]]; [by left| |].
  - destruct (next p) eqn:Hn; [right|right|left; by constructor];
      exists [], p, ps; (split; [done|congruence]).
  - right. by exists (p :: ps1), q, ps2.
Qed.

(** While the channel is open, a pool that has not delivered everything
    can take a step that leaves the channel open, whatever the
    capacity. *)
Lemma pool_progress s :
  pool_closed s = false →
  pool_delivered s ∨ ∃ s', pool_step cap s s' ∧ pool_closed s' = false.
Proof.
  destruct s as [ps [|m b] r c]; simpl; intros ->;
    [|right; eexists; split; [apply pool_recv|done]].
  destruct (workers_active ps) as [?|(ps1 & p & ps2 & -> & Hn)]; [by left|].
  right. destruct (next p) as [p'|m p'|] eqn:Hp; [| |done].
  - eexists. split; [by apply pool_internal|done].
  - destruct cap as [|n] eqn:Hcap.
    + eexists. split; [by eapply pool_handoff|done].
    + eexists. split; [eapply pool_send; [done|simpl; lia]|done].
Qed.

(** Liveness: from every state of a pool whose channel is open,
    everything the producers set out to send can be delivered. *)
Lemma pool_deliver mss s :
  pool_inv cap mss s → pool_closed s = false →
  ∃ s', rtc (pool_step cap) s s' ∧ pool_delivered s' ∧
        pool_closed s' = false ∧ merges mss (pool_received s').
Proof.
  remember (pool_size s) as n eqn:Hn. revert s Hn.
  induction n as [n IH] using lt_wf_ind. intros s -> Hinv Hc.
  destruct (pool_progress s Hc) as [Hd|(s1 & Hstep & Hc1)].
  - exists s. split_and!; [done..|]. by apply pool_delivered_received.
  - destruct (IH (pool_size s1) (pool_step_size _ _ Hstep) s1 eq_refl)
      as (s' & ? & ? & ? & ?); eauto using pool_step_inv.
    exists s'. split_and!; try done. by eapply rtc_l.
Qed.

(** ** The closed channel *)

(** The closed flag only rises, and a closed channel accepts nothing. *)
Lemma pool_step_closed s s' :
  pool_step cap s s' → pool_closed s = true →
  pool_closed s' = true ∧
  pool_received s' ++ pool_buf s' = pool_received s ++ pool_buf s.
Proof. destruct 1; simpl; try done. by rewrite <-app_assoc. Qed.

Lemma pool_step_open s s' :
  pool_step cap s s' → pool_closed s' = false → pool_closed s = false.
Proof. by destruct 1. Qed.

(** ** What a producer goes through *)

(** Along a run that leaves the channel open no producer panics: each
    has moved on by steps of its own. *)
Lemma pool_step_moves s s' :
  pool_step cap s s' → pool_closed s' = false →
  Forall2 (rtc moves) (workers s) (workers s').
Proof.
  destruct 1 as [ps1 p ps2 p' b r c Hn|ps1 p ps2 m p' b r Hn ?|
                 ps1 p ps2 m p' r Hn ?|ps1 p ps2 m p' b r Hn|
                 ps m b r c|ps b r]; simpl; intros Hc; try done;
    try (apply Forall2_app; [by apply Forall_Forall2_diag, Forall_true|];
         constructor; [|by apply Forall_Forall2_diag, Forall_true];
         apply rtc_once; unfold moves; eauto);
    by apply Forall_Forall2_diag, Forall_true.
Qed.

Lemma pool_steps_moves s s' :
  rtc (pool_step cap) s s' → pool_closed s' = false →
  Forall2 (rtc moves) (workers s) (workers s').
Proof.
  induction 1 as [s|s s1 s' Hstep Hrun IH]; intros Hc.
  { by apply Forall_Forall2_diag, Forall_true. }
  specialize (IH Hc). assert (pool_closed s1 = false) as Hc1.
  { clear IH Hstep. induction Hrun; eauto using pool_step_open. }
  pose proof (pool_step_moves _ _ Hstep Hc1) as Hm.
  clear Hstep Hrun. revert IH. generalize (workers s').
  induction Hm as [|p p1 ps ps1 ? _ IHm]; intros ps' Hps';
    inversion Hps'; simplify_eq; constructor; [by etrans|by apply IHm].
Qed.

(** ** The schedule is a run *)

Lemma pool_do_step a s s' : pool_do cap a s = Some s' → pool_step cap s s'.
Proof.
  destruct s as [ps b r c]. destruct a as [i| |]; simpl.
  - destruct (ps !! i) as [p|] eqn:Hi; [|done].
    pose proof (take_drop_middle ps i p Hi) as Hps.
    assert (∀ q, <[i := q]> ps = take i ps ++ q :: drop (S i) ps) as Hq.
    { intros q. apply insert_take_drop. by eapply lookup_lt_Some. }
    destruct (next p) as [p'|m p'|] eqn:Hn; [| |done].
    + intros [= <-]. rewrite Hq. rewrite <-Hps at 1. by constructor.
    + destruct c; [intros [= <-]; rewrite Hq; rewrite <-Hps at 1;
                   by econstructor|].
      destruct (decide (length b < cap));
        [intros [= <-]; rewrite Hq; rewrite <-Hps at 1; by constructor|].
      destruct b; [|done]. intros [= <-]. rewrite Hq. rewrite <-Hps at 1.
      constructor; [done|simpl in *; lia].
  - destruct b; [done|]. intros [= <-]. constructor.
  - destruct c; [done|]. intros [= <-]. constructor.
Qed.

Lemma pool_run_steps acts s : rtc (pool_step cap) s (pool_run cap acts s).
Proof.
  revert s. induction acts as [|a acts IH]; intros s; simpl; [done|].
  destruct (pool_do cap a s) as [s'|] eqn:Hdo; simpl; [|apply IH].
  eapply rtc_l; [by eapply pool_do_step|apply IH].
Qed.

End pool.

(** ** Producers of different kinds in one pool *)

(** A producer of any type, packed with its implementation of the
    interface. *)
Record Worker : Type := mkWorker {
  worker_type : Type;
  worker_impl : Producer worker_type;
  worker_state : worker_type;
}.

Definition pack {P : Type} `{Producer P} (p : P) : Worker := mkWorker P _ p.

Definition worker_next (w : Worker) : Move Worker :=
  match @next _ (worker_impl w) (worker_state w) with
  | Internal p' => Internal (mkWorker _ (worker_impl w) p')
  | Send m p' => Send m (mkWorker _ (worker_impl w) p')
  | Halt => Halt
  end.

#[export, refine] Instance worker_producer : Producer Worker := {
  next := worker_next;
  crash w e :=
    mkWorker _ (worker_impl w) (@crash _ (worker_impl w) (worker_state w) e);
  sends w := @sends _ (worker_impl w) (worker_state w);
  weight w := @weight _ (worker_impl w) (worker_state w);
}.
Proof.
  - intros [T I p] w'. unfold worker_next. simpl.
    destruct (next p) as [p'| |] eqn:Hn; intros [= <-]. simpl.
    by apply next_internal.
  - intros [T I p] m w'. unfold worker_next. simpl.
    destruct (next p) as [|m' p'|] eqn:Hn; intros [= <- <-]. simpl.
    by apply next_send.
  - intros [T I p]. unfold worker_next. simpl.
    destruct (next p) eqn:Hn; intros [=]. by apply next_halt.
  - intros [T I p] e. unfold worker_next. simpl.
    by destruct (crash_halt p e) as [-> ->].
Defined.

Section workers.
Context {P : Type} `{Producer P}.
Implicit Types (p : P) (w : Worker).

Lemma pack_sends p : sends (pack p) = sends p.
Proof. done. Qed.

Lemma pack_halt p : next (pack p) = Halt ↔ next p = Halt.
Proof. simpl. unfold worker_next. simpl. by destruct (next p). Qed.

(** A packed producer moves as the producer it packs. *)
Lemma pack_moves p w : moves (pack p) w → ∃ p', w = pack p' ∧ moves p p'.
Proof.
  unfold moves. simpl. unfold worker_next. simpl.
  destruct (next p) as [p'|m p'|]; intros [Hn|[m' Hn]]; simplify_eq;
    exists p'; eauto.
Qed.

Lemma pack_rtc_moves p w :
  rtc moves (pack p) w → ∃ p', w = pack p' ∧ rtc moves p p'.
Proof.
  intros Hrun. remember (pack p) as w0 eqn:Hw. revert p Hw.
  induction Hrun as [w|w w1 w2 Hm _ IH]; intros p ->; [by exists p|].
  apply pack_moves in Hm as (p1 & -> & ?).
  destruct (IH p1 eq_refl) as (p' & -> & ?). exists p'.
  split; [done|]. by eapply rtc_l.
Qed.

End workers.
