(* ===== verification/Sql.v ===== *)
(** * The fragment of SQL the scraper's query is written in

    Three-valued logic, comparison of nullable values under a collation,
    [LEFT JOIN], [WHERE] and [ORDER BY] as functions on lists of rows.  The
    collation is an interface ([Collation]): equality and order of strings
    as the server compares them.  The theorems about the query hold for
    every collation; [binary_collation] compares bytes, [ci_collation]
    ignores the case of ASCII letters, and both make the definitions
    computable. *)

From S2P Require Import Prelude Database.

(** ** Three-valued logic *)

(** [None] is SQL's UNKNOWN. *)
Definition tv : Type := option bool.

Definition tv_and (a b : tv) : tv :=
  match a, b with
  | Some false, _ | _, Some false => Some false
  | Some true, Some true => Some true
  | _, _ => None
  end.

Definition tv_not (a : tv) : tv := negb <$> a.

(** [WHERE] and [ON] keep a row when the condition is TRUE; FALSE and
    UNKNOWN both drop it. *)
Definition holds (a : tv) : bool := bool_decide (a = Some true).

Lemma holds_tv_and a b : holds (tv_and a b) = holds a && holds b.
Proof. by destruct a as [[]|], b as [[]|]. Qed.

Lemma holds_tv_not a : holds (tv_not a) = bool_decide (a = Some false).
Proof. by destruct a as [[]|]. Qed.

Lemma tv_and_comm a b : tv_and a b = tv_and b a.
Proof. by destruct a as [[]|], b as [[]|]. Qed.

Lemma tv_and_assoc a b c : tv_and a (tv_and b c) = tv_and (tv_and a b) c.
Proof. by destruct a as [[]|], b as [[]|], c as [[]|]. Qed.

(** ** Collations *)

Class Collation : Type := mkCollation {
  coll_eq : relation string;
  coll_le : relation string;
  coll_eq_equiv :: Equivalence coll_eq;
  coll_eq_dec :: RelDecision coll_eq;
  coll_le_preorder :: PreOrder coll_le;
  coll_le_total :: Total coll_le;
  coll_le_dec :: RelDecision coll_le;
}.

(** The binary collation: strings are equal when they are the same bytes,
    and ordered bytewise. *)
#[export] Instance binary_collation : Collation :=
  mkCollation (=) String.le _ _ _ _ _.

(** A case-insensitive collation on ASCII letters, as the [_ci]
    collations of the server compare identifiers: strings are compared
    after folding [A]-[Z] to lower case. *)
Definition to_lower (c : ascii) : ascii :=
  let n := Ascii.N_of_ascii c in
  if ((65 <=? n) && (n <=? 90))%N then Ascii.ascii_of_N (n + 32) else c.

Fixpoint fold_case (s : string) : string :=
  match s with
  | EmptyString => EmptyString
  | String c s' => String (to_lower c) (fold_case s')
  end.

Definition ci_eq : relation string := λ x y, fold_case x = fold_case y.
Definition ci_le : relation string := λ x y, String.le (fold_case x) (fold_case y).

#[export] Instance ci_eq_equiv : Equivalence ci_eq.
Proof. unfold ci_eq. split; [done|by intros ??|by intros ??? -> ->]. Qed.
#[export] Instance ci_eq_dec : RelDecision ci_eq.
Proof. unfold ci_eq. intros x y. apply _. Defined.
#[export] Instance ci_le_preorder : PreOrder ci_le.
Proof.
  unfold ci_le. split; [by intros ?|]. intros x y z ??. by etrans.
Qed.
#[export] Instance ci_le_total : Total ci_le.
Proof. intros x y. apply (total String.le). Qed.
#[export] Instance ci_le_dec : RelDecision ci_le.
Proof. unfold ci_le. intros x y. apply _. Defined.

Definition ci_collation : Collation :=
  mkCollation ci_eq ci_le _ _ _ _ _.

Section sql.
Context `{Collation}.
Implicit Types (a b : sqlval).

(** ** Comparisons of nullable values *)

Definition sql_eq a b : tv :=
  match a, b with
  | Some x, Some y => Some (bool_decide (coll_eq x y))
  | _, _ => None
  end.

Definition sql_ne a b : tv := tv_not (sql_eq a b).

Definition sql_is_null a : tv := Some (bool_decide (a = None)).

Lemma holds_sql_eq a b :
  holds (sql_eq a b) = true ↔ ∃ x y, a = Some x ∧ b = Some y ∧ coll_eq x y.
Proof.
  destruct a as [x|], b as [y|]; simpl; unfold holds;
    rewrite bool_decide_eq_true; [|naive_solver..].
  split.
  - intros [= Hd%bool_decide_eq_true]. eauto.
  - intros (? & ? & [= <-] & [= <-] & Hxy). by rewrite bool_decide_eq_true_2.
Qed.

Lemma holds_sql_ne a b :
  holds (sql_ne a b) = true ↔ ∃ x y, a = Some x ∧ b = Some y ∧ ¬ coll_eq x y.
Proof.
  unfold sql_ne. rewrite holds_tv_not, bool_decide_eq_true.
  destruct a as [x|], b as [y|]; simpl; [|naive_solver..].
  split.
  - intros [= Hd%bool_decide_eq_false]. eauto.
  - intros (? & ? & [= <-] & [= <-] & Hxy). by rewrite bool_decide_eq_false_2.
Qed.

(** A comparison with [NULL] never holds, neither [=] nor [!=]. *)
Lemma sql_eq_null_l b : sql_eq None b = None.
Proof. done. Qed.

Lemma sql_ne_null_l b : holds (sql_ne None b) = false.
Proof. done. Qed.

Lemma holds_sql_is_null a : holds (sql_is_null a) = bool_decide (a = None).
Proof. unfold holds, sql_is_null. by destruct a. Qed.

(** ** Relational operators *)

Section operators.
Context {A B : Type}.

(** [l LEFT JOIN r ON on]: every pair the condition holds of, and every
    row of [l] with no such partner once, padded with [NULL]s. *)
Definition left_join (on : A → B → tv) (l : list A) (r : list B)
    : list (A * option B) :=
  x ← l;
  match filter (λ y, holds (on x y)) r with
  | [] => [(x, None)]
  | ys => (λ y, (x, Some y)) <$> ys
  end.

Definition where_ (cond : A → tv) (l : list A) : list A :=
  filter (λ x, holds (cond x)) l.

(** The rows of [l] that have no partner in [r]. *)
Definition anti_join (on : A → B → tv) (l : list A) (r : list B) : list A :=
  filter (λ x, forallb (λ y, negb (holds (on x y))) r) l.

End operators.

(** ** [ORDER BY]

    Ascending order on a nullable key; [NULL] sorts first, as in MySQL. *)

Definition key_le a b : Prop :=
  match a, b with
  | None, _ => True
  | Some _, None => False
  | Some x, Some y => coll_le x y
  end.

#[export] Instance key_le_dec : RelDecision key_le.
Proof. intros [x|] [y|]; simpl; apply _. Defined.

#[export] Instance key_le_preorder : PreOrder key_le.
Proof.
  split.
  - by intros [x|]; simpl.
  - intros [x|] [y|] [z|]; simpl; try done. apply transitivity.
Qed.

#[export] Instance key_le_total : Total key_le.
Proof. intros [x|] [y|]; simpl; auto. apply total, _. Qed.

Definition by_key {A} (key : A → sqlval) : relation A :=
  λ x y, key_le (key x) (key y).

#[export] Instance by_key_dec {A} (key : A → sqlval) : RelDecision (by_key key).
Proof. intros x y. unfold by_key. apply _. Defined.

#[export] Instance by_key_preorder {A} (key : A → sqlval) : PreOrder (by_key key).
Proof.
  unfold by_key. split; [by intros x|].
  intros x y z. apply transitivity.
Qed.

#[export] Instance by_key_total {A} (key : A → sqlval) : Total (by_key key).
Proof. intros x y. unfold by_key. apply total, _. Qed.

Definition order_by {A} (key : A → sqlval) (l : list A) : list A :=
  merge_sort (by_key key) l.

(** ** Properties of the operators *)

Section operator_lemmas.
Context {A B : Type}.
Implicit Types (on : A → B → tv) (l : list A) (r : list B).

Lemma left_join_nil on r : left_join on [] r = [].
Proof. done. Qed.

Lemma left_join_cons on x l r :
  left_join on (x :: l) r =
    match filter (λ y, holds (on x y)) r with
    | [] => [(x, None)]
    | ys => (λ y, (x, Some y)) <$> ys
    end ++ left_join on l r.
Proof. done. Qed.

Lemma no_partner_filter_nil on x r :
  forallb (λ y, negb (holds (on x y))) r = true ↔
  filter (λ y, holds (on x y)) r = [].
Proof.
  induction r as [|y r IH]; [done|]. simpl. rewrite filter_cons.
  destruct (holds (on x y)) eqn:Hy; simpl; [done|apply IH].
Qed.

Lemma left_join_cons_unmatched on x l r :
  forallb (λ y, negb (holds (on x y))) r = true →
  left_join on (x :: l) r = (x, None) :: left_join on l r.
Proof. intros Hx%no_partner_filter_nil. by rewrite left_join_cons, Hx. Qed.

Lemma left_join_cons_matched on x l r :
  forallb (λ y, negb (holds (on x y))) r = false →
  left_join on (x :: l) r =
    ((λ y, (x, Some y)) <$> filter (λ y, holds (on x y)) r) ++ left_join on l r.
Proof.
  intros Hx. rewrite left_join_cons.
  destruct (filter _ r) eqn:Hf; [|done].
  apply no_partner_filter_nil in Hf. congruence.
Qed.

(** The rows [LEFT JOIN] pads with [NULL] are those of the anti-join, in
    the order of the left table. *)
Lemma left_join_padded on l r :
  filter (λ p, p.2 = None) (left_join on l r) =
    (λ x, (x, None)) <$> anti_join on l r.
Proof.
  unfold anti_join. induction l as [|x l IH]; [done|].
  rewrite filter_cons.
  destruct (forallb (λ y, negb (holds (on x y))) r) eqn:Hx.
  - rewrite left_join_cons_unmatched, filter_cons_True, decide_True by done.
    by rewrite fmap_cons, IH.
  - rewrite left_join_cons_matched, filter_app, IH by done. simpl.
    rewrite list_filter_none; [done|].
    apply Forall_fmap, Forall_true. by intros y.
Qed.

Lemma elem_of_left_join_padded on l r x :
  (x, None) ∈ left_join on l r ↔
  x ∈ l ∧ ∀ y, y ∈ r → holds (on x y) = false.
Proof.
  unfold left_join. rewrite list_elem_of_bind. split.
  - intros (x' & Hin & Hx'). destruct (filter _ r) eqn:Hf.
    + apply list_elem_of_singleton in Hin as [= ->]. split; [done|].
      apply no_partner_filter_nil in Hf.
      intros y Hy. by apply negb_true_iff, (proj1 (forallb_elem_of _ _) Hf).
    + by apply list_elem_of_fmap in Hin as (? & [=] & _).
  - intros [Hx Hall]. exists x. split; [|done].
    rewrite (proj1 (no_partner_filter_nil on x r)); [by left|].
    apply forallb_elem_of. intros y Hy. by apply negb_true_iff, Hall.
Qed.

Lemma elem_of_left_join_matched on l r x y :
  (x, Some y) ∈ left_join on l r ↔ x ∈ l ∧ y ∈ r ∧ holds (on x y) = true.
Proof.
  unfold left_join. rewrite list_elem_of_bind. split.
  - intros (x' & Hin & Hx'). destruct (filter _ r) eqn:Hf.
    + by apply list_elem_of_singleton in Hin.
    + rewrite <-Hf in Hin. apply list_elem_of_fmap in Hin as (y' & [= -> ->] & Hy).
      apply list_elem_of_filter in Hy as [Hy ?]. by apply Is_true_true in Hy.
  - intros (Hx & Hy & Hon). exists x. split; [|done].
    assert (y ∈ filter (λ y, holds (on x y)) r) as Hf.
    { apply list_elem_of_filter. split; [by apply Is_true_true|done]. }
    destruct (filter _ r) eqn:E; [by apply elem_of_nil in Hf|].
    rewrite <-E. apply list_elem_of_fmap. exists y. by rewrite E.
Qed.

Lemma elem_of_anti_join on l r x :
  x ∈ anti_join on l r ↔ x ∈ l ∧ ∀ y, y ∈ r → holds (on x y) = false.
Proof.
  unfold anti_join.
  rewrite list_elem_of_filter, Is_true_true, forallb_elem_of, (comm (∧)).
  by setoid_rewrite negb_true_iff.
Qed.

(** A [WHERE] that rejects every matched pair keeps of a [LEFT JOIN] only
    padded rows: the join and the filter together are an anti-join. *)
Lemma where_left_join (cond : A * option B → tv) on l r :
  (∀ x y, holds (on x y) = true → holds (cond (x, Some y)) = false) →
  where_ cond (left_join on l r) =
    (λ x, (x, None)) <$>
      filter (λ x, holds (cond (x, None))) (anti_join on l r).
Proof.
  intros Hcond. unfold where_, anti_join. induction l as [|x l IH]; [done|].
  rewrite (filter_cons _ x l).
  destruct (forallb (λ y, negb (holds (on x y))) r) eqn:Hx.
  - rewrite left_join_cons_unmatched, !filter_cons, IH by done. simpl.
    rewrite filter_cons. by destruct (decide _).
  - rewrite left_join_cons_matched, filter_app, IH by done. simpl.
    rewrite list_filter_none; [done|]. apply Forall_fmap, Forall_forall.
    intros y [Hy _]%list_elem_of_filter. simpl.
    apply Is_true_true in Hy. rewrite (Hcond x y Hy). by intros [].
Qed.

Lemma anti_join_existsb on l r :
  anti_join on l r = filter (λ x, negb (existsb (λ y, holds (on x y)) r)) l.
Proof.
  unfold anti_join. apply list_filter_iff. intros x.
  replace (forallb _ r) with (negb (existsb (λ y, holds (on x y)) r)); [done|].
  induction r as [|y r IH]; simpl; [done|]. by rewrite negb_orb, IH.
Qed.

Lemma elem_of_where_ (cond : A → tv) l x :
  x ∈ where_ cond l ↔ x ∈ l ∧ holds (cond x) = true.
Proof. unfold where_. by rewrite list_elem_of_filter, Is_true_true, (comm (∧)). Qed.

(** [ORDER BY] permutes its input and leaves it sorted by the key. *)
Lemma order_by_Permutation (key : A → sqlval) l : order_by key l ≡ₚ l.
Proof. apply merge_sort_Permutation. Qed.

Lemma order_by_Sorted (key : A → sqlval) l :
  Sorted (by_key key) (order_by key l).
Proof. apply Sorted_merge_sort, _. Qed.

Lemma order_by_StronglySorted (key : A → sqlval) l :
  StronglySorted (by_key key) (order_by key l).
Proof. apply StronglySorted_merge_sort; apply _. Qed.

Lemma elem_of_order_by (key : A → sqlval) l x : x ∈ order_by key l ↔ x ∈ l.
Proof. by rewrite order_by_Permutation. Qed.

Lemma length_order_by (key : A → sqlval) l : length (order_by key l) = length l.
Proof. by rewrite order_by_Permutation. Qed.

End operator_lemmas.

(** ** The operators through a change of representation of the rows *)

Section transport.
Context {A A' B B' : Type} (f : A → A') (g : B → B').
Implicit Types (l : list A) (r : list B).

Lemma left_join_fmap (on : A → B → tv) (on' : A' → B' → tv) l r :
  (∀ x y, on' (f x) (g y) = on x y) →
  left_join on' (f <$> l) (g <$> r) =
    prod_map f (fmap (M := option) g) <$> left_join on l r.
Proof.
  intros Hon. induction l as [|x l IH]; [done|].
  rewrite fmap_cons, !left_join_cons, fmap_app, IH. f_equal.
  rewrite (list_filter_fmap_iff g (λ y, holds (on x y))
             (λ y, holds (on' (f x) y))) by (intros y; by rewrite Hon).
  destruct (filter _ r) as [|y ys]; [done|].
  rewrite (fmap_cons g), <-!list_fmap_compose, !fmap_cons. f_equal.
  by rewrite <-list_fmap_compose.

Qed.

Lemma where_fmap (cond : A → tv) (cond' : A' → tv) l :
  (∀ x, cond' (f x) = cond x) →
  where_ cond' (f <$> l) = f <$> where_ cond l.
Proof.
  intros Hc. apply list_filter_fmap_iff. intros x. by rewrite Hc.
Qed.

Lemma order_by_fmap (key : A → sqlval) (key' : A' → sqlval) l :
  (∀ x, key' (f x) = key x) →
  order_by key' (f <$> l) = f <$> order_by key l.
Proof.
  intros Hk. apply merge_sort_fmap. intros x y. unfold by_key.
  by rewrite !Hk.
Qed.

End transport.

End sql.
