(* ===== verification/SqlSyntax.v ===== *)
(** * The text of a query: lexer, parser and evaluation

    The scraper hands the server a text.  This file gives the fragment of
    SQL that text is written in a syntax and a meaning of its own, so that
    what the query selects is derived from its text and not only asserted
    of it: a lexer ([lex]) and a parser ([parse_query]) for statements of
    the shape

      SELECT e, ... FROM table alias LEFT JOIN table alias ON c
      WHERE c ORDER BY e;

    with conditions that are conjunctions of [=], [!=] and [IS NULL], and
    an evaluator ([eval_query]) over tables with named columns, built
    from the operators of [Sql].  Keywords are recognised in any case;
    a column is referred to by its alias-qualified name.  The evaluator
    refuses a query that names a table the server does not have or a
    column that is not in scope, as a server does when it prepares a
    statement. *)

From S2P Require Import Prelude Prometheus Database Sql.

(** ** Tokens *)

Inductive token : Type :=
| TWord (w : string)
| TString (s : string)
| TSym (s : string).

#[export] Instance token_eq_dec : EqDecision token.
Proof. solve_decision. Defined.

Definition is_space (c : ascii) : bool :=
  bool_decide (byte_of c ∈ [32; 9; 10; 13]%N).

Definition is_word_char (c : ascii) : bool :=
  is_alpha c || is_digit c || is_underscore c || bool_decide (c = "."%char).

Definition is_op_char (c : ascii) : bool :=
  bool_decide (c ∈ ["="; "!"; "<"; ">"]%char).

Definition is_punct (c : ascii) : bool :=
  bool_decide (c ∈ [","; ";"]%char).

Definition snoc (s : string) (c : ascii) : string := s +:+ String c "".

Inductive lex_state : Type :=
| LStart
| LWord (acc : string)
| LOp (acc : string)
| LString (acc : string).

(** A character read between two tokens. *)
Definition lex_start (c : ascii) : option (lex_state * list token) :=
  if is_space c then Some (LStart, [])
  else if is_word_char c then Some (LWord (String c ""), [])
  else if is_op_char c then Some (LOp (String c ""), [])
  else if bool_decide (c = "'"%char) then Some (LString "", [])
  else if is_punct c then Some (LStart, [TSym (String c "")])
  else None.

Definition lex_step (st : lex_state) (c : ascii)
    : option (lex_state * list token) :=
  match st with
  | LStart => lex_start c
  | LWord w =>
      if is_word_char c then Some (LWord (snoc w c), [])
      else '(st', out) ← lex_start c; Some (st', TWord w :: out)
  | LOp o =>
      if is_op_char c then Some (LOp (snoc o c), [])
      else '(st', out) ← lex_start c; Some (st', TSym o :: out)
  | LString s =>
      if bool_decide (c = "'"%char) then Some (LStart, [TString s])
      else Some (LString (snoc s c), [])
  end.

(** The end of the text: a literal left open is an error. *)
Definition lex_flush (st : lex_state) : option (list token) :=
  match st with
  | LStart => Some []
  | LWord w => Some [TWord w]
  | LOp o => Some [TSym o]
  | LString _ => None
  end.

Fixpoint lex_from (st : lex_state) (s : string) : option (list token) :=
  match s with
  | EmptyString => lex_flush st
  | String c s' =>
      '(st', out) ← lex_step st c;
      rest ← lex_from st' s';
      Some (out ++ rest)
  end.

Definition lex : string → option (list token) := lex_from LStart.

(** ** Abstract syntax *)

Inductive expr : Type :=
| EColumn (name : string)
| EString (s : string).

Inductive cond : Type :=
| CEq (a b : expr)
| CNe (a b : expr)
| CIsNull (a : expr)
| CAnd (c1 c2 : cond).

Record table_ref : Type := mkTableRef {
  tr_table : string;
  tr_alias : string;
}.

Record query : Type := mkQuery {
  q_select : list expr;
  q_from : table_ref;
  q_join : table_ref;
  q_on : cond;
  q_where : cond;
  q_order_by : expr;
}.

#[export] Instance expr_eq_dec : EqDecision expr.
Proof. solve_decision. Defined.
#[export] Instance cond_eq_dec : EqDecision cond.
Proof. solve_decision. Defined.
#[export] Instance table_ref_eq_dec : EqDecision table_ref.
Proof. solve_decision. Defined.
#[export] Instance query_eq_dec : EqDecision query.
Proof. solve_decision. Defined.

(** ** Parser *)

(** [w] is the keyword [k], in any case; [k] is given in lower case. *)
Definition kw (k w : string) : bool := bool_decide (fold_case w = k).

Definition reserved : list string :=
  ["select"; "from"; "left"; "join"; "on"; "where"; "and"; "order"; "by";
   "is"; "null"].

Definition parse_expr (t : token) : option expr :=
  match t with
  | TWord w =>
      if bool_decide (fold_case w ∈ reserved) then None else Some (EColumn w)
  | TString s => Some (EString s)
  | TSym _ => None
  end.

Definition expect (k : string) (ts : list token) : option (list token) :=
  match ts with
  | TWord w :: rest => if kw k w then Some rest else None
  | _ => None
  end.

Definition parse_cmp (a : token) (op : string) (b : token) : option cond :=
  x ← parse_expr a; y ← parse_expr b;
  if bool_decide (op = "=") then Some (CEq x y)
  else if bool_decide (op = "!=") || bool_decide (op = "<>") then Some (CNe x y)
  else None.

Definition conj (acc : option cond) (c : cond) : cond :=
  match acc with
  | None => c
  | Some c0 => CAnd c0 c
  end.

(** A conjunction of predicates, associated to the left as [AND] is. *)
Fixpoint parse_conj (acc : option cond) (ts : list token) {struct ts}
    : option (cond * list token) :=
  match ts with
  | a :: TSym op :: b :: rest =>
      match parse_cmp a op b with
      | None => None
      | Some p =>
          match rest with
          | TWord w :: rest' =>
              if kw "and" w then parse_conj (Some (conj acc p)) rest'
              else Some (conj acc p, rest)
          | _ => Some (conj acc p, rest)
          end
      end
  | a :: TWord k1 :: TWord k2 :: rest =>
      if kw "is" k1 && kw "null" k2 then
        match parse_expr a with
        | None => None
        | Some x =>
            match rest with
            | TWord w :: rest' =>
                if kw "and" w then parse_conj (Some (conj acc (CIsNull x))) rest'
                else Some (conj acc (CIsNull x), rest)
            | _ => Some (conj acc (CIsNull x), rest)
            end
        end
      else None
  | _ => None
  end.

Fixpoint parse_select (ts : list token) {struct ts}
    : option (list expr * list token) :=
  match ts with
  | t :: TSym s :: rest =>
      if bool_decide (s = ",") then
        e ← parse_expr t; '(es, r) ← parse_select rest; Some (e :: es, r)
      else e ← parse_expr t; Some ([e], TSym s :: rest)
  | t :: rest => e ← parse_expr t; Some ([e], rest)
  | [] => None
  end.

Definition parse_table (ts : list token) : option (table_ref * list token) :=
  match ts with
  | TWord t :: TWord a :: rest =>
      if bool_decide (fold_case t ∈ reserved) || bool_decide (fold_case a ∈ reserved)
      then None else Some (mkTableRef t a, rest)
  | _ => None
  end.

Definition parse_end (ts : list token) : option unit :=
  match ts with
  | [] => Some ()
  | [TSym s] => if bool_decide (s = ";") then Some () else None
  | _ => None
  end.

Definition parse_query (ts : list token) : option query :=
  ts ← expect "select" ts; '(sel, ts) ← parse_select ts;
  ts ← expect "from" ts; '(tl, ts) ← parse_table ts;
  ts ← expect "left" ts; ts ← expect "join" ts; '(tr, ts) ← parse_table ts;
  ts ← expect "on" ts; '(on, ts) ← parse_conj None ts;
  ts ← expect "where" ts; '(wh, ts) ← parse_conj None ts;
  ts ← expect "order" ts; ts ← expect "by" ts;
  match ts with
  | t :: ts => e ← parse_expr t; parse_end ts;; Some (mkQuery sel tl tr on wh e)
  | [] => None
  end.

Definition parse (text : string) : option query := lex text ≫= parse_query.

(** ** Evaluation *)

(** A table of the server: its column names and its rows. *)
Record table : Type := mkTable {
  tbl_columns : list string;
  tbl_rows : list (list sqlval);
}.

Definition schema : Type := string → option table.

(** A row in scope: qualified column names and their values. *)
Definition env : Type := list (string * sqlval).

Fixpoint env_get (name : string) (ρ : env) : sqlval :=
  match ρ with
  | [] => None
  | (n, v) :: ρ' => if bool_decide (n = name) then v else env_get name ρ'
  end.

Definition qualified (alias column : string) : string :=
  alias +:+ "." +:+ column.

Definition bind_row (alias : string) (columns : list string)
    (values : list sqlval) : env :=
  zip (qualified alias <$> columns) values.

(** The row a [LEFT JOIN] pads an unmatched left row with. *)
Definition null_row (alias : string) (columns : list string) : env :=
  (λ c, (qualified alias c, None)) <$> columns.

Definition expr_ok (scope : list string) (e : expr) : bool :=
  match e with
  | EColumn n => bool_decide (n ∈ scope)
  | EString _ => true
  end.

Fixpoint cond_ok (scope : list string) (c : cond) : bool :=
  match c with
  | CEq a b | CNe a b => expr_ok scope a && expr_ok scope b
  | CIsNull a => expr_ok scope a
  | CAnd c1 c2 => cond_ok scope c1 && cond_ok scope c2
  end.

Section eval.
Context `{Collation}.

Definition eval_expr (ρ : env) (e : expr) : sqlval :=
  match e with
  | EColumn n => env_get n ρ
  | EString s => Some s
  end.

Fixpoint eval_cond (ρ : env) (c : cond) : tv :=
  match c with
  | CEq a b => sql_eq (eval_expr ρ a) (eval_expr ρ b)
  | CNe a b => sql_ne (eval_expr ρ a) (eval_expr ρ b)
  | CIsNull a => sql_is_null (eval_expr ρ a)
  | CAnd c1 c2 => tv_and (eval_cond ρ c1) (eval_cond ρ c2)
  end.

(** The row of the join in scope after [FROM]: the left row and the right
    row, or [NULL]s in its place. *)
Definition joined_env (pad : env) (p : env * option env) : env :=
  p.1 ++ default pad p.2.

Definition eval_query (db : schema) (q : query) : option (list RawRow) :=
  L ← db (tr_table (q_from q));
  R ← db (tr_table (q_join q));
  let aL := tr_alias (q_from q) in
  let aR := tr_alias (q_join q) in
  let scope :=
    (qualified aL <$> tbl_columns L) ++ (qualified aR <$> tbl_columns R) in
  if cond_ok scope (q_on q) && cond_ok scope (q_where q) &&
     forallb (expr_ok scope) (q_order_by q :: q_select q)
  then
    let ρ := joined_env (null_row aR (tbl_columns R)) in
    Some ((λ p, eval_expr (ρ p) <$> q_select q) <$>
          order_by (λ p, eval_expr (ρ p) (q_order_by q))
            (where_ (λ p, eval_cond (ρ p) (q_where q))
               (left_join (λ l r, eval_cond (l ++ r) (q_on q))
                  (bind_row aL (tbl_columns L) <$> tbl_rows L)
                  (bind_row aR (tbl_columns R) <$> tbl_rows R))))
  else None.

(** A server answers a text with the rows it evaluates to. *)
Definition run_query (db : schema) (text : string) : option (list RawRow) :=
  parse text ≫= eval_query db.

(** The rows of a query in scope. *)
Lemma eval_query_Some db q L R :
  db (tr_table (q_from q)) = Some L →
  db (tr_table (q_join q)) = Some R →
  let scope := (qualified (tr_alias (q_from q)) <$> tbl_columns L) ++
               (qualified (tr_alias (q_join q)) <$> tbl_columns R) in
  cond_ok scope (q_on q) && cond_ok scope (q_where q) &&
    forallb (expr_ok scope) (q_order_by q :: q_select q) = true →
  let ρ := joined_env (null_row (tr_alias (q_join q)) (tbl_columns R)) in
  eval_query db q =
    Some ((λ p, eval_expr (ρ p) <$> q_select q) <$>
          order_by (λ p, eval_expr (ρ p) (q_order_by q))
            (where_ (λ p, eval_cond (ρ p) (q_where q))
               (left_join (λ l r, eval_cond (l ++ r) (q_on q))
                  (bind_row (tr_alias (q_from q)) (tbl_columns L) <$> tbl_rows L)
                  (bind_row (tr_alias (q_join q)) (tbl_columns R) <$> tbl_rows R)))).
Proof.
  intros HL HR scope Hok ρ. subst scope ρ. unfold eval_query.
  rewrite HL, HR. cbn [mbind option_bind]. cbv zeta. by rewrite Hok.
Qed.

(** A query that names a table the server does not have is refused. *)
Lemma eval_query_no_table db q :
  db (tr_table (q_from q)) = None ∨ db (tr_table (q_join q)) = None →
  eval_query db q = None.
Proof.
  unfold eval_query. intros [->| ->]; [done|].
  by destruct (db (tr_table (q_from q))).
Qed.

End eval.

(** ** Properties of the lexer and the parser *)

(** White space between tokens has no meaning. *)
Lemma lex_from_space c s :
  is_space c = true → lex_from LStart (String c s) = lex_from LStart s.
Proof.
  intros Hc. simpl. unfold lex_start. rewrite Hc. simpl.
  by destruct (lex_from LStart s).
Qed.

(** A condition the parser accepts leaves fewer tokens than it was given. *)
Lemma parse_conj_length acc ts c rest :
  parse_conj acc ts = Some (c, rest) → length rest < length ts.
Proof.
  revert acc c rest. induction ts as [ts IH] using (induction_ltof1 _ length).
  unfold ltof in IH. intros acc c rest.
  destruct ts as [|a [|[k1| |op] [|b ts]]]; try done; simpl.
  - destruct b as [k2| |]; try done.
    destruct (kw "is" k1 && kw "null" k2); [|done].
    destruct (parse_expr a); [|done].
    destruct ts as [|[w| |] ts']; try (intros [= <- <-]; simpl; lia).
    destruct (kw "and" w); [|intros [= <- <-]; simpl; lia].
    intros Hrec%IH; simpl in *; lia.
  - destruct (parse_cmp a op b); [|done].
    destruct ts as [|[w| |] ts']; try (intros [= <- <-]; simpl; lia).
    destruct (kw "and" w); [|intros [= <- <-]; simpl; lia].
    intros Hrec%IH; simpl in *; lia.
Qed.
