(* ===== verification/SqlPrint.v ===== *)
(** * Printing a query, and reading it back

    The inverse of [SqlSyntax]: the tokens of a syntax tree
    ([query_tokens]) and their text ([print_tokens], one space after
    every token).  Keywords are printed in upper case, [<>] as [!=], and
    the statement ends with a semicolon.

    The round trip: the lexer reads the text of well-formed tokens back
    ([lex_print_tokens]), the parser reads the tokens of a well-formed
    tree back ([parse_query_tokens]), hence [parse (print_query q) = Some
    q] ([parse_print]).  A tree is well-formed ([query_wf]) when its
    names are words that are not keywords, its literals hold no quote,
    its conditions are conjunctions nested to the left, as [AND]
    associates, and it selects at least one column. *)

From S2P Require Import Prelude Prometheus Database Sql SqlSyntax.

(** ** From a tree to tokens *)

Definition expr_token (e : expr) : token :=
  match e with
  | EColumn n => TWord n
  | EString s => TString s
  end.

Fixpoint cond_tokens (c : cond) : list token :=
  match c with
  | CEq a b => [expr_token a; TSym "="; expr_token b]
  | CNe a b => [expr_token a; TSym "!="; expr_token b]
  | CIsNull a => [expr_token a; TWord "IS"; TWord "NULL"]
  | CAnd c1 c2 => cond_tokens c1 ++ TWord "AND" :: cond_tokens c2
  end.

Fixpoint select_tokens (es : list expr) : list token :=
  match es with
  | [] => []
  | e :: es' =>
      match es' with
      | [] => [expr_token e]
      | _ => expr_token e :: TSym "," :: select_tokens es'
      end
  end.

Definition table_tokens (t : table_ref) : list token :=
  [TWord (tr_table t); TWord (tr_alias t)].

Definition query_tokens (q : query) : list token :=
  TWord "SELECT" :: select_tokens (q_select q) ++
  TWord "FROM" :: table_tokens (q_from q) ++
  TWord "LEFT" :: TWord "JOIN" :: table_tokens (q_join q) ++
  TWord "ON" :: cond_tokens (q_on q) ++
  TWord "WHERE" :: cond_tokens (q_where q) ++
  [TWord "ORDER"; TWord "BY"; expr_token (q_order_by q); TSym ";"].

(** ** From tokens to text *)

Definition print_token (t : token) : string :=
  match t with
  | TWord w => w
  | TString s => "'" +:+ s +:+ "'"
  | TSym s => s
  end.

Fixpoint print_tokens (ts : list token) : string :=
  match ts with
  | [] => ""
  | t :: ts' => print_token t +:+ " " +:+ print_tokens ts'
  end.

Definition print_query (q : query) : string := print_tokens (query_tokens q).

(** ** Well-formed tokens and trees *)

Definition nonempty (s : string) : bool :=
  match s with
  | EmptyString => false
  | String _ _ => true
  end.

Definition is_word (w : string) : bool :=
  nonempty w && string_forallb is_word_char w.

Definition no_quote (s : string) : bool :=
  string_forallb (λ c, negb (bool_decide (c = "'"%char))) s.

Definition is_op (s : string) : bool :=
  nonempty s && string_forallb is_op_char s.

Definition is_sym (s : string) : bool :=
  match s with
  | String c EmptyString => is_punct c || is_op_char c
  | _ => is_op s
  end.

Definition token_ok (t : token) : bool :=
  match t with
  | TWord w => is_word w
  | TString s => no_quote s
  | TSym s => is_sym s
  end.

(** A name: a word that is not a keyword. *)
Definition is_name (n : string) : bool :=
  is_word n && negb (bool_decide (fold_case n ∈ reserved)).

Definition expr_wf (e : expr) : bool :=
  match e with
  | EColumn n => is_name n
  | EString s => no_quote s
  end.

(** A comparison or a test for [NULL]. *)
Definition atom_wf (c : cond) : bool :=
  match c with
  | CEq a b | CNe a b => expr_wf a && expr_wf b
  | CIsNull a => expr_wf a
  | CAnd _ _ => false
  end.

(** A conjunction nested to the left. *)
Fixpoint cond_wf (c : cond) : bool :=
  match c with
  | CAnd c1 c2 => cond_wf c1 && atom_wf c2
  | _ => atom_wf c
  end.

Definition table_wf (t : table_ref) : bool :=
  is_name (tr_table t) && is_name (tr_alias t).

Definition query_wf (q : query) : bool :=
  match q_select q with [] => false | _ => true end &&
  forallb expr_wf (q_select q) &&
  table_wf (q_from q) && table_wf (q_join q) &&
  cond_wf (q_on q) && cond_wf (q_where q) && expr_wf (q_order_by q).

(** What [parse_conj] does once it has read a predicate: go on after
    [AND], stop before anything else. *)
Definition parse_more (c : cond) (rest : list token)
    : option (cond * list token) :=
  match rest with
  | TWord w :: rest' =>
      if kw "and" w then parse_conj (Some c) rest' else Some (c, rest)
  | _ => Some (c, rest)
  end.

(** The condition read so far, extended by a conjunction. *)
Fixpoint conj_all (acc : option cond) (c : cond) : cond :=
  match c with
  | CAnd c1 c2 => CAnd (conj_all acc c1) c2
  | _ => conj acc c
  end.

(** ** The lexer reads printed tokens back *)

(** The character classes of the lexer do not overlap where it matters:
    what starts a word, an operator or a punctuation mark starts nothing
    else. *)
Lemma lex_start_word c :
  is_word_char c = true → lex_start c = Some (LWord (String c ""), []).
Proof. destruct c as [[] [] [] [] [] [] [] []]; vm_compute; done. Qed.

Lemma lex_start_op c :
  is_op_char c = true →
  lex_start c = Some (LOp (String c ""), []) ∧ is_punct c = false.
Proof. destruct c as [[] [] [] [] [] [] [] []]; vm_compute; done. Qed.

Lemma lex_start_punct c :
  is_punct c = true → lex_start c = Some (LStart, [TSym (String c "")]).
Proof. destruct c as [[] [] [] [] [] [] [] []]; vm_compute; done. Qed.

Lemma snoc_app acc c s : snoc acc c +:+ s = acc +:+ String c s.
Proof. unfold snoc. by rewrite string_app_assoc. Qed.

(** One step of the lexer, emitting nothing or one token. *)
Lemma lex_from_skip st c s st' :
  lex_step st c = Some (st', []) → lex_from st (String c s) = lex_from st' s.
Proof.
  intros Hst. cbn [lex_from]. rewrite Hst. cbn [mbind option_bind].
  by destruct (lex_from st' s).
Qed.

Lemma lex_from_emit st c s st' t :
  lex_step st c = Some (st', [t]) →
  lex_from st (String c s) = cons t <$> lex_from st' s.
Proof.
  intros Hst. cbn [lex_from]. rewrite Hst. cbn [mbind option_bind].
  by destruct (lex_from st' s).
Qed.

(** A token under way, up to the space that ends it. *)
Lemma lex_from_word w acc s :
  string_forallb is_word_char w = true →
  lex_from (LWord acc) (w +:+ String " " s) =
    cons (TWord (acc +:+ w)) <$> lex_from LStart s.
Proof.
  revert acc. induction w as [|c w IH]; intros acc Hw.
  - rewrite string_app_nil_l, string_app_nil_r. by apply lex_from_emit.
  - apply andb_true_iff in Hw as [Hc Hw]. rewrite string_app_cons.
    rewrite (lex_from_skip _ _ _ (LWord (snoc acc c)))
      by (simpl; by rewrite Hc).
    by rewrite (IH _ Hw), snoc_app.
Qed.

Lemma lex_from_op o acc s :
  string_forallb is_op_char o = true →
  lex_from (LOp acc) (o +:+ String " " s) =
    cons (TSym (acc +:+ o)) <$> lex_from LStart s.
Proof.
  revert acc. induction o as [|c o IH]; intros acc Ho.
  - rewrite string_app_nil_l, string_app_nil_r. by apply lex_from_emit.
  - apply andb_true_iff in Ho as [Hc Ho]. rewrite string_app_cons.
    rewrite (lex_from_skip _ _ _ (LOp (snoc acc c)))
      by (simpl; by rewrite Hc).
    by rewrite (IH _ Ho), snoc_app.
Qed.

Lemma lex_from_string lit acc s :
  no_quote lit = true →
  lex_from (LString acc) (lit +:+ String "'" (String " " s)) =
    cons (TString (acc +:+ lit)) <$> lex_from LStart s.
Proof.
  revert acc. induction lit as [|c lit IH]; intros acc Hl.
  - rewrite string_app_nil_l, string_app_nil_r.
    rewrite (lex_from_emit _ _ _ LStart (TString acc)) by done.
    by rewrite lex_from_space.
  - apply andb_true_iff in Hl as [Hc%negb_true_iff Hl].
    rewrite string_app_cons.
    rewrite (lex_from_skip _ _ _ (LString (snoc acc c)))
      by (simpl; by rewrite Hc).
    by rewrite (IH _ Hl), snoc_app.
Qed.

Lemma lex_word w s :
  is_word w = true →
  lex_from LStart (w +:+ String " " s) = cons (TWord w) <$> lex_from LStart s.
Proof.
  destruct w as [|c w]; [done|].
  intros [_ [Hc Hw]%andb_true_iff]%andb_true_iff. rewrite string_app_cons.
  rewrite (lex_from_skip LStart _ _ _ (lex_start_word c Hc)).
  by rewrite (lex_from_word _ _ _ Hw).
Qed.

Lemma lex_op o s :
  is_op o = true →
  lex_from LStart (o +:+ String " " s) = cons (TSym o) <$> lex_from LStart s.
Proof.
  destruct o as [|c o]; [done|].
  intros [_ [Hc Ho]%andb_true_iff]%andb_true_iff. rewrite string_app_cons.
  rewrite (lex_from_skip LStart _ _ _ (proj1 (lex_start_op c Hc))).
  by rewrite (lex_from_op _ _ _ Ho).
Qed.

Lemma lex_punct c s :
  is_punct c = true →
  lex_from LStart (String c (String " " s)) =
    cons (TSym (String c "")) <$> lex_from LStart s.
Proof.
  intros Hc. rewrite (lex_from_emit LStart _ _ _ _ (lex_start_punct c Hc)).
  by rewrite lex_from_space.
Qed.

Lemma lex_literal lit s :
  no_quote lit = true →
  lex_from LStart (String "'" (lit +:+ String "'" (String " " s))) =
    cons (TString lit) <$> lex_from LStart s.
Proof.
  intros Hl. rewrite (lex_from_skip _ _ _ (LString "")) by done.
  by rewrite (lex_from_string _ _ _ Hl).
Qed.

(** One token and the space after it. *)
Lemma lex_print_token t s :
  token_ok t = true →
  lex_from LStart (print_token t +:+ String " " s) =
    cons t <$> lex_from LStart s.
Proof.
  destruct t as [w|lit|o]; cbn [token_ok print_token].
  - apply lex_word.
  - intros Hl. rewrite !string_app_cons, string_app_nil_l, string_app_assoc.
    by apply lex_literal.
  - destruct o as [|c [|c' o]]; [done| |apply lex_op].
    intros [Hc|Hc]%orb_true_iff; [by apply lex_punct|].
    apply (lex_op (String c "")). unfold is_op. simpl. by rewrite Hc.
Qed.

(** The lexer is a left inverse of the printer of tokens. *)
Lemma lex_print_tokens ts :
  forallb token_ok ts = true → lex (print_tokens ts) = Some ts.
Proof.
  unfold lex. induction ts as [|t ts IH]; [done|].
  intros [Ht Hts]%andb_true_iff. cbn [print_tokens].
  change (print_token t +:+ " " +:+ print_tokens ts) with
    (print_token t +:+ String " " (print_tokens ts)).
  by rewrite (lex_print_token _ _ Ht), (IH Hts).
Qed.

(** ** The parser reads the tokens of a tree back *)

Lemma parse_expr_token e :
  expr_wf e = true → parse_expr (expr_token e) = Some e.
Proof.
  destruct e as [n|lit]; [|done]. simpl.
  intros [_ Hn%negb_true_iff]%andb_true_iff. by rewrite Hn.
Qed.

Lemma expect_word k w rest :
  kw k w = true → expect k (TWord w :: rest) = Some rest.
Proof. simpl. by intros ->. Qed.

Lemma conj_all_None c : conj_all None c = c.
Proof. induction c; simpl; congruence. Qed.

(** One predicate. *)
Lemma parse_conj_atom acc p rest :
  atom_wf p = true →
  parse_conj acc (cond_tokens p ++ rest) = parse_more (conj acc p) rest.
Proof.
  destruct p as [a b|a b|a|]; [| | |done]; cbn [atom_wf cond_tokens app].
  - intros [Ha Hb]%andb_true_iff. cbn [parse_conj]. unfold parse_cmp.
    by rewrite (parse_expr_token _ Ha), (parse_expr_token _ Hb).
  - intros [Ha Hb]%andb_true_iff. cbn [parse_conj]. unfold parse_cmp.
    by rewrite (parse_expr_token _ Ha), (parse_expr_token _ Hb).
  - intros Ha. cbn [parse_conj].
    change (kw "is" "IS" && kw "null" "NULL") with true. cbv iota.
    by rewrite (parse_expr_token _ Ha).
Qed.

(** A conjunction, after whatever was read before it. *)
Lemma parse_conj_tokens c acc rest :
  cond_wf c = true →
  parse_conj acc (cond_tokens c ++ rest) = parse_more (conj_all acc c) rest.
Proof.
  revert acc rest.
  induction c as [a b|a b|a|c1 IH1 c2 _]; intros acc rest Hc;
    try by apply parse_conj_atom.
  apply andb_true_iff in Hc as [H1 H2]. cbn [cond_tokens conj_all].
  rewrite <-app_assoc, (IH1 _ _ H1). cbn [app parse_more].
  change (kw "and" "AND") with true. cbv iota.
  by rewrite (parse_conj_atom _ _ _ H2).
Qed.

Lemma parse_select_tokens es w rest :
  es ≠ [] → forallb expr_wf es = true →
  parse_select (select_tokens es ++ TWord w :: rest) =
    Some (es, TWord w :: rest).
Proof.
  induction es as [|e es IH]; [done|]. intros _ [He Hes]%andb_true_iff.
  destruct es as [|e' es].
  - cbn. by rewrite (parse_expr_token _ He).
  - change (select_tokens (e :: e' :: es)) with
      (expr_token e :: TSym "," :: select_tokens (e' :: es)).
    cbn [app parse_select].
    change (bool_decide ("," = ",")) with true. cbv iota.
    rewrite (parse_expr_token _ He). cbn [mbind option_bind].
    by rewrite IH.
Qed.

Lemma parse_table_tokens t rest :
  table_wf t = true → parse_table (table_tokens t ++ rest) = Some (t, rest).
Proof.
  destruct t as [n a]. unfold table_wf, is_name. cbn.
  intros [[_ Hn%negb_true_iff]%andb_true_iff
          [_ Ha%negb_true_iff]%andb_true_iff]%andb_true_iff.
  by rewrite Hn, Ha.
Qed.

Lemma query_wf_select q : query_wf q = true → q_select q ≠ [].
Proof. unfold query_wf. by destruct (q_select q). Qed.

Lemma parse_more_stop c w rest :
  kw "and" w = false →
  parse_more c (TWord w :: rest) = Some (c, TWord w :: rest).
Proof. simpl. by intros ->. Qed.

(** One clause read by the parser. *)
Ltac parse_clause :=
  first
    [ rewrite expect_word by done
    | rewrite parse_select_tokens by done
    | rewrite parse_table_tokens by done
    | rewrite parse_conj_tokens, conj_all_None, parse_more_stop by done ];
  cbn [mbind option_bind].

(** The parser is a left inverse of [query_tokens]. *)
Lemma parse_query_tokens q :
  query_wf q = true → parse_query (query_tokens q) = Some q.
Proof.
  intros Hq. pose proof (query_wf_select q Hq) as Hsel. revert Hq.
  unfold query_wf. rewrite !andb_true_iff.
  intros [[[[[[_ Hs] Hf] Hj] Hon] Hwh] Hob].
  unfold parse_query, query_tokens. do 13 parse_clause.
  rewrite (parse_expr_token _ Hob). by destruct q.
Qed.

(** ** The round trip *)

Lemma expr_token_ok e : expr_wf e = true → token_ok (expr_token e) = true.
Proof. destruct e; [|done]. by intros [? _]%andb_true_iff. Qed.

Lemma atom_tokens_ok p :
  atom_wf p = true → forallb token_ok (cond_tokens p) = true.
Proof.
  destruct p; [| | |done]; simpl; rewrite ?andb_true_iff;
    intuition auto using expr_token_ok.
Qed.

Lemma cond_tokens_ok c :
  cond_wf c = true → forallb token_ok (cond_tokens c) = true.
Proof.
  induction c as [| | |c1 IH1 c2 _]; try apply atom_tokens_ok.
  intros [H1 H2]%andb_true_iff. cbn [cond_tokens].
  rewrite forallb_app, (IH1 H1). simpl. by apply atom_tokens_ok.
Qed.

Lemma select_tokens_ok es :
  forallb expr_wf es = true → forallb token_ok (select_tokens es) = true.
Proof.
  induction es as [|e [|e' es] IH]; [done| |];
    intros [He Hes]%andb_true_iff.
  - simpl. by rewrite (expr_token_ok _ He).
  - change (select_tokens (e :: e' :: es)) with
      (expr_token e :: TSym "," :: select_tokens (e' :: es)).
    cbn [forallb]. by rewrite (expr_token_ok _ He), (IH Hes).
Qed.

Lemma table_tokens_ok t :
  table_wf t = true → forallb token_ok (table_tokens t) = true.
Proof.
  unfold table_wf, is_name. rewrite !andb_true_iff. simpl.
  intros [[-> _] [-> _]]. done.
Qed.

Lemma query_tokens_ok q :
  query_wf q = true → forallb token_ok (query_tokens q) = true.
Proof.
  unfold query_wf. rewrite !andb_true_iff.
  intros [[[[[[_ Hs] Hf] Hj] Hon] Hwh] Hob]. unfold query_tokens.
  repeat first [rewrite forallb_app | progress cbn [forallb]].
  by rewrite select_tokens_ok, !table_tokens_ok, !cond_tokens_ok,
    expr_token_ok.
Qed.

(** What the lexer makes of the text of a well-formed tree. *)
Lemma lex_print_query q :
  query_wf q = true → lex (print_query q) = Some (query_tokens q).
Proof. intros Hq. by apply lex_print_tokens, query_tokens_ok. Qed.

(** Reading back what was printed gives the tree that was printed. *)
Theorem parse_print q : query_wf q = true → parse (print_query q) = Some q.
Proof.
  intros Hq. unfold parse. rewrite (lex_print_query q Hq). simpl.
  by apply parse_query_tokens.
Qed.

(** Two well-formed trees with the same text are the same tree. *)
Corollary print_query_inj q1 q2 :
  query_wf q1 = true → query_wf q2 = true →
  print_query q1 = print_query q2 → q1 = q2.
Proof.
  intros H1 H2 Heq. apply (inj Some).
  by rewrite <-(parse_print q1 H1), <-(parse_print q2 H2), Heq.
Qed.
