(* ===== verification/PrimaryQuery.v ===== *)
(** * The scraper's query and what it selects

    [primaryQuery] is the SQL text of [src/collector/primary.go], byte for
    byte.  Its meaning is given clause by clause over the two
    [information_schema] tables it reads, with the operators of [Sql]:
    [from_clause] is the [LEFT JOIN], [join_on] its [ON] condition,
    [where_clause] the [WHERE] condition, [order_by_key] the [ORDER BY]
    key and [select_list] the projection.  [primaryQuery_rows] composes
    them; [primaryQuery_result] is the contract a server honours when it
    answers the query, whatever order it leaves between tables of the same
    name.

    [tables_without_primary_key] is the reference definition: the base
    tables outside the two system schemas that no [PRIMARY KEY] constraint
    names.  The theorems show that the join-and-filter of the query
    computes exactly that, and state the exclusion on the constraint
    rows themselves: schema and name equal to the table's under the
    collation, type equal to [PRIMARY KEY]. *)

From S2P Require Import Prelude Database Sql.

(** ** The tables read *)

(** The columns of [information_schema.tables] the query mentions. *)
Record TablesRow : Type := mkTablesRow {
  t_table_schema : sqlval;
  t_table_name : sqlval;
  t_table_type : sqlval;
  t_engine : sqlval;
}.

(** The columns of [information_schema.table_constraints] it mentions. *)
Record ConstraintRow : Type := mkConstraintRow {
  tc_table_schema : sqlval;
  tc_table_name : sqlval;
  tc_constraint_type : sqlval;
}.

(** ** The query text *)

Definition primaryQuery : string := "
		  SELECT
			t.table_schema ,
			t.table_name ,
			t.engine 
		  FROM
    		information_schema.tables t
          LEFT JOIN
			information_schema.table_constraints tc
			ON t.table_schema = tc.table_schema
			AND t.table_name = tc.table_name
			AND tc.constraint_type = 'PRIMARY KEY'
          WHERE
			t.table_type = 'BASE TABLE'
			AND tc.constraint_type IS NULL
			AND t.table_schema!='performance_schema'
			AND t.table_schema!='mysql'
          ORDER BY
    		t.table_name;
		".

(** ** The meaning of each clause *)

Section query.
Context `{Collation}.
Implicit Types (t : TablesRow) (tc : ConstraintRow).
Implicit Types (T : list TablesRow) (C : list ConstraintRow).
Implicit Types (p : TablesRow * option ConstraintRow).

(** The three conjuncts of the [ON] condition. *)
Definition on_table_schema t tc : tv :=
  sql_eq (t_table_schema t) (tc_table_schema tc).

Definition on_table_name t tc : tv :=
  sql_eq (t_table_name t) (tc_table_name tc).

Definition on_constraint_type tc : tv :=
  sql_eq (tc_constraint_type tc) (Some "PRIMARY KEY").

Definition join_on t tc : tv :=
  tv_and (tv_and (on_table_schema t tc) (on_table_name t tc))
         (on_constraint_type tc).

Definition from_clause T C : list (TablesRow * option ConstraintRow) :=
  left_join join_on T C.

(** The four conjuncts of the [WHERE] condition, on a row of the join:
    a table and the constraint it was matched with, if any. *)
Definition where_table_type p : tv :=
  sql_eq (t_table_type p.1) (Some "BASE TABLE").

Definition where_constraint_type p : tv :=
  sql_is_null (p.2 ≫= tc_constraint_type).

Definition where_not_performance_schema p : tv :=
  sql_ne (t_table_schema p.1) (Some "performance_schema").

Definition where_not_mysql p : tv :=
  sql_ne (t_table_schema p.1) (Some "mysql").

Definition where_clause p : tv :=
  tv_and
    (tv_and (tv_and (where_table_type p) (where_constraint_type p))
            (where_not_performance_schema p))
    (where_not_mysql p).

Definition order_by_key p : sqlval := t_table_name p.1.

(** The three columns of the [SELECT] list. *)
Definition select_table_schema p : sqlval := t_table_schema p.1.
Definition select_table_name p : sqlval := t_table_name p.1.
Definition select_engine p : sqlval := t_engine p.1.

Definition select_list p : RawRow :=
  [select_table_schema p; select_table_name p; select_engine p].

Definition primaryQuery_rows T C : list RawRow :=
  select_list <$>
    order_by order_by_key (where_ where_clause (from_clause T C)).

(** ** The reference definition *)

Definition is_base_table t : bool :=
  holds (sql_eq (t_table_type t) (Some "BASE TABLE")).

Definition in_user_schema t : bool :=
  holds (sql_ne (t_table_schema t) (Some "performance_schema")) &&
  holds (sql_ne (t_table_schema t) (Some "mysql")).

Definition has_primary_key C t : bool :=
  existsb (λ tc, holds (join_on t tc)) C.

Definition reported C t : bool :=
  is_base_table t && in_user_schema t && negb (has_primary_key C t).

Definition tables_without_primary_key T C : list TablesRow :=
  filter (λ t, reported C t) T.

Definition row_of t : RawRow := [t_table_schema t; t_table_name t; t_engine t].

(** The reported tables in the order the query returns them. *)
Definition reported_in_order T C : list TablesRow :=
  order_by t_table_name (tables_without_primary_key T C).

(** What a server may answer: the reported tables in some order that is
    ascending in the table name. *)
Definition primaryQuery_result T C (rows : list RawRow) : Prop :=
  ∃ ts, ts ≡ₚ tables_without_primary_key T C ∧
        Sorted (by_key t_table_name) ts ∧ rows = row_of <$> ts.

(** ** The query is an anti-join *)

Section query_lemmas.

Lemma join_on_holds t tc :
  holds (join_on t tc) = true ↔
  holds (sql_eq (t_table_schema t) (tc_table_schema tc)) = true ∧
  holds (sql_eq (t_table_name t) (tc_table_name tc)) = true ∧
  holds (sql_eq (tc_constraint_type tc) (Some "PRIMARY KEY")) = true.
Proof.
  unfold join_on, on_table_schema, on_table_name, on_constraint_type.
  rewrite !holds_tv_and, !andb_true_iff. tauto.
Qed.

(** The [ON] condition, spelled out: the constraint is of the schema and
    the name of the table, and its type is [PRIMARY KEY]. *)
Definition names_primary_key tc t : Prop :=
  (∃ sch sch', t_table_schema t = Some sch ∧ tc_table_schema tc = Some sch' ∧
               coll_eq sch sch') ∧
  (∃ name name', t_table_name t = Some name ∧ tc_table_name tc = Some name' ∧
                 coll_eq name name') ∧
  (∃ ty, tc_constraint_type tc = Some ty ∧ coll_eq ty "PRIMARY KEY").

Lemma join_on_names t tc :
  holds (join_on t tc) = true ↔ names_primary_key tc t.
Proof.
  rewrite join_on_holds, !holds_sql_eq. unfold names_primary_key.
  naive_solver.
Qed.

Lemma join_on_false t tc :
  holds (join_on t tc) = false ↔ ¬ names_primary_key tc t.
Proof. by rewrite <-join_on_names, not_true_iff_false. Qed.

(** A row the join matched carries a constraint type, so [IS NULL]
    rejects it. *)
Lemma where_clause_matched t tc :
  holds (join_on t tc) = true → holds (where_clause (t, Some tc)) = false.
Proof.
  intros (_ & _ & (x & _ & Hx & _)%holds_sql_eq)%join_on_holds.
  unfold where_clause, where_constraint_type.
  rewrite !holds_tv_and, holds_sql_is_null. simpl.
  rewrite Hx. simpl. by rewrite andb_false_r.
Qed.

Lemma where_clause_padded t :
  holds (where_clause (t, None)) = is_base_table t && in_user_schema t.
Proof.
  unfold where_clause, is_base_table, in_user_schema, where_table_type,
    where_constraint_type, where_not_performance_schema, where_not_mysql.
  rewrite !holds_tv_and, holds_sql_is_null. simpl.
  by rewrite andb_true_r, andb_assoc.
Qed.

Lemma where_from_reported T C :
  where_ where_clause (from_clause T C) =
    (λ t, (t, None)) <$> tables_without_primary_key T C.
Proof.
  unfold from_clause, tables_without_primary_key.
  rewrite where_left_join by apply where_clause_matched. f_equal.
  rewrite anti_join_existsb, list_filter_filter. apply list_filter_iff.
  intros t. rewrite where_clause_padded. unfold reported, has_primary_key.
  by rewrite !Is_true_true, !andb_true_iff.
Qed.

Lemma select_list_row_of p : select_list p = row_of p.1.
Proof. done. Qed.

(** The rows of the query are the reported tables, sorted by name. *)
Lemma primaryQuery_rows_in_order T C :
  primaryQuery_rows T C = row_of <$> reported_in_order T C.
Proof.
  unfold primaryQuery_rows, reported_in_order. rewrite where_from_reported.
  rewrite (order_by_fmap (λ t, (t, None)) t_table_name order_by_key) by done.
  by rewrite <-list_fmap_compose.
Qed.

(** The rows the query evaluates to honour the contract. *)
Lemma primaryQuery_rows_result T C :
  primaryQuery_result T C (primaryQuery_rows T C).
Proof.
  exists (reported_in_order T C). split_and!.
  - apply order_by_Permutation.
  - apply order_by_Sorted.
  - apply primaryQuery_rows_in_order.
Qed.

(** What [reported] says of a table. *)
Lemma reported_true C t :
  reported C t = true ↔
  (∃ ty, t_table_type t = Some ty ∧ coll_eq ty "BASE TABLE") ∧
  (∃ sch, t_table_schema t = Some sch ∧
          ¬ coll_eq sch "performance_schema" ∧ ¬ coll_eq sch "mysql") ∧
  ∀ tc, tc ∈ C → holds (join_on t tc) = false.
Proof.
  unfold reported, is_base_table, in_user_schema, has_primary_key.
  rewrite !andb_true_iff, negb_true_iff, holds_sql_eq, !holds_sql_ne.
  rewrite <-not_true_iff_false, existsb_exists.
  setoid_rewrite <-list_elem_of_In. setoid_rewrite <-not_true_iff_false.
  split.
  - intros (((ty & ? & Hty & [= <-] & ?) & (sch & ? & Hs & [= <-] & ?) &
             (sch' & ? & Hs' & [= <-] & ?)) & Hpk).
    rewrite Hs in Hs'. injection Hs' as <-. naive_solver.
  - intros ((ty & Hty & ?) & (sch & Hs & ? & ?) & Hpk).
    split; [naive_solver|]. intros (tc & ? & ?). by eapply Hpk.
Qed.

Section contract.
Context (T : list TablesRow) (C : list ConstraintRow) (rows : list RawRow).
Context (Hrows : primaryQuery_result T C rows).

Lemma result_elem_of row :
  row ∈ rows ↔ ∃ t, t ∈ T ∧ reported C t = true ∧ row = row_of t.
Proof.
  destruct Hrows as (ts & Hperm & _ & ->). rewrite list_elem_of_fmap.
  setoid_rewrite Hperm. unfold tables_without_primary_key.
  setoid_rewrite list_elem_of_filter. setoid_rewrite Is_true_true. naive_solver.
Qed.

Lemma result_length :
  length rows = length (tables_without_primary_key T C).
Proof. destruct Hrows as (ts & Hperm & _ & ->). by rewrite length_fmap, Hperm. Qed.

Lemma result_sorted :
  Sorted (by_key (λ row : RawRow, mjoin (row !! 1))) rows.
Proof.
  destruct Hrows as (ts & _ & Hs & ->).
  by apply (Sorted_fmap _ (by_key t_table_name)).
Qed.

End contract.

End query_lemmas.

(** ** Theorems *)

Section query_theorems.

Lemma rows_elem_of T C row :
  row ∈ primaryQuery_rows T C ↔
  ∃ t, t ∈ T ∧ row = [t_table_schema t; t_table_name t; t_engine t] ∧
       (∃ ty, t_table_type t = Some ty ∧ coll_eq ty "BASE TABLE") ∧
       (∃ sch, t_table_schema t = Some sch ∧
               ¬ coll_eq sch "performance_schema" ∧ ¬ coll_eq sch "mysql") ∧
       ∀ tc, tc ∈ C → ¬ names_primary_key tc t.
Proof.
  rewrite (result_elem_of T C _ (primaryQuery_rows_result T C)).
  setoid_rewrite reported_true. setoid_rewrite join_on_false. naive_solver.
Qed.

(** C7: the [LEFT JOIN ... WHERE tc.constraint_type IS NULL] of the query
    is an anti-join: after the [WHERE] clause, what is left of the joined
    rows is exactly one [NULL]-padded row per base table outside the
    system schemas that no [PRIMARY KEY] constraint names, in the order of
    [information_schema.tables]. *)
Theorem primaryQuery_where_is_anti_join T C :
  where_ where_clause (from_clause T C) =
    (λ t, (t, None)) <$> tables_without_primary_key T C.
Proof. apply where_from_reported. Qed.

(** C8: a row is in the result of the query if and only if it is the
    schema, name and engine of a table whose type is [BASE TABLE], whose
    schema is neither [performance_schema] nor [mysql], and for which no
    row of [table_constraints] has the same schema, the same name and the
    type [PRIMARY KEY], all compared under the collation, a [NULL]
    being equal to nothing. *)
Theorem primaryQuery_rows_elem_of T C row :
  row ∈ primaryQuery_rows T C ↔
  ∃ t, t ∈ T ∧ row = [t_table_schema t; t_table_name t; t_engine t] ∧
       (∃ ty, t_table_type t = Some ty ∧ coll_eq ty "BASE TABLE") ∧
       (∃ sch, t_table_schema t = Some sch ∧
               ¬ coll_eq sch "performance_schema" ∧ ¬ coll_eq sch "mysql") ∧
       ∀ tc, tc ∈ C →
         ¬ ((∃ sch sch', t_table_schema t = Some sch ∧
                         tc_table_schema tc = Some sch' ∧ coll_eq sch sch') ∧
            (∃ name name', t_table_name t = Some name ∧
                           tc_table_name tc = Some name' ∧
                           coll_eq name name') ∧
            (∃ ty, tc_constraint_type tc = Some ty ∧
                   coll_eq ty "PRIMARY KEY")).
Proof. apply rows_elem_of. Qed.

(** C40: the result of the query is sorted by table name in ascending
    order of the collation, [NULL] first. *)
Theorem primaryQuery_rows_sorted T C :
  Sorted (by_key (λ row : RawRow, mjoin (row !! 1))) (primaryQuery_rows T C).
Proof. apply (result_sorted T C), primaryQuery_rows_result. Qed.

(** The join duplicates nothing: the query returns one row for each
    table it reports, so never more rows than [information_schema.tables]
    has. *)
Theorem primaryQuery_rows_length T C :
  length (primaryQuery_rows T C) = length (tables_without_primary_key T C) ∧
  length (primaryQuery_rows T C) ≤ length T.
Proof.
  rewrite (result_length T C _ (primaryQuery_rows_result T C)).
  split; [done|]. apply length_filter.
Qed.

(** Every row of the result has the three columns [Scan] is given
    destinations for, and its first column, the schema, is never [NULL]:
    a [NULL] schema makes both [!=] comparisons UNKNOWN. *)
Theorem primaryQuery_rows_columns T C row :
  row ∈ primaryQuery_rows T C →
  ∃ sch name eng, row = [Some sch; name; eng].
Proof.
  intros (t & _ & -> & _ & (sch & -> & _) & _)%rows_elem_of.
  eauto.
Qed.

(** A table that a [PRIMARY KEY] constraint names is not in the
    result, whatever else [table_constraints] holds. *)
Theorem primary_key_hides_table T C t tc :
  tc ∈ C → holds (join_on t tc) = true → row_of t ∉ primaryQuery_rows T C.
Proof.
  intros Htc Hon%join_on_names (t' & _ & [= Hs Hn _] & _ & _ & Hpk)%rows_elem_of.
  apply (Hpk tc Htc). unfold names_primary_key in *. by rewrite <-Hs, <-Hn.
Qed.

End query_theorems.

End query.

(** ** The theorems at a concrete schema, under the binary collation *)

Definition demo_tables : list TablesRow :=
  [mkTablesRow (Some "shop") (Some "orders") (Some "BASE TABLE") (Some "InnoDB");
   mkTablesRow (Some "shop") (Some "audit") (Some "BASE TABLE") (Some "InnoDB");
   mkTablesRow (Some "shop") (Some "totals") (Some "VIEW") None;
   mkTablesRow (Some "mysql") (Some "user") (Some "BASE TABLE") (Some "InnoDB");
   mkTablesRow (Some "shop") (Some "Log") (Some "BASE TABLE") (Some "MyISAM")].

Definition demo_constraints : list ConstraintRow :=
  [mkConstraintRow (Some "shop") (Some "orders") (Some "PRIMARY KEY");
   mkConstraintRow (Some "shop") (Some "audit") (Some "UNIQUE")].

Example primaryQuery_rows_demo :
  primaryQuery_rows demo_tables demo_constraints =
    [[Some "shop"; Some "Log"; Some "MyISAM"];
     [Some "shop"; Some "audit"; Some "InnoDB"]].
Proof. vm_compute. reflexivity. Qed.

(** The collation decides what the literals of the query match and how
    the rows are ordered: bytewise, a schema named [MySQL] is not the
    schema [mysql] and [Log] sorts before [audit]; ignoring case, it is
    and it does not. *)
Example primaryQuery_rows_collation :
  let T := mkTablesRow (Some "MySQL") (Some "user") (Some "BASE TABLE")
             (Some "InnoDB") :: demo_tables in
  primaryQuery_rows (H := binary_collation) T demo_constraints =
    [[Some "shop"; Some "Log"; Some "MyISAM"];
     [Some "shop"; Some "audit"; Some "InnoDB"];
     [Some "MySQL"; Some "user"; Some "InnoDB"]] ∧
  primaryQuery_rows (H := ci_collation) T demo_constraints =
    [[Some "shop"; Some "audit"; Some "InnoDB"];
     [Some "shop"; Some "Log"; Some "MyISAM"]].
Proof. vm_compute. split; reflexivity. Qed.

(** [ORDER BY t.table_name] does not order two tables of the same name
    in different schemas: they come out in the order in which the server
    scans them. *)
Example primaryQuery_rows_ties :
  let a := mkTablesRow (Some "crm") (Some "events") (Some "BASE TABLE")
             (Some "InnoDB") in
  let b := mkTablesRow (Some "shop") (Some "events") (Some "BASE TABLE")
             (Some "InnoDB") in
  [a; b] ≡ₚ [b; a] ∧
  primaryQuery_rows (H := binary_collation) [a; b] [] =
    [[Some "crm"; Some "events"; Some "InnoDB"];
     [Some "shop"; Some "events"; Some "InnoDB"]] ∧
  primaryQuery_rows (H := binary_collation) [b; a] [] =
    [[Some "shop"; Some "events"; Some "InnoDB"];
     [Some "crm"; Some "events"; Some "InnoDB"]].
Proof. split; [apply Permutation_swap|]. vm_compute. split; reflexivity. Qed.

Lemma primaryQuery_rows_columns_witness :
  ∃ sch name eng,
    [Some "shop"; Some "audit"; Some "InnoDB"] = [Some sch; name; eng].
Proof.
  apply (primaryQuery_rows_columns demo_tables demo_constraints).
  vm_compute. apply list_elem_of_further, list_elem_of_here.
Defined.

Lemma primary_key_hides_table_witness :
  [Some "shop"; Some "orders"; Some "InnoDB"] ∉
    primaryQuery_rows demo_tables demo_constraints.
Proof.
  apply (primary_key_hides_table demo_tables demo_constraints
           (mkTablesRow (Some "shop") (Some "orders") (Some "BASE TABLE")
              (Some "InnoDB"))
           (mkConstraintRow (Some "shop") (Some "orders") (Some "PRIMARY KEY"))).
  - apply list_elem_of_here.
  - vm_compute. reflexivity.
Defined.
