(* ===== verification/Scraper.v ===== *)
(** * The scraper contract

    The interface every scraper implements and the orchestrator drives:
    a stable name, a help text, the lowest server version the scraper
    supports, and the scrape itself, which writes samples to the metric
    channel of the world and returns Go's [error] ([None] for [nil]).
    The logger a scraper is also handed has no effect on its result and is
    left out. *)

From Stdlib Require Import Floats.
From S2P Require Import Prelude Prometheus Database.

(** The namespace every metric name of the exporter starts with.  The
    package declares the constant in a file that is not part of the
    sources at hand, and the design document names the convention
    without the value: ["mysql"] is an assumption.  The descriptor of
    the scraper is valid for every namespace that is a metric name
    ([PrimaryKeyTheorems.CheckPrimaryKeyDesc_any_namespace]). *)
Definition namespace : string := "mysql".

Class Scraper (S : Type) : Type := mkScraper {
  Name : S → string;
  Help : S → string;
  Version : S → float;
  Scrape : S → Context → instance → exec World (option error);
}.

(** A scraper of any type, packed with its implementation of the
    contract, as a registry holds it. *)
Record scraper : Type := mkPacked {
  scraper_type : Type;
  scraper_impl : Scraper scraper_type;
  scraper_value : scraper_type;
}.

Definition scraper_name (s : scraper) : string :=
  @Name _ (scraper_impl s) (scraper_value s).
Definition scraper_help (s : scraper) : string :=
  @Help _ (scraper_impl s) (scraper_value s).
Definition scraper_version (s : scraper) : float :=
  @Version _ (scraper_impl s) (scraper_value s).
Definition scraper_run (s : scraper) : Context → instance → exec World (option error) :=
  @Scrape _ (scraper_impl s) (scraper_value s).

(** ** What the contract promises

    The side-effect discipline of a scraper: a scrape returns, appends to
    the metric channel and does nothing else to it, sends only well-formed
    samples, leaves the cursors of others alone and its own closed, does
    not observe what the channel and the world already hold, and gives up
    at once with an error, sending nothing, when its context is already
    done. *)

Class ScraperLaws (S : Type) `{Scraper S} : Prop := mkScraperLaws {
  scrape_terminates (s : S) ctx inst w :
    terminates (Scrape s ctx inst w).1 = true;
  scrape_appends (s : S) ctx inst w :
    ∃ ms, sent (w_sink (Scrape s ctx inst w).2) = sent (w_sink w) ++ ms ∧
          Forall (λ m, metric_wf m = true) ms;
  scrape_keeps_channel (s : S) ctx inst w :
    sink_closed (w_sink (Scrape s ctx inst w).2) = sink_closed (w_sink w);
  scrape_cursors (s : S) ctx inst w :
    all_closed w → all_closed (Scrape s ctx inst w).2;
  scrape_frame (s : S) ctx inst w :
    w_rows w ⊆ w_rows (Scrape s ctx inst w).2;
  scrape_uniform (s : S) ctx inst w w' :
    sink_closed (w_sink w) = sink_closed (w_sink w') →
    (Scrape s ctx inst w').1 = (Scrape s ctx inst w).1 ∧
    ∀ ms, sent (w_sink (Scrape s ctx inst w).2) = sent (w_sink w) ++ ms →
          sent (w_sink (Scrape s ctx inst w').2) = sent (w_sink w') ++ ms;
  scrape_cancelled (s : S) ctx inst w e :
    ctx_err ctx = Some e →
    ∃ e', Scrape s ctx inst w = (Returned (Some e'), w);
}.
