(* ===== verification/PrimaryKey.v ===== *)
(** * The [primary_key] scraper

    [src/collector/primary.go], declaration by declaration: the subsystem
    name, the label names, the metric descriptor, the scraper type with
    its [Name], [Help] and [Version], and [Scrape].

    [Scrape] is the Go function statement by statement in the execution
    monad.  Its row loop [scrape_loop] runs on fuel; [Scrape] gives it one
    unit per pending row and one more for the [Next] that finds the end,
    which [PrimaryKeySpec] shows is enough.  The three string variables the
    loop scans into are declared before the loop in the source, so they
    are loop state here ([locals]). *)

From Stdlib Require Import Floats.
From S2P Require Import Prelude Prometheus Database Sql PrimaryQuery Scraper.

(** ** Constants and the descriptor *)

Definition primarySubsystem : string := "primary_key".

Definition PrimarylabelNames : list string :=
  ["table_schema"; "table_name"; "engine"].

Definition CheckPrimaryKeyDesc : Desc :=
  NewDesc (BuildFQName namespace primarySubsystem "check")
    "Check table have `PRIMARY KEY`."
    PrimarylabelNames [].

(** ** The scraper type and its methods *)

Variant ScrapePrimaryKey : Type := ScrapePrimaryKey_lit.

(** The variables [Scrape] declares before its loop, with Go's zero
    values. *)
Record locals : Type := mkLocals {
  table_schema : string;
  table_name : string;
  engine : string;
}.

Definition zero_locals : locals := mkLocals "" "" "".

Definition dests (v : locals) : list string :=
  [table_schema v; table_name v; engine v].

Definition assign (ds : list string) (v : locals) : locals :=
  match ds with
  | [a; b; c] => mkLocals a b c
  | _ => v
  end.

(** [primaryRows.Scan(&table_schema, &table_name, &engine)]. *)
Definition scan_primary (h : nat) (v : locals)
    : exec World (option error * locals) :=
  '(err, ds) ← Scan h (dests v);
  mret (err, assign ds v).

(** [prometheus.MustNewConstMetric(CheckPrimaryKeyDesc,
    prometheus.GaugeValue, 0, table_schema, table_name, engine)]. *)
Definition primary_metric (v : locals) : exec World Metric :=
  MustNewConstMetric CheckPrimaryKeyDesc GaugeValue 0 (dests v).

(** [for primaryRows.Next() { ... }]. *)
Fixpoint scrape_loop (fuel : nat) (h : nat) (v : locals)
    : exec World (option error) :=
  match fuel with
  | 0 => out_of_fuel
  | S fuel' =>
      more ← Next h;
      if more : bool then
        '(err, v') ← scan_primary h v;
        match err with
        | Some e => mret (Some e)
        | None =>
            m ← primary_metric v';
            send m;;
            scrape_loop fuel' h v'
        end
      else mret None
  end.

(** One unit of fuel per pending row and one for the [Next] that finds
    the end of the result set. *)
Definition loop_fuel (h : nat) (w : World) : nat :=
  match w_rows w !! h with
  | Some r => S (length (pending r))
  | None => 1
  end.

Module ScrapePrimaryKey.

Definition Name (_ : ScrapePrimaryKey) : string := primarySubsystem.

Definition Help (_ : ScrapePrimaryKey) : string :=
  "Check table have `PRIMARY KEY`.".

(** The [float64] nearest to 5.7. *)
Definition Version (_ : ScrapePrimaryKey) : float := 0x1.6cccccccccccdp+2%float.

Definition Scrape (_ : ScrapePrimaryKey) (ctx : Context) (inst : instance)
    : exec World (option error) :=
  let db := getDB inst in
  let primaryQuery := Sprint primaryQuery in
  r ← QueryContext db ctx primaryQuery;
  match r with
  | inl err => mret (Some err)
  | inr primaryRows =>
      defer (Close primaryRows)
        (fuel ← gets (loop_fuel primaryRows);
         scrape_loop fuel primaryRows zero_locals)
  end.

End ScrapePrimaryKey.

(** [var _ Scraper = ScrapePrimaryKey{}]. *)
#[export] Instance ScrapePrimaryKey_Scraper : Scraper ScrapePrimaryKey :=
  mkScraper ScrapePrimaryKey ScrapePrimaryKey.Name ScrapePrimaryKey.Help
    ScrapePrimaryKey.Version ScrapePrimaryKey.Scrape.
