(* ===== verification/PrimaryQueryText.v ===== *)
(** * The text of [primaryQuery] and its meaning

    [PrimaryQuery] gives the query a meaning clause by clause.  Here the
    same meaning is derived from the text: [primaryQuery] parses
    ([SqlSyntax.parse]) to the syntax tree [primaryQuery_ast], and the
    evaluation of that tree over a server that holds the two
    [information_schema] tables is [primaryQuery_rows].  The label names
    of the metric are the columns of the [SELECT] list, in order. *)

From S2P Require Import Prelude Prometheus Database Sql SqlSyntax SqlPrint.
From S2P Require Import PrimaryQuery.
From S2P Require Import Scraper PrimaryKey.

(** The statement [primaryQuery] is, clause by clause. *)
Definition primaryQuery_select : list expr :=
  [EColumn "t.table_schema"; EColumn "t.table_name"; EColumn "t.engine"].

Definition primaryQuery_from : table_ref :=
  mkTableRef "information_schema.tables" "t".

Definition primaryQuery_join : table_ref :=
  mkTableRef "information_schema.table_constraints" "tc".

Definition primaryQuery_on : cond :=
  CAnd (CAnd (CEq (EColumn "t.table_schema") (EColumn "tc.table_schema"))
             (CEq (EColumn "t.table_name") (EColumn "tc.table_name")))
       (CEq (EColumn "tc.constraint_type") (EString "PRIMARY KEY")).

Definition primaryQuery_where : cond :=
  CAnd (CAnd (CAnd (CEq (EColumn "t.table_type") (EString "BASE TABLE"))
                   (CIsNull (EColumn "tc.constraint_type")))
             (CNe (EColumn "t.table_schema") (EString "performance_schema")))
       (CNe (EColumn "t.table_schema") (EString "mysql")).

Definition primaryQuery_order_by : expr := EColumn "t.table_name".

Definition primaryQuery_ast : query :=
  mkQuery primaryQuery_select primaryQuery_from primaryQuery_join
    primaryQuery_on primaryQuery_where primaryQuery_order_by.

(** ** The tables of the server *)

Definition tables_columns : list string :=
  ["table_schema"; "table_name"; "table_type"; "engine"].

Definition tables_values (t : TablesRow) : list sqlval :=
  [t_table_schema t; t_table_name t; t_table_type t; t_engine t].

Definition constraints_columns : list string :=
  ["table_schema"; "table_name"; "constraint_type"].

Definition constraints_values (tc : ConstraintRow) : list sqlval :=
  [tc_table_schema tc; tc_table_name tc; tc_constraint_type tc].

(** A server whose [information_schema] holds the tables [T] and the
    constraints [C]. *)
Definition information_schema (T : list TablesRow) (C : list ConstraintRow)
    : schema :=
  λ name,
    if decide (name = "information_schema.tables")
    then Some (mkTable tables_columns (tables_values <$> T))
    else if decide (name = "information_schema.table_constraints")
    then Some (mkTable constraints_columns (constraints_values <$> C))
    else None.

(** ** The clauses of the tree are the clauses of [PrimaryQuery] *)

Section meaning.
Context `{Collation}.
Implicit Types (t : TablesRow) (tc : ConstraintRow).
Implicit Types (T : list TablesRow) (C : list ConstraintRow).
Implicit Types (p : TablesRow * option ConstraintRow).

(** A row of each table, in scope under the alias the query gives it. *)
Definition t_env t : env := bind_row "t" tables_columns (tables_values t).
Definition tc_env tc : env :=
  bind_row "tc" constraints_columns (constraints_values tc).

Definition join_env p : env :=
  joined_env (null_row "tc" constraints_columns)
    (prod_map t_env (fmap (M := option) tc_env) p).

Lemma on_meaning t tc :
  eval_cond (t_env t ++ tc_env tc) (q_on primaryQuery_ast) = join_on t tc.
Proof. done. Qed.

Lemma where_meaning p :
  eval_cond (join_env p) (q_where primaryQuery_ast) = where_clause p.
Proof. by destruct p as [t [tc|]]. Qed.

Lemma order_by_meaning p :
  eval_expr (join_env p) (q_order_by primaryQuery_ast) = order_by_key p.
Proof. by destruct p as [t [tc|]]. Qed.

Lemma select_meaning p :
  eval_expr (join_env p) <$> q_select primaryQuery_ast = select_list p.
Proof. by destruct p as [t [tc|]]. Qed.

Lemma primaryQuery_ast_meaning T C :
  eval_query (information_schema T C) primaryQuery_ast =
    Some (primaryQuery_rows T C).
Proof.
  rewrite (eval_query_Some _ _ (mkTable tables_columns (tables_values <$> T))
             (mkTable constraints_columns (constraints_values <$> C)))
    by done.
  unfold primaryQuery_rows, from_clause. f_equal.
  cbn [tbl_rows]. rewrite <-!list_fmap_compose.
  erewrite (left_join_fmap _ _ join_on) by exact on_meaning.
  erewrite (where_fmap _ where_clause) by exact where_meaning.
  erewrite (order_by_fmap _ order_by_key) by exact order_by_meaning.
  rewrite <-list_fmap_compose. apply Forall_fmap_ext, Forall_forall.
  intros p _. apply select_meaning.
Qed.

End meaning.

(** ** The text *)

Lemma primaryQuery_parse : parse primaryQuery = Some primaryQuery_ast.
Proof. vm_compute. reflexivity. Qed.

Lemma run_query_primaryQuery `{Collation} T C :
  run_query (information_schema T C) primaryQuery =
    Some (primaryQuery_rows T C).
Proof.
  unfold run_query. rewrite primaryQuery_parse. apply primaryQuery_ast_meaning.
Qed.

(** The text is, token for token, the print of its tree. *)
Lemma primaryQuery_tokens :
  lex primaryQuery = Some (query_tokens primaryQuery_ast).
Proof. vm_compute. reflexivity. Qed.

Lemma primaryQuery_ast_wf : query_wf primaryQuery_ast = true.
Proof. vm_compute. reflexivity. Qed.

(** ** Theorems *)

(** C3: the text of [primaryQuery] is a statement of the fragment, and a
    server that parses it and evaluates it over the tables [T] and the
    constraints [C] of its [information_schema] answers with
    [primaryQuery_rows T C]: the meaning [PrimaryQuery] gives the query
    clause by clause is the meaning of its text. *)
Theorem primaryQuery_text_meaning `{Collation} T C :
  run_query (information_schema T C) primaryQuery =
    Some (primaryQuery_rows T C).
Proof. apply run_query_primaryQuery. Qed.

(** The syntax of the text: it selects three columns of [t], joins
    [information_schema.tables t] to
    [information_schema.table_constraints tc] on schema, name and the
    constraint type [PRIMARY KEY], keeps the rows that satisfy the four
    conditions of its [WHERE] clause and orders by [t.table_name]. *)
Theorem primaryQuery_parses : parse primaryQuery = Some primaryQuery_ast.
Proof. apply primaryQuery_parse. Qed.

(** Round trip between the text and the tree.  A well-formed
    statement of the fragment, printed and parsed, is read back as itself;
    and [primaryQuery] has the tokens of the print of [primaryQuery_ast]
    and of no other well-formed statement, so the tree is what the text
    says and the text is how the tree is written. *)
Theorem primaryQuery_print_parse q :
  query_wf q = true →
  parse (print_query q) = Some q ∧
  (lex (print_query q) = lex primaryQuery ↔ q = primaryQuery_ast).
Proof.
  intros Hq. split; [by apply parse_print|].
  rewrite (lex_print_query q Hq), primaryQuery_tokens. split.
  - intros Heq%(inj Some). apply (inj Some).
    rewrite <-(parse_query_tokens q Hq), Heq.
    apply parse_query_tokens, primaryQuery_ast_wf.
  - by intros ->.
Qed.

Lemma primaryQuery_print_parse_witness :
  parse (print_query primaryQuery_ast) = Some primaryQuery_ast ∧
  (lex (print_query primaryQuery_ast) = lex primaryQuery ↔
   primaryQuery_ast = primaryQuery_ast).
Proof. apply (primaryQuery_print_parse primaryQuery_ast). reflexivity. Defined.

(** C10: the label names of [CheckPrimaryKeyDesc] are the columns of the
    [SELECT] list of the text, in order, and [Scan] is given as many
    destinations as the text selects columns. *)
Theorem labels_are_selected_columns (v : locals) :
  q_select <$> parse primaryQuery =
    Some ((λ name, EColumn (qualified "t" name)) <$> PrimarylabelNames) ∧
  variableLabels CheckPrimaryKeyDesc = PrimarylabelNames ∧
  length (dests v) = length PrimarylabelNames.
Proof. by rewrite primaryQuery_parse. Qed.

(** A server that has no [information_schema] refuses the text, and
    so does one whose [tables] lacks the column [engine]: the query
    names them. *)
Theorem primaryQuery_needs_its_columns `{Collation} T C :
  run_query (λ _, None) primaryQuery = None ∧
  run_query
    (λ name, if decide (name = "information_schema.tables")
             then Some (mkTable ["table_schema"; "table_name"; "table_type"] [])
             else information_schema T C name)
    primaryQuery = None.
Proof. unfold run_query. by rewrite primaryQuery_parse. Qed.
