(* ===== verification/PrimaryKeySpec.v ===== *)
(** * What a scrape does: the reference definition and the refinement

    [scrape_rows] is the reference definition of what the scraper does with
    a result set: a structural recursion on the list of rows that touches
    no cursor.  [Scrape_spec] extends it to every context and database.
    The lemmas of this file show that [Scrape], with its cursor, its fuel
    and its deferred [Close], computes [Scrape_spec] ([Scrape_run]), and
    collect what [scrape_rows] guarantees on every result set.  The last
    part discharges the laws of the scraper contract. *)

From Stdlib Require Import Floats.
From S2P Require Import Prelude Prometheus Database Sql PrimaryQuery Scraper.
From S2P Require Import PrimaryKey.

(** ** Reference definitions *)

(** [Scan] of one row into the three variables. *)
Definition scan3 (v : locals) (row : RawRow) : option error * locals :=
  if decide (length row = 3)
  then let '(e, ds) := convert_assign 0 (dests v) row in (e, assign ds v)
  else (Some (ErrScanArity (length row) 3), v).

Fixpoint scrape_rows (rows : list RawRow) (v : locals) (s : Sink)
    : outcome (option error) * Sink :=
  match rows with
  | [] => (Returned None, s)
  | row :: rest =>
      match scan3 v row with
      | (Some e, _) => (Returned (Some e), s)
      | (None, v') =>
          match NewConstMetric CheckPrimaryKeyDesc GaugeValue 0 (dests v') with
          | inl e => (Panicked e, s)
          | inr m =>
              match sink_send m s with
              | inl e => (Panicked e, s)
              | inr s' => scrape_rows rest v' s'
              end
          end
      end
  end.

(** What the loop leaves behind: the outcome and the channel of
    [scrape_rows], and a cursor [r'] in place of the one it iterated. *)
Definition loop_result (rows : list RawRow) (v : locals) (w : World)
    (h : nat) (r' : Rows) : outcome (option error) * World :=
  ((scrape_rows rows v (w_sink w)).1,
   mkWorld (scrape_rows rows v (w_sink w)).2 (<[h := r']> (w_rows w))).

Definition Scrape_spec (ctx : Context) (inst : instance) (k : Sink)
    : outcome (option error) * Sink :=
  match ctx_err ctx with
  | Some e => (Returned (Some e), k)
  | None =>
      match db_answer (getDB inst) primaryQuery with
      | QueryFails e => (Returned (Some e), k)
      | QueryRows rows _ => scrape_rows rows zero_locals k
      end
  end.

(** The cursors [Scrape] leaves in the world: the ones that were there,
    and the one it opened, closed. *)
Definition cursors_after (ctx : Context) (inst : instance) (w w' : World)
    : Prop :=
  match ctx_err ctx, db_answer (getDB inst) primaryQuery with
  | None, QueryRows _ _ =>
      ∃ r', w_rows w' = <[fresh (dom (w_rows w)) := r']> (w_rows w) ∧
            rows_closed r' = true
  | _, _ => w_rows w' = w_rows w
  end.

(** A row whose three columns are strings, and the sample it becomes. *)
Definition raw_of (t : string * string * string) : RawRow :=
  [Some t.1.1; Some t.1.2; Some t.2].

Definition labels_of (t : string * string * string) : list string :=
  [t.1.1; t.1.2; t.2].

Definition metric_of (t : string * string * string) : Metric :=
  mkMetric CheckPrimaryKeyDesc GaugeValue 0 (labels_of t).

(** The error [Scan] reports on a row, if any. *)
Definition scan_err (row : RawRow) : option error := (scan3 zero_locals row).1.

Definition valid_labels (t : string * string * string) : Prop :=
  forallb utf8_valid (labels_of t) = true.

#[export] Instance valid_labels_dec t : Decision (valid_labels t).
Proof. unfold valid_labels. apply _. Defined.

(** A sample of this scraper: the gauge [CheckPrimaryKeyDesc] at 0, with
    one valid value per label. *)
Definition primary_sample (m : Metric) : Prop :=
  m_desc m = CheckPrimaryKeyDesc ∧ m_type m = GaugeValue ∧
  m_value m = 0%float ∧ metric_wf m = true.

Implicit Types (w : World) (r : Rows) (h : nat) (v : locals) (k : Sink).
Implicit Types (s : ScrapePrimaryKey) (inst : instance) (ctx : Context).
Implicit Types (t : string * string * string) (row : RawRow).
Implicit Types (rows rest : list RawRow) (good : list (string * string * string)).

(** ** One step of each operation on a live cursor *)

Lemma scrape_loop_S fuel h v :
  scrape_loop (S fuel) h v =
    (more ← Next h;
     if more : bool then
       '(err, v') ← scan_primary h v;
       match err with
       | Some e => mret (Some e)
       | None => m ← primary_metric v'; send m;; scrape_loop fuel h v'
       end
     else mret None).
Proof. done. Qed.

(** The three variables scanned from the row the cursor is at. *)
Lemma scan_rows_scan3 r row v :
  rows_closed r = false → lasterr r = None → current r = Some row →
  ((scan_rows (dests v) r).1, assign (scan_rows (dests v) r).2 v) = scan3 v row.
Proof.
  intros Hopen He Hcur. unfold scan_rows, scan3. rewrite He, Hopen, Hcur.
  destruct (decide (length row = 3)) as [Hl|Hl].
  - rewrite decide_True by done. by destruct (convert_assign 0 (dests v) row).
  - rewrite decide_False by done. by destruct v.
Qed.

Section live_cursor.
Context (h : nat) (w : World) (r : Rows).
Context (Hh : w_rows w !! h = Some r) (Hopen : rows_closed r = false).

Lemma Next_end :
  pending r = [] →
  Next h w =
    (Returned false,
     set_rows h (mkRows [] (current r) true (tail_err r) (tail_err r)) w).
Proof.
  intros Hp. unfold Next. rewrite (with_rows_lookup _ _ _ _ Hh).
  unfold next_rows. by rewrite Hopen, Hp.
Qed.

Lemma Next_row row rest :
  pending r = row :: rest →
  Next h w =
    (Returned true,
     set_rows h (mkRows rest (Some row) false (lasterr r) (tail_err r)) w).
Proof.
  intros Hp. unfold Next. rewrite (with_rows_lookup _ _ _ _ Hh).
  unfold next_rows. by rewrite Hopen, Hp.
Qed.

(** [Scan] on the row [Next] fetched is [scan3] of that row. *)
Lemma scan_primary_row row v :
  lasterr r = None → current r = Some row →
  scan_primary h v w = (Returned (scan3 v row), w).
Proof.
  intros He Hcur. unfold scan_primary, Scan.
  rewrite (exec_bind_returned _ _ _ _ _ (with_rows_lookup _ _ _ _ Hh)).
  cbn [fst snd]. rewrite (set_rows_id _ _ _ Hh).
  rewrite <-(scan_rows_scan3 r row v) by done.
  by destruct (scan_rows (dests v) r).
Qed.

Lemma Close_run :
  Close h w = (Returned (), set_rows h (close_rows r) w).
Proof. unfold Close. by rewrite (with_rows_lookup _ _ _ _ Hh). Qed.

End live_cursor.

Lemma primary_metric_run v w :
  primary_metric v w =
    match NewConstMetric CheckPrimaryKeyDesc GaugeValue 0 (dests v) with
    | inl e => (Panicked e, w)
    | inr m => (Returned m, w)
    end.
Proof. unfold primary_metric, MustNewConstMetric. by destruct (NewConstMetric _ _ _ _). Qed.


(** ** [Scrape] computes the reference definition *)

Lemma loop_result_step rows v w h r1 r' k :
  loop_result rows v (set_sink k (set_rows h r1 w)) h r' =
    ((scrape_rows rows v k).1,
     mkWorld (scrape_rows rows v k).2 (<[h := r']> (w_rows w))).
Proof. unfold loop_result; simpl. by rewrite insert_insert_eq. Qed.

Lemma scrape_loop_refines fuel h v w r :
  w_rows w !! h = Some r → rows_closed r = false → lasterr r = None →
  length (pending r) < fuel →
  ∃ r', scrape_loop fuel h v w = loop_result (pending r) v w h r' ∧
        tail_err r' = tail_err r ∧
        ((scrape_rows (pending r) v (w_sink w)).1 = Returned None →
         rows_closed r' = true ∧ lasterr r' = tail_err r).
Proof.
  revert v w r. induction fuel as [|fuel IH]; intros v w r Hh Hc He Hlt; [lia|].
  rewrite scrape_loop_S. destruct (pending r) as [|row rest] eqn:Hp.
  { rewrite (exec_bind_returned _ _ _ _ _ (Next_end _ _ _ Hh Hc Hp)).
    by eexists. }
  rewrite (exec_bind_returned _ _ _ _ _ (Next_row _ _ _ Hh Hc _ _ Hp)).
  set (r1 := mkRows rest _ _ _ _). set (w1 := set_rows h r1 w).
  assert (w_rows w1 !! h = Some r1) as Hh1 by apply set_rows_lookup.
  rewrite (exec_bind_returned _ _ _ _ _
             (scan_primary_row h w1 r1 Hh1 eq_refl row v He eq_refl)).
  unfold loop_result. simpl scrape_rows.
  destruct (scan3 v row) as [[e|] v']; [by exists r1|].
  unfold mbind at 1, exec_bind. rewrite primary_metric_run.
  destruct (NewConstMetric _ _ _ _) as [e|m]; [by exists r1|].
  unfold mbind at 1, exec_bind, send. simpl w_sink.
  destruct (sink_send m (w_sink w)) as [e|s']; [by exists r1|].
  destruct (IH v' (set_sink s' w1) r1) as (r' & -> & Ht & Hend);
    [done|done|done|simpl in *; lia|].
  exists r'. subst w1. by rewrite loop_result_step.
Qed.

Lemma scrape_rows_terminates rows v (k : Sink) :
  terminates (scrape_rows rows v k).1 = true.
Proof.
  revert v k. induction rows as [|row rows IH]; intros v k; simpl; [done|].
  destruct (scan3 v row) as [[e|] v']; [done|].
  destruct (NewConstMetric _ _ _ _) as [e|m]; [done|].
  by destruct (sink_send m k).
Qed.

(** The body of [Scrape] once the query has answered: the loop on the
    cursor of the query, then the deferred [Close] on the cursor the loop
    leaves. *)
Lemma Scrape_loop s inst w rows tail :
  db_answer (getDB inst) primaryQuery = QueryRows rows tail →
  let h := fresh (dom (w_rows w)) in
  let w1 := set_rows h (open_rows rows tail) w in
  ∃ r', scrape_loop (loop_fuel h w1) h zero_locals w1 =
          loop_result rows zero_locals w1 h r' ∧
        Scrape s (mkContext None) inst w =
          loop_result rows zero_locals w h (close_rows r') ∧
        ((scrape_rows rows zero_locals (w_sink w)).1 = Returned None →
         lasterr r' = tail).
Proof.
  intros Hq h w1. simpl. unfold ScrapePrimaryKey.Scrape, Sprint.
  rewrite (exec_bind_returned _ _ _ _ _ (QueryContext_rows _ _ _ _ w Hq)).
  fold h. fold w1. set (r0 := open_rows rows tail).
  assert (w_rows w1 !! h = Some r0) as Hh1 by apply set_rows_lookup.
  destruct (scrape_loop_refines (loop_fuel h w1) h zero_locals w1 r0)
    as (r' & Hloop & Ht & Hend); [done|done|done|..].
  { unfold loop_fuel. rewrite Hh1. lia. }
  exists r'. split_and!; [done| |].
  - eapply defer_run.
    + erewrite exec_bind_returned by apply gets_run. apply Hloop.
    + apply scrape_rows_terminates.
    + rewrite (Close_run _ _ r') by apply lookup_insert_eq.
      unfold loop_result, set_rows; simpl. by rewrite !insert_insert_eq.
  - intros Hr. destruct (Hend Hr) as [_ Hl]. by rewrite Hl.
Qed.

Lemma Scrape_refines s inst w rows tail :
  db_answer (getDB inst) primaryQuery = QueryRows rows tail →
  ∃ r', Scrape s (mkContext None) inst w =
          loop_result rows zero_locals w (fresh (dom (w_rows w))) r' ∧
        rows_closed r' = true ∧
        ((scrape_rows rows zero_locals (w_sink w)).1 = Returned None →
         lasterr r' = tail).
Proof.
  intros Hq. destruct (Scrape_loop s inst w rows tail Hq) as (r' & _ & ? & ?).
  by exists (close_rows r').
Qed.

(** The early return of lines 86 to 88. *)
Lemma Scrape_query_error_run s inst w e :
  db_answer (getDB inst) primaryQuery = QueryFails e →
  Scrape s (mkContext None) inst w = (Returned (Some e), w).
Proof.
  intros Hq. simpl. unfold ScrapePrimaryKey.Scrape, Sprint.
  by rewrite (exec_bind_returned _ _ _ _ _ (QueryContext_fails _ _ _ w Hq)).
Qed.

Lemma Scrape_run s ctx inst w :
  (Scrape s ctx inst w).1 = (Scrape_spec ctx inst (w_sink w)).1 ∧
  w_sink (Scrape s ctx inst w).2 = (Scrape_spec ctx inst (w_sink w)).2 ∧
  cursors_after ctx inst w (Scrape s ctx inst w).2.
Proof.
  unfold Scrape_spec, cursors_after. destruct ctx as [[e|]]; [done|].
  cbn [ctx_err]. destruct (db_answer _ _) as [e|rows tail] eqn:Hq.
  - by rewrite (Scrape_query_error_run s inst w e Hq).
  - destruct (Scrape_refines s inst w rows tail Hq) as (r' & -> & Hc & _).
    unfold loop_result; simpl. eauto.
Qed.

(** ** Result sets row by row *)

Lemma CheckPrimaryKeyDesc_ok : desc_err CheckPrimaryKeyDesc = None.
Proof. reflexivity. Qed.

(** A scan that succeeds overwrites the three variables: nothing of the
    previous row survives. *)
Lemma scan3_raw v t :
  scan3 v (raw_of t) = (None, mkLocals t.1.1 t.1.2 t.2).
Proof. by destruct v. Qed.

Lemma scan3_err_indep v v' row : (scan3 v row).1 = (scan3 v' row).1.
Proof.
  unfold scan3. case_decide; [|done]. destruct v, v'.
  destruct row as [|[a|] [|[b|] [|[c|] [|? ?]]]]; done.
Qed.

Lemma scan3_Some v row e :
  scan_err row = Some e → ∃ v', scan3 v row = (Some e, v').
Proof.
  unfold scan_err. rewrite (scan3_err_indep zero_locals v).
  destruct (scan3 v row) as [e' v']. simpl. intros ->. eauto.
Qed.

Lemma scan_err_raw t : scan_err (raw_of t) = None.
Proof. done. Qed.

(** Exactly the rows of three non-[NULL] columns scan. *)
Lemma scan_err_None row : scan_err row = None ↔ ∃ t, row = raw_of t.
Proof.
  split; [|by intros [t ->]].
  unfold scan_err, scan3. case_decide; [|done].
  destruct row as [|[a|] [|[b|] [|[c|] [|? ?]]]]; try done.
  intros _. by exists (a, b, c).
Qed.

Lemma NewConstMetric_primary t :
  valid_labels t →
  NewConstMetric CheckPrimaryKeyDesc GaugeValue 0 (labels_of t) =
    inr (metric_of t).
Proof. intros Hv. by apply NewConstMetric_inr. Qed.

Lemma NewConstMetric_primary_invalid t :
  ¬ valid_labels t →
  ∃ x, x ∈ labels_of t ∧ utf8_valid x = false ∧
       NewConstMetric CheckPrimaryKeyDesc GaugeValue 0 (labels_of t) =
         inl (ErrInvalidUTF8 x).
Proof.
  intros Hv. unfold NewConstMetric, validateLabelValues. simpl desc_err.
  cbn [negb bool_decide decide_rel length variableLabels CheckPrimaryKeyDesc].
  destruct (List.find _ (labels_of t)) as [x|] eqn:Hf.
  - apply find_some in Hf as [Hin Hx%negb_true_iff].
    exists x. by rewrite <-list_elem_of_In in Hin.
  - destruct Hv. apply forallb_elem_of. intros x Hx%list_elem_of_In.
    by apply negb_false_iff, (find_none _ _ Hf).
Qed.

(** The rows that scan and carry valid labels are sent in order, one
    sample each, and the scrape goes on with what follows them. *)
Lemma scrape_rows_good good rest v k :
  sink_closed k = false → Forall valid_labels good →
  ∃ v', scrape_rows ((raw_of <$> good) ++ rest) v k =
          scrape_rows rest v' (mkSink (sent k ++ (metric_of <$> good)) false).
Proof.
  intros Hk Hgood. revert v k Hk.
  induction Hgood as [|t good Ht _ IH]; intros v k Hk.
  { exists v. simpl. rewrite app_nil_r. by destruct k; simplify_eq/=. }
  rewrite fmap_cons. cbn [app scrape_rows]. rewrite scan3_raw.
  change (dests _) with (labels_of t).
  rewrite (NewConstMetric_primary t Ht), (sink_send_open _ _ Hk).
  destruct (IH (mkLocals t.1.1 t.1.2 t.2) (mkSink (sent k ++ [metric_of t]) false))
    as [v' ->]; [done|].
  exists v'. simpl. by rewrite <-app_assoc.
Qed.

Lemma scrape_rows_appends rows v k :
  ∃ ms, sent (scrape_rows rows v k).2 = sent k ++ ms ∧
        sink_closed (scrape_rows rows v k).2 = sink_closed k ∧
        length ms ≤ length rows ∧ Forall primary_sample ms.
Proof.
  assert (∀ k n, ∃ ms,
            sent k = sent k ++ ms ∧ sink_closed k = sink_closed k ∧
            length ms ≤ n ∧ Forall primary_sample ms) as Hstop.
  { intros k' n. exists []. rewrite app_nil_r. simpl. auto with lia. }
  revert v k. induction rows as [|row rows IH]; intros v k; simpl.
  { apply Hstop. }
  destruct (scan3 v row) as [[e|] v']; [apply Hstop|].
  destruct (NewConstMetric _ _ _ _) as [e|m] eqn:Hm; [apply Hstop|].
  destruct (sink_send m k) as [e|k'] eqn:Hk; [apply Hstop|].
  apply sink_send_inr in Hk as [Hk ->].
  destruct (IH v' (mkSink (sent k ++ [m]) false)) as (ms & -> & -> & Hlen & Hms).
  exists (m :: ms). simpl. rewrite <-app_assoc. repeat split; [done|lia|].
  constructor; [|done]. pose proof (NewConstMetric_wf _ _ _ _ _ Hm) as Hwf.
  apply NewConstMetric_inr in Hm as (_ & _ & _ & ->). by repeat split.
Qed.

(** With the channel open and valid labels in every row that scans, no
    run panics. *)
Lemma scrape_rows_no_panic rows v k :
  sink_closed k = false →
  (∀ t, raw_of t ∈ rows → valid_labels t) →
  panics (scrape_rows rows v k).1 = false.
Proof.
  revert v k. induction rows as [|row rows IH]; intros v k Hk Hv; simpl; [done|].
  destruct (scan_err row) as [e|] eqn:He.
  { by destruct (scan3_Some v row e He) as [v' ->]. }
  apply scan_err_None in He as [t ->]. rewrite scan3_raw.
  change (dests _) with (labels_of t).
  rewrite NewConstMetric_primary by (apply Hv; left).
  rewrite (sink_send_open _ _ Hk). apply IH; [done|].
  intros t' Ht'. apply Hv. by right.
Qed.

(** ** What [Scrape] guarantees on every input *)

(** What a scrape returns and appends does not depend on what the channel
    already holds, only on whether it is closed. *)
Lemma scrape_rows_uniform rows v (closed : bool) :
  ∃ o ms, ∀ k, sink_closed k = closed →
    (scrape_rows rows v k).1 = o ∧ sent (scrape_rows rows v k).2 = sent k ++ ms.
Proof.
  revert v. induction rows as [|row rest IH]; intros v; cbn [scrape_rows];
    [by exists (Returned None), []; intros; rewrite app_nil_r|].
  destruct (scan3 v row) as [[e|] v1];
    [by exists (Returned (Some e)), []; intros; rewrite app_nil_r|].
  destruct (NewConstMetric _ _ _ _) as [e|m];
    [by exists (Panicked e), []; intros; rewrite app_nil_r|].
  unfold sink_send. destruct closed.
  - exists (Panicked ErrSendOnClosedChannel), []. intros k ->.
    by rewrite app_nil_r.
  - destruct (IH v1) as (o & ms & Hrest). exists o, (m :: ms). intros k ->.
    destruct (Hrest (mkSink (sent k ++ [m]) false)) as [-> ->]; [done|].
    simpl. by rewrite <-app_assoc.
Qed.

Lemma Scrape_spec_uniform ctx inst (closed : bool) :
  ∃ o ms, ∀ k, sink_closed k = closed →
    (Scrape_spec ctx inst k).1 = o ∧ sent (Scrape_spec ctx inst k).2 = sent k ++ ms.
Proof.
  unfold Scrape_spec. destruct (ctx_err ctx) as [e|];
    [by exists (Returned (Some e)), []; intros; rewrite app_nil_r|].
  destruct (db_answer _ _) as [e|rows tail];
    [by exists (Returned (Some e)), []; intros; rewrite app_nil_r|].
  apply scrape_rows_uniform.
Qed.

Section every_input.
Context (s : ScrapePrimaryKey) (ctx : Context) (inst : instance) (w : World).

Lemma Scrape_run_terminates : terminates (Scrape s ctx inst w).1 = true.
Proof.
  destruct (Scrape_run s ctx inst w) as (-> & _). unfold Scrape_spec.
  destruct (ctx_err ctx); [done|]. destruct (db_answer _ _); [done|].
  apply scrape_rows_terminates.
Qed.

Lemma Scrape_run_appends :
  ∃ ms, sent (w_sink (Scrape s ctx inst w).2) = sent (w_sink w) ++ ms ∧
        sink_closed (w_sink (Scrape s ctx inst w).2) = sink_closed (w_sink w) ∧
        Forall primary_sample ms.
Proof.
  destruct (Scrape_run s ctx inst w) as (_ & -> & _). unfold Scrape_spec.
  destruct (ctx_err ctx); [exists []; by rewrite app_nil_r|].
  destruct (db_answer _ _) as [|rows tail]; [exists []; by rewrite app_nil_r|].
  destruct (scrape_rows_appends rows zero_locals (w_sink w)) as (ms & ? & ? & _ & ?).
  eauto.
Qed.

Lemma Scrape_run_cursors : all_closed w → all_closed (Scrape s ctx inst w).2.
Proof.
  intros Hw. destruct (Scrape_run s ctx inst w) as (_ & _ & Hc).
  unfold cursors_after, all_closed in *.
  destruct (ctx_err ctx); [by rewrite Hc|].
  destruct (db_answer _ _); [by rewrite Hc|].
  destruct Hc as (r' & -> & Hr'). by apply map_Forall_insert_2.
Qed.

Lemma Scrape_run_frame : w_rows w ⊆ w_rows (Scrape s ctx inst w).2.
Proof.
  destruct (Scrape_run s ctx inst w) as (_ & _ & Hc). revert Hc.
  unfold cursors_after.
  destruct (ctx_err ctx); [by intros ->|].
  destruct (db_answer _ _); [by intros ->|].
  intros (r' & -> & _). apply insert_subseteq, fresh_handle_None.
Qed.

(** Runs from two worlds whose channels are both open or both closed
    return the same and append the same. *)
Lemma Scrape_run_uniform w' :
  sink_closed (w_sink w) = sink_closed (w_sink w') →
  (Scrape s ctx inst w').1 = (Scrape s ctx inst w).1 ∧
  ∀ ms, sent (w_sink (Scrape s ctx inst w).2) = sent (w_sink w) ++ ms →
        sent (w_sink (Scrape s ctx inst w').2) = sent (w_sink w') ++ ms.
Proof.
  intros Hc. destruct (Scrape_run s ctx inst w) as (-> & -> & _).
  destruct (Scrape_run s ctx inst w') as (-> & -> & _).
  destruct (Scrape_spec_uniform ctx inst (sink_closed (w_sink w)))
    as (o & ms0 & Huni).
  destruct (Huni (w_sink w) eq_refl) as [-> ->].
  destruct (Huni (w_sink w') (eq_sym Hc)) as [-> ->].
  split; [done|]. by intros ms <-%app_inv_head.
Qed.

(** A second scrape of the same database returns what the first returned
    and appends what the first appended. *)
Lemma Scrape_run_twice :
  (Scrape s ctx inst (Scrape s ctx inst w).2).1 = (Scrape s ctx inst w).1 ∧
  ∃ ms, sent (w_sink (Scrape s ctx inst w).2) = sent (w_sink w) ++ ms ∧
        sent (w_sink (Scrape s ctx inst (Scrape s ctx inst w).2).2) =
          sent (w_sink (Scrape s ctx inst w).2) ++ ms.
Proof.
  destruct Scrape_run_appends as (ms & Hms & Hc & _).
  destruct (Scrape_run_uniform (Scrape s ctx inst w).2) as [Ho Hs]; [done|].
  eauto.
Qed.

End every_input.

(** ** What [Scrape] does with a result set from a live context *)

Section result_set.
Context (s : ScrapePrimaryKey) (inst : instance) (w : World).
Context (rows : list RawRow) (tail : option error).
Context (Hq : db_answer (getDB inst) primaryQuery = QueryRows rows tail).

Lemma Scrape_rows_run :
  (Scrape s (mkContext None) inst w).1 =
    (scrape_rows rows zero_locals (w_sink w)).1 ∧
  w_sink (Scrape s (mkContext None) inst w).2 =
    (scrape_rows rows zero_locals (w_sink w)).2.
Proof.
  destruct (Scrape_run s (mkContext None) inst w) as (-> & -> & _).
  unfold Scrape_spec. cbn [ctx_err]. by rewrite Hq.
Qed.

(** The rows before the first one that does not scan or carries an
    invalid label are sent; the scrape goes on from there. *)
Lemma Scrape_good_prefix good rest :
  rows = (raw_of <$> good) ++ rest →
  sink_closed (w_sink w) = false → Forall valid_labels good →
  ∃ v', (Scrape s (mkContext None) inst w).1 =
          (scrape_rows rest v'
             (mkSink (sent (w_sink w) ++ (metric_of <$> good)) false)).1 ∧
        w_sink (Scrape s (mkContext None) inst w).2 =
          (scrape_rows rest v'
             (mkSink (sent (w_sink w) ++ (metric_of <$> good)) false)).2.
Proof.
  intros Hrows Hk Hgood. destruct Scrape_rows_run as [-> ->]. rewrite Hrows.
  destruct (scrape_rows_good good rest zero_locals (w_sink w) Hk Hgood) as [v' ->].
  by exists v'.
Qed.

End result_set.

(** ** The scraper honours the contract *)

#[export] Instance ScrapePrimaryKey_laws : ScraperLaws ScrapePrimaryKey.
Proof.
  split.
  - apply Scrape_run_terminates.
  - intros s ctx inst w.
    destruct (Scrape_run_appends s ctx inst w) as (ms & ? & _ & Hms).
    exists ms. split; [done|]. eapply Forall_impl; [done|].
    by intros m (_ & _ & _ & ?).
  - intros s ctx inst w.
    by destruct (Scrape_run_appends s ctx inst w) as (ms & _ & ? & _).
  - apply Scrape_run_cursors.
  - apply Scrape_run_frame.
  - apply Scrape_run_uniform.
  - intros s [?] inst w e [= ->]. by exists e.
Qed.
