(* ===== verification/PrimaryKeyTheorems.v ===== *)
(** * Theorems about the [primary_key] scraper

    The properties of [Scrape], each followed by its instance at a
    concrete database: on every input ([Scrape_meets_spec] and the
    guarantees that hold on all paths), on each kind of result set and
    failure, and on the failures the loop does not look for. *)

From Stdlib Require Import Floats.
From S2P Require Import Prelude Prometheus Database Sql PrimaryQuery Scraper.
From S2P Require Import Utf8 PrimaryKey PrimaryKeySpec.

(** ** Concrete databases

    A server with tables to report; [demo_null] returns a [NULL] engine in
    its second row, [demo_down] fails the query, [demo_latin1] is a row
    whose table name is not valid UTF-8. *)

Definition demo_good : list (string * string * string) :=
  [("shop", "Log", "MyISAM"); ("shop", "audit", "InnoDB")].

Definition answer_with (rows : list RawRow) (tail : option error) : DB :=
  mkDB (λ q, if decide (q = primaryQuery) then QueryRows rows tail
             else QueryFails (ErrDriver "unknown query")).

Definition demo_db : DB := answer_with (raw_of <$> demo_good) None.

Definition demo_null : DB :=
  answer_with
    [raw_of ("shop", "Log", "MyISAM"); [Some "shop"; Some "audit"; None];
     raw_of ("shop", "zeta", "InnoDB")] None.

Definition demo_down : DB := mkDB (λ _, QueryFails (ErrDriver "server has gone away")).

Definition demo_world : World := mkWorld (mkSink [] false) ∅.

Definition demo_latin1 : string * string * string :=
  ("shop", String "c" (String "a" (String "f" (String "233" ""))), "InnoDB").

Implicit Types (w : World) (r : Rows) (h : nat) (v : locals) (k : Sink).
Implicit Types (s : ScrapePrimaryKey) (inst : instance) (ctx : Context).
Implicit Types (t : string * string * string) (row : RawRow).
Implicit Types (rows rest : list RawRow) (good : list (string * string * string)).

(** ** Theorems *)

(** C1: [Scrape] refines [Scrape_spec].  On every context, instance and
    world, it returns what the specification returns and leaves the metric
    channel the specification leaves; the cursors that were in the world
    are untouched, and the cursor it opens is closed when it returns,
    whether it returns normally, with an error or by a panic. *)
Theorem Scrape_meets_spec s ctx inst w :
  (Scrape s ctx inst w).1 = (Scrape_spec ctx inst (w_sink w)).1 ∧
  w_sink (Scrape s ctx inst w).2 = (Scrape_spec ctx inst (w_sink w)).2 ∧
  cursors_after ctx inst w (Scrape s ctx inst w).2.
Proof. apply Scrape_run. Qed.

(** C4: when every row of the result set has three non-NULL columns that
    are valid UTF-8 and the channel is open, [Scrape] returns [nil] and
    has sent exactly one sample per row, in the order of the rows, each
    labelled with the values of its own row. *)
Theorem Scrape_all_rows s inst w good tail :
  db_answer (getDB inst) primaryQuery = QueryRows (raw_of <$> good) tail →
  sink_closed (w_sink w) = false → Forall valid_labels good →
  (Scrape s (mkContext None) inst w).1 = Returned None ∧
  w_sink (Scrape s (mkContext None) inst w).2 =
    mkSink (sent (w_sink w) ++ (metric_of <$> good)) false.
Proof.
  intros Hq Hk Hgood.
  destruct (Scrape_good_prefix s inst w _ tail Hq good []) as (v' & -> & ->);
    [by rewrite app_nil_r|done..].
Qed.

Lemma Scrape_all_rows_witness :
  (Scrape ScrapePrimaryKey_lit (mkContext None) (mkInstance demo_db) demo_world).1
    = Returned None ∧
  w_sink (Scrape ScrapePrimaryKey_lit (mkContext None) (mkInstance demo_db)
            demo_world).2 =
    mkSink (metric_of <$> demo_good) false.
Proof.
  apply (Scrape_all_rows ScrapePrimaryKey_lit (mkInstance demo_db) demo_world
           demo_good None); [reflexivity|reflexivity|].
  repeat constructor.
Defined.

(** C5: when [Scan] fails on a row, [Scrape] returns that error; the
    samples of the rows before it have been sent and nothing of the
    failing row or of the rows after it is. *)
Theorem Scrape_scan_error s inst w good bad rest tail e :
  db_answer (getDB inst) primaryQuery =
    QueryRows ((raw_of <$> good) ++ bad :: rest) tail →
  sink_closed (w_sink w) = false → Forall valid_labels good →
  scan_err bad = Some e →
  (Scrape s (mkContext None) inst w).1 = Returned (Some e) ∧
  w_sink (Scrape s (mkContext None) inst w).2 =
    mkSink (sent (w_sink w) ++ (metric_of <$> good)) false.
Proof.
  intros Hq Hk Hgood He.
  destruct (Scrape_good_prefix s inst w _ tail Hq good (bad :: rest))
    as (v' & -> & ->); [done..|].
  cbn [scrape_rows]. by destruct (scan3_Some v' bad e He) as [v'' ->].
Qed.

Lemma Scrape_scan_error_witness :
  (Scrape ScrapePrimaryKey_lit (mkContext None) (mkInstance demo_null) demo_world).1
    = Returned (Some (ErrScanNull 2)) ∧
  w_sink (Scrape ScrapePrimaryKey_lit (mkContext None) (mkInstance demo_null)
            demo_world).2 =
    mkSink [metric_of ("shop", "Log", "MyISAM")] false.
Proof.
  apply (Scrape_scan_error ScrapePrimaryKey_lit (mkInstance demo_null) demo_world
           [("shop", "Log", "MyISAM")] [Some "shop"; Some "audit"; None]
           [raw_of ("shop", "zeta", "InnoDB")] None (ErrScanNull 2));
    [reflexivity|reflexivity| |reflexivity].
  repeat constructor.
Defined.

(** C16: when the query fails, [Scrape] returns the error of the query and
    leaves the world as it was: no sample is sent and no cursor opened. *)
Theorem Scrape_query_error s inst w e :
  db_answer (getDB inst) primaryQuery = QueryFails e →
  Scrape s (mkContext None) inst w = (Returned (Some e), w).
Proof. apply Scrape_query_error_run. Qed.

Lemma Scrape_query_error_witness :
  Scrape ScrapePrimaryKey_lit (mkContext None) (mkInstance demo_down) demo_world
    = (Returned (Some (ErrDriver "server has gone away")), demo_world).
Proof.
  apply (Scrape_query_error ScrapePrimaryKey_lit (mkInstance demo_down) demo_world).
  reflexivity.
Defined.

(** C17: when the context is already done, [Scrape] returns the context's
    error without consulting the database, and leaves the world as it
    was. *)
Theorem Scrape_context_done s inst w e :
  Scrape s (mkContext (Some e)) inst w = (Returned (Some e), w).
Proof. done. Qed.

(** C6: [Scrape] leaks no cursor: if every cursor of the world is closed
    before the call, every cursor is closed after it, on every path. *)
Theorem Scrape_closes_cursors s ctx inst w :
  all_closed w → all_closed (Scrape s ctx inst w).2.
Proof. apply Scrape_run_cursors. Qed.

Lemma Scrape_closes_cursors_witness :
  all_closed (Scrape ScrapePrimaryKey_lit (mkContext None) (mkInstance demo_null)
                demo_world).2.
Proof.
  apply (Scrape_closes_cursors ScrapePrimaryKey_lit (mkContext None)
           (mkInstance demo_null) demo_world).
  apply map_Forall_empty.
Defined.

(** C15: the row loop terminates: the fuel [Scrape] gives it is never
    exhausted, on any context, database and world. *)
Theorem Scrape_terminates s ctx inst w :
  terminates (Scrape s ctx inst w).1 = true.
Proof. apply Scrape_run_terminates. Qed.

(** C9: [Scrape] only appends to the metric channel, at most one sample
    per row of the result set, never closes it, and every sample it sends
    is the gauge [CheckPrimaryKeyDesc] at value 0 with one valid UTF-8
    value for each of its three labels. *)
Theorem Scrape_appends_samples s ctx inst w :
  ∃ ms, sent (w_sink (Scrape s ctx inst w).2) = sent (w_sink w) ++ ms ∧
        sink_closed (w_sink (Scrape s ctx inst w).2) = sink_closed (w_sink w) ∧
        Forall primary_sample ms.
Proof. apply Scrape_run_appends. Qed.

(** With the channel open and valid UTF-8 in every row that scans,
    [Scrape] does not panic, whatever the context and the database. *)
Theorem Scrape_no_panic s ctx inst w :
  sink_closed (w_sink w) = false →
  (∀ rows tail t, db_answer (getDB inst) primaryQuery = QueryRows rows tail →
                  raw_of t ∈ rows → valid_labels t) →
  panics (Scrape s ctx inst w).1 = false.
Proof.
  intros Hk Hv. destruct (Scrape_run s ctx inst w) as (-> & _).
  unfold Scrape_spec. destruct (ctx_err ctx); [done|].
  destruct (db_answer _ _) as [|rows tail] eqn:Hq; [done|].
  apply scrape_rows_no_panic; eauto.
Qed.

Lemma Scrape_no_panic_witness :
  panics (Scrape ScrapePrimaryKey_lit (mkContext None) (mkInstance demo_db)
            demo_world).1 = false.
Proof.
  apply (Scrape_no_panic ScrapePrimaryKey_lit (mkContext None)
           (mkInstance demo_db) demo_world); [reflexivity|].
  intros rows tail t Hq Ht. vm_compute in Hq. injection Hq as <- _.
  destruct t as [[a b] c].
  repeat (apply elem_of_cons in Ht as [[= -> -> ->]|Ht]; [reflexivity|]).
  by apply elem_of_nil in Ht.
Defined.

(** C26: text that is Unicode never makes [Scrape] panic: when the channel
    is open and every label value of every row is the UTF-8 encoding of a
    sequence of Unicode scalar values, [Scrape] does not panic. *)
Theorem Scrape_no_panic_on_unicode s ctx inst w :
  sink_closed (w_sink w) = false →
  (∀ rows tail t x,
     db_answer (getDB inst) primaryQuery = QueryRows rows tail →
     raw_of t ∈ rows → x ∈ labels_of t →
     ∃ cps, Forall (λ n, is_scalar n = true) cps ∧ encode cps = x) →
  panics (Scrape s ctx inst w).1 = false.
Proof.
  intros Hk Hv. destruct (Scrape_run s ctx inst w) as (-> & _).
  unfold Scrape_spec. destruct (ctx_err ctx); [done|].
  destruct (db_answer _ _) as [|rows tail] eqn:Hq; [done|].
  apply scrape_rows_no_panic; [done|]. intros t Ht.
  apply forallb_forall. intros x Hx%list_elem_of_In.
  apply utf8_valid_iff_encoding. eauto.
Qed.

Lemma Scrape_no_panic_on_unicode_witness :
  panics (Scrape ScrapePrimaryKey_lit (mkContext None) (mkInstance demo_db)
            demo_world).1 = false.
Proof.
  apply (Scrape_no_panic_on_unicode ScrapePrimaryKey_lit (mkContext None)
           (mkInstance demo_db) demo_world); [reflexivity|].
  intros rows tail t x Hq Ht Hx. vm_compute in Hq. injection Hq as <- _.
  apply utf8_valid_decode. apply list_elem_of_In in Hx. revert x Hx.
  apply forallb_forall. destruct t as [[a b] c].
  repeat (apply elem_of_cons in Ht as [[= -> -> ->]|Ht]; [reflexivity|]).
  by apply elem_of_nil in Ht.
Defined.

(** C18: an error that ends the iteration early is not reported: when the
    driver fails after the rows it delivered, [Scrape] returns [nil] as if
    the result set were complete, although the cursor's [Err] holds the
    error.  The loop never consults [Err]. *)
Theorem Scrape_ignores_iteration_error s inst w good e :
  db_answer (getDB inst) primaryQuery = QueryRows (raw_of <$> good) (Some e) →
  sink_closed (w_sink w) = false → Forall valid_labels good →
  (Scrape s (mkContext None) inst w).1 = Returned None ∧
  ∃ r, w_rows (Scrape s (mkContext None) inst w).2 !! fresh (dom (w_rows w))
         = Some r ∧ lasterr r = Some e.
Proof.
  intros Hq Hk Hgood.
  destruct (Scrape_refines s inst w _ _ Hq) as (r' & -> & _ & Herr).
  destruct (scrape_rows_good good [] zero_locals (w_sink w) Hk Hgood) as [v' Hrun].
  rewrite app_nil_r in Hrun. unfold loop_result. rewrite Hrun in *. simpl.
  split; [done|]. exists r'. by rewrite lookup_insert_eq, Herr.
Qed.

Lemma Scrape_ignores_iteration_error_witness :
  (Scrape ScrapePrimaryKey_lit (mkContext None)
     (mkInstance (answer_with (raw_of <$> demo_good) (Some (ErrDriver "connection reset"))))
     demo_world).1 = Returned None ∧
  ∃ r, w_rows (Scrape ScrapePrimaryKey_lit (mkContext None)
          (mkInstance (answer_with (raw_of <$> demo_good) (Some (ErrDriver "connection reset"))))
          demo_world).2 !! fresh (dom (w_rows demo_world)) = Some r ∧
       lasterr r = Some (ErrDriver "connection reset").
Proof.
  apply (Scrape_ignores_iteration_error ScrapePrimaryKey_lit _ demo_world demo_good);
    [vm_compute; reflexivity|reflexivity|repeat constructor].
Defined.

(** C20: a send on a closed channel panics: when the channel is closed
    and the first row scans, [Scrape] panics and sends nothing. *)
Theorem Scrape_send_on_closed_channel s inst w t rest tail :
  db_answer (getDB inst) primaryQuery = QueryRows (raw_of t :: rest) tail →
  sink_closed (w_sink w) = true → valid_labels t →
  (Scrape s (mkContext None) inst w).1 = Panicked ErrSendOnClosedChannel ∧
  w_sink (Scrape s (mkContext None) inst w).2 = w_sink w.
Proof.
  intros Hq Hk Ht. destruct (Scrape_rows_run s inst w _ tail Hq) as [-> ->].
  cbn [scrape_rows]. rewrite scan3_raw. change (dests _) with (labels_of t).
  by rewrite (NewConstMetric_primary t Ht), (sink_send_closed _ _ Hk).
Qed.

Lemma Scrape_send_on_closed_channel_witness :
  (Scrape ScrapePrimaryKey_lit (mkContext None) (mkInstance demo_db)
     (mkWorld (mkSink [] true) ∅)).1 = Panicked ErrSendOnClosedChannel ∧
  w_sink (Scrape ScrapePrimaryKey_lit (mkContext None) (mkInstance demo_db)
            (mkWorld (mkSink [] true) ∅)).2 = mkSink [] true.
Proof.
  apply (Scrape_send_on_closed_channel ScrapePrimaryKey_lit (mkInstance demo_db)
           (mkWorld (mkSink [] true) ∅) ("shop", "Log", "MyISAM")
           [raw_of ("shop", "audit", "InnoDB")] None);
    [vm_compute; reflexivity|reflexivity|reflexivity].
Defined.

(** C19: a label value that is not valid UTF-8 makes [Scrape] panic: the
    samples of the rows before it have been sent, and the panic carries
    the offending value. *)
Theorem Scrape_panics_on_invalid_label s inst w good t rest tail :
  db_answer (getDB inst) primaryQuery =
    QueryRows ((raw_of <$> good) ++ raw_of t :: rest) tail →
  sink_closed (w_sink w) = false → Forall valid_labels good →
  ¬ valid_labels t →
  ∃ x, x ∈ labels_of t ∧ utf8_valid x = false ∧
       (Scrape s (mkContext None) inst w).1 = Panicked (ErrInvalidUTF8 x) ∧
       w_sink (Scrape s (mkContext None) inst w).2 =
         mkSink (sent (w_sink w) ++ (metric_of <$> good)) false.
Proof.
  intros Hq Hk Hgood Ht.
  destruct (NewConstMetric_primary_invalid t Ht) as (x & Hx & Hu & Hm).
  exists x. split; [done|]. split; [done|].
  destruct (Scrape_good_prefix s inst w _ tail Hq good (raw_of t :: rest))
    as (v' & -> & ->); [done..|].
  cbn [scrape_rows]. rewrite scan3_raw. change (dests _) with (labels_of t).
  by rewrite Hm.
Qed.

Lemma Scrape_panics_on_invalid_label_witness :
  ∃ x, x ∈ labels_of demo_latin1 ∧ utf8_valid x = false ∧
       (Scrape ScrapePrimaryKey_lit (mkContext None)
          (mkInstance (answer_with ((raw_of <$> demo_good) ++ [raw_of demo_latin1]) None))
          demo_world).1 = Panicked (ErrInvalidUTF8 x) ∧
       w_sink (Scrape ScrapePrimaryKey_lit (mkContext None)
          (mkInstance (answer_with ((raw_of <$> demo_good) ++ [raw_of demo_latin1]) None))
          demo_world).2 = mkSink (sent (w_sink demo_world) ++ (metric_of <$> demo_good)) false.
Proof.
  apply (Scrape_panics_on_invalid_label ScrapePrimaryKey_lit _ demo_world
           demo_good demo_latin1 [] None);
    [vm_compute; reflexivity|reflexivity|repeat constructor|].
  vm_compute. discriminate.
Defined.

(** [Scrape] does not observe the world it runs in beyond whether the
    channel is open: from two worlds whose channels are both open or both
    closed it returns the same and appends the same samples, whatever the
    channel already holds and whatever cursors are open. *)
Theorem Scrape_does_not_observe_channel s ctx inst w w' :
  sink_closed (w_sink w) = sink_closed (w_sink w') →
  (Scrape s ctx inst w').1 = (Scrape s ctx inst w).1 ∧
  ∀ ms, sent (w_sink (Scrape s ctx inst w).2) = sent (w_sink w) ++ ms →
        sent (w_sink (Scrape s ctx inst w').2) = sent (w_sink w') ++ ms.
Proof. apply Scrape_run_uniform. Qed.

Lemma Scrape_does_not_observe_channel_witness :
  (Scrape ScrapePrimaryKey_lit (mkContext None) (mkInstance demo_db)
     (mkWorld (mkSink [metric_of demo_latin1] false) ∅)).1 =
  (Scrape ScrapePrimaryKey_lit (mkContext None) (mkInstance demo_db) demo_world).1 ∧
  ∀ ms, sent (w_sink (Scrape ScrapePrimaryKey_lit (mkContext None)
                        (mkInstance demo_db) demo_world).2) =
          sent (w_sink demo_world) ++ ms →
        sent (w_sink (Scrape ScrapePrimaryKey_lit (mkContext None)
                        (mkInstance demo_db)
                        (mkWorld (mkSink [metric_of demo_latin1] false) ∅)).2) =
          [metric_of demo_latin1] ++ ms.
Proof.
  apply (Scrape_does_not_observe_channel ScrapePrimaryKey_lit (mkContext None)
           (mkInstance demo_db) demo_world
           (mkWorld (mkSink [metric_of demo_latin1] false) ∅)).
  reflexivity.
Defined.

(** The descriptor under the namespace assumed. *)
Example CheckPrimaryKeyDesc_value :
  CheckPrimaryKeyDesc =
    mkDesc "mysql_primary_key_check" "Check table have `PRIMARY KEY`."
      ["table_schema"; "table_name"; "engine"] [] None.
Proof. reflexivity. Qed.

Lemma IsValidMetricName_app (ns rest : string) :
  IsValidMetricName ns = true →
  string_forallb
    (λ c, is_alpha c || is_digit c || is_underscore c || is_colon c) rest
    = true →
  IsValidMetricName (ns +:+ rest) = true.
Proof.
  destruct ns as [|c ns]; [done|]. rewrite string_app_cons. simpl.
  intros [-> Hns]%andb_prop Hs. by rewrite string_forallb_app, Hns, Hs.
Qed.

(** C27: the descriptor is valid whatever the namespace.  For every
    namespace that is itself a metric name, [NewDesc] accepts the
    descriptor built as [CheckPrimaryKeyDesc] is: the name
    [BuildFQName] makes of the namespace, [Name] and [check] is a valid
    metric name, the three label names are valid and distinct, the help
    is the text [Help] returns; under the namespace of the package the
    descriptor is [CheckPrimaryKeyDesc]. *)
Theorem CheckPrimaryKeyDesc_any_namespace (s : ScrapePrimaryKey) ns :
  IsValidMetricName ns = true →
  let d := NewDesc (BuildFQName ns primarySubsystem "check") (Help s)
             PrimarylabelNames [] in
  desc_err d = None ∧
  fqName d = ns +:+ "_" +:+ Name s +:+ "_check" ∧
  variableLabels d = ["table_schema"; "table_name"; "engine"] ∧
  (ns = namespace → d = CheckPrimaryKeyDesc).
Proof.
  intros Hns d. assert (ns ≠ "") as Hne by (by intros ->).
  assert (BuildFQName ns primarySubsystem "check" =
          ns +:+ "_primary_key_check") as Hfq.
  { unfold BuildFQName. rewrite (decide_False (P := ns = "")) by done.
    simpl. by rewrite string_app_assoc. }
  subst d. unfold NewDesc. rewrite Hfq, IsValidMetricName_app by done.
  destruct s. split_and!; [done..|by intros ->].
Qed.

Lemma CheckPrimaryKeyDesc_any_namespace_witness :
  let d := NewDesc (BuildFQName "mysqld" primarySubsystem "check")
             (Help ScrapePrimaryKey_lit) PrimarylabelNames [] in
  desc_err d = None ∧
  fqName d = "mysqld" +:+ "_" +:+ Name ScrapePrimaryKey_lit +:+ "_check" ∧
  variableLabels d = ["table_schema"; "table_name"; "engine"] ∧
  ("mysqld" = namespace → d = CheckPrimaryKeyDesc).
Proof.
  apply (CheckPrimaryKeyDesc_any_namespace ScrapePrimaryKey_lit "mysqld").
  reflexivity.
Defined.
