(* ===== verification/ScrapeSteps.v ===== *)
(** * [Scrape] step by step, on a channel of bounded capacity

    [PrimaryKey] models [Scrape] as one function from world to world, in
    which [ch <- m] appends to the channel and returns.  In Go the send
    waits until the channel has room or the consumer takes the sample,
    and the consumer runs concurrently.  This file gives [Scrape] that
    semantics: the call is a [Frame] (its arguments, its cursor
    [primaryRows], its three variables and the statement it is at), its
    moves are the statements of the function ([frame_next]), and it runs
    as the producer of [Channel.sys_step], interleaved with the consumer
    in every possible way.

    The statements of the frame are built from the operations the
    function of [PrimaryKey] runs: [Database.query_rows] for the query,
    [Database.next_rows] and [Database.scan_rows] on the cursor for
    [Next] and [Scan], [dests] and [assign] for the three variables,
    [NewConstMetric] on [CheckPrimaryKeyDesc] for the sample, and
    [Database.close_rows], which the deferred [Close] runs on the cursor
    when the call ends, by a return or by a panic ([leave]).  The cursor
    is open with no error recorded while the call is in its loop, and
    closed once the call has ended ([cursor_ok]).

    The frame keeps the interface [Channel.Producer]
    ([frame_producer]), so the theorems of [Channel] hold of it.  What a
    frame returns and leaves on the channel from where it is,
    [frame_result], is given by the reference definitions of
    [PrimaryKeySpec]; no statement changes it ([frame_next_result]),
    which is why a run of the frame over any channel ends with what
    [Scrape] returns and delivers what [Scrape] sends
    ([frame_run_spec]).

    [Scrape_steps] is the call run statement by statement to its end, as
    a function: the interpreter [Channel.produce] on the frame.  It
    computes what [Scrape] computes on every world, the closed channel
    and the panics included ([Scrape_steps_run]), and leaves its cursor
    as [Scrape] leaves the cursor it opened ([Scrape_steps_cursor_eq]):
    the two semantics of the function, the one by steps and the one in
    one piece, agree. *)

From Stdlib Require Import Floats.
From S2P Require Import Prelude Prometheus Database Channel Sql PrimaryQuery.
From S2P Require Import Scraper PrimaryKey PrimaryKeySpec PrimaryKeyTheorems.

(** The statement a call of [Scrape] is at. *)
Inductive Control : Type :=
| AtQuery
| AtNext
| AtSend (m : Metric)
| Ended (o : outcome (option error)).

Record Frame : Type := mkFrame {
  f_ctx : Context;
  f_inst : instance;
  (** [primaryRows]; [None] until the query has answered *)
  f_cursor : option Rows;
  f_vars : locals;
  f_at : Control;
}.

(** The call [Scrape(ctx, instance, ch, logger)], about to start. *)
Definition call (ctx : Context) (inst : instance) : Frame :=
  mkFrame ctx inst None zero_locals AtQuery.

Definition goto (c : Control) (f : Frame) : Frame :=
  mkFrame (f_ctx f) (f_inst f) (f_cursor f) (f_vars f) c.

(** The cursor after an operation on it, and the variables after a
    [Scan]. *)
Definition update (r : Rows) (v : locals) (f : Frame) : Frame :=
  mkFrame (f_ctx f) (f_inst f) (Some r) v (f_at f).

(** The call ends, by a return or by a panic: the deferred
    [primaryRows.Close()] runs on the way out. *)
Definition leave (o : outcome (option error)) (f : Frame) : Frame :=
  mkFrame (f_ctx f) (f_inst f) (close_rows <$> f_cursor f) (f_vars f)
    (Ended o).

(** From [db := instance.getDB()] to [defer primaryRows.Close()]. *)
Definition frame_query (f : Frame) : Frame :=
  let db := getDB (f_inst f) in
  match query_rows db (f_ctx f) (Sprint primaryQuery) with
  | inl err => goto (Ended (Returned (Some err))) f
  | inr primaryRows => goto AtNext (update primaryRows zero_locals f)
  end.

(** One turn of the loop up to the send: [Next], [Scan], the error check
    and [MustNewConstMetric]; after the last row, the return. *)
Definition frame_iterate (f : Frame) : Frame :=
  match f_cursor f with
  | None => leave (Panicked ErrNilDereference) f
  | Some r =>
      let '(more, r1) := next_rows r in
      if more : bool then
        let '(err, ds) := scan_rows (dests (f_vars f)) r1 in
        let v' := assign ds (f_vars f) in
        match err with
        | Some e => leave (Returned (Some e)) (update r1 v' f)
        | None =>
            match NewConstMetric CheckPrimaryKeyDesc GaugeValue 0 (dests v') with
            | inl e => leave (Panicked e) (update r1 v' f)
            | inr m => goto (AtSend m) (update r1 v' f)
            end
        end
      else leave (Returned None) (update r1 (f_vars f) f)
  end.

Definition frame_next (f : Frame) : Move Frame :=
  match f_at f with
  | AtQuery => Internal (frame_query f)
  | AtNext => Internal (frame_iterate f)
  | AtSend m => Send m (goto AtNext f)
  | Ended _ => Halt
  end.

(** The send panics: the call ends. *)
Definition frame_crash (f : Frame) (e : error) : Frame :=
  leave (Panicked e) f.

(** Whether the cursor of the call is open. *)
Definition f_open (f : Frame) : bool :=
  match f_cursor f with
  | Some r => negb (rows_closed r)
  | None => false
  end.

(** What the loop comes to from a cursor, on any channel.  From an open
    cursor with no error recorded, which is how the loop finds it, it is
    [scrape_rows] on the rows to come. *)
Definition cursor_result (c : option Rows) (v : locals) (k : Sink)
    : outcome (option error) * Sink :=
  match c with
  | None => (Panicked ErrNilDereference, k)
  | Some r =>
      if rows_closed r then (Returned None, k)
      else match lasterr r, pending r with
           | None, rows => scrape_rows rows v k
           | Some e, [] => (Returned None, k)
           | Some e, _ :: _ => (Returned (Some e), k)
           end
  end.

(** What the call returns and what it leaves on the channel from where
    it is, on any channel: the reference definitions, entered at the
    statement the frame is at. *)
Definition frame_result (f : Frame) (k : Sink) : outcome (option error) * Sink :=
  match f_at f with
  | AtQuery => Scrape_spec (f_ctx f) (f_inst f) k
  | AtNext => cursor_result (f_cursor f) (f_vars f) k
  | AtSend m =>
      match sink_send m k with
      | inl e => (Panicked e, k)
      | inr k' => cursor_result (f_cursor f) (f_vars f) k'
      end
  | Ended o => (o, k)
  end.

(** What the call returns and what it sends from where it is, when every
    send is accepted. *)
Definition frame_spec (f : Frame) : outcome (option error) * list Metric :=
  ((frame_result f (mkSink [] false)).1,
   sent (frame_result f (mkSink [] false)).2).

(** The cursor is open, with no error recorded, while the call is in its
    loop; there is none before the query; it is closed once the call has
    ended. *)
Definition cursor_ok (f : Frame) : Prop :=
  match f_at f with
  | AtQuery => f_cursor f = None
  | AtNext | AtSend _ =>
      ∃ r, f_cursor f = Some r ∧ rows_closed r = false ∧ lasterr r = None
  | Ended _ => f_open f = false
  end.

Definition rows_left (f : Frame) : nat :=
  match f_cursor f with
  | Some r => length (pending r)
  | None => 0
  end.

Definition loop_weight (f : Frame) : nat :=
  match f_at f with
  | AtQuery => 0
  | AtNext => 2 * rows_left f + 2
  | AtSend _ => 2 * rows_left f + 3
  | Ended _ => 0
  end.

Definition frame_weight (f : Frame) : nat :=
  match f_at f with
  | AtQuery => S (loop_weight (frame_query f))
  | _ => loop_weight f
  end.

(** ** No statement changes what the call comes to *)

Section statements.
Implicit Types (f : Frame) (k : Sink) (r : Rows) (v : locals).

Lemma frame_query_result f k :
  f_at f = AtQuery → frame_result (frame_query f) k = frame_result f k.
Proof.
  unfold frame_result, frame_query, query_rows, Scrape_spec, Sprint.
  intros ->. destruct (ctx_err (f_ctx f)); [done|].
  by destruct (db_answer _ _).
Qed.

(** One turn of the loop on an open cursor with a row to come. *)
Lemma frame_iterate_row f r row rest :
  f_cursor f = Some r → rows_closed r = false → pending r = row :: rest →
  ∃ r1, next_rows r = (true, r1) ∧ pending r1 = rest ∧
        rows_closed r1 = false ∧ lasterr r1 = lasterr r ∧
        current r1 = Some row ∧ tail_err r1 = tail_err r.
Proof.
  intros _ Hopen Hp. unfold next_rows. rewrite Hopen, Hp. by eexists.
Qed.

Lemma cursor_result_row r row rest v k :
  rows_closed r = false → lasterr r = None → pending r = row :: rest →
  cursor_result (Some r) v k = scrape_rows (row :: rest) v k.
Proof. unfold cursor_result. by intros -> -> ->. Qed.

Lemma cursor_result_open r v k :
  rows_closed r = false → lasterr r = None →
  cursor_result (Some r) v k = scrape_rows (pending r) v k.
Proof. unfold cursor_result. by intros -> ->. Qed.

Lemma frame_iterate_result f k :
  f_at f = AtNext → frame_result (frame_iterate f) k = frame_result f k.
Proof.
  unfold frame_result at 2. intros ->. unfold frame_iterate.
  destruct (f_cursor f) as [r|] eqn:Hc; [|done]. unfold cursor_result.
  unfold next_rows. destruct (rows_closed r) eqn:Hopen; [done|].
  destruct (pending r) as [|row rest] eqn:Hp; [by destruct (lasterr r)|].
  destruct (lasterr r) as [e|] eqn:He.
  { by unfold scan_rows. }
  set (r1 := mkRows rest _ _ _ _). cbn [scrape_rows].
  rewrite <-(scan_rows_scan3 r1 row (f_vars f)) by done.
  destruct (scan_rows _ r1) as [[e|] ds]; [done|]. cbn [fst snd].
  by destruct (NewConstMetric _ _ _ _) as [e|m].
Qed.

(** A statement of the frame does not change what the call comes to. *)
Lemma frame_next_result f k :
  match frame_next f with
  | Internal f' => frame_result f' k = frame_result f k
  | Send m f' =>
      match sink_send m k with
      | inl e => frame_result (frame_crash f e) k = frame_result f k
      | inr k' => frame_result f' k' = frame_result f k
      end
  | Halt => True
  end.
Proof.
  unfold frame_next. destruct (f_at f) eqn:Hat; [| | |done].
  - by apply frame_query_result.
  - by apply frame_iterate_result.
  - unfold frame_result. simpl. rewrite Hat. by destruct (sink_send m k).
Qed.

(** A sample already on the channel comes first; the loop does not look
    at it. *)
Lemma scrape_rows_sent rows v m :
  (scrape_rows rows v (mkSink [m] false)).1 =
    (scrape_rows rows v (mkSink [] false)).1 ∧
  sent (scrape_rows rows v (mkSink [m] false)).2 =
    m :: sent (scrape_rows rows v (mkSink [] false)).2.
Proof.
  destruct (scrape_rows_uniform rows v false) as (o & ms & Huni).
  destruct (Huni (mkSink [m] false) eq_refl) as [-> ->].
  by destruct (Huni (mkSink [] false) eq_refl) as [-> ->].
Qed.

Lemma cursor_result_sent c v m :
  (cursor_result c v (mkSink [m] false)).1 =
    (cursor_result c v (mkSink [] false)).1 ∧
  sent (cursor_result c v (mkSink [m] false)).2 =
    m :: sent (cursor_result c v (mkSink [] false)).2.
Proof.
  unfold cursor_result. destruct c as [r|]; [|done].
  destruct (rows_closed r); [done|].
  destruct (lasterr r); [by destruct (pending r)|]. apply scrape_rows_sent.
Qed.

(** What a frame at its send has to send: the sample in hand, then what
    the loop sends. *)
Lemma frame_spec_send f m :
  f_at f = AtSend m →
  frame_spec f = ((frame_spec (goto AtNext f)).1,
                  m :: (frame_spec (goto AtNext f)).2).
Proof.
  unfold frame_spec, frame_result. intros ->. simpl.
  by destruct (cursor_result_sent (f_cursor f) (f_vars f) m) as [-> ->].
Qed.

Lemma frame_spec_internal f f' :
  frame_next f = Internal f' → frame_spec f' = frame_spec f.
Proof.
  intros Hn. pose proof (frame_next_result f (mkSink [] false)) as Hr.
  rewrite Hn in Hr. unfold frame_spec. by rewrite Hr.
Qed.

(** A frame at its end has nothing more to send. *)
Lemma frame_ended f o : f_at f = Ended o → frame_spec f = (o, []).
Proof. unfold frame_spec, frame_result. by intros ->. Qed.

Lemma frame_spec_call ctx inst :
  frame_spec (call ctx inst) =
    ((Scrape_spec ctx inst (mkSink [] false)).1,
     sent (Scrape_spec ctx inst (mkSink [] false)).2).
Proof. done. Qed.

End statements.

(** ** The frame is a producer *)

Lemma frame_iterate_weight f :
  f_at f = AtNext → loop_weight (frame_iterate f) < loop_weight f.
Proof.
  unfold loop_weight at 2. intros ->.
  unfold frame_iterate, loop_weight, rows_left, leave, goto, update.
  destruct (f_cursor f) as [r|]; [|simpl; lia]. unfold next_rows.
  destruct (rows_closed r); [simpl; lia|].
  destruct (pending r) as [|row rest]; [simpl; lia|].
  destruct (scan_rows _ _) as [[e|] ds]; [simpl; lia|].
  destruct (NewConstMetric _ _ _ _); simpl; lia.
Qed.

Lemma frame_query_at f : f_at f = AtQuery → f_at (frame_query f) ≠ AtQuery.
Proof. unfold frame_query. intros _. by destruct (query_rows _ _ _). Qed.

Lemma frame_weight_loop f :
  f_at f ≠ AtQuery → frame_weight f = loop_weight f.
Proof. unfold frame_weight. by destruct (f_at f). Qed.

Lemma frame_iterate_at f : f_at f = AtNext → f_at (frame_iterate f) ≠ AtQuery.
Proof.
  unfold frame_iterate. intros _. destruct (f_cursor f); [|done].
  destruct (next_rows _) as [[|] r1]; [|done].
  destruct (scan_rows _ _) as [[?|] ?]; [done|].
  by destruct (NewConstMetric _ _ _ _).
Qed.

#[export, refine] Instance frame_producer : Producer Frame := {
  next := frame_next;
  crash := frame_crash;
  sends f := (frame_spec f).2;
  weight := frame_weight;
}.
Proof.
  - intros f f' Hn. rewrite (frame_spec_internal f f' Hn). split; [done|].
    revert Hn. unfold frame_next.
    destruct (f_at f) eqn:Hat; intros [= <-].
    + rewrite (frame_weight_loop (frame_query f)) by by apply frame_query_at.
      unfold frame_weight. rewrite Hat. lia.
    + rewrite !frame_weight_loop by (by apply frame_iterate_at || congruence).
      by apply frame_iterate_weight.
  - intros f m f'. unfold frame_next.
    destruct (f_at f) as [| |m0|] eqn:Hat; intros [= -> <-].
    rewrite (frame_spec_send f m Hat). split; [done|].
    unfold frame_weight, loop_weight, rows_left. simpl. rewrite Hat. lia.
  - intros f. unfold frame_next. destruct (f_at f) eqn:Hat; try done.
    by rewrite (frame_ended f o Hat).
  - done.
Defined.

(** ** The cursor of the frame *)

Lemma cursor_ok_call ctx inst : cursor_ok (call ctx inst).
Proof. done. Qed.

Lemma cursor_ok_leave o f : cursor_ok (leave o f).
Proof. unfold cursor_ok, f_open. simpl. by destruct (f_cursor f). Qed.

Lemma cursor_ok_internal f f' :
  next f = Internal f' → cursor_ok f → cursor_ok f'.
Proof.
  simpl. unfold frame_next. destruct (f_at f) eqn:Hat; intros [= <-].
  - unfold cursor_ok. rewrite Hat. intros Hc. unfold frame_query.
    destruct (query_rows _ _ _) as [e|r] eqn:Hq; simpl;
      [unfold f_open; simpl; by rewrite Hc|].
    exists r. unfold query_rows in Hq. destruct (ctx_err _); [done|].
    destruct (db_answer _ _); by simplify_eq.
  - intros _. unfold frame_iterate.
    destruct (f_cursor f) as [r|]; [|apply cursor_ok_leave].
    destruct (next_rows r) as [[|] r1] eqn:Hn; [|apply cursor_ok_leave].
    destruct (scan_rows _ r1) as [[e|] ds] eqn:Hs; [apply cursor_ok_leave|].
    destruct (NewConstMetric _ _ _ _); [apply cursor_ok_leave|].
    exists r1. apply next_rows_true in Hn as (row & _ & Hcur & _ & ? & _).
    split_and!; [done..|]. unfold scan_rows in Hs.
    by destruct (lasterr r1).
Qed.

Lemma cursor_ok_send f m f' :
  next f = Send m f' → cursor_ok f → cursor_ok f'.
Proof.
  unfold cursor_ok. simpl. unfold frame_next.
  destruct (f_at f) eqn:Hat; intros [= <- <-] Hf. by simpl.
Qed.

Lemma cursor_ok_crash f e : cursor_ok f → cursor_ok (crash f e).
Proof. intros _. apply cursor_ok_leave. Qed.

(** In every state of a run, over any channel and whatever the consumer
    does, the cursor is open while the call is in its loop and closed
    once it has ended. *)
Lemma frame_run_cursor cap ctx inst (st : Sys Frame) :
  rtc (sys_step cap) (sys_init (call ctx inst)) st → cursor_ok (producer st).
Proof.
  intros Hrun.
  eapply (sys_steps_producer cursor_ok); [..|done|apply cursor_ok_call];
    eauto using cursor_ok_internal, cursor_ok_send, cursor_ok_crash.
Qed.

Lemma cursor_ok_ended f o : cursor_ok f → f_at f = Ended o → f_open f = false.
Proof. unfold cursor_ok. intros Hf Hat. by rewrite Hat in Hf. Qed.

(** The call run statement by statement until it returns or panics. *)
Definition Scrape_steps (ctx : Context) (inst : instance) (k : Sink)
    : Frame * Sink :=
  produce (frame_weight (call ctx inst)) (call ctx inst) k.

(** ** The frame as a function *)

Section interpreter.
Implicit Types (f : Frame) (k : Sink) (fuel : nat).

Lemma produce_result fuel f k :
  frame_result (produce fuel f k).1 (produce fuel f k).2 = frame_result f k.
Proof.
  revert f k. induction fuel as [|fuel IH]; intros f k; [done|].
  pose proof (frame_next_result f k) as Hn. cbn [produce].
  change (next f) with (frame_next f).
  destruct (frame_next f) as [f'|m f'|]; [| |done].
  - by rewrite IH.
  - destruct (sink_send m k) as [e|k']; [done|]. by rewrite IH.
Qed.

(** With enough fuel the frame is at its end, with what the reference
    definition returns in hand and what it sends on the channel. *)
Lemma produce_frame fuel f k :
  frame_weight f ≤ fuel →
  f_at (produce fuel f k).1 = Ended (frame_result f k).1 ∧
  (produce fuel f k).2 = (frame_result f k).2.
Proof.
  intros Hw. pose proof (produce_enough fuel f k Hw) as Hh.
  rewrite <-(produce_result fuel f k). simpl in Hh.
  unfold frame_next in Hh. unfold frame_result.
  by destruct (f_at (produce fuel f k).1).
Qed.

Lemma Scrape_steps_run (s : ScrapePrimaryKey) ctx inst w :
  f_at (Scrape_steps ctx inst (w_sink w)).1 = Ended (Scrape s ctx inst w).1 ∧
  (Scrape_steps ctx inst (w_sink w)).2 = w_sink (Scrape s ctx inst w).2.
Proof.
  destruct (Scrape_run s ctx inst w) as (-> & -> & _).
  by apply produce_frame.
Qed.

Lemma Scrape_steps_cursor ctx inst k : cursor_ok (Scrape_steps ctx inst k).1.
Proof.
  apply (produce_producer cursor_ok);
    eauto using cursor_ok_internal, cursor_ok_send, cursor_ok_crash,
      cursor_ok_call.
Qed.

(** The loop of the frame and the loop of [Scrape] on the same cursor
    and the same channel leave the same cursor, up to the deferred
    [Close] the frame has already run. *)
Lemma loop_cursor ctx inst fuel n h v (w : World) r :
  w_rows w !! h = Some r → rows_closed r = false → lasterr r = None →
  length (pending r) < fuel → 2 * length (pending r) + 2 ≤ n →
  f_cursor (produce n (mkFrame ctx inst (Some r) v AtNext) (w_sink w)).1 =
    close_rows <$> w_rows (scrape_loop fuel h v w).2 !! h.
Proof.
  revert n v w r.
  induction fuel as [|fuel IH]; intros n v w r Hh Hc He Hlt Hn; [lia|].
  destruct n as [|n]; [lia|]. rewrite scrape_loop_S. cbn [produce].
  change (next ?f) with (frame_next f). cbn [frame_next f_at].
  unfold frame_iterate, next_rows. cbn [f_cursor f_vars]. rewrite Hc.
  destruct (pending r) as [|row rest] eqn:Hp.
  { rewrite (exec_bind_returned _ _ _ _ _ (Next_end _ _ _ Hh Hc Hp)).
    rewrite produce_halt by done. simpl. by rewrite lookup_insert_eq. }
  rewrite (exec_bind_returned _ _ _ _ _ (Next_row _ _ _ Hh Hc _ _ Hp)).
  set (r1 := mkRows rest _ _ _ _). set (w1 := set_rows h r1 w).
  assert (w_rows w1 !! h = Some r1) as Hh1 by apply set_rows_lookup.
  rewrite (exec_bind_returned _ _ _ _ _
             (scan_primary_row h w1 r1 Hh1 eq_refl row v He eq_refl)).
  rewrite <-(scan_rows_scan3 r1 row v) by done.
  destruct (scan_rows (dests v) r1) as [[e|] ds]; cbn [fst snd];
    [rewrite produce_halt by done; change (w_rows _ !! h) with (w_rows w1 !! h);
     by rewrite Hh1|].
  unfold mbind at 1, exec_bind. rewrite primary_metric_run.
  destruct (NewConstMetric _ _ _ _) as [e|m];
    [rewrite produce_halt by done; change (w_rows _ !! h) with (w_rows w1 !! h);
     by rewrite Hh1|].
  destruct n as [|n]; [simpl in Hn; lia|]. cbn [produce].
  change (next ?f) with (frame_next f). cbn [frame_next goto f_at].
  unfold mbind at 1, exec_bind, send. simpl w_sink.
  destruct (sink_send m (w_sink w)) as [e|k'];
    [change (w_rows _ !! h) with (w_rows w1 !! h); by rewrite Hh1|].
  apply (IH n (assign ds v) (set_sink k' w1) r1); try done; simpl in *; lia.
Qed.

(** The cursor the call leaves is the cursor [Scrape] leaves in the
    world at the handle of its query: none when the query failed, else
    the cursor of the query as the loop and the deferred [Close] left
    it. *)
Lemma Scrape_steps_cursor_eq (s : ScrapePrimaryKey) ctx inst w :
  f_cursor (Scrape_steps ctx inst (w_sink w)).1 =
    w_rows (Scrape s ctx inst w).2 !! fresh (dom (w_rows w)).
Proof.
  unfold Scrape_steps, frame_weight. cbn [call f_at].
  rewrite (produce_internal _ _ (frame_query (call ctx inst))) by done.
  unfold frame_query, query_rows, Sprint. cbn [call f_ctx f_inst].
  destruct ctx as [[e|]]; cbn [ctx_err];
    [rewrite produce_halt by done; symmetry; apply fresh_handle_None|].
  destruct (db_answer _ _) as [e|rows tail] eqn:Hq.
  { rewrite produce_halt, (Scrape_query_error_run s inst w e Hq) by done.
    symmetry. apply fresh_handle_None. }
  destruct (Scrape_loop s inst w rows tail Hq) as (r' & Hloop & -> & _).
  set (h := fresh (dom (w_rows w))) in *.
  set (w1 := set_rows h (open_rows rows tail) w) in *.
  trans (close_rows <$>
         w_rows (scrape_loop (loop_fuel h w1) h zero_locals w1).2 !! h).
  - apply (loop_cursor (mkContext None) inst (loop_fuel h w1) _ h
             zero_locals w1 (open_rows rows tail));
      [apply set_rows_lookup|done|done|..].
    + unfold loop_fuel, w1. rewrite set_rows_lookup. simpl. lia.
    + unfold loop_weight, rows_left. simpl. lia.
  - rewrite Hloop. unfold loop_result. simpl. by rewrite !lookup_insert_eq.
Qed.

End interpreter.

(** ** Runs of the frame over a channel *)

Section runs.
Context (cap : nat).
Implicit Types (st : Sys Frame) (f : Frame) (s : ScrapePrimaryKey).
Implicit Types (ctx : Context) (inst : instance) (w : World).

(** What the call returns is decided by where it is: a move of the frame
    does not change it. *)
Lemma frame_next_outcome f :
  match frame_next f with
  | Internal f' | Send _ f' => (frame_spec f').1 = (frame_spec f).1
  | Halt => True
  end.
Proof.
  destruct (frame_next f) as [f'|m f'|] eqn:Hn; [| |done].
  - by rewrite (frame_spec_internal f f' Hn).
  - revert Hn. unfold frame_next.
    destruct (f_at f) as [| |m0|] eqn:Hat; intros [= -> <-].
    by rewrite (frame_spec_send f m Hat).
Qed.

Lemma sys_step_outcome st st' :
  sys_step cap st st' → closed st' = false →
  closed st = false ∧
  (frame_spec (producer st')).1 = (frame_spec (producer st)).1.
Proof.
  destruct 1 as [p p' b r c Hn|p m p' b r Hn ?|p m p' r Hn ?|
                 p m p' b r Hn|p m b r c|p b r];
    simpl; intros Hc; try done; split; try done;
    pose proof (frame_next_outcome p) as Ho;
    change (next p) with (frame_next p) in Hn; by rewrite Hn in Ho.
Qed.

Lemma sys_steps_outcome st st' :
  rtc (sys_step cap) st st' → closed st' = false →
  closed st = false ∧
  (frame_spec (producer st')).1 = (frame_spec (producer st)).1.
Proof.
  induction 1 as [|st st1 st' Hstep _ IH]; [done|]. intros Hc.
  destruct (IH Hc) as [Hc1 ->]. by apply sys_step_outcome.
Qed.

(** A run of the call over an open channel that has come to its end, with
    the queue drained, has returned what the reference definition
    returns and delivered what it sends. *)
Lemma frame_run_spec ctx inst st o :
  rtc (sys_step cap) (sys_init (call ctx inst)) st →
  closed st = false → f_at (producer st) = Ended o → buf st = [] →
  o = (Scrape_spec ctx inst (mkSink [] false)).1 ∧
  received st = sent (Scrape_spec ctx inst (mkSink [] false)).2.
Proof.
  intros Hrun Hc Hat Hb. split.
  - destruct (sys_steps_outcome _ _ Hrun Hc) as [_ Ho].
    by rewrite (frame_ended _ _ Hat) in Ho.
  - apply (delivered_received cap);
      [exact (sys_inv_reachable cap _ _ Hrun)|done|].
    split; [|done]. simpl. unfold frame_next. by rewrite Hat.
Qed.

(** The same, of [Scrape] on a world whose channel is open. *)
Lemma Scrape_run_steps s ctx inst w st o :
  sink_closed (w_sink w) = false →
  rtc (sys_step cap) (sys_init (call ctx inst)) st →
  closed st = false → f_at (producer st) = Ended o → buf st = [] →
  (Scrape s ctx inst w).1 = o ∧
  sent (w_sink (Scrape s ctx inst w).2) = sent (w_sink w) ++ received st.
Proof.
  intros Hopen Hrun Hc Hat Hb.
  destruct (frame_run_spec ctx inst st o Hrun Hc Hat Hb) as [-> ->].
  destruct (Scrape_run s ctx inst w) as (-> & -> & _).
  destruct (Scrape_spec_uniform ctx inst false) as (o' & ms & Huni).
  destruct (Huni (w_sink w) Hopen) as [-> ->].
  by destruct (Huni (mkSink [] false) eq_refl) as [-> ->].
Qed.

(** From every state of a run whose channel is open, the call can come to
    its end with the queue drained. *)
Lemma frame_run_completes ctx inst st :
  rtc (sys_step cap) (sys_init (call ctx inst)) st → closed st = false →
  ∃ st' o, rtc (sys_step cap) st st' ∧ closed st' = false ∧
           f_at (producer st') = Ended o ∧ buf st' = [].
Proof.
  intros Hrun Hc.
  destruct (sys_deliver cap _ st (sys_inv_reachable cap _ _ Hrun) Hc)
    as (st' & Hrun' & [Hh Hb] & Hc' & _).
  simpl in Hh. unfold frame_next in Hh.
  destruct (f_at (producer st')) as [| | |o] eqn:Hat; try done. eauto 10.
Qed.

(** The channel closed under a call that is about to send: the samples
    the consumer and the queue hold are all that will ever arrive, and
    the sample in hand is not among them. *)
Lemma frame_closed_at_send ctx inst st m :
  rtc (sys_step cap) (sys_init (call ctx inst)) st →
  closed st = true → f_at (producer st) = AtSend m →
  ∃ rest, sent (Scrape_spec ctx inst (mkSink [] false)).2 =
            (received st ++ buf st) ++ m :: rest ∧
          ∀ st', rtc (sys_step cap) st st' →
                 received st' ++ buf st' = received st ++ buf st.
Proof.
  intros Hrun Hc Hat.
  destruct (sys_inv_reachable cap _ _ Hrun) as [_ Hsync _].
  assert (next (producer st) ≠ Halt) as Hn.
  { simpl. unfold frame_next. by rewrite Hat. }
  specialize (Hsync (or_intror Hn)).
  change (sends (producer st)) with (frame_spec (producer st)).2 in Hsync.
  change (sends (call ctx inst)) with (frame_spec (call ctx inst)).2 in Hsync.
  rewrite (frame_spec_send _ m Hat), frame_spec_call in Hsync. simpl in Hsync.
  eexists. split; [by rewrite <-Hsync, <-app_assoc|].
  intros st' Hrun'. by apply (sys_steps_closed cap _ _ Hrun').
Qed.

(** [Scrape] sends at most one sample per row of the result set. *)
Lemma Scrape_spec_length ctx inst rows tail :
  db_answer (getDB inst) primaryQuery = QueryRows rows tail →
  length (sent (Scrape_spec ctx inst (mkSink [] false)).2) ≤ length rows.
Proof.
  intros Hq. unfold Scrape_spec. destruct (ctx_err ctx); [simpl; lia|].
  rewrite Hq.
  destruct (scrape_rows_appends rows zero_locals (mkSink [] false))
    as (ms & -> & _ & Hlen & _). done.
Qed.

End runs.

(** ** Theorems *)

(** C11: [Scrape] over a channel of bounded capacity is [Scrape].  Run
    statement by statement as the producer of a channel of any capacity
    (none included: an unbuffered channel), interleaved in any way with a
    consumer that receives, a call that has come to its end with the
    queue drained has returned what [Scrape] returns and the consumer has
    received, in order, exactly the samples [Scrape] appends to the
    channel; and the call has closed its cursor. *)
Theorem Scrape_on_bounded_channel cap (s : ScrapePrimaryKey) ctx inst w st o :
  sink_closed (w_sink w) = false →
  rtc (sys_step cap) (sys_init (call ctx inst)) st →
  closed st = false → f_at (producer st) = Ended o → buf st = [] →
  (Scrape s ctx inst w).1 = o ∧
  sent (w_sink (Scrape s ctx inst w).2) = sent (w_sink w) ++ received st ∧
  f_open (producer st) = false.
Proof.
  intros Hopen Hrun Hc Hat Hb.
  destruct (Scrape_run_steps cap s ctx inst w st o) as [? ?]; [done..|].
  split_and!; [done..|].
  eapply cursor_ok_ended; [by eapply frame_run_cursor|done].
Qed.

(** C12: no deadlock and no endless run.  In every state a call of
    [Scrape] reaches over a channel of any capacity, the queue is within
    the capacity and every run from there is finite; and as long as the
    consumer has not closed the channel, the call can come to its end
    with the queue drained. *)
Theorem Scrape_channel_no_deadlock cap ctx inst st :
  rtc (sys_step cap) (sys_init (call ctx inst)) st →
  length (buf st) ≤ cap ∧ sn (sys_step cap) st ∧
  (closed st = false →
   ∃ st' o, rtc (sys_step cap) st st' ∧ closed st' = false ∧
            f_at (producer st') = Ended o ∧ buf st' = []).
Proof.
  intros Hrun. split_and!.
  - apply (sys_inv_cap _ _ _ (sys_inv_reachable cap _ _ Hrun)).
  - apply sys_step_sn.
  - by apply (frame_run_completes cap ctx inst).
Qed.

(** C21: a late write panics.  When the consumer has closed the channel
    and the call is at its send, its next move is the panic of a send on
    a closed channel; the sample in hand and those after it never
    arrive: the consumer and the queue hold a strict prefix of what
    [Scrape] sends, for good. *)
Theorem Scrape_send_after_close_panics cap ctx inst st m :
  rtc (sys_step cap) (sys_init (call ctx inst)) st →
  closed st = true → f_at (producer st) = AtSend m →
  sys_step cap st
    (mkSys (leave (Panicked ErrSendOnClosedChannel) (producer st))
       (buf st) (received st) true) ∧
  ∃ rest, sent (Scrape_spec ctx inst (mkSink [] false)).2 =
            (received st ++ buf st) ++ m :: rest ∧
          ∀ st', rtc (sys_step cap) st st' →
                 received st' ++ buf st' = received st ++ buf st.
Proof.
  intros Hrun Hc Hat. split; [|by apply frame_closed_at_send].
  destruct st as [f b r c]. simpl in *. subst c.
  refine (sys_send_closed cap f m (goto AtNext f) b r _). simpl.
  unfold frame_next. by rewrite Hat.
Qed.

(** C22: a call at its send on a full channel waits for the consumer
    and for nothing else: every step the system can take leaves the call
    where it is, at the send with its sample in hand, so while the
    consumer does not receive the call cannot return, whatever happens
    to its context. *)
Theorem Scrape_blocked_at_send cap (st st' : Sys Frame) m :
  f_at (producer st) = AtSend m → closed st = false →
  0 < cap → cap ≤ length (buf st) →
  sys_step cap st st' →
  producer st' = producer st ∧ f_at (producer st') = AtSend m.
Proof.
  intros Hat Hc Hcap Hfull Hstep.
  assert (producer st' = producer st) as ->; [|done].
  eapply (sys_step_blocked cap st st' m (goto AtNext (producer st))); try done.
  simpl. unfold frame_next. by rewrite Hat.
Qed.

(** C25: bounds.  In every state a call of [Scrape] reaches over a
    channel of capacity [cap], the queue holds at most [cap] samples,
    and the consumer and the queue together hold at most one sample per
    row of the result set. *)
Theorem Scrape_channel_bounds cap ctx inst st rows tail :
  db_answer (getDB inst) primaryQuery = QueryRows rows tail →
  rtc (sys_step cap) (sys_init (call ctx inst)) st →
  length (buf st) ≤ cap ∧
  length (received st) + length (buf st) ≤ length rows.
Proof.
  intros Hq Hrun. destruct (sys_inv_reachable cap _ _ Hrun) as [Hpre _ Hcap].
  split; [done|]. apply prefix_length in Hpre. rewrite length_app in Hpre.
  pose proof (Scrape_spec_length ctx inst rows tail Hq).
  change (sends (call ctx inst)) with (frame_spec (call ctx inst)).2 in Hpre.
  rewrite frame_spec_call in Hpre. simpl in Hpre. lia.
Qed.

(** C14: the two semantics of [Scrape] agree.  Run statement by
    statement until it halts, with the fuel its weight gives or with
    more, a call of [Scrape] on a channel in any state (open or closed,
    whatever it holds) ends at the outcome the function [Scrape] returns
    or panics with, with its cursor closed, and leaves on the channel
    exactly what [Scrape] leaves there; the cursor it leaves is the
    cursor [Scrape] leaves in the world at the handle of its query (none
    when the query failed); and this run is a run of the step semantics,
    on the unbuffered channel, in which the consumer takes every sample
    as it is sent. *)
Theorem Scrape_steps_equal_Scrape (s : ScrapePrimaryKey) ctx inst w fuel :
  frame_weight (call ctx inst) ≤ fuel →
  produce fuel (call ctx inst) (w_sink w) = Scrape_steps ctx inst (w_sink w) ∧
  f_at (Scrape_steps ctx inst (w_sink w)).1 = Ended (Scrape s ctx inst w).1 ∧
  f_open (Scrape_steps ctx inst (w_sink w)).1 = false ∧
  (Scrape_steps ctx inst (w_sink w)).2 = w_sink (Scrape s ctx inst w).2 ∧
  f_cursor (Scrape_steps ctx inst (w_sink w)).1 =
    w_rows (Scrape s ctx inst w).2 !! fresh (dom (w_rows w)) ∧
  rtc (sys_step 0)
    (mkSys (call ctx inst) [] (sent (w_sink w)) (sink_closed (w_sink w)))
    (mkSys (Scrape_steps ctx inst (w_sink w)).1 []
       (sent (w_sink (Scrape s ctx inst w).2))
       (sink_closed (w_sink (Scrape s ctx inst w).2))).
Proof.
  intros Hw. destruct (Scrape_steps_run s ctx inst w) as [Hat Hk].
  split_and!; [by apply produce_fuel|done| |done|apply Scrape_steps_cursor_eq|].
  - eapply cursor_ok_ended; [apply Scrape_steps_cursor|done].
  - rewrite <-Hk. apply produce_run.
Qed.

(** ** The theorems on a concrete database *)

Definition steps_call : Frame := call (mkContext None) (mkInstance demo_db).

Lemma Scrape_on_bounded_channel_witness :
  (Scrape ScrapePrimaryKey_lit (mkContext None) (mkInstance demo_db)
     demo_world).1 = Returned None ∧
  sent (w_sink (Scrape ScrapePrimaryKey_lit (mkContext None)
                  (mkInstance demo_db) demo_world).2) =
    sent (w_sink demo_world) ++ received (sys_run 1 20 (sys_init steps_call)) ∧
  f_open (producer (sys_run 1 20 (sys_init steps_call))) = false.
Proof.
  apply (Scrape_on_bounded_channel 1 ScrapePrimaryKey_lit (mkContext None)
           (mkInstance demo_db) demo_world
           (sys_run 1 20 (sys_init steps_call)) (Returned None));
    [reflexivity|apply sys_run_steps|vm_compute; reflexivity..].
Defined.

Lemma Scrape_channel_no_deadlock_witness :
  length (buf (sys_run 0 3 (sys_init steps_call))) ≤ 0 ∧
  sn (sys_step 0) (sys_run 0 3 (sys_init steps_call)) ∧
  (closed (sys_run 0 3 (sys_init steps_call)) = false →
   ∃ st' o, rtc (sys_step 0) (sys_run 0 3 (sys_init steps_call)) st' ∧
            closed st' = false ∧ f_at (producer st') = Ended o ∧ buf st' = []).
Proof.
  apply (Scrape_channel_no_deadlock 0 (mkContext None) (mkInstance demo_db)).
  apply sys_run_steps.
Defined.

(** The consumer closes the channel after the first sample. *)
Definition steps_closed : Sys Frame :=
  let st := sys_run 1 4 (sys_init steps_call) in
  mkSys (producer st) (buf st) (received st) true.

Lemma steps_closed_reachable :
  rtc (sys_step 1) (sys_init steps_call) steps_closed.
Proof.
  eapply rtc_r; [apply (sys_run_steps 1 4)|].
  unfold steps_closed.
  destruct (sys_run 1 4 (sys_init steps_call)) as [f b r c] eqn:Hst.
  assert (c = false) as -> by (by vm_compute in Hst; injection Hst as _ _ _ <-).
  apply sys_close.
Qed.

Lemma Scrape_send_after_close_panics_witness :
  sys_step 1 steps_closed
    (mkSys (leave (Panicked ErrSendOnClosedChannel) (producer steps_closed))
       (buf steps_closed) (received steps_closed) true) ∧
  ∃ rest, sent (Scrape_spec (mkContext None) (mkInstance demo_db)
                  (mkSink [] false)).2 =
            (received steps_closed ++ buf steps_closed) ++
            metric_of ("shop", "audit", "InnoDB") :: rest ∧
          ∀ st', rtc (sys_step 1) steps_closed st' →
                 received st' ++ buf st' =
                   received steps_closed ++ buf steps_closed.
Proof.
  apply (Scrape_send_after_close_panics 1 (mkContext None)
           (mkInstance demo_db) steps_closed);
    [apply steps_closed_reachable|reflexivity|vm_compute; reflexivity].
Defined.

(** The channel is full after the first sample and the call is at the
    send of the second. *)
Lemma Scrape_blocked_at_send_witness :
  producer (sys_run 1 5 (sys_init steps_call)) =
    producer (sys_run 1 4 (sys_init steps_call)) ∧
  f_at (producer (sys_run 1 5 (sys_init steps_call))) =
    AtSend (metric_of ("shop", "audit", "InnoDB")).
Proof.
  apply (Scrape_blocked_at_send 1 (sys_run 1 4 (sys_init steps_call)));
    [vm_compute; reflexivity..|vm_compute; lia|vm_compute; lia|].
  apply sys_next_step. vm_compute. reflexivity.
Defined.

Lemma Scrape_channel_bounds_witness :
  length (buf (sys_run 1 4 (sys_init steps_call))) ≤ 1 ∧
  length (received (sys_run 1 4 (sys_init steps_call))) +
    length (buf (sys_run 1 4 (sys_init steps_call))) ≤
    length (raw_of <$> demo_good).
Proof.
  apply (Scrape_channel_bounds 1 (mkContext None) (mkInstance demo_db)
           (sys_run 1 4 (sys_init steps_call)) (raw_of <$> demo_good) None);
    [reflexivity|apply sys_run_steps].
Defined.

(** The call on the channel the consumer has closed: the first send
    panics, in both semantics. *)
Definition closed_world : World :=
  set_sink (mkSink [] true) demo_world.

Example Scrape_steps_closed :
  f_at (Scrape_steps (mkContext None) (mkInstance demo_db) (mkSink [] true)).1 =
    Ended (Panicked ErrSendOnClosedChannel) ∧
  (Scrape ScrapePrimaryKey_lit (mkContext None) (mkInstance demo_db)
     closed_world).1 = Panicked ErrSendOnClosedChannel.
Proof. by vm_compute. Qed.

Lemma Scrape_steps_equal_Scrape_witness :
  let ctx := mkContext None in
  let inst := mkInstance demo_db in
  produce 20 (call ctx inst) (w_sink closed_world) =
    Scrape_steps ctx inst (w_sink closed_world) ∧
  f_at (Scrape_steps ctx inst (w_sink closed_world)).1 =
    Ended (Scrape ScrapePrimaryKey_lit ctx inst closed_world).1 ∧
  f_open (Scrape_steps ctx inst (w_sink closed_world)).1 = false ∧
  (Scrape_steps ctx inst (w_sink closed_world)).2 =
    w_sink (Scrape ScrapePrimaryKey_lit ctx inst closed_world).2 ∧
  f_cursor (Scrape_steps ctx inst (w_sink closed_world)).1 =
    w_rows (Scrape ScrapePrimaryKey_lit ctx inst closed_world).2 !!
      fresh (dom (w_rows closed_world)) ∧
  rtc (sys_step 0)
    (mkSys (call ctx inst) [] (sent (w_sink closed_world))
       (sink_closed (w_sink closed_world)))
    (mkSys (Scrape_steps ctx inst (w_sink closed_world)).1 []
       (sent (w_sink (Scrape ScrapePrimaryKey_lit ctx inst closed_world).2))
       (sink_closed (w_sink (Scrape ScrapePrimaryKey_lit ctx inst closed_world).2))).
Proof.
  apply (Scrape_steps_equal_Scrape ScrapePrimaryKey_lit (mkContext None)
           (mkInstance demo_db) closed_world 20).
  vm_compute. lia.
Defined.
