(* ===== verification/EndToEnd.v ===== *)
(** * From the tables of the server to the samples on the channel

    The theorems of [PrimaryKeyTheorems] are about the rows a server
    answers with; the theorems of [PrimaryQuery] are about the rows the
    query selects.  This file puts them together: [Scrape] against a
    server that honours the query ([honours]), from the contents of
    [information_schema.tables] and [information_schema.table_constraints]
    to the samples on the channel.  [mysqld] is the server that parses the
    text it is sent and evaluates it.

    It also holds what two runs have in common: runs against databases
    that answer the query alike, and two runs in a row. *)

From Stdlib Require Import Floats.
From S2P Require Import Prelude Prometheus Database Sql SqlSyntax PrimaryQuery.
From S2P Require Import Scraper PrimaryKey PrimaryQueryText PrimaryKeySpec.

(** ** Servers *)

Section servers.
Context `{Collation}.
Implicit Types (t : TablesRow) (T ts : list TablesRow) (C : list ConstraintRow).
Implicit Types (l : string * string * string) (db : DB) (w : World) (k : Sink).

(** A server whose [information_schema] holds [T] and [C]: it parses and
    evaluates the text it is sent, and refuses what it cannot parse or
    evaluate. *)
Definition mysqld T C : DB :=
  mkDB (λ text, match run_query (information_schema T C) text with
                | Some rows => QueryRows rows None
                | None => QueryFails (ErrDriver "You have an error in your SQL syntax")
                end).

(** The instance of the exporter connected to it. *)
Definition server T C : instance := mkInstance (mysqld T C).

(** [db] answers the query with the tables of [T] that [C] gives no
    primary key, in an order the [ORDER BY] allows, without a driver
    error. *)
Definition honours db T C : Prop :=
  ∃ rows, db_answer db primaryQuery = QueryRows rows None ∧
          primaryQuery_result T C rows.

(** The label values of a table: its three columns, when none is
    [NULL]. *)
Definition table_labels t : option (string * string * string) :=
  sch ← t_table_schema t; name ← t_table_name t; eng ← t_engine t;
  Some (sch, name, eng).

(** A table [Scrape] can report: no [NULL] among the three columns, and
    each of them valid UTF-8. *)
Definition scannable t : Prop :=
  ∃ l, table_labels t = Some l ∧ valid_labels l.

#[export] Instance scannable_dec t : Decision (scannable t).
Proof.
  unfold scannable. destruct (table_labels t) as [l|].
  - destruct (decide (valid_labels l)); [left; eauto|right; naive_solver].
  - right. naive_solver.
Defined.

(** A table whose columns, where they are not [NULL], are valid UTF-8. *)
Definition utf8_labels t : Prop :=
  ∀ l, table_labels t = Some l → valid_labels l.

#[export] Instance utf8_labels_dec t : Decision (utf8_labels t).
Proof.
  unfold utf8_labels. destruct (table_labels t) as [l|]; [|by left].
  destruct (decide (valid_labels l)); [left|right]; naive_solver.
Defined.

(** The samples of a list of tables, in order. *)
Definition samples_of ts : list Metric := metric_of <$> omap table_labels ts.

(** ** Rows of tables *)

Lemma server_honours T C : honours (getDB (server T C)) T C.
Proof.
  exists (primaryQuery_rows T C). split; [|apply primaryQuery_rows_result].
  unfold server, getDB, mysqld. cbn [inst_db db_answer].
  by rewrite run_query_primaryQuery.
Qed.

Lemma table_labels_Some t l : table_labels t = Some l ↔ row_of t = raw_of l.
Proof.
  destruct t as [[?|] [?|] ? [?|]], l as [[??]?]; unfold table_labels, row_of, raw_of;
    simpl; naive_solver.
Qed.

Lemma table_labels_None t :
  table_labels t = None → ∃ col, scan_err (row_of t) = Some (ErrScanNull col).
Proof.
  destruct t as [[?|] [?|] ? [?|]]; try done; intros _;
    [by exists 2|by exists 1|by exists 1|by exists 0..].
Qed.

Lemma rows_of_scannable ts :
  Forall scannable ts →
  row_of <$> ts = raw_of <$> omap table_labels ts ∧
  Forall valid_labels (omap table_labels ts) ∧
  length (samples_of ts) = length ts.
Proof.
  unfold samples_of. rewrite length_fmap.
  induction 1 as [|t ts (l & Hl & ?) _ (IH1 & IH2 & IH3)]; [done|].
  cbn [omap list_omap fmap list_fmap]. rewrite Hl. simpl.
  apply table_labels_Some in Hl. split_and!; [|by constructor|lia].
  rewrite Hl. f_equal. apply IH1.
Qed.

Lemma elem_of_samples_of ts m :
  m ∈ samples_of ts ↔ ∃ t, t ∈ ts ∧ metric_of <$> table_labels t = Some m.
Proof.
  unfold samples_of. rewrite list_elem_of_fmap.
  setoid_rewrite list_elem_of_omap. split.
  - intros (l & -> & t & ? & Hl). exists t. by rewrite Hl.
  - intros (t & ? & Hm). destruct (table_labels t) as [l|] eqn:Hl; [|done].
    injection Hm as <-. eauto.
Qed.

(** ** The scrape of a server that honours the query *)

Section honoured.
Context (s : ScrapePrimaryKey) (inst : instance) (w : World).
Context (T : list TablesRow) (C : list ConstraintRow).
Context (Hdb : honours (getDB inst) T C).
Context (Hopen : sink_closed (w_sink w) = false).

Let result := Scrape s (mkContext None) inst w.

Lemma Scrape_honoured :
  Forall scannable (tables_without_primary_key T C) →
  ∃ ts, db_answer (getDB inst) primaryQuery = QueryRows (row_of <$> ts) None ∧
        ts ≡ₚ tables_without_primary_key T C ∧
        Sorted (by_key t_table_name) ts ∧
        result.1 = Returned None ∧
        w_sink result.2 = mkSink (sent (w_sink w) ++ samples_of ts) false.
Proof using Hdb Hopen.
  intros Hok. destruct Hdb as (rows & Hq & ts & Hperm & Hsorted & Hrows).
  exists ts. split_and!; [congruence|done..| |]; rewrite <-Hperm in Hok;
    destruct (rows_of_scannable ts Hok) as (Hraw & Hvalid & _);
    destruct (Scrape_good_prefix s inst w rows None Hq (omap table_labels ts) [])
      as (v' & Ho & Hk); rewrite ?app_nil_r; try congruence; try done.
Qed.

Lemma Scrape_honoured_null :
  (∃ t, t ∈ T ∧ reported C t = true ∧ table_labels t = None) →
  Forall utf8_labels T →
  ∃ col ms, result.1 = Returned (Some (ErrScanNull col)) ∧
            sent (w_sink result.2) = sent (w_sink w) ++ ms ∧
            length ms < length (tables_without_primary_key T C).
Proof using Hdb Hopen.
  intros (t & Ht & Hrep & Hnull) Hvalid.
  destruct Hdb as (rows & Hq & ts & Hperm & _ & Hrows).
  assert (Hin : ∀ t', t' ∈ ts → t' ∈ T).
  { intros t'. rewrite Hperm. unfold tables_without_primary_key.
    rewrite list_elem_of_filter. tauto. }
  destruct (list_first_failure (λ t, is_Some (table_labels t)) ts t)
    as (good & bad & rest & -> & Hgood & Hbad).
  { rewrite Hperm. apply list_elem_of_filter. by rewrite Is_true_true. }
  { rewrite Hnull. by intros [??]. }
  assert (Forall scannable good) as (Hraw & Hval & Hlen)%rows_of_scannable.
  { apply Forall_forall. intros t' Ht'. rewrite Forall_forall in Hgood.
    destruct (Hgood t' Ht') as [l Hl]. exists l. split; [done|].
    rewrite Forall_forall in Hvalid. apply (Hvalid t'); [|done].
    apply Hin. set_solver. }
  apply eq_None_not_Some, table_labels_None in Hbad as [col Hcol].
  destruct (Scrape_good_prefix s inst w rows None Hq (omap table_labels good)
              (row_of bad :: (row_of <$> rest))) as (v' & Ho & Hk); [|done..|].
  { by rewrite Hrows, fmap_app, Hraw. }
  destruct (scan3_Some v' _ _ Hcol) as [v'' Hscan]. cbn [scrape_rows] in Ho, Hk.
  rewrite Hscan in Ho, Hk. exists col, (samples_of good). subst result.
  rewrite Ho, Hk. split_and!; [done..|].
  rewrite <-Hperm, length_app, Hlen. simpl. lia.
Qed.

End honoured.

(** The scrape of the server that evaluates the text. *)
Lemma Scrape_server (s : ScrapePrimaryKey) w T C :
  sink_closed (w_sink w) = false →
  Forall scannable (tables_without_primary_key T C) →
  (Scrape s (mkContext None) (server T C) w).1 = Returned None ∧
  w_sink (Scrape s (mkContext None) (server T C) w).2 =
    mkSink (sent (w_sink w) ++ samples_of (reported_in_order T C)) false ∧
  length (samples_of (reported_in_order T C)) =
    length (tables_without_primary_key T C).
Proof.
  intros Hopen Hok.
  assert (Forall scannable (reported_in_order T C)) as Hord.
  { unfold reported_in_order. by rewrite order_by_Permutation. }
  destruct (rows_of_scannable _ Hord) as (Hraw & Hvalid & Hlen).
  destruct (Scrape_good_prefix s (server T C) w
              (primaryQuery_rows T C) None) with
    (good := omap table_labels (reported_in_order T C)) (rest := @nil RawRow)
    as (v' & Ho & Hk); [|by rewrite app_nil_r, primaryQuery_rows_in_order|done..|].
  { unfold server, getDB, mysqld. cbn [inst_db db_answer].
    by rewrite run_query_primaryQuery. }
  split_and!; [done..|]. unfold reported_in_order in *.
  by rewrite Hlen, length_order_by.
Qed.

End servers.

(** ** Runs that have the answer to the query in common *)

Lemma Scrape_same_answer (s : ScrapePrimaryKey) ctx inst1 inst2 w :
  db_answer (getDB inst1) primaryQuery = db_answer (getDB inst2) primaryQuery →
  Scrape s ctx inst1 w = Scrape s ctx inst2 w.
Proof.
  intros Hq. cbn [Scrape ScrapePrimaryKey_Scraper].
  unfold ScrapePrimaryKey.Scrape, QueryContext, query_rows, Sprint.
  by rewrite Hq.
Qed.

(** ** Theorems *)

Section theorems.
Context `{Collation}.
Implicit Types (s : ScrapePrimaryKey) (inst : instance) (w : World).
Implicit Types (T : list TablesRow) (C : list ConstraintRow).

(** C2: end to end.  Against a server that parses the text it is sent
    and evaluates it on the tables [T] and the constraints [C], with the
    channel open and no [NULL] and no invalid UTF-8 in the three columns
    of the tables the query selects, [Scrape] returns [nil] and appends
    to the channel exactly one sample for each base table outside the
    system schemas that has no primary key, in ascending order of the
    table name. *)
Theorem Scrape_reports_tables_without_primary_key s w T C :
  sink_closed (w_sink w) = false →
  Forall scannable (tables_without_primary_key T C) →
  (Scrape s (mkContext None) (server T C) w).1 = Returned None ∧
  w_sink (Scrape s (mkContext None) (server T C) w).2 =
    mkSink (sent (w_sink w) ++
            samples_of (order_by t_table_name (tables_without_primary_key T C)))
           false ∧
  length (samples_of (order_by t_table_name (tables_without_primary_key T C))) =
    length (tables_without_primary_key T C).
Proof. apply Scrape_server. Qed.

(** C28: the order among tables of the same name is the server's.
    [ORDER BY t.table_name] leaves the order of two tables of the same
    name in different schemas to the server.  Against any server that
    answers the query with the tables without primary key sorted by
    name, in whatever order it leaves those of equal names, with the
    channel open and no [NULL] and no invalid UTF-8 in the three
    columns: [Scrape] returns [nil] and appends exactly one sample per
    row of the answer, in the order of the answer, which is a sorted
    arrangement of the tables without primary key. *)
Theorem Scrape_in_the_order_of_the_answer s inst w T C :
  honours (getDB inst) T C →
  sink_closed (w_sink w) = false →
  Forall scannable (tables_without_primary_key T C) →
  ∃ ts, db_answer (getDB inst) primaryQuery = QueryRows (row_of <$> ts) None ∧
        ts ≡ₚ tables_without_primary_key T C ∧
        Sorted (by_key t_table_name) ts ∧
        (Scrape s (mkContext None) inst w).1 = Returned None ∧
        w_sink (Scrape s (mkContext None) inst w).2 =
          mkSink (sent (w_sink w) ++ samples_of ts) false.
Proof. apply Scrape_honoured. Qed.

(** Under the same hypotheses, a sample is on the channel after the
    scrape iff it was there before or it is the sample of a table of [T]
    that is a base table outside the system schemas and that no
    [PRIMARY KEY] constraint of [C] names. *)
Theorem Scrape_sample_iff_reported s w T C m :
  sink_closed (w_sink w) = false →
  Forall scannable (tables_without_primary_key T C) →
  m ∈ sent (w_sink (Scrape s (mkContext None) (server T C) w).2) ↔
  m ∈ sent (w_sink w) ∨
  ∃ t, t ∈ T ∧ reported C t = true ∧ metric_of <$> table_labels t = Some m.
Proof.
  intros Hopen Hok.
  destruct (Scrape_honoured s _ w T C (server_honours T C) Hopen Hok)
    as (ts & _ & Hperm & _ & _ & ->).
  cbn [sent]. rewrite elem_of_app, elem_of_samples_of.
  setoid_rewrite Hperm. unfold tables_without_primary_key.
  setoid_rewrite list_elem_of_filter. setoid_rewrite Is_true_true.
  naive_solver.
Qed.

(** C24: one table the query selects with a [NULL] in one of the three
    columns (an engine the server cannot name, say) makes the scrape
    return the error of [Scan]: fewer samples are sent than there are
    tables to report, the tables sorted after it missing. *)
Theorem Scrape_null_column_aborts s w T C :
  sink_closed (w_sink w) = false →
  (∃ t, t ∈ T ∧ reported C t = true ∧ table_labels t = None) →
  Forall utf8_labels T →
  ∃ col ms,
    (Scrape s (mkContext None) (server T C) w).1 =
      Returned (Some (ErrScanNull col)) ∧
    sent (w_sink (Scrape s (mkContext None) (server T C) w).2) =
      sent (w_sink w) ++ ms ∧
    length ms < length (tables_without_primary_key T C).
Proof.
  intros. by apply Scrape_honoured_null; [apply server_honours|..].
Qed.

End theorems.

(** [Scrape] reads the database through [primaryQuery] and nothing
    else: against two databases that answer this query alike it does the
    same, whatever they answer to other queries. *)
Theorem Scrape_reads_only_primaryQuery (s : ScrapePrimaryKey) ctx inst1 inst2 w :
  db_answer (getDB inst1) primaryQuery = db_answer (getDB inst2) primaryQuery →
  Scrape s ctx inst1 w = Scrape s ctx inst2 w.
Proof. apply Scrape_same_answer. Qed.

(** Idempotence.  A second scrape of an unchanged database returns
    what the first returned and appends the same samples again, on every
    path: the scraper keeps no state between runs. *)
Theorem Scrape_twice (s : ScrapePrimaryKey) ctx inst w :
  (Scrape s ctx inst (Scrape s ctx inst w).2).1 = (Scrape s ctx inst w).1 ∧
  ∃ ms, sent (w_sink (Scrape s ctx inst w).2) = sent (w_sink w) ++ ms ∧
        sent (w_sink (Scrape s ctx inst (Scrape s ctx inst w).2).2) =
          sent (w_sink (Scrape s ctx inst w).2) ++ ms.
Proof. apply Scrape_run_twice. Qed.

(** ** The theorems on a concrete server, under the binary collation *)

Definition shop : instance :=
  server (H := binary_collation) demo_tables demo_constraints.

(** The same schema with a table whose engine the server reports as
    [NULL]. *)
Definition broken_tables : list TablesRow :=
  mkTablesRow (Some "shop") (Some "cart") (Some "BASE TABLE") None :: demo_tables.

Definition shop_broken : instance :=
  server (H := binary_collation) broken_tables demo_constraints.

Definition empty_world : World := mkWorld (mkSink [] false) ∅.

Example Scrape_shop :
  sent (w_sink (Scrape ScrapePrimaryKey_lit (mkContext None) shop empty_world).2) =
    [metric_of ("shop", "Log", "MyISAM"); metric_of ("shop", "audit", "InnoDB")].
Proof. vm_compute. reflexivity. Qed.

Lemma Scrape_reports_tables_without_primary_key_witness :
  (Scrape ScrapePrimaryKey_lit (mkContext None) shop empty_world).1 =
    Returned None ∧
  w_sink (Scrape ScrapePrimaryKey_lit (mkContext None) shop empty_world).2 =
    mkSink (sent (w_sink empty_world) ++
            samples_of (order_by (H := binary_collation) t_table_name
                          (tables_without_primary_key (H := binary_collation)
                             demo_tables demo_constraints)))
           false ∧
  length (samples_of (order_by (H := binary_collation) t_table_name
                        (tables_without_primary_key (H := binary_collation)
                           demo_tables demo_constraints))) =
    length (tables_without_primary_key (H := binary_collation)
              demo_tables demo_constraints).
Proof.
  apply (Scrape_reports_tables_without_primary_key (H := binary_collation)).
  - reflexivity.
  - apply (bool_decide_unpack _). vm_compute. exact I.
Defined.

(** Two tables named [events], in the schemas [crm] and [shop], and a
    server that answers with the one of [shop] first, where the
    evaluator of [mysqld] puts the one of [crm] first. *)
Definition ties_tables : list TablesRow :=
  [mkTablesRow (Some "crm") (Some "events") (Some "BASE TABLE") (Some "InnoDB");
   mkTablesRow (Some "shop") (Some "events") (Some "BASE TABLE") (Some "InnoDB")].

Definition ties_server : instance :=
  mkInstance (mkDB (λ _, QueryRows (row_of <$> reverse ties_tables) None)).

Lemma ties_server_honours :
  honours (H := binary_collation) (getDB ties_server) ties_tables [].
Proof.
  exists (row_of <$> reverse ties_tables). split; [done|].
  exists (reverse ties_tables). split_and!; [|by repeat constructor|done].
  apply (Permutation_swap _ _ []).
Qed.

Example Scrape_ties :
  sent (w_sink (Scrape ScrapePrimaryKey_lit (mkContext None) ties_server
                  empty_world).2) =
    [metric_of ("shop", "events", "InnoDB"); metric_of ("crm", "events", "InnoDB")] ∧
  sent (w_sink (Scrape ScrapePrimaryKey_lit (mkContext None)
                  (server (H := binary_collation) ties_tables []) empty_world).2) =
    [metric_of ("crm", "events", "InnoDB"); metric_of ("shop", "events", "InnoDB")].
Proof. vm_compute. split; reflexivity. Qed.

Lemma Scrape_in_the_order_of_the_answer_witness :
  ∃ ts, db_answer (getDB ties_server) primaryQuery =
          QueryRows (row_of <$> ts) None ∧
        ts ≡ₚ tables_without_primary_key (H := binary_collation) ties_tables [] ∧
        Sorted (by_key (H := binary_collation) t_table_name) ts ∧
        (Scrape ScrapePrimaryKey_lit (mkContext None) ties_server empty_world).1 =
          Returned None ∧
        w_sink (Scrape ScrapePrimaryKey_lit (mkContext None) ties_server
                  empty_world).2 =
          mkSink (sent (w_sink empty_world) ++ samples_of ts) false.
Proof.
  apply (Scrape_in_the_order_of_the_answer (H := binary_collation)).
  - apply ties_server_honours.
  - reflexivity.
  - apply (bool_decide_unpack _). vm_compute. exact I.
Defined.

Lemma Scrape_sample_iff_reported_witness :
  metric_of ("shop", "audit", "InnoDB") ∈
    sent (w_sink (Scrape ScrapePrimaryKey_lit (mkContext None) shop empty_world).2).
Proof.
  apply (Scrape_sample_iff_reported (H := binary_collation)
           ScrapePrimaryKey_lit empty_world demo_tables demo_constraints).
  - reflexivity.
  - apply (bool_decide_unpack _). vm_compute. exact I.
  - right. eexists. split; [apply list_elem_of_further, list_elem_of_here|].
    split; vm_compute; reflexivity.
Defined.

Lemma Scrape_null_column_aborts_witness :
  ∃ col ms,
    (Scrape ScrapePrimaryKey_lit (mkContext None) shop_broken empty_world).1 =
      Returned (Some (ErrScanNull col)) ∧
    sent (w_sink (Scrape ScrapePrimaryKey_lit (mkContext None) shop_broken
                    empty_world).2) = sent (w_sink empty_world) ++ ms ∧
    length ms < length (tables_without_primary_key (H := binary_collation)
                          broken_tables demo_constraints).
Proof.
  apply (Scrape_null_column_aborts (H := binary_collation) ScrapePrimaryKey_lit
           empty_world broken_tables demo_constraints).
  - reflexivity.
  - eexists. split; [apply list_elem_of_here|]. split; vm_compute; reflexivity.
  - apply (bool_decide_unpack _). vm_compute. exact I.
Defined.

Lemma Scrape_reads_only_primaryQuery_witness :
  Scrape ScrapePrimaryKey_lit (mkContext None) shop empty_world =
  Scrape ScrapePrimaryKey_lit (mkContext None)
    (mkInstance (mkDB (λ _, db_answer (getDB shop) primaryQuery))) empty_world.
Proof. apply Scrape_reads_only_primaryQuery. reflexivity. Defined.
