(* ===== verification/Orchestrator.v ===== *)
(** * The scrape cycle

    The orchestrator of the exporter, from its design document: its code
    is not in the repository.  A cycle connects to the target and probes
    its version, selects the scrapers that are enabled and whose minimum
    version the target meets, runs them as concurrent units of work under
    one deadline, collects one outcome per unit and reports the
    meta-metrics.

    A cycle is a state machine ([Phase], [cycle_step]).  While it is
    [Running], the units of work take turns in any order: a unit sends its
    next sample, or returns, which gives its outcome; once the deadline has
    elapsed the units still running are abandoned, recorded as timed out,
    and what they would still send is dropped.  A scraper cannot observe
    the channel ([scrape_uniform]), so a unit of work is the samples its
    scraper sends on a channel of its own and what it returns ([launch]);
    the step relation interleaves the samples of the units on the shared
    channel.

    [run_units] is one schedule as a function: each unit in turn, to its
    end.  It is what a run of the cycle computes when nothing overlaps and
    the deadline does not elapse. *)

From Stdlib Require Import Floats.
From S2P Require Import Prelude Prometheus Database Scraper.

(** ** Configuration, registry and selection *)

Record Config : Type := mkConfig {
  allow : gset string;
  deny : gset string;
}.

Definition enabled (cfg : Config) (name : string) : bool :=
  bool_decide (name ∈ allow cfg ∧ name ∉ deny cfg).

(** The registry: the scrapers compiled in, by name. *)
Abbreviation Registry := (gmap string scraper).

Definition register (s : scraper) (reg : Registry) : Registry :=
  <[scraper_name s := s]> reg.

(** A registry built by [register] files every scraper under its name. *)
Definition registry_wf (reg : Registry) : Prop :=
  map_Forall (λ name s, scraper_name s = name) reg.

(** A scraper is eligible iff it is enabled and the version the target
    reports is at least its minimum version. *)
Definition eligible (cfg : Config) (v : float) (s : scraper) : bool :=
  enabled cfg (scraper_name s) && PrimFloat.leb (scraper_version s) v.

Definition selection (cfg : Config) (v : float) (reg : Registry)
    : list scraper :=
  filter (λ s, eligible cfg v s = true) (map_to_list reg).*2.

(** The target of a cycle: what connecting to it gives, and what the
    version probe answers on the connection. *)
Record Target : Type := mkTarget {
  dial : error + instance;
  probe : instance → error + float;
}.

(** ** Outcomes and meta-metrics *)

Inductive Status : Type :=
| Succeeded
| Failed (e : error)
| TimedOut.

#[export] Instance Status_eq_dec : EqDecision Status.
Proof. solve_decision. Defined.

Record Outcome : Type := mkOutcome {
  o_name : string;
  o_duration : float;
  o_status : Status;
}.

(** The error a scraper returns, as an outcome: an exceeded deadline is a
    timeout, any other error a failure of that scraper. *)
Definition status_of (r : option error) : Status :=
  match r with
  | None => Succeeded
  | Some ErrDeadlineExceeded => TimedOut
  | Some e => Failed e
  end.

Definition scrapeSuccessDesc : Desc :=
  NewDesc (BuildFQName namespace "exporter" "collector_success")
    "Whether a collector succeeded." ["collector"] [].

Definition scrapeDurationDesc : Desc :=
  NewDesc (BuildFQName namespace "exporter" "collector_duration_seconds")
    "Collector time duration." ["collector"] [].

Definition upDesc : Desc :=
  NewDesc (BuildFQName namespace "" "up")
    "Whether the MySQL server is up." [] [].

Definition success_gauge (o : Outcome) : Metric :=
  mkMetric scrapeSuccessDesc GaugeValue
    (if decide (o_status o = Succeeded) then 1 else 0) [o_name o].

Definition duration_gauge (o : Outcome) : Metric :=
  mkMetric scrapeDurationDesc GaugeValue (o_duration o) [o_name o].

Definition up_gauge (up : bool) : Metric :=
  mkMetric upDesc GaugeValue (if up then 1 else 0) [].

(** The reporter: a success gauge and a duration gauge per outcome, then
    the reachability gauge. *)
Definition report (outs : list Outcome) : list Metric :=
  (outs ≫= λ o, [success_gauge o; duration_gauge o]) ++ [up_gauge true].

(** ** Units of work *)

(** A scraper at work: the samples it has yet to send and what it returns
    after the last of them. *)
Record WorkUnit : Type := mkWorkUnit {
  u_name : string;
  u_pending : list Metric;
  u_result : outcome (option error);
}.

Definition set_pending (ms : list Metric) (u : WorkUnit) : WorkUnit :=
  mkWorkUnit (u_name u) ms (u_result u).

Definition fresh_world : World := mkWorld (mkSink [] false) ∅.

Definition launch (ctx : Context) (inst : instance) (s : scraper) : WorkUnit :=
  let r := scraper_run s ctx inst fresh_world in
  mkWorkUnit (scraper_name s) (sent (w_sink r.2)) r.1.

(** The scrapers one after the other on one world, as one goroutine
    would run them. *)
Fixpoint scrape_all (ss : list scraper) (ctx : Context) (inst : instance)
    : exec World (list (option error)) :=
  match ss with
  | [] => mret []
  | s :: ss' =>
      r ← scraper_run s ctx inst;
      rs ← scrape_all ss' ctx inst;
      mret (r :: rs)
  end.

(** A scraper that keeps the laws of the contract. *)
Definition lawful (s : scraper) : Prop :=
  @ScraperLaws (scraper_type s) (scraper_impl s).

(** ** Units of work stand for runs on the shared world *)

Section launch.
Context (ctx : Context) (inst : instance).
Implicit Types (s : scraper) (w : World).

(** On any world whose channel is open, a lawful scraper returns what
    its unit of work returns and appends the samples its unit sends. *)
Lemma scraper_run_launch s w :
  lawful s → sink_closed (w_sink w) = false →
  (scraper_run s ctx inst w).1 = u_result (launch ctx inst s) ∧
  sent (w_sink (scraper_run s ctx inst w).2) =
    sent (w_sink w) ++ u_pending (launch ctx inst s) ∧
  sink_closed (w_sink (scraper_run s ctx inst w).2) = false.
Proof.
  intros Hlaw Hopen. unfold launch, scraper_run. simpl.
  destruct (@scrape_uniform _ _ Hlaw (scraper_value s) ctx inst fresh_world w)
    as [Ho Hs]; [done|].
  split_and!; [done|by apply Hs|].
  by rewrite (@scrape_keeps_channel _ _ Hlaw).
Qed.

(** Run one after the other on one world, lawful scrapers leave on the
    channel the samples of their units of work, unit after unit. *)
Lemma scrape_all_launch ss w rs w' :
  Forall lawful ss → sink_closed (w_sink w) = false →
  scrape_all ss ctx inst w = (Returned rs, w') →
  Forall2 (λ s r, u_result (launch ctx inst s) = Returned r) ss rs ∧
  sent (w_sink w') =
    sent (w_sink w) ++ concat (u_pending ∘ launch ctx inst <$> ss).
Proof.
  intros Hlaw. revert w rs.
  induction Hlaw as [|s ss Hs _ IH]; intros w rs Hopen; simpl.
  { intros [= <- <-]. by rewrite app_nil_r. }
  destruct (scraper_run_launch s w Hs Hopen) as (Ho & Hsent & Hopen').
  unfold mbind, exec_bind at 1.
  destruct (scraper_run s ctx inst w) as [[r| |] w1]; [|done..].
  unfold mbind, exec_bind at 1.
  destruct (scrape_all ss ctx inst w1) as [[rs'| |] w2] eqn:Hrest; [|done..].
  intros [= <- <-]. destruct (IH w1 rs' Hopen' Hrest) as [? ->].
  simpl in *. rewrite Hsent, <-app_assoc. by split; [constructor|].
Qed.

End launch.

(** ** The registry and the selection *)

Section registry.
Implicit Types (reg : Registry) (s : scraper) (cfg : Config).

Lemma registry_wf_empty : registry_wf ∅.
Proof. apply map_Forall_empty. Qed.

Lemma register_wf s reg : registry_wf reg → registry_wf (register s reg).
Proof. intros Hwf. by apply map_Forall_insert_2. Qed.

Lemma registry_names reg :
  registry_wf reg → scraper_name <$> (map_to_list reg).*2 = (map_to_list reg).*1.
Proof.
  intros Hwf. rewrite <-list_fmap_compose. apply Forall_fmap_ext.
  apply Forall_forall. intros [name s] Hin%elem_of_map_to_list.
  by apply Hwf in Hin.
Qed.

(** Names are pairwise distinct among the selected scrapers. *)
Lemma selection_NoDup cfg v reg :
  registry_wf reg → NoDup (scraper_name <$> selection cfg v reg).
Proof.
  intros Hwf. eapply sublist_NoDup; [|apply fmap_sublist, sublist_filter].
  rewrite registry_names by done. apply NoDup_fst_map_to_list.
Qed.

Lemma elem_of_selection cfg v reg s :
  s ∈ selection cfg v reg ↔
  (∃ name, reg !! name = Some s) ∧ eligible cfg v s = true.
Proof.
  unfold selection. rewrite list_elem_of_filter, list_elem_of_fmap.
  split.
  - intros [? ([name s'] & -> & ?%elem_of_map_to_list)]. eauto.
  - intros [[name ?] ?]. split; [done|]. exists (name, s).
    split; [done|]. by apply elem_of_map_to_list.
Qed.

Lemma launch_name ctx inst s : u_name (launch ctx inst s) = scraper_name s.
Proof. done. Qed.

End registry.

(** ** The cycle as a state machine *)

Inductive Phase : Type :=
| Idle
| Selecting (inst : instance) (v : float)
| Running (units : list WorkUnit) (outs : list Outcome)
| Aggregating (outs : list Outcome)
| Done
| Crashed (e : error).

(** A cycle: its phase, the samples on the sink, and whether its deadline
    has elapsed. *)
Record Cycle : Type := mkCycle {
  phase : Phase;
  emitted : list Metric;
  expired : bool;
}.

Section cycle.
Context (reg : Registry) (cfg : Config) (tgt : Target).
(** The context the cycle was started with, the duration each scraper is
    measured to take, and the deadline of the cycle, in seconds. *)
Context (ctx : Context) (clock : string → float) (deadline : float).

Definition outcome_of (u : WorkUnit) (r : option error) : Outcome :=
  mkOutcome (u_name u) (clock (u_name u)) (status_of r).

Definition timed_out (u : WorkUnit) : Outcome :=
  mkOutcome (u_name u) deadline TimedOut.

Inductive cycle_step : Cycle → Cycle → Prop :=
| step_dial_fails ms e :
    dial tgt = inl e →
    cycle_step (mkCycle Idle ms false)
               (mkCycle Done (ms ++ [up_gauge false]) false)
| step_probe_fails ms inst e :
    dial tgt = inr inst → probe tgt inst = inl e →
    cycle_step (mkCycle Idle ms false)
               (mkCycle Done (ms ++ [up_gauge false]) false)
| step_probe ms inst v :
    dial tgt = inr inst → probe tgt inst = inr v →
    cycle_step (mkCycle Idle ms false) (mkCycle (Selecting inst v) ms false)
| step_select ms inst v :
    cycle_step (mkCycle (Selecting inst v) ms false)
               (mkCycle (Running (launch ctx inst <$> selection cfg v reg) [])
                        ms false)
| step_emit ms us1 u us2 outs m rest :
    u_pending u = m :: rest →
    cycle_step (mkCycle (Running (us1 ++ u :: us2) outs) ms false)
               (mkCycle (Running (us1 ++ set_pending rest u :: us2) outs)
                        (ms ++ [m]) false)
| step_return ms us1 u us2 outs r :
    u_pending u = [] → u_result u = Returned r →
    cycle_step (mkCycle (Running (us1 ++ u :: us2) outs) ms false)
               (mkCycle (Running (us1 ++ us2) (outs ++ [outcome_of u r]))
                        ms false)
| step_panic ms us1 u us2 outs e :
    u_pending u = [] → u_result u = Panicked e →
    cycle_step (mkCycle (Running (us1 ++ u :: us2) outs) ms false)
               (mkCycle (Crashed e) ms false)
| step_deadline ms u us outs :
    cycle_step (mkCycle (Running (u :: us) outs) ms false)
               (mkCycle (Running (u :: us) outs) ms true)
| step_abandon ms us1 u us2 outs :
    cycle_step (mkCycle (Running (us1 ++ u :: us2) outs) ms true)
               (mkCycle (Running (us1 ++ us2) (outs ++ [timed_out u])) ms true)
| step_join ms outs b :
    cycle_step (mkCycle (Running [] outs) ms b)
               (mkCycle (Aggregating outs) ms b)
| step_report ms outs b :
    cycle_step (mkCycle (Aggregating outs) ms b)
               (mkCycle Done (ms ++ report outs) b).

(** ** One schedule as a function *)

(** Each unit in turn, to its end: its samples, then its outcome.  A panic
    ends the run.  A unit that never returns is waited for until the
    deadline, when it and the units not yet started are abandoned. *)
Fixpoint run_units (us : list WorkUnit) (ms : list Metric)
    (outs : list Outcome) : Cycle :=
  match us with
  | [] => mkCycle Done (ms ++ report outs) false
  | u :: us' =>
      match u_result u with
      | Returned r =>
          run_units us' (ms ++ u_pending u) (outs ++ [outcome_of u r])
      | Panicked e => mkCycle (Crashed e) (ms ++ u_pending u) false
      | OutOfFuel =>
          mkCycle Done
            ((ms ++ u_pending u) ++ report (outs ++ (timed_out <$> us))) true
      end
  end.

Definition Collect (ms : list Metric) : Cycle :=
  match dial tgt with
  | inl _ => mkCycle Done (ms ++ [up_gauge false]) false
  | inr inst =>
      match probe tgt inst with
      | inl _ => mkCycle Done (ms ++ [up_gauge false]) false
      | inr v => run_units (launch ctx inst <$> selection cfg v reg) ms []
      end
  end.

(** ** What holds of every state a cycle reaches *)

Definition launched (inst : instance) (v : float) : list WorkUnit :=
  launch ctx inst <$> selection cfg v reg.

(** The samples sent and the samples pending, against the samples the
    units were launched with: all of them while the deadline has not
    elapsed, some of them after. *)
Definition accounted (b : bool) (X : list Metric) (us L : list WorkUnit)
    : Prop :=
  if b then X ++ concat (u_pending <$> us) ⊆+ concat (u_pending <$> L)
  else X ++ concat (u_pending <$> us) ≡ₚ concat (u_pending <$> L).

(** A running unit is a launched unit that has sent some of its samples. *)
Definition unit_ok (L : list WorkUnit) (u : WorkUnit) : Prop :=
  ∃ u0 n, u0 ∈ L ∧ u = set_pending (drop n (u_pending u0)) u0.

(** An outcome is what a launched unit returned, or a timeout recorded
    after the deadline. *)
Definition outcome_ok (b : bool) (L : list WorkUnit) (o : Outcome) : Prop :=
  ∃ u0, u0 ∈ L ∧
    (b = true ∧ o = timed_out u0 ∨
     ∃ r, u_result u0 = Returned r ∧ o = outcome_of u0 r).

Record running_inv (L us : list WorkUnit) (outs : list Outcome)
    (X : list Metric) (b : bool) : Prop := mkRunningInv {
  inv_names : (u_name <$> us) ++ (o_name <$> outs) ≡ₚ u_name <$> L;
  inv_units : Forall (unit_ok L) us;
  inv_sent : accounted b X us L;
  inv_outs : Forall (outcome_ok b L) outs;
}.

Definition cycle_inv (ms0 : list Metric) (c : Cycle) : Prop :=
  match phase c with
  | Idle => emitted c = ms0 ∧ expired c = false
  | Selecting inst v =>
      emitted c = ms0 ∧ expired c = false ∧
      dial tgt = inr inst ∧ probe tgt inst = inr v
  | Running us outs =>
      ∃ inst v X, dial tgt = inr inst ∧ probe tgt inst = inr v ∧
        emitted c = ms0 ++ X ∧
        running_inv (launched inst v) us outs X (expired c)
  | Aggregating outs =>
      ∃ inst v X, dial tgt = inr inst ∧ probe tgt inst = inr v ∧
        emitted c = ms0 ++ X ∧
        running_inv (launched inst v) [] outs X (expired c)
  | Done =>
      (emitted c = ms0 ++ [up_gauge false] ∧
       ∀ inst v, dial tgt = inr inst → probe tgt inst ≠ inr v) ∨
      ∃ inst v X outs, dial tgt = inr inst ∧ probe tgt inst = inr v ∧
        emitted c = ms0 ++ X ++ report outs ∧
        running_inv (launched inst v) [] outs X (expired c)
  | Crashed e =>
      ∃ inst v u0 X, dial tgt = inr inst ∧ probe tgt inst = inr v ∧
        u0 ∈ launched inst v ∧ u_result u0 = Panicked e ∧
        emitted c = ms0 ++ X ∧ X ⊆+ concat (u_pending <$> launched inst v)
  end.

(** The steps a cycle has left, at most. *)
Definition work (us : list WorkUnit) : nat :=
  sum_list_with (λ u, S (length (u_pending u))) us.

Definition steps_left (c : Cycle) : nat :=
  match phase c with
  | Idle =>
      match dial tgt with
      | inr inst =>
          match probe tgt inst with
          | inr v => work (launched inst v) + 5
          | inl _ => 1
          end
      | inl _ => 1
      end
  | Selecting inst v => work (launched inst v) + 4
  | Running us _ => work us + (if expired c then 2 else 3)
  | Aggregating _ => 1
  | Done | Crashed _ => 0
  end.

Definition final (c : Cycle) : Prop :=
  phase c = Done ∨ ∃ e, phase c = Crashed e.

Implicit Types (u : WorkUnit) (us L : list WorkUnit) (o : Outcome).
Implicit Types (outs : list Outcome) (X ms : list Metric) (c : Cycle).

(** ** Preservation of the invariant while running *)

Lemma running_inv_init L : running_inv L L [] [] false.
Proof.
  split; [by rewrite app_nil_r| |by unfold accounted|by constructor].
  apply Forall_forall. intros u Hu. exists u, 0. by destruct u.
Qed.

Lemma accounted_weaken X us L : accounted false X us L → accounted true X us L.
Proof. unfold accounted. by intros ->. Qed.

Lemma accounted_sent b X us L :
  accounted b X us L → X ⊆+ concat (u_pending <$> L).
Proof.
  unfold accounted. intros Hs. etrans; [apply (submseteq_inserts_r (concat (u_pending <$> us))); reflexivity|].
  destruct b; [done|by rewrite Hs].
Qed.

Lemma outcome_ok_weaken L o : outcome_ok false L o → outcome_ok true L o.
Proof. intros (u0 & ? & [[[=] _]|?]). exists u0. eauto. Qed.

Lemma running_inv_expire L us outs X :
  running_inv L us outs X false → running_inv L us outs X true.
Proof.
  intros [??? Ho]. split; [done..|by apply accounted_weaken|].
  eapply Forall_impl; [done|]. apply outcome_ok_weaken.
Qed.

Lemma unit_ok_emit L u m rest :
  unit_ok L u → u_pending u = m :: rest → unit_ok L (set_pending rest u).
Proof.
  intros (u0 & n & ? & ->) Hp. exists u0, (S n). split; [done|].
  unfold set_pending in *. simpl in *. f_equal.
  replace (S n) with (n + 1) by lia. by rewrite <-drop_drop, Hp.
Qed.

Lemma running_inv_emit L us1 u us2 outs X m rest :
  u_pending u = m :: rest →
  running_inv L (us1 ++ u :: us2) outs X false →
  running_inv L (us1 ++ set_pending rest u :: us2) outs (X ++ [m]) false.
Proof.
  intros Hp [Hn Hu Hs Ho]. split; [| |clear Hn Hu|done].
  - by rewrite fmap_app, fmap_cons in *.
  - rewrite !Forall_app, !Forall_cons in *.
    destruct Hu as (? & ? & ?); eauto using unit_ok_emit.
  - unfold accounted in *. rewrite <-Hs, !fmap_app, !fmap_cons, !concat_app.
    simpl. rewrite Hp, <-!app_assoc. simpl.
    by rewrite (Permutation_middle (concat (u_pending <$> us1))).
Qed.

(** A unit leaves: it returned with nothing left to send, or it was
    abandoned after the deadline with whatever it had left. *)
Lemma running_inv_leave L us1 u us2 outs X b o :
  o_name o = u_name u → (b = false → u_pending u = []) →
  (unit_ok L u → outcome_ok b L o) →
  running_inv L (us1 ++ u :: us2) outs X b →
  running_inv L (us1 ++ us2) (outs ++ [o]) X b.
Proof.
  intros Hname Hp Hok [Hn Hu Hs Ho].
  rewrite !Forall_app, !Forall_cons in Hu. destruct Hu as (? & ? & ?).
  split.
  - rewrite <-Hn, !fmap_app, fmap_cons, Hname. simpl.
    rewrite <-!app_assoc. f_equiv. simpl.
    by rewrite app_assoc, <-Permutation_cons_append.
  - by apply Forall_app.
  - unfold accounted in *. rewrite !fmap_app, fmap_cons, !concat_app in *.
    simpl in Hs. destruct b.
    + etrans; [|apply Hs]. apply submseteq_skips_l, submseteq_skips_l.
      apply submseteq_inserts_l. done.
    + by rewrite Hp in Hs.
  - apply Forall_app. split; [done|]. apply Forall_singleton. auto.
Qed.

(** ** The invariant of the cycle *)

Lemma outcome_of_ok L u r b :
  u_result u = Returned r → unit_ok L u → outcome_ok b L (outcome_of u r).
Proof.
  intros Hr (u0 & n & ? & ->). exists u0. split; [done|]. right. by exists r.
Qed.

Lemma timed_out_ok L u : unit_ok L u → outcome_ok true L (timed_out u).
Proof. intros (u0 & n & ? & ->). exists u0. split; [done|]. by left. Qed.

Lemma unit_ok_panicked L u e :
  unit_ok L u → u_result u = Panicked e → ∃ u0, u0 ∈ L ∧ u_result u0 = Panicked e.
Proof. intros (u0 & n & ? & ->) ?. by exists u0. Qed.

Lemma cycle_step_inv ms0 c c' :
  cycle_inv ms0 c → cycle_step c c' → cycle_inv ms0 c'.
Proof.
  intros Hinv Hstep. destruct Hstep; unfold cycle_inv in *; simpl in *.
  - left. destruct Hinv as [-> _]. split; [done|]. congruence.
  - left. destruct Hinv as [-> _]. split; [done|]. congruence.
  - by destruct Hinv as [-> _].
  - destruct Hinv as (-> & _ & ? & ?). exists inst, v, [].
    rewrite app_nil_r. eauto using running_inv_init.
  - destruct Hinv as (inst & v & X & ? & ? & -> & ?).
    exists inst, v, (X ++ [m]). rewrite app_assoc.
    eauto using running_inv_emit.
  - destruct Hinv as (inst & v & X & ? & ? & -> & ?). exists inst, v, X.
    split_and!; [done..|].
    eapply running_inv_leave; eauto using outcome_of_ok.
  - destruct Hinv as (inst & v & X & ? & ? & -> & [_ Hu Hs _]).
    rewrite Forall_app, Forall_cons in Hu. destruct Hu as (_ & Hu & _).
    destruct (unit_ok_panicked _ _ _ Hu H0) as (u0 & ? & ?).
    exists inst, v, u0, X. eauto 10 using accounted_sent.
  - destruct Hinv as (inst & v & X & ? & ? & -> & ?). exists inst, v, X.
    eauto using running_inv_expire.
  - destruct Hinv as (inst & v & X & ? & ? & -> & ?). exists inst, v, X.
    split_and!; [done..|].
    eapply running_inv_leave; eauto using timed_out_ok. done.
  - done.
  - right. destruct Hinv as (inst & v & X & ? & ? & -> & ?).
    exists inst, v, X, outs. by rewrite app_assoc.
Qed.

Lemma cycle_inv_reachable ms0 c :
  rtc cycle_step (mkCycle Idle ms0 false) c → cycle_inv ms0 c.
Proof.
  apply (rtc_ind_r (cycle_inv ms0)); [done|].
  eauto using cycle_step_inv.
Qed.

(** ** What a finished cycle has emitted *)

Lemma launched_names inst v :
  u_name <$> launched inst v = scraper_name <$> selection cfg v reg.
Proof. unfold launched. by rewrite <-list_fmap_compose. Qed.

(** A cycle that could not connect or probe emits the reachability gauge
    at 0 and nothing else. *)
Lemma cycle_fatal ms0 c :
  (∀ inst v, dial tgt = inr inst → probe tgt inst ≠ inr v) →
  rtc cycle_step (mkCycle Idle ms0 false) c →
  c = mkCycle Idle ms0 false ∨ c = mkCycle Done (ms0 ++ [up_gauge false]) false.
Proof.
  intros Hfatal. revert c.
  apply (rtc_ind_r (λ c, c = mkCycle Idle ms0 false ∨
                         c = mkCycle Done (ms0 ++ [up_gauge false]) false));
    [by left|].
  intros c1 c2 _ Hstep [->| ->]; inversion Hstep; simplify_eq; eauto.
  by edestruct Hfatal.
Qed.

(** A finished cycle that connected and probed version [v] has emitted
    samples of the selected scrapers, then one outcome per selected
    scraper, then the reachability gauge at 1. *)
Lemma cycle_done ms0 c inst v :
  dial tgt = inr inst → probe tgt inst = inr v →
  rtc cycle_step (mkCycle Idle ms0 false) c → phase c = Done →
  ∃ X outs, emitted c = ms0 ++ X ++ report outs ∧
            running_inv (launched inst v) [] outs X (expired c).
Proof.
  intros Hd Hp Hinv%cycle_inv_reachable Hdone. unfold cycle_inv in Hinv.
  rewrite Hdone in Hinv.
  destruct Hinv as [[_ Hfatal]|(inst' & v' & X & outs & Hd' & Hp' & ? & ?)];
    [by edestruct Hfatal|].
  rewrite Hd in Hd'. injection Hd' as <-.
  rewrite Hp in Hp'. injection Hp' as <-. eauto.
Qed.

Lemma running_inv_outcome_names L outs X b :
  running_inv L [] outs X b → o_name <$> outs ≡ₚ u_name <$> L.
Proof. by intros [Hn _ _ _]. Qed.

(** While the deadline has not elapsed, no sample is lost. *)
Lemma running_inv_all_sent L outs X :
  running_inv L [] outs X false → X ≡ₚ concat (u_pending <$> L).
Proof. intros [_ _ Hs _]. unfold accounted in Hs. by rewrite app_nil_r in Hs. Qed.

Lemma running_inv_some_sent L us outs X b :
  running_inv L us outs X b → X ⊆+ concat (u_pending <$> L).
Proof. intros [_ _ Hs _]. by eapply accounted_sent. Qed.

(** What any state of the cycle has emitted beyond what the sink held:
    samples of the launched units, then at most the report. *)
Lemma cycle_inv_emitted ms0 c :
  cycle_inv ms0 c →
  emitted c = ms0 ∨ emitted c = ms0 ++ [up_gauge false] ∨
  ∃ inst v X outs, dial tgt = inr inst ∧ probe tgt inst = inr v ∧
    X ⊆+ concat (u_pending <$> launched inst v) ∧
    o_name <$> outs ⊆+ u_name <$> launched inst v ∧
    (emitted c = ms0 ++ X ∨ emitted c = ms0 ++ X ++ report outs).
Proof.
  unfold cycle_inv. destruct c as [[| |us outs|outs| |] ms b]; simpl.
  - naive_solver.
  - naive_solver.
  - intros (inst & v & X & ? & ? & -> & Hinv). right; right.
    exists inst, v, X, []. split_and!; eauto using running_inv_some_sent.
    apply submseteq_nil_l.
  - intros (inst & v & X & ? & ? & -> & Hinv). right; right.
    exists inst, v, X, []. split_and!; eauto using running_inv_some_sent.
    apply submseteq_nil_l.
  - intros [[-> _]|(inst & v & X & outs & ? & ? & -> & Hinv)]; [auto|].
    right; right. exists inst, v, X, outs.
    split_and!; eauto using running_inv_some_sent.
    by rewrite (running_inv_outcome_names _ _ _ _ Hinv).
  - intros (inst & v & u0 & X & ? & ? & _ & _ & -> & ?). right; right.
    exists inst, v, X, []. split_and!; eauto. apply submseteq_nil_l.
Qed.

(** ** The output stream stays well-formed *)

Lemma up_gauge_wf up : metric_wf (up_gauge up) = true.
Proof. by destruct up. Qed.

Lemma report_wf outs :
  Forall (λ o, utf8_valid (o_name o) = true) outs →
  Forall (λ m, metric_wf m = true) (report outs).
Proof.
  intros Hnames. unfold report. apply Forall_app. split;
    [|by apply Forall_singleton, up_gauge_wf].
  induction Hnames as [|o outs Ho _ IH]; [done|].
  repeat constructor; [..|done]; unfold metric_wf; simpl; by rewrite Ho.
Qed.

Lemma launch_pending_wf inst s :
  lawful s → Forall (λ m, metric_wf m = true) (u_pending (launch ctx inst s)).
Proof.
  intros Hlaw. unfold launch, scraper_run. simpl.
  by destruct (@scrape_appends _ _ Hlaw (scraper_value s) ctx inst fresh_world)
    as (ms & -> & ?).
Qed.

Lemma cycle_emitted_wf ms0 c :
  (∀ v s, s ∈ selection cfg v reg →
          lawful s ∧ utf8_valid (scraper_name s) = true) →
  Forall (λ m, metric_wf m = true) ms0 →
  cycle_inv ms0 c → Forall (λ m, metric_wf m = true) (emitted c).
Proof.
  intros Hreg Hms0 Hinv.
  destruct (cycle_inv_emitted ms0 c Hinv)
    as [->|[->|(inst & v & X & outs & _ & _ & HX & Houts & Hem)]];
    [done|by apply Forall_app; eauto using up_gauge_wf|].
  assert (Forall (λ m, metric_wf m = true) X) as HXwf.
  { apply Forall_forall. intros m Hm.
    eapply elem_of_submseteq in Hm; [|exact HX].
    apply list_elem_of_In, in_concat in Hm
      as (ms & (u & -> & Hu)%list_elem_of_In%list_elem_of_fmap & Hm%list_elem_of_In).
    apply list_elem_of_fmap in Hu as (s & -> & Hs).
    destruct (Hreg v s Hs) as [Hlaw _].
    by eapply (proj1 (Forall_forall _ _) (launch_pending_wf inst s Hlaw)). }
  destruct Hem as [-> | ->]; rewrite ?Forall_app; split_and!; try done.
  apply report_wf, Forall_forall. intros o Ho.
  assert (o_name o ∈ u_name <$> launched inst v) as Hin.
  { eapply elem_of_submseteq; [by apply list_elem_of_fmap_2|done]. }
  rewrite launched_names in Hin.
  apply list_elem_of_fmap in Hin as (s & -> & Hs). by apply (Hreg v s Hs).
Qed.

(** ** Termination and progress *)

Lemma work_app us1 us2 : work (us1 ++ us2) = work us1 + work us2.
Proof. apply sum_list_with_app. Qed.

Lemma work_cons u us : work (u :: us) = S (length (u_pending u)) + work us.
Proof. done. Qed.

Lemma cycle_step_steps_left c c' :
  cycle_step c c' → steps_left c' < steps_left c.
Proof.
  unfold steps_left, launched. intros Hstep.
  destruct Hstep as [? ? Hd|? ? ? Hd Hp|? ? ? Hd Hp| |? ? ? ? ? ? ? Hd| | | | | |];
    simpl; rewrite ?work_app, ?work_cons, ?Hd, ?Hp; simpl;
    repeat case_match; lia.
Qed.

(** Every run of the cycle is finite. *)
Lemma cycle_step_sn c : sn cycle_step c.
Proof.
  remember (steps_left c) as n eqn:Hn. revert c Hn.
  induction n as [n IH] using lt_wf_ind. intros c ->.
  constructor. intros c' Hstep%cycle_step_steps_left. by eapply IH.
Qed.

(** A cycle that is not over can go on. *)
Lemma cycle_progress ms0 c :
  cycle_inv ms0 c → final c ∨ ∃ c', cycle_step c c'.
Proof.
  unfold cycle_inv, final. destruct c as [[| | [|u us] outs| | |] ms b]; simpl.
  - intros [_ ->]. right. destruct (dial tgt) as [e|inst] eqn:?;
      [|destruct (probe tgt inst) eqn:?]; eauto using cycle_step.
  - intros (_ & -> & _). eauto using cycle_step.
  - eauto using cycle_step.
  - intros _. right. destruct b; [|eauto using cycle_step].
    eexists. apply (step_abandon ms [] u us outs).
  - eauto using cycle_step.
  - eauto.
  - eauto.
Qed.

(** ** The sequential schedule is a run of the cycle *)

Lemma emit_all us1 u us2 outs ms :
  rtc cycle_step
    (mkCycle (Running (us1 ++ u :: us2) outs) ms false)
    (mkCycle (Running (us1 ++ set_pending [] u :: us2) outs)
             (ms ++ u_pending u) false).
Proof.
  destruct u as [name pending r]. unfold set_pending. simpl. revert ms.
  induction pending as [|m rest IH]; intros ms.
  - by rewrite app_nil_r.
  - eapply rtc_l; [by apply (step_emit ms us1 _ us2 outs m rest)|].
    unfold set_pending. simpl.
    replace (ms ++ m :: rest) with ((ms ++ [m]) ++ rest)
      by (by rewrite <-app_assoc).
    apply IH.
Qed.

Lemma abandon_all us outs ms :
  rtc cycle_step
    (mkCycle (Running us outs) ms true)
    (mkCycle (Running [] (outs ++ (timed_out <$> us))) ms true).
Proof.
  revert outs. induction us as [|u us IH]; intros outs.
  - by rewrite fmap_nil, app_nil_r.
  - eapply rtc_l; [apply (step_abandon ms [] u us outs)|].
    change ([] ++ us) with us.
    rewrite fmap_cons.
    replace (outs ++ timed_out u :: (timed_out <$> us))
      with ((outs ++ [timed_out u]) ++ (timed_out <$> us))
      by (by rewrite <-app_assoc).
    apply IH.
Qed.

Lemma run_units_steps us ms outs :
  rtc cycle_step (mkCycle (Running us outs) ms false) (run_units us ms outs).
Proof.
  revert ms outs. induction us as [|u us IH]; intros ms outs; simpl.
  { eapply rtc_l; [apply step_join|]. apply rtc_once, step_report. }
  etrans; [apply (emit_all [] u us)|]. simpl.
  destruct (u_result u) as [r|e|] eqn:Hr.
  - eapply rtc_l; [by apply (step_return _ [] (set_pending [] u) us outs r)|].
    apply IH.
  - by apply rtc_once, (step_panic _ [] (set_pending [] u) us outs e).
  - eapply rtc_l; [apply step_deadline|].
    etrans; [apply abandon_all|].
    eapply rtc_l; [apply step_join|]. apply rtc_once, step_report.
Qed.

Lemma Collect_run ms : rtc cycle_step (mkCycle Idle ms false) (Collect ms).
Proof.
  unfold Collect. destruct (dial tgt) as [e|inst] eqn:Hd;
    [by eapply rtc_once, step_dial_fails|].
  destruct (probe tgt inst) as [e|v] eqn:Hp;
    [by eapply rtc_once, step_probe_fails|].
  eapply rtc_l; [by apply step_probe|].
  eapply rtc_l; [apply step_select|]. apply run_units_steps.
Qed.

Lemma Collect_final ms : final (Collect ms).
Proof.
  unfold Collect, final. destruct (dial tgt) as [e|inst]; [by left|].
  destruct (probe tgt inst) as [e|v]; [by left|].
  generalize (launch ctx inst <$> selection cfg v reg), ms, (@nil Outcome).
  intros us. induction us as [|u us IH]; intros ms' outs; simpl; [by left|].
  destruct (u_result u); [apply IH|right; eauto|by left].
Qed.

End cycle.
