(* ===== verification/Exporter.v ===== *)
(** * The exporter: the scrape cycle over the scrapers of the repository

    The registry of the exporter holds the scrapers compiled in; of those
    the repository has the source of one, [primary_key].  This file runs
    the cycle of [Orchestrator] over it: when [primary_key] is selected,
    what a cycle emits for it against a healthy server, when its query
    fails, when it panics, when the deadline elapses under it, and that
    the stream of samples stays well-formed.  The theorems on selection
    and on the deadline hold for every registry that holds
    [primary_key], with whatever other scrapers beside it. *)

From Stdlib Require Import Floats.
From S2P Require Import Prelude Prometheus Database Sql PrimaryQuery Scraper.
From S2P Require Import PrimaryKey PrimaryKeySpec PrimaryKeyTheorems EndToEnd.
From S2P Require Import Orchestrator.

(** The value [ScrapePrimaryKey{}] as a [Scraper]. *)
Definition primary_key : scraper :=
  mkPacked ScrapePrimaryKey ScrapePrimaryKey_Scraper ScrapePrimaryKey_lit.

(** The scrapers compiled in. *)
Definition scrapers : Registry := register primary_key ∅.

(** The outcome of [primary_key] with status [st], measured by [clock]. *)
Definition primary_outcome (clock : string → float) (st : Status) : Outcome :=
  mkOutcome "primary_key" (clock "primary_key") st.

(** ** The scraper in the registry *)

Section exporter.
Context (cfg : Config) (clock : string → float) (deadline : float).
Implicit Types (reg : Registry) (tgt : Target) (inst : instance) (v : float).
Implicit Types (ctx : Context) (ms : list Metric) (c : Cycle).

Lemma primary_key_lawful : lawful primary_key.
Proof. apply ScrapePrimaryKey_laws. Qed.

Lemma scrapers_wf : registry_wf scrapers.
Proof. apply register_wf, registry_wf_empty. Qed.

Lemma eligible_primary_key v :
  eligible cfg v primary_key = true ↔
  ("primary_key" ∈ allow cfg) ∧ ("primary_key" ∉ deny cfg) ∧
  PrimFloat.leb (0x1.6cccccccccccdp+2)%float v = true.
Proof.
  unfold eligible, enabled. rewrite andb_true_iff, bool_decide_eq_true.
  change (scraper_name primary_key) with "primary_key".
  change (scraper_version primary_key) with (0x1.6cccccccccccdp+2)%float. tauto.
Qed.

Lemma selection_scrapers v :
  selection cfg v scrapers =
    if eligible cfg v primary_key then [primary_key] else [].
Proof.
  unfold selection, scrapers, register. rewrite insert_empty, map_to_list_singleton.
  simpl. rewrite filter_cons, filter_nil. by destruct (eligible cfg v primary_key).
Qed.

(** In a registry that files [primary_key] under its name, the selected
    scraper of that name is [primary_key]. *)
Lemma selection_primary_key reg v s :
  registry_wf reg → reg !! "primary_key" = Some primary_key →
  s ∈ selection cfg v reg → scraper_name s = "primary_key" → s = primary_key.
Proof.
  intros Hwf Hpk [[name Hs] _]%elem_of_selection Hname.
  rewrite <-(Hwf _ _ Hs), Hname in Hs. congruence.
Qed.

Lemma primary_key_selected reg v :
  registry_wf reg → reg !! "primary_key" = Some primary_key →
  "primary_key" ∈ scraper_name <$> selection cfg v reg ↔
  eligible cfg v primary_key = true.
Proof.
  intros Hwf Hpk. rewrite list_elem_of_fmap. split.
  - intros (s & Hname & Hs).
    rewrite (selection_primary_key reg v s) in Hs by done.
    by apply elem_of_selection in Hs as [_ ?].
  - intros Hel. exists primary_key. split; [done|].
    apply elem_of_selection. eauto.
Qed.

(** The unit of work of [primary_key] is a run of [Scrape]. *)
Lemma launch_primary_key ctx inst :
  launch ctx inst primary_key =
    mkWorkUnit "primary_key"
      (sent (w_sink (Scrape ScrapePrimaryKey_lit ctx inst fresh_world).2))
      (Scrape ScrapePrimaryKey_lit ctx inst fresh_world).1.
Proof. done. Qed.

Lemma scrapers_lawful v s :
  s ∈ selection cfg v scrapers →
  lawful s ∧ utf8_valid (scraper_name s) = true.
Proof.
  rewrite selection_scrapers. destruct (eligible cfg v primary_key);
    [|by intros ?%elem_of_nil].
  intros ->%list_elem_of_singleton. split; [apply primary_key_lawful|done].
Qed.

(** The cycle of the exporter when [primary_key] is selected: its unit of
    work, then the report. *)
Lemma Collect_scrapers tgt ctx inst v ms :
  dial tgt = inr inst → probe tgt inst = inr v →
  Collect scrapers cfg tgt ctx clock deadline ms =
    if eligible cfg v primary_key
    then run_units clock deadline [launch ctx inst primary_key] ms []
    else mkCycle Done (ms ++ [up_gauge true]) false.
Proof.
  intros Hd Hp. unfold Collect. rewrite Hd, Hp, selection_scrapers.
  by destruct (eligible cfg v primary_key).
Qed.

(** What the unit of work of [primary_key] is when its query fails. *)
Lemma launch_primary_key_fails inst e :
  db_answer (getDB inst) primaryQuery = QueryFails e →
  launch (mkContext None) inst primary_key =
    mkWorkUnit "primary_key" [] (Returned (Some e)).
Proof.
  intros Hq. rewrite launch_primary_key.
  destruct (Scrape_run ScrapePrimaryKey_lit (mkContext None) inst fresh_world)
    as (-> & -> & _).
  unfold Scrape_spec. simpl. by rewrite Hq.
Qed.

(** The outcome a finished cycle has under the name of a unit that
    returned, when the deadline did not elapse. *)
Lemma outcome_of_launched L outs X u r :
  running_inv clock deadline L [] outs X false →
  NoDup (u_name <$> L) → u ∈ L → u_result u = Returned r →
  outcome_of clock u r ∈ outs.
Proof.
  intros [Hn _ _ Ho] Hnd Hu Hr. simpl in Hn.
  assert (u_name u ∈ o_name <$> outs) as (o & Hname & Hin)%list_elem_of_fmap.
  { rewrite Hn. by apply list_elem_of_fmap_2. }
  rewrite Forall_forall in Ho.
  destruct (Ho o Hin) as (u0 & Hu0 & [[[=] _]|(r0 & Hr0 & ->)]).
  assert (u0 = u) as Heq.
  { simpl in Hname. by eapply (NoDup_fmap_inj_on u_name L). }
  rewrite Heq, Hr in Hr0. injection Hr0 as <-. by rewrite <-Heq.
Qed.

(** What a finished cycle has emitted: samples of the selected scrapers,
    then the report of one outcome per selected scraper. *)
Lemma cycle_done_selected reg tgt ctx ms0 c inst v :
  registry_wf reg →
  dial tgt = inr inst → probe tgt inst = inr v →
  rtc (cycle_step reg cfg tgt ctx clock deadline) (mkCycle Idle ms0 false) c →
  phase c = Done →
  ∃ X outs, emitted c = ms0 ++ X ++ report outs ∧
    running_inv clock deadline (launched reg cfg ctx inst v) [] outs X
      (expired c) ∧
    X ⊆+ concat (u_pending ∘ launch ctx inst <$> selection cfg v reg) ∧
    o_name <$> outs ≡ₚ scraper_name <$> selection cfg v reg ∧
    NoDup (o_name <$> outs).
Proof.
  intros Hwf Hd Hp Hrun Hdone.
  destruct (cycle_done reg cfg tgt ctx clock deadline ms0 c inst v)
    as (X & outs & Hem & Hinv); [done..|].
  pose proof (running_inv_outcome_names _ _ _ _ _ _ Hinv) as Hn.
  rewrite launched_names in Hn. exists X, outs. split_and!; [done..| |done|].
  - rewrite list_fmap_compose. by eapply running_inv_some_sent.
  - rewrite Hn. by apply selection_NoDup.
Qed.

(** The outcome a finished cycle has under the name of [primary_key]: a
    timeout, recorded after the deadline, or what [Scrape] returned. *)
Lemma primary_key_outcome reg ctx inst v outs X b o :
  registry_wf reg → reg !! "primary_key" = Some primary_key →
  running_inv clock deadline (launched reg cfg ctx inst v) [] outs X b →
  o ∈ outs → o_name o = "primary_key" →
  b = true ∧ o = mkOutcome "primary_key" deadline TimedOut ∨
  ∃ r, (Scrape ScrapePrimaryKey_lit ctx inst fresh_world).1 = Returned r ∧
       o = primary_outcome clock (status_of r).
Proof.
  intros Hwf Hpk [_ _ _ Ho] Hin Hname. rewrite Forall_forall in Ho.
  destruct (Ho o Hin) as (u0 & (s & -> & Hs)%list_elem_of_fmap & Hu0).
  assert (scraper_name s = "primary_key") as Hs0.
  { destruct Hu0 as [[_ ->]|(r & _ & ->)]; by simpl in Hname. }
  rewrite (selection_primary_key reg v s) in Hu0 by done.
  destruct Hu0 as [[-> ->]|(r & Hr & ->)]; [by left|right; by exists r].
Qed.

(** The deadline elapses before any unit of work has sent a sample: the
    cycle finishes with the report of the timeouts. *)
Lemma deadline_run reg tgt ctx ms0 inst v s :
  dial tgt = inr inst → probe tgt inst = inr v → s ∈ selection cfg v reg →
  rtc (cycle_step reg cfg tgt ctx clock deadline) (mkCycle Idle ms0 false)
    (mkCycle Done
       (ms0 ++ report (timed_out deadline ∘ launch ctx inst <$>
                       selection cfg v reg)) true).
Proof.
  intros Hd Hp Hs.
  eapply rtc_l; [by apply step_probe|].
  eapply rtc_l; [apply step_select|].
  destruct (selection cfg v reg) as [|s0 ss]; [by apply elem_of_nil in Hs|].
  eapply rtc_l; [apply step_deadline|].
  etrans; [apply abandon_all|].
  eapply rtc_l; [apply step_join|]. rewrite list_fmap_compose.
  apply rtc_once, step_report.
Qed.

(** ** Theorems *)

(** C29: in every finished cycle of a registry that holds [primary_key],
    whatever the order in which the units of work took their steps and
    whether or not the deadline elapsed, the stream is samples of the
    selected scrapers, then the report; the report has exactly one
    outcome per selected scraper, no other and none twice; and it has
    the outcome of [primary_key] iff the name is on the allow list and
    not on the deny list and the version the target reports is at least
    5.7, the value of [Version]. *)
Theorem primary_key_reported_iff_eligible reg tgt ctx ms0 c inst v :
  registry_wf reg → reg !! "primary_key" = Some primary_key →
  dial tgt = inr inst → probe tgt inst = inr v →
  rtc (cycle_step reg cfg tgt ctx clock deadline) (mkCycle Idle ms0 false) c →
  phase c = Done →
  ∃ X outs, emitted c = ms0 ++ X ++ report outs ∧
            X ⊆+ concat (u_pending ∘ launch ctx inst <$> selection cfg v reg) ∧
            o_name <$> outs ≡ₚ scraper_name <$> selection cfg v reg ∧
            NoDup (o_name <$> outs) ∧
            ("primary_key" ∈ o_name <$> outs ↔
             ("primary_key" ∈ allow cfg) ∧ ("primary_key" ∉ deny cfg) ∧
             PrimFloat.leb (0x1.6cccccccccccdp+2)%float v = true).
Proof.
  intros Hwf Hpk Hd Hp Hrun Hdone.
  destruct (cycle_done_selected reg tgt ctx ms0 c inst v)
    as (X & outs & Hem & _ & HX & Hn & Hnd); [done..|].
  exists X, outs. split_and!; [done..|].
  rewrite Hn, <-eligible_primary_key. by apply primary_key_selected.
Qed.

(** C31: a cycle that selects [primary_key] against a server that
    evaluates the query, with no [NULL] and no invalid UTF-8 in the
    selected columns, emits one sample per table without primary key,
    then the success gauge of [primary_key] at 1, its duration gauge and
    the reachability gauge at 1. *)
Theorem cycle_of_healthy_server `{Collation} T C v ms0 :
  eligible cfg v primary_key = true →
  Forall scannable (tables_without_primary_key T C) →
  Collect scrapers cfg (mkTarget (inr (server T C)) (λ _, inr v))
    (mkContext None) clock deadline ms0 =
    mkCycle Done
      (ms0 ++
       samples_of (order_by t_table_name (tables_without_primary_key T C)) ++
       report [primary_outcome clock Succeeded])
      false.
Proof.
  intros Hel Hok.
  destruct (Scrape_server ScrapePrimaryKey_lit fresh_world T C)
    as (Ho & Hk & _); [done..|].
  rewrite (Collect_scrapers _ _ (server T C) v) by done.
  rewrite Hel, launch_primary_key, Ho, Hk. simpl. by rewrite <-app_assoc.
Qed.

(** Against a target that reports a version below 5.7 the cycle of
    the exporter does not run [primary_key]: it emits the reachability
    gauge at 1 and nothing else, no sample and no outcome of the
    scraper. *)
Theorem cycle_skips_primary_key_on_old_server tgt ctx inst v ms0 :
  dial tgt = inr inst → probe tgt inst = inr v →
  PrimFloat.leb (0x1.6cccccccccccdp+2)%float v = false →
  Collect scrapers cfg tgt ctx clock deadline ms0 =
    mkCycle Done (ms0 ++ [up_gauge true]) false.
Proof.
  intros Hd Hp Hv. rewrite (Collect_scrapers _ _ inst v) by done.
  destruct (eligible cfg v primary_key) eqn:Hel; [|done].
  apply eligible_primary_key in Hel as (_ & _ & Hel). congruence.
Qed.

(** C32: partial failure is isolated.  When the query of [primary_key]
    fails in a cycle whose deadline does not elapse, whatever the
    interleaving, every sample of every selected scraper is emitted, the
    report has one outcome per selected scraper, and the outcome of
    [primary_key] is the failure with the error of the query. *)
Theorem primary_key_failure_is_isolated reg tgt ms0 c inst v e :
  registry_wf reg → reg !! "primary_key" = Some primary_key →
  eligible cfg v primary_key = true →
  dial tgt = inr inst → probe tgt inst = inr v →
  db_answer (getDB inst) primaryQuery = QueryFails e →
  rtc (cycle_step reg cfg tgt (mkContext None) clock deadline)
      (mkCycle Idle ms0 false) c →
  phase c = Done → expired c = false →
  ∃ X outs,
    emitted c = ms0 ++ X ++ report outs ∧
    X ≡ₚ concat (u_pending ∘ launch (mkContext None) inst <$>
                 selection cfg v reg) ∧
    o_name <$> outs ≡ₚ scraper_name <$> selection cfg v reg ∧
    primary_outcome clock (status_of (Some e)) ∈ outs.
Proof.
  intros Hwf Hpk Hel Hd Hp Hq Hrun Hdone Hexp.
  destruct (cycle_done reg cfg tgt (mkContext None) clock deadline ms0 c inst v)
    as (X & outs & Hem & Hinv); [done..|].
  rewrite Hexp in Hinv. exists X, outs. split_and!; [done|..].
  - rewrite (running_inv_all_sent _ _ _ _ _ Hinv). unfold launched.
    by rewrite <-list_fmap_compose.
  - by rewrite (running_inv_outcome_names _ _ _ _ _ _ Hinv), launched_names.
  - apply (outcome_of_launched _ _ _
             (launch (mkContext None) inst primary_key) (Some e) Hinv).
    + rewrite launched_names. by apply selection_NoDup.
    + apply list_elem_of_fmap_2, elem_of_selection. eauto.
    + by rewrite (launch_primary_key_fails inst e).
Qed.

(** C33: a panic of [primary_key] is not isolated.  When a label value of
    a row is not valid UTF-8, the cycle of the exporter crashes with the
    panic of [MustNewConstMetric]: the samples of the earlier rows are on
    the sink, and no outcome and no reachability gauge follow. *)
Theorem primary_key_panic_crashes_cycle tgt inst v ms0 good t rest tail :
  eligible cfg v primary_key = true →
  dial tgt = inr inst → probe tgt inst = inr v →
  db_answer (getDB inst) primaryQuery =
    QueryRows ((raw_of <$> good) ++ raw_of t :: rest) tail →
  Forall valid_labels good → ¬ valid_labels t →
  ∃ x, x ∈ labels_of t ∧ utf8_valid x = false ∧
       Collect scrapers cfg tgt (mkContext None) clock deadline ms0 =
         mkCycle (Crashed (ErrInvalidUTF8 x)) (ms0 ++ (metric_of <$> good))
                 false.
Proof.
  intros Hel Hd Hp Hq Hgood Ht.
  destruct (NewConstMetric_primary_invalid t Ht) as (x & Hx & Hutf & Hnew).
  exists x. split_and!; [done..|].
  rewrite (Collect_scrapers _ _ inst v), Hel, launch_primary_key by done.
  destruct (Scrape_good_prefix ScrapePrimaryKey_lit inst fresh_world _ tail Hq
              good (raw_of t :: rest)) as (v' & Ho & Hk); [done..|].
  cbn [scrape_rows] in Ho, Hk. rewrite scan3_raw in Ho, Hk.
  change (dests _) with (labels_of t) in Ho, Hk. rewrite Hnew in Ho, Hk.
  by rewrite Ho, Hk.
Qed.

(** C35: every cycle of the exporter ends.  The sequential schedule
    [Collect] is a run of the cycle that ends finished or crashed, a
    cycle that is not over can take a step, and there is no infinite
    run. *)
Theorem exporter_cycle_terminates tgt ctx ms0 c :
  rtc (cycle_step scrapers cfg tgt ctx clock deadline)
      (mkCycle Idle ms0 false) c →
  sn (cycle_step scrapers cfg tgt ctx clock deadline) c ∧
  (final c ∨ ∃ c', cycle_step scrapers cfg tgt ctx clock deadline c c') ∧
  rtc (cycle_step scrapers cfg tgt ctx clock deadline)
      (mkCycle Idle ms0 false)
      (Collect scrapers cfg tgt ctx clock deadline ms0) ∧
  final (Collect scrapers cfg tgt ctx clock deadline ms0).
Proof.
  intros Hrun%cycle_inv_reachable. split_and!.
  - apply cycle_step_sn.
  - by eapply cycle_progress.
  - apply Collect_run.
  - apply Collect_final.
Qed.

(** C34: no step of a cycle of the exporter corrupts the stream: when the
    samples on the sink are well-formed before the cycle, they are
    well-formed in every state the cycle reaches, whatever the
    interleaving, the deadline and the failures. *)
Theorem exporter_stream_well_formed tgt ctx ms0 c :
  Forall (λ m, metric_wf m = true) ms0 →
  rtc (cycle_step scrapers cfg tgt ctx clock deadline)
      (mkCycle Idle ms0 false) c →
  Forall (λ m, metric_wf m = true) (emitted c).
Proof.
  intros Hms0 Hrun%cycle_inv_reachable.
  eapply cycle_emitted_wf; eauto using scrapers_lawful.
Qed.

(** C37: a timeout is an outcome, not a failure of the cycle, and it is
    recorded after the deadline only.  In every finished cycle of a
    registry that holds [primary_key], when [primary_key] is eligible,
    whatever the interleaving: the report has an outcome named
    [primary_key], and only one; it is the timeout, with the deadline as
    its duration, only if the deadline elapsed, and otherwise it is what
    [Scrape] returned, with the duration measured.  And the deadline may
    elapse before any scraper has sent a sample: the cycle then finishes
    with no sample, the timeout of every selected scraper and the
    reachability gauge at 1. *)
Theorem primary_key_timeout reg tgt ctx ms0 c inst v :
  registry_wf reg → reg !! "primary_key" = Some primary_key →
  eligible cfg v primary_key = true →
  dial tgt = inr inst → probe tgt inst = inr v →
  rtc (cycle_step reg cfg tgt ctx clock deadline) (mkCycle Idle ms0 false) c →
  phase c = Done →
  (∃ X outs o,
     emitted c = ms0 ++ X ++ report outs ∧
     X ⊆+ concat (u_pending ∘ launch ctx inst <$> selection cfg v reg) ∧
     o_name <$> outs ≡ₚ scraper_name <$> selection cfg v reg ∧
     o ∈ outs ∧ o_name o = "primary_key" ∧
     (∀ o', o' ∈ outs → o_name o' = "primary_key" → o' = o) ∧
     (expired c = true ∧ o = mkOutcome "primary_key" deadline TimedOut ∨
      ∃ r, (Scrape ScrapePrimaryKey_lit ctx inst fresh_world).1 = Returned r ∧
           o = primary_outcome clock (status_of r))) ∧
  rtc (cycle_step reg cfg tgt ctx clock deadline) (mkCycle Idle ms0 false)
    (mkCycle Done
       (ms0 ++ report (timed_out deadline ∘ launch ctx inst <$>
                       selection cfg v reg)) true).
Proof.
  intros Hwf Hpk Hel Hd Hp Hrun Hdone.
  assert (primary_key ∈ selection cfg v reg) as Hsel
    by (apply elem_of_selection; eauto).
  split; [|by eapply deadline_run].
  destruct (cycle_done_selected reg tgt ctx ms0 c inst v)
    as (X & outs & Hem & Hinv & HX & Hn & Hnd); [done..|].
  assert ("primary_key" ∈ o_name <$> outs) as (o & Hname & Hin)%list_elem_of_fmap.
  { rewrite Hn. by apply (list_elem_of_fmap_2 scraper_name _ primary_key). }
  exists X, outs, o. split_and!; [done..| |by eapply primary_key_outcome].
  intros o' Hin' Hname'. eapply (NoDup_fmap_inj_on o_name outs); [done..|].
  congruence.
Qed.

End exporter.

(** ** The cycle on concrete targets *)

Definition demo_cfg : Config := mkConfig {["primary_key"]} ∅.
Definition demo_clock : string → float := λ _, 0.25%float.

(** A server of version 8.0 with the demonstration schema, the same
    server at version 5.6, a server that refuses every query, and one
    that answers with a table name in Latin-1. *)
Definition healthy : Target := mkTarget (inr shop) (λ _, inr 8%float).
Definition old_server : Target := mkTarget (inr shop) (λ _, inr 5.5%float).
Definition refusing : Target :=
  mkTarget (inr (mkInstance demo_down)) (λ _, inr 8%float).
Definition latin1_server : instance :=
  mkInstance (answer_with ((raw_of <$> demo_good) ++ [raw_of demo_latin1]) None).
Definition latin1 : Target := mkTarget (inr latin1_server) (λ _, inr 8%float).

(** The cycle of the design document's example: the rows of the query
    as samples, then the success gauge at 1, the duration gauge and the
    reachability gauge at 1. *)
Example Collect_healthy :
  Collect scrapers demo_cfg healthy (mkContext None) demo_clock 10 [] =
    mkCycle Done
      [metric_of ("shop", "Log", "MyISAM"); metric_of ("shop", "audit", "InnoDB");
       success_gauge (primary_outcome demo_clock Succeeded);
       duration_gauge (primary_outcome demo_clock Succeeded);
       up_gauge true] false.
Proof. vm_compute. reflexivity. Qed.

Lemma primary_key_reported_iff_eligible_witness :
  ∃ X outs,
    emitted (Collect scrapers demo_cfg healthy (mkContext None) demo_clock 10 []) =
      [] ++ X ++ report outs ∧
    X ⊆+ concat (u_pending ∘ launch (mkContext None) shop <$>
                 selection demo_cfg 8 scrapers) ∧
    o_name <$> outs ≡ₚ scraper_name <$> selection demo_cfg 8 scrapers ∧
    NoDup (o_name <$> outs) ∧
    ("primary_key" ∈ o_name <$> outs ↔
     ("primary_key" ∈ allow demo_cfg) ∧ ("primary_key" ∉ deny demo_cfg) ∧
     PrimFloat.leb (0x1.6cccccccccccdp+2)%float 8 = true).
Proof.
  apply (primary_key_reported_iff_eligible demo_cfg demo_clock 10 scrapers
           healthy (mkContext None) [] _ shop 8).
  - apply scrapers_wf.
  - apply lookup_insert_eq.
  - reflexivity.
  - reflexivity.
  - apply Collect_run.
  - vm_compute. reflexivity.
Defined.

Lemma cycle_of_healthy_server_witness :
  Collect scrapers demo_cfg healthy (mkContext None) demo_clock 10 [] =
    mkCycle Done
      ([] ++
       samples_of (order_by (H := binary_collation) t_table_name
                     (tables_without_primary_key (H := binary_collation)
                        demo_tables demo_constraints)) ++
       report [primary_outcome demo_clock Succeeded])
      false.
Proof.
  apply (cycle_of_healthy_server demo_cfg demo_clock 10 (H := binary_collation)
           demo_tables demo_constraints 8 []).
  - vm_compute. reflexivity.
  - apply (bool_decide_unpack _). vm_compute. exact I.
Defined.

Lemma cycle_skips_primary_key_on_old_server_witness :
  Collect scrapers demo_cfg old_server (mkContext None) demo_clock 10 [] =
    mkCycle Done ([] ++ [up_gauge true]) false.
Proof.
  apply (cycle_skips_primary_key_on_old_server demo_cfg demo_clock 10
           old_server (mkContext None) shop 5.5 []); reflexivity.
Defined.

Lemma primary_key_failure_is_isolated_witness :
  ∃ X outs,
    emitted (Collect scrapers demo_cfg refusing (mkContext None) demo_clock 10 []) =
      [] ++ X ++ report outs ∧
    X ≡ₚ concat (u_pending ∘ launch (mkContext None) (mkInstance demo_down) <$>
                 selection demo_cfg 8 scrapers) ∧
    o_name <$> outs ≡ₚ scraper_name <$> selection demo_cfg 8 scrapers ∧
    primary_outcome demo_clock
      (status_of (Some (ErrDriver "server has gone away"))) ∈ outs.
Proof.
  apply (primary_key_failure_is_isolated demo_cfg demo_clock 10 scrapers
           refusing [] _ (mkInstance demo_down) 8).
  - apply scrapers_wf.
  - apply lookup_insert_eq.
  - vm_compute. reflexivity.
  - reflexivity.
  - reflexivity.
  - reflexivity.
  - apply Collect_run.
  - vm_compute. reflexivity.
  - vm_compute. reflexivity.
Defined.

Lemma primary_key_panic_crashes_cycle_witness :
  ∃ x, x ∈ labels_of demo_latin1 ∧ utf8_valid x = false ∧
       Collect scrapers demo_cfg latin1 (mkContext None) demo_clock 10 [] =
         mkCycle (Crashed (ErrInvalidUTF8 x)) ([] ++ (metric_of <$> demo_good))
                 false.
Proof.
  apply (primary_key_panic_crashes_cycle demo_cfg demo_clock 10 latin1
           latin1_server 8 []
           demo_good demo_latin1 [] None).
  - vm_compute. reflexivity.
  - reflexivity.
  - reflexivity.
  - vm_compute. reflexivity.
  - apply (bool_decide_unpack _). vm_compute. exact I.
  - apply (bool_decide_unpack _). vm_compute. exact I.
Defined.

Lemma exporter_cycle_terminates_witness :
  sn (cycle_step scrapers demo_cfg healthy (mkContext None) demo_clock 10)
     (Collect scrapers demo_cfg healthy (mkContext None) demo_clock 10 []) ∧
  (final (Collect scrapers demo_cfg healthy (mkContext None) demo_clock 10 []) ∨
   ∃ c', cycle_step scrapers demo_cfg healthy (mkContext None) demo_clock 10
           (Collect scrapers demo_cfg healthy (mkContext None) demo_clock 10 [])
           c') ∧
  rtc (cycle_step scrapers demo_cfg healthy (mkContext None) demo_clock 10)
      (mkCycle Idle [] false)
      (Collect scrapers demo_cfg healthy (mkContext None) demo_clock 10 []) ∧
  final (Collect scrapers demo_cfg healthy (mkContext None) demo_clock 10 []).
Proof.
  apply (exporter_cycle_terminates demo_cfg demo_clock 10 healthy
           (mkContext None) []).
  apply Collect_run.
Defined.

Lemma exporter_stream_well_formed_witness :
  Forall (λ m, metric_wf m = true)
    (emitted (Collect scrapers demo_cfg latin1 (mkContext None) demo_clock 10 [])).
Proof.
  apply (exporter_stream_well_formed demo_cfg demo_clock 10 latin1
           (mkContext None) []).
  - constructor.
  - apply Collect_run.
Defined.

(** The cycle against the healthy server, cut short by its deadline
    before [primary_key] has sent a sample. *)
Definition timed_out_cycle : Cycle :=
  mkCycle Done
    ([] ++ report (timed_out 10 ∘ launch (mkContext None) shop <$>
                   selection demo_cfg 8 scrapers)) true.

Example timed_out_cycle_emits :
  emitted timed_out_cycle =
    [mkMetric scrapeSuccessDesc GaugeValue 0 ["primary_key"];
     mkMetric scrapeDurationDesc GaugeValue 10 ["primary_key"];
     up_gauge true].
Proof. vm_compute. reflexivity. Qed.

Lemma primary_key_timeout_witness :
  let step := cycle_step scrapers demo_cfg healthy (mkContext None)
                demo_clock 10 in
  (∃ X outs o,
     emitted timed_out_cycle = [] ++ X ++ report outs ∧
     X ⊆+ concat (u_pending ∘ launch (mkContext None) shop <$>
                  selection demo_cfg 8 scrapers) ∧
     o_name <$> outs ≡ₚ scraper_name <$> selection demo_cfg 8 scrapers ∧
     o ∈ outs ∧ o_name o = "primary_key" ∧
     (∀ o', o' ∈ outs → o_name o' = "primary_key" → o' = o) ∧
     (expired timed_out_cycle = true ∧
      o = mkOutcome "primary_key" 10 TimedOut ∨
      ∃ r, (Scrape ScrapePrimaryKey_lit (mkContext None) shop fresh_world).1 =
             Returned r ∧
           o = primary_outcome demo_clock (status_of r))) ∧
  rtc step (mkCycle Idle [] false) timed_out_cycle.
Proof.
  apply (primary_key_timeout demo_cfg demo_clock 10 scrapers healthy
           (mkContext None) [] timed_out_cycle shop 8).
  - apply scrapers_wf.
  - apply lookup_insert_eq.
  - vm_compute. reflexivity.
  - reflexivity.
  - reflexivity.
  - apply (deadline_run demo_cfg demo_clock 10 scrapers healthy (mkContext None)
             [] shop 8 primary_key); [done..|].
    apply elem_of_selection. split; [|vm_compute; reflexivity].
    exists "primary_key". apply lookup_insert_eq.
  - reflexivity.
Defined.
