(* ===== verification/CycleOrder.v ===== *)
(** * The order of the samples of a cycle

    The units of work of a cycle write to one channel in any order
    ([Orchestrator.cycle_step]).  [Orchestrator.cycle_inv] counts the
    samples: none is lost or duplicated.  This file shows what the channel
    keeps of their order: at every state of a cycle, the samples emitted
    since its start are an interleaving ([Interleave.merges]) of the logs
    of the launched units, and the log of a unit is a prefix of what its
    scraper sends ([logs], [order_inv]).  In a cycle that finishes before
    its deadline the logs are complete, so every scraper finds all its
    samples on the channel in the order in which it sent them, whatever
    the other scrapers did meanwhile.

    For [primary_key] this carries the order of the query
    ([ORDER BY t.table_name]) from the server to the output of the
    exporter ([primary_key_order_kept]). *)

From Stdlib Require Import Floats.
From S2P Require Import Prelude Interleave Prometheus Database Sql PrimaryQuery.
From S2P Require Import Scraper PrimaryKey PrimaryKeySpec EndToEnd.
From S2P Require Import Orchestrator Exporter.

(** ** The logs of the units *)

(** [logs b L ss us]: of the launched units [L], each has written the log
    at its position in [ss] and has the rest of its samples left; the
    units still running are [us], in the order of [L].  A unit that has
    left has nothing left to send, unless the deadline has elapsed
    ([b]). *)
Inductive logs (b : bool)
    : list WorkUnit → list (list Metric) → list WorkUnit → Prop :=
| logs_nil : logs b [] [] []
| logs_runs u0 s rest L ss us :
    u_pending u0 = s ++ rest → logs b L ss us →
    logs b (u0 :: L) (s :: ss) (set_pending rest u0 :: us)
| logs_left u0 s rest L ss us :
    u_pending u0 = s ++ rest → (b = false → rest = []) → logs b L ss us →
    logs b (u0 :: L) (s :: ss) us.

Section logs.
Implicit Types (u : WorkUnit) (us L : list WorkUnit) (m : Metric).
Implicit Types (s X : list Metric) (ss : list (list Metric)) (b : bool).

Lemma set_pending_id u : set_pending (u_pending u) u = u.
Proof. by destruct u. Qed.

Lemma logs_init L : logs false L (replicate (length L) []) L.
Proof.
  induction L as [|u L IH]; [constructor|]. simpl.
  rewrite <-(set_pending_id u) at 2. by constructor.
Qed.

Lemma logs_expire L ss us : logs false L ss us → logs true L ss us.
Proof. induction 1; econstructor; eauto; done. Qed.

Lemma logs_app b L1 ss1 us1 L2 ss2 us2 :
  logs b L1 ss1 us1 → logs b L2 ss2 us2 →
  logs b (L1 ++ L2) (ss1 ++ ss2) (us1 ++ us2).
Proof. induction 1; simpl; intros; [done|econstructor; eauto..]. Qed.

(** The unit that takes a step, among the launched units. *)
Lemma logs_split b L ss us1 u us2 :
  logs b L ss (us1 ++ u :: us2) →
  ∃ L1 u0 L2 ss1 s ss2 rest,
    L = L1 ++ u0 :: L2 ∧ ss = ss1 ++ s :: ss2 ∧
    u_pending u0 = s ++ rest ∧ u = set_pending rest u0 ∧
    logs b L1 ss1 us1 ∧ logs b L2 ss2 us2.
Proof.
  intros Hl. remember (us1 ++ u :: us2) as us eqn:Hus. revert us1 Hus.
  induction Hl as [|u0 s rest L ss us Hp Hl IH|u0 s rest L ss us Hp Hb Hl IH];
    intros us1 Hus.
  - by destruct us1.
  - destruct us1 as [|u1 us1]; simplify_eq/=.
    + exists [], u0, L, [], s, ss, rest. split_and!; try done. constructor.
    + destruct (IH us1 eq_refl)
        as (L1 & u0' & L2 & ss1 & s' & ss2 & rest' & -> & -> & ? & ? & ? & ?).
      exists (u0 :: L1), u0', L2, (s :: ss1), s', ss2, rest'.
      split_and!; try done. by constructor.
  - destruct (IH us1 Hus)
      as (L1 & u0' & L2 & ss1 & s' & ss2 & rest' & -> & -> & ? & ? & ? & ?).
    exists (u0 :: L1), u0', L2, (s :: ss1), s', ss2, rest'.
    split_and!; try done. by econstructor.
Qed.

(** A unit writes a sample: its log grows, and so does the channel. *)
Lemma logs_emit L ss us1 u us2 m rest X :
  u_pending u = m :: rest →
  logs false L ss (us1 ++ u :: us2) → merges ss X →
  ∃ ss', logs false L ss' (us1 ++ set_pending rest u :: us2) ∧
         merges ss' (X ++ [m]).
Proof.
  intros Hp (L1 & u0 & L2 & ss1 & s & ss2 & rest0 & -> & -> & Hp0 & -> & ? & ?)
    %logs_split Hm.
  simpl in Hp. subst rest0. exists (ss1 ++ (s ++ [m]) :: ss2).
  split; [|by apply merges_middle].
  apply logs_app; [done|].
  apply (logs_runs false u0 (s ++ [m]) rest); [|done].
  by rewrite <-app_assoc.
Qed.

(** A unit leaves: the logs stay. *)
Lemma logs_leave b L ss us1 u us2 :
  (b = false → u_pending u = []) →
  logs b L ss (us1 ++ u :: us2) → logs b L ss (us1 ++ us2).
Proof.
  intros Hb (L1 & u0 & L2 & ss1 & s & ss2 & rest & -> & -> & ? & -> & ? & ?)
    %logs_split.
  apply logs_app; [done|]. by econstructor.
Qed.

(** A log is a prefix of what the unit was launched with. *)
Lemma logs_prefix b L ss us :
  logs b L ss us → Forall2 (λ s u0, s `prefix_of` u_pending u0) ss L.
Proof. induction 1; constructor; try done; by eexists. Qed.

(** When every unit has left before the deadline, the logs are
    complete. *)
Lemma logs_done L ss : logs false L ss [] → ss = u_pending <$> L.
Proof.
  intros Hl. remember [] as us eqn:Hus.
  induction Hl as [| |u0 s rest L ss us Hp Hb Hl IH]; [done..|].
  simpl. rewrite Hp, (Hb eq_refl), app_nil_r. f_equal. by apply IH.
Qed.

End logs.

(** ** The invariant *)

Section order.
Context (reg : Registry) (cfg : Config) (tgt : Target).
Context (ctx : Context) (clock : string → float) (deadline : float).
Implicit Types (u : WorkUnit) (us : list WorkUnit) (m : Metric).
Implicit Types (X ms : list Metric) (c : Cycle) (b : bool).

#[local] Abbreviation step := (cycle_step reg cfg tgt ctx clock deadline).

(** [X] is an interleaving of the logs of the units launched on the
    target, of which [us] still run. *)
Definition in_order (b : bool) (X : list Metric) (us : list WorkUnit)
    : Prop :=
  ∃ inst v ss, dial tgt = inr inst ∧ probe tgt inst = inr v ∧
    merges ss X ∧ logs b (launched reg cfg ctx inst v) ss us.

Definition order_inv (ms0 : list Metric) (c : Cycle) : Prop :=
  match phase c with
  | Idle => emitted c = ms0
  | Selecting inst v =>
      emitted c = ms0 ∧ dial tgt = inr inst ∧ probe tgt inst = inr v
  | Running us _ => ∃ X, emitted c = ms0 ++ X ∧ in_order (expired c) X us
  | Aggregating _ => ∃ X, emitted c = ms0 ++ X ∧ in_order (expired c) X []
  | Done =>
      (emitted c = ms0 ++ [up_gauge false] ∧
       ∀ inst v, dial tgt = inr inst → probe tgt inst ≠ inr v) ∨
      ∃ X outs, emitted c = ms0 ++ X ++ report outs ∧
                in_order (expired c) X []
  | Crashed _ => ∃ X us, emitted c = ms0 ++ X ∧ in_order false X us
  end.

Lemma in_order_init inst v :
  dial tgt = inr inst → probe tgt inst = inr v →
  in_order false [] (launched reg cfg ctx inst v).
Proof.
  intros Hd Hp. exists inst, v, (replicate (length (launched reg cfg ctx inst v)) []).
  split_and!; [done..|constructor|apply logs_init].
Qed.

Lemma in_order_emit X us1 u us2 m rest :
  u_pending u = m :: rest → in_order false X (us1 ++ u :: us2) →
  in_order false (X ++ [m]) (us1 ++ set_pending rest u :: us2).
Proof.
  intros Hp (inst & v & ss & ? & ? & Hm & Hl).
  destruct (logs_emit _ _ _ _ _ _ _ _ Hp Hl Hm) as (ss' & ? & ?).
  by exists inst, v, ss'.
Qed.

Lemma in_order_leave b X us1 u us2 :
  (b = false → u_pending u = []) →
  in_order b X (us1 ++ u :: us2) → in_order b X (us1 ++ us2).
Proof.
  intros Hb (inst & v & ss & ? & ? & ? & ?). exists inst, v, ss.
  split_and!; eauto using logs_leave.
Qed.

Lemma in_order_expire X us : in_order false X us → in_order true X us.
Proof.
  intros (inst & v & ss & ? & ? & ? & ?). exists inst, v, ss.
  split_and!; eauto using logs_expire.
Qed.

Lemma cycle_step_order ms0 c c' :
  order_inv ms0 c → step c c' → order_inv ms0 c'.
Proof.
  intros Hinv Hstep. destruct Hstep; unfold order_inv in *; simpl in *.
  - left. rewrite Hinv. split; [done|congruence].
  - left. rewrite Hinv. split; [done|congruence].
  - done.
  - destruct Hinv as (-> & ? & ?). exists []. rewrite app_nil_r.
    eauto using in_order_init.
  - destruct Hinv as (X & -> & ?). exists (X ++ [m]). rewrite app_assoc.
    eauto using in_order_emit.
  - destruct Hinv as (X & -> & ?). exists X.
    split; [done|]. by eapply in_order_leave.
  - destruct Hinv as (X & -> & ?). eauto.
  - destruct Hinv as (X & -> & ?). eauto using in_order_expire.
  - destruct Hinv as (X & -> & ?). exists X.
    split; [done|]. by eapply in_order_leave.
  - done.
  - right. destruct Hinv as (X & -> & ?). exists X, outs.
    by rewrite app_assoc.
Qed.

Lemma order_inv_reachable ms0 c :
  rtc step (mkCycle Idle ms0 false) c → order_inv ms0 c.
Proof.
  apply (rtc_ind_r (order_inv ms0)); [done|].
  eauto using cycle_step_order.
Qed.

(** ** What a cycle keeps of the order *)

(** A cycle that finished before its deadline has emitted an
    interleaving of what the selected scrapers send. *)
Lemma cycle_done_merges ms0 c inst v :
  dial tgt = inr inst → probe tgt inst = inr v →
  rtc step (mkCycle Idle ms0 false) c →
  phase c = Done → expired c = false →
  ∃ X outs, emitted c = ms0 ++ X ++ report outs ∧
            merges (u_pending <$> launched reg cfg ctx inst v) X.
Proof.
  intros Hd Hp Hinv%order_inv_reachable Hdone Hb. unfold order_inv in Hinv.
  rewrite Hdone, Hb in Hinv.
  destruct Hinv
    as [[_ Hfatal]|(X & outs & Hem & inst' & v' & ss & Hd' & Hp' & Hm & Hl)];
    [by edestruct Hfatal|].
  exists X, outs. split; [done|]. apply logs_done in Hl as ->. congruence.
Qed.

Lemma in_order_prefix b X us inst v :
  dial tgt = inr inst → probe tgt inst = inr v → in_order b X us →
  ∃ ss, merges ss X ∧
        Forall2 (λ s u0, s `prefix_of` u_pending u0) ss
          (launched reg cfg ctx inst v).
Proof.
  intros Hd Hp (inst' & v' & ss & Hd' & Hp' & ? & ?%logs_prefix).
  rewrite Hd in Hd'. injection Hd' as <-.
  rewrite Hp in Hp'. injection Hp' as <-. eauto.
Qed.

(** In every state of a cycle that connected and probed, the samples
    emitted are an interleaving of logs of the launched units, each a
    prefix of what its scraper sends; the report, if any, follows. *)
Lemma cycle_keeps_order ms0 c inst v :
  dial tgt = inr inst → probe tgt inst = inr v →
  rtc step (mkCycle Idle ms0 false) c →
  ∃ X ss tail,
    emitted c = ms0 ++ X ++ tail ∧ merges ss X ∧
    Forall2 (λ s u0, s `prefix_of` u_pending u0) ss
      (launched reg cfg ctx inst v) ∧
    (tail = [] ∨ ∃ outs, phase c = Done ∧ tail = report outs).
Proof.
  intros Hd Hp Hinv%order_inv_reachable.
  assert (in_order false [] (launched reg cfg ctx inst v)) as Hinit
    by by apply in_order_init.
  unfold order_inv in Hinv. destruct (phase c) eqn:Hph.
  - destruct (in_order_prefix _ _ _ _ _ Hd Hp Hinit) as (ss & ? & ?).
    exists [], ss, []. rewrite !app_nil_r. eauto.
  - destruct (in_order_prefix _ _ _ _ _ Hd Hp Hinit) as (ss & ? & ?).
    exists [], ss, []. rewrite !app_nil_r. destruct Hinv. eauto.
  - destruct Hinv as (X & ? & (ss & ? & ?)%(in_order_prefix _ _ _ inst v));
      [|done..].
    exists X, ss, []. rewrite app_nil_r. eauto.
  - destruct Hinv as (X & ? & (ss & ? & ?)%(in_order_prefix _ _ _ inst v));
      [|done..].
    exists X, ss, []. rewrite app_nil_r. eauto.
  - destruct Hinv as [[_ Hfatal]|(X & outs & ? & Hin)]; [by edestruct Hfatal|].
    destruct (in_order_prefix _ _ _ _ _ Hd Hp Hin) as (ss & ? & ?).
    exists X, ss, (report outs). eauto 10.
  - destruct Hinv as (X & us & ? & Hin).
    destruct (in_order_prefix _ _ _ _ _ Hd Hp Hin) as (ss & ? & ?).
    exists X, ss, []. rewrite app_nil_r. eauto.
Qed.

(** ** Schedules *)

(** The units take their turns as a schedule says: the unit at position
    [i] sends its next sample, or returns when it has none left.  At the
    end of the schedule the units still running are run one after the
    other ([run_units]). *)
Fixpoint run_by (sched : list nat) (us : list WorkUnit) (ms : list Metric)
    (outs : list Outcome) : Cycle :=
  match sched with
  | [] => run_units clock deadline us ms outs
  | i :: sched' =>
      match us !! i with
      | None => run_by sched' us ms outs
      | Some u =>
          match u_pending u, u_result u with
          | m :: rest, _ =>
              run_by sched' (<[i := set_pending rest u]> us) (ms ++ [m]) outs
          | [], Returned r =>
              run_by sched' (delete i us) ms (outs ++ [outcome_of clock u r])
          | [], Panicked e => mkCycle (Crashed e) ms false
          | [], OutOfFuel => run_by sched' us ms outs
          end
      end
  end.

(** A cycle whose units follow a schedule. *)
Definition Collect_by (sched : list nat) (ms : list Metric) : Cycle :=
  match dial tgt with
  | inl _ => mkCycle Done (ms ++ [up_gauge false]) false
  | inr inst =>
      match probe tgt inst with
      | inl _ => mkCycle Done (ms ++ [up_gauge false]) false
      | inr v => run_by sched (launched reg cfg ctx inst v) ms []
      end
  end.

Definition returns (u : WorkUnit) : Prop := ∃ r, u_result u = Returned r.

Lemma run_by_steps sched us ms outs :
  rtc step (mkCycle (Running us outs) ms false) (run_by sched us ms outs).
Proof.
  revert us ms outs. induction sched as [|i sched IH]; intros us ms outs;
    simpl; [apply run_units_steps|].
  destruct (us !! i) as [u|] eqn:Hi; [|apply IH].
  pose proof (take_drop_middle us i u Hi) as Hus.
  destruct (u_pending u) as [|m rest] eqn:Hp; [destruct (u_result u) eqn:Hr|].
  - eapply rtc_l; [|apply IH]. rewrite delete_take_drop.
    rewrite <-Hus at 1. by apply step_return.
  - apply rtc_once. rewrite <-Hus. by apply step_panic.
  - apply IH.
  - eapply rtc_l; [|apply IH].
    rewrite insert_take_drop by by eapply lookup_lt_Some.
    rewrite <-Hus at 1. by apply step_emit.
Qed.

Lemma Collect_by_run sched ms :
  rtc step (mkCycle Idle ms false) (Collect_by sched ms).
Proof.
  unfold Collect_by. destruct (dial tgt) as [e|inst] eqn:Hd;
    [by eapply rtc_once, step_dial_fails|].
  destruct (probe tgt inst) as [e|v] eqn:Hp;
    [by eapply rtc_once, step_probe_fails|].
  eapply rtc_l; [by apply step_probe|].
  eapply rtc_l; [apply step_select|]. apply run_by_steps.
Qed.

(** Units that return, run one after the other. *)
Lemma run_units_returns us ms outs :
  Forall returns us →
  ∃ outs', run_units clock deadline us ms outs =
             mkCycle Done (ms ++ concat (u_pending <$> us) ++ report outs')
                     false.
Proof.
  intros Hret. revert ms outs.
  induction Hret as [|u us [r Hr] _ IH]; intros ms outs; simpl.
  { by exists outs. }
  rewrite Hr. destruct (IH (ms ++ u_pending u) (outs ++ [outcome_of clock u r]))
    as (outs' & ->).
  exists outs'. by rewrite <-!app_assoc.
Qed.

(** A schedule of the units gives the interleaving it gives of their
    samples. *)
Lemma run_by_merge sched us ms outs X :
  Forall returns us →
  merge_by sched (u_pending <$> us) = Some X →
  ∃ outs', run_by sched us ms outs =
             mkCycle Done (ms ++ X ++ report outs') false.
Proof.
  revert us ms X. induction sched as [|i sched IH]; intros us ms X Hret; simpl.
  - destruct (concat (u_pending <$> us)) eqn:Hnil; [|done]. intros [= <-].
    destruct (run_units_returns us ms outs Hret) as (outs' & ->).
    exists outs'. by rewrite Hnil.
  - rewrite list_lookup_fmap. destruct (us !! i) as [u|] eqn:Hi; [|done].
    simpl. destruct (u_pending u) as [|m rest] eqn:Hp; [done|].
    change rest with (u_pending (set_pending rest u)) at 1.
    rewrite <-(list_fmap_insert u_pending us i (set_pending rest u)).
    destruct (merge_by sched _) as [X'|] eqn:Hm; [|done]. intros [= <-].
    destruct (IH (<[i:=set_pending rest u]> us) (ms ++ [m]) X') as (outs' & ->);
      [|done|].
    + apply Forall_insert; [done|].
      eapply Forall_lookup_1 in Hret as [r ?]; [|done]. by exists r.
    + exists outs'. by rewrite <-!app_assoc.
Qed.

(** Every interleaving of the samples of the selected scrapers is emitted
    by a run of the cycle, when they all return. *)
Lemma every_interleaving_is_a_run ms0 inst v X :
  dial tgt = inr inst → probe tgt inst = inr v →
  Forall returns (launched reg cfg ctx inst v) →
  merges (u_pending <$> launched reg cfg ctx inst v) X →
  ∃ sched outs,
    Collect_by sched ms0 = mkCycle Done (ms0 ++ X ++ report outs) false.
Proof.
  intros Hd Hp Hret [sched Hm]%merges_iff_merge_by.
  destruct (run_by_merge sched _ ms0 [] X Hret Hm) as (outs & Hrun).
  exists sched, outs. unfold Collect_by. by rewrite Hd, Hp.
Qed.

End order.

(** ** The order of the tables [primary_key] reports *)

Section primary_key.
Context `{Collation}.
Context (cfg : Config) (clock : string → float) (deadline : float).

(** C30: the order of the query reaches the output of the exporter.  In a
    cycle that finishes before its deadline, of any registry that holds
    [primary_key], against a server that evaluates the query: whatever the
    other scrapers send and however the units of work took their turns,
    the samples emitted are an interleaving of the samples of the tables
    without primary key, in ascending order of the table name, with an
    interleaving of the samples of the other selected scrapers.  So the
    tables are reported in the order of [ORDER BY t.table_name], none
    missing, with samples of other scrapers in between at most. *)
Theorem primary_key_order_kept reg tgt T C v ms0 c :
  reg !! "primary_key" = Some primary_key →
  eligible cfg v primary_key = true →
  Forall scannable (tables_without_primary_key T C) →
  dial tgt = inr (server T C) → probe tgt (server T C) = inr v →
  rtc (cycle_step reg cfg tgt (mkContext None) clock deadline)
      (mkCycle Idle ms0 false) c →
  phase c = Done → expired c = false →
  let reported :=
    samples_of (order_by t_table_name (tables_without_primary_key T C)) in
  ∃ X others ss1 ss2 outs,
    emitted c = ms0 ++ X ++ report outs ∧
    merges [reported; others] X ∧
    reported `sublist_of` X ∧
    selection cfg v reg = ss1 ++ primary_key :: ss2 ∧
    merges (u_pending ∘ launch (mkContext None) (server T C) <$> ss1 ++ ss2)
           others.
Proof.
  intros Hpk Hel Hok Hd Hp Hrun Hdone Hexp reported.
  destruct (cycle_done_merges reg cfg tgt (mkContext None) clock deadline
              ms0 c (server T C) v) as (X & outs & Hem & Hm); [done..|].
  assert (primary_key ∈ selection cfg v reg) as (ss1 & ss2 & Hsel)%list_elem_of_split
    by (apply elem_of_selection; eauto).
  unfold launched in Hm. rewrite Hsel, fmap_app, fmap_cons, fmap_app, fmap_cons in Hm.
  destruct (Scrape_server ScrapePrimaryKey_lit fresh_world T C) as (_ & Hk & _);
    [done..|].
  rewrite launch_primary_key in Hm. cbn [u_pending] in Hm. rewrite Hk in Hm.
  apply merges_group_middle in Hm as (others & Hothers & Hm).
  exists X, others, ss1, ss2, outs. split_and!; [done..| |done|].
  - apply merges_sublist in Hm. by apply Forall_cons in Hm as [? _].
  - by rewrite list_fmap_compose, fmap_app, fmap_app.
Qed.

End primary_key.

(** ** On a concrete server, beside another scraper *)

(** A second scraper for the examples: two beats, one after the other. *)
Variant Heartbeat : Type := Heartbeat_lit.

Definition beat (n : float) : Metric :=
  mkMetric (NewDesc (BuildFQName namespace "heartbeat" "beat") "A beat." [] [])
    GaugeValue n [].

#[local] Instance Heartbeat_Scraper : Scraper Heartbeat :=
  mkScraper Heartbeat (λ _, "heartbeat") (λ _, "Two beats.") (λ _, 5%float)
    (λ _ _ _, send (beat 1);; send (beat 2);; mret None).

Definition heartbeat : scraper :=
  mkPacked Heartbeat Heartbeat_Scraper Heartbeat_lit.

Definition demo_registry : Registry := register heartbeat scrapers.

Definition demo_both : Config := mkConfig {["primary_key"; "heartbeat"]} ∅.

(** Selection by version: against a server that reports version 5.5,
    below the 5.7 of [primary_key] and above the 5 of the other scraper,
    the other scraper alone is selected. *)
Example selection_by_version :
  scraper_name <$> selection demo_both 5.5 demo_registry = ["heartbeat"] ∧
  scraper_name <$> selection demo_both 8 demo_registry =
    ["heartbeat"; "primary_key"].
Proof. vm_compute. split; reflexivity. Qed.

(** The two units taking turns, sample by sample. *)
Definition demo_turns : list nat := [0; 1; 0; 1].

Example cycle_in_turns :
  Collect_by demo_registry demo_both healthy (mkContext None) demo_clock 10
    demo_turns [] =
    mkCycle Done
      ([beat 1; metric_of ("shop", "Log", "MyISAM");
        beat 2; metric_of ("shop", "audit", "InnoDB")] ++
       report [mkOutcome "heartbeat" 0.25 Succeeded;
               primary_outcome demo_clock Succeeded])
      false.
Proof. vm_compute. reflexivity. Qed.

Lemma primary_key_order_kept_witness :
  let reported :=
    samples_of (order_by (H := binary_collation) t_table_name
                  (tables_without_primary_key (H := binary_collation)
                     demo_tables demo_constraints)) in
  ∃ X others ss1 ss2 outs,
    emitted (Collect_by demo_registry demo_both healthy (mkContext None)
               demo_clock 10 demo_turns []) = [] ++ X ++ report outs ∧
    merges [reported; others] X ∧
    reported `sublist_of` X ∧
    selection demo_both 8 demo_registry = ss1 ++ primary_key :: ss2 ∧
    merges (u_pending ∘ launch (mkContext None) shop <$> ss1 ++ ss2) others.
Proof.
  apply (primary_key_order_kept (H := binary_collation) demo_both demo_clock 10
           demo_registry healthy demo_tables demo_constraints 8 [] _).
  - vm_compute. reflexivity.
  - vm_compute. reflexivity.
  - apply (bool_decide_unpack _). vm_compute. exact I.
  - reflexivity.
  - reflexivity.
  - apply Collect_by_run.
  - vm_compute. reflexivity.
  - vm_compute. reflexivity.
Defined.
