(* ===== verification/SharedChannel.v ===== *)
(** * [Scrape] among the goroutines of a cycle

    In a cycle the call of [Scrape] is one goroutine among those of the
    other selected scrapers, and they all write to the one channel the
    consumer drains.  This file puts the call, statement by statement
    ([ScrapeSteps.Frame]), in a pool of producers of any kind on a channel
    of any capacity ([Fanin.pool_step]).

    Shown here: whatever the others do and however the steps interleave,
    the call returns what [Scrape] returns, and the consumer receives the
    samples of [Scrape] in the order of the rows, none missing, with the
    samples of the others in between at most
    ([Scrape_shares_bounded_channel]); the pool cannot deadlock while the
    channel is open ([Scrape_pool_no_deadlock]); and the pool of the
    goroutines of the selected scrapers is a refinement of the Running
    phase of the cycle ([pool_cycle], a simulation in which the steps of
    the goroutines that write nothing are stutters of the cycle): what
    has been written to the channel in a state of the pool has been
    emitted in a state of the cycle; the consumer that closes the channel
    is the deadline that elapses, after which the cycle ends with what
    was written and reports the units left as timed out
    ([exporter_pool_refines_cycle]).  So what holds of every state of a
    cycle holds of the exporter on a bounded channel. *)

From Stdlib Require Import Floats.
From S2P Require Import Prelude Interleave Prometheus Database Channel Fanin.
From S2P Require Import Sql PrimaryQuery Scraper PrimaryKey PrimaryKeySpec.
From S2P Require Import PrimaryKeyTheorems ScrapeSteps EndToEnd.
From S2P Require Import Orchestrator Exporter CycleOrder.

(** ** The call in a pool *)

Section shared.
Context (cap : nat).
Implicit Types (st : Pool Worker) (f : Frame) (s : ScrapePrimaryKey).
Implicit Types (ctx : Context) (inst : instance) (w : World).
Implicit Types (others : list Worker).

(** What the call returns is decided at its entry: no move changes it. *)
Lemma frame_moves_outcome f f' :
  rtc moves f f' → (frame_spec f').1 = (frame_spec f).1.
Proof.
  induction 1 as [|f f1 f' Hm _ IH]; [done|]. rewrite IH.
  pose proof (frame_next_outcome f) as Ho.
  destruct Hm as [Hn|[m Hn]]; change (next f) with (frame_next f) in Hn;
    by rewrite Hn in Ho.
Qed.

Lemma frame_moves_cursor f f' : rtc moves f f' → cursor_ok f → cursor_ok f'.
Proof.
  induction 1 as [|f f1 f' Hm _ IH]; [done|]. intros Hf. apply IH.
  destruct Hm as [Hn|[m Hn]];
    eauto using cursor_ok_internal, cursor_ok_send.
Qed.

(** What [Scrape] returns and appends on a world whose channel is
    open, by the reference definition on a fresh channel. *)
Lemma Scrape_fresh s ctx inst w :
  sink_closed (w_sink w) = false →
  (Scrape s ctx inst w).1 = (Scrape_spec ctx inst (mkSink [] false)).1 ∧
  sent (w_sink (Scrape s ctx inst w).2) =
    sent (w_sink w) ++ sent (Scrape_spec ctx inst (mkSink [] false)).2.
Proof.
  intros Hopen. destruct (Scrape_run s ctx inst w) as (-> & -> & _).
  destruct (Scrape_spec_uniform ctx inst false) as (o & ms & Huni).
  destruct (Huni (w_sink w) Hopen) as [-> ->].
  by destruct (Huni (mkSink [] false) eq_refl) as [-> ->].
Qed.

(** The call in a pool that has delivered everything on an open
    channel: it has ended with what the reference definition returns and
    with its cursor closed, and the consumer holds an interleaving of its
    samples and those of the other producers. *)
Lemma frame_pool_spec ctx inst others st :
  rtc (pool_step cap) (pool_init (pack (call ctx inst) :: others)) st →
  pool_closed st = false → pool_delivered st →
  ∃ f rest,
    workers st = pack f :: rest ∧
    f_at f = Ended (Scrape_spec ctx inst (mkSink [] false)).1 ∧
    f_open f = false ∧
    merges (sent (Scrape_spec ctx inst (mkSink [] false)).2 ::
            (sends <$> others)) (pool_received st).
Proof.
  intros Hrun Hc Hd.
  pose proof (pool_steps_moves cap _ _ Hrun Hc) as Hm. simpl in Hm.
  apply Forall2_cons_inv_l in Hm as (w' & rest & Hw & _ & Hst).
  apply pack_rtc_moves in Hw as (f & -> & Hf).
  pose proof (frame_moves_cursor _ _ Hf (cursor_ok_call ctx inst)) as Hcur.
  apply frame_moves_outcome in Hf.
  pose proof Hd as [Hh _]. rewrite Hst in Hh.
  apply Forall_cons in Hh as [Hh%pack_halt _]. simpl in Hh.
  unfold frame_next in Hh. destruct (f_at f) as [| | |o] eqn:Hat; try done.
  rewrite (frame_ended _ _ Hat) in Hf. simpl in Hf.
  exists f, rest.
  split_and!; [done|by rewrite Hat, Hf|by eapply cursor_ok_ended|].
  by apply (pool_delivered_received cap _ st (pool_inv_reachable cap _ _ Hrun)).
Qed.

End shared.

(** ** A pool of producers is a cycle at work *)

Section refinement.
Context (reg : Registry) (cfg : Config) (tgt : Target).
Context (ctx : Context) (clock : string → float) (deadline : float).
Context {P : Type} `{Producer P} (cap : nat).
Implicit Types (u : WorkUnit) (us : list WorkUnit) (c : Cycle).
Implicit Types (st : Pool P) (p : P) (ps : list P).

#[local] Abbreviation step := (cycle_step reg cfg tgt ctx clock deadline).

(** A state of the pool and a state of the cycle that stand for each
    other: the cycle has emitted what has been written to the channel;
    while the channel is open the units of work have left to send what
    the producers have; once the consumer has closed it the deadline of
    the cycle has elapsed, unless no unit was left to wait for. *)
Definition pool_cycle (ms0 : list Metric) (st : Pool P) (c : Cycle)
    : Prop :=
  ∃ us outs, phase c = Running us outs ∧
    emitted c = ms0 ++ pool_received st ++ pool_buf st ∧
    if pool_closed st then expired c = true ∨ us = []
    else expired c = false ∧
         Forall2 (λ u p, u_pending u = sends p) us (workers st).

Lemma units_middle_inv us ps1 p ps2 :
  Forall2 (λ u p, u_pending u = sends p) us (ps1 ++ p :: ps2) →
  ∃ us1 u us2, us = us1 ++ u :: us2 ∧ u_pending u = sends p ∧
    Forall2 (λ u p, u_pending u = sends p) us1 ps1 ∧
    Forall2 (λ u p, u_pending u = sends p) us2 ps2.
Proof.
  intros (us1 & us' & ? & Hr & ->)%Forall2_app_inv_r.
  apply Forall2_cons_inv_r in Hr as (u & us2 & ? & ? & ->).
  by exists us1, u, us2.
Qed.

(** What the producers do under a closed channel, and what the consumer
    takes from the queue, the cycle does not see. *)
Lemma pool_cycle_closed ms0 ps ps' b r b' r' c :
  r' ++ b' = r ++ b →
  pool_cycle ms0 (mkPool ps b r true) c →
  pool_cycle ms0 (mkPool ps' b' r' true) c.
Proof.
  intros Hw (us & outs & ? & ? & ?). exists us, outs. simpl in *.
  by rewrite Hw.
Qed.

(** A producer takes a step of its own: the cycle waits. *)
Lemma pool_cycle_internal ms0 ps1 p p' ps2 b r c :
  next p = Internal p' →
  pool_cycle ms0 (mkPool (ps1 ++ p :: ps2) b r false) c →
  pool_cycle ms0 (mkPool (ps1 ++ p' :: ps2) b r false) c.
Proof.
  intros Hn (us & outs & ? & ? & ? & Hus). exists us, outs. simpl in *.
  split_and!; try done.
  apply units_middle_inv in Hus as (us1 & u & us2 & -> & Hu & ? & ?).
  apply Forall2_app; [done|]. constructor; [|done].
  by destruct (next_internal _ _ Hn) as [-> _].
Qed.

(** A producer writes a sample: its unit of work emits it. *)
Lemma pool_cycle_write ms0 ps1 p p' ps2 m b r b' r' c :
  next p = Send m p' → r' ++ b' = (r ++ b) ++ [m] →
  pool_cycle ms0 (mkPool (ps1 ++ p :: ps2) b r false) c →
  ∃ c', rtc step c c' ∧
        pool_cycle ms0 (mkPool (ps1 ++ p' :: ps2) b' r' false) c'.
Proof.
  intros Hn Hw (us & outs & Hph & Hem & Hb & Hus). simpl in *.
  apply units_middle_inv in Hus as (us1 & u & us2 & -> & Hu & ? & ?).
  destruct (next_send _ _ _ Hn) as [Hs _]. rewrite Hs in Hu.
  destruct c as [ph ms e]. simpl in *. subst ph e ms.
  eexists. split; [by apply rtc_once, step_emit|].
  exists (us1 ++ set_pending (sends p') u :: us2), outs. simpl.
  split_and!; [done|by rewrite Hw, !app_assoc|done|].
  apply Forall2_app; [done|]. by constructor.
Qed.

(** The consumer closes the channel: the deadline of the cycle elapses,
    if a unit is left to wait for. *)
Lemma pool_cycle_close ms0 ps b r c :
  pool_cycle ms0 (mkPool ps b r false) c →
  ∃ c', rtc step c c' ∧ pool_cycle ms0 (mkPool ps b r true) c'.
Proof.
  intros (us & outs & Hph & Hem & Hb & _).
  destruct c as [ph ms e]. simpl in *. subst ph e ms.
  destruct us as [|u us].
  - eexists. split; [done|]. exists [], outs. simpl. eauto.
  - eexists. split; [apply rtc_once, step_deadline|].
    exists (u :: us), outs. simpl. eauto.
Qed.

Lemma pool_step_cycle ms0 st st' c :
  pool_step cap st st' → pool_cycle ms0 st c →
  ∃ c', rtc step c c' ∧ pool_cycle ms0 st' c'.
Proof.
  destruct 1 as [ps1 p ps2 p' b r [|] Hn|ps1 p ps2 m p' b r Hn ?|
                 ps1 p ps2 m p' r Hn ?|ps1 p ps2 m p' b r Hn|
                 ps m b r [|]|ps b r]; intros Hsim.
  - exists c. split; [done|]. by eapply pool_cycle_closed.
  - exists c. split; [done|]. by eapply pool_cycle_internal.
  - eapply pool_cycle_write; [done|by rewrite app_assoc|done].
  - eapply pool_cycle_write; [done|by rewrite !app_nil_r|done].
  - exists c. split; [done|]. by eapply pool_cycle_closed.
  - exists c. split; [done|].
    eapply pool_cycle_closed; [|done]. by rewrite <-app_assoc.
  - exists c. split; [done|].
    destruct Hsim as (us & outs & ? & Hem & ?). exists us, outs.
    simpl in *. by rewrite <-app_assoc.
  - by apply pool_cycle_close.
Qed.

(** Every run of the pool is a run of the cycle. *)
Lemma pool_steps_cycle ms0 st st' c :
  rtc (pool_step cap) st st' → pool_cycle ms0 st c →
  ∃ c', rtc step c c' ∧ pool_cycle ms0 st' c'.
Proof.
  intros Hrun. revert c.
  induction Hrun as [st|st st1 st' Hstep Hrun IH]; intros c Hsim;
    [by exists c|].
  destruct (pool_step_cycle ms0 _ _ c Hstep Hsim) as (c1 & ? & Hsim1).
  destruct (IH c1 Hsim1) as (c' & ? & ?).
  exists c'. split; [by etrans|done].
Qed.

(** When the pool has delivered everything and the units return, the
    cycle goes on to its end: the consumer has received all that the
    cycle emits before its report. *)
Lemma pool_cycle_finish ms0 st c :
  pool_cycle ms0 st c → pool_closed st = false → pool_delivered st →
  (∀ us outs, phase c = Running us outs → Forall returns us) →
  ∃ outs', rtc step c
             (mkCycle Done (ms0 ++ pool_received st ++ report outs') false).
Proof.
  intros (us & outs & Hph & Hem & Hb) Hc [Hh Hbuf] Hret.
  rewrite Hc in Hb. destruct Hb as [Hb Hus].
  destruct c as [ph ms e]. simpl in *. subst ph e ms.
  assert (concat (u_pending <$> us) = []) as Hnil.
  { clear Hret. induction Hus as [|u p us ps Hu _ IH]; [done|].
    apply Forall_cons in Hh as [Hp Hps]. rewrite fmap_cons. cbn [concat].
    by rewrite Hu, (next_halt _ Hp), IH. }
  destruct (run_units_returns clock deadline us (ms0 ++ pool_received st ++ pool_buf st) outs)
    as (outs' & Hrun); [by eapply Hret|].
  exists outs'. rewrite Hnil, Hbuf, app_nil_r in Hrun. simpl in Hrun.
  rewrite <-app_assoc in Hrun. rewrite Hbuf, app_nil_r. rewrite <-Hrun.
  apply run_units_steps.
Qed.

(** When the consumer has closed the channel, the cycle goes on to its
    end without another sample: what has been written to the channel,
    then the report, in which every unit that was left has timed out. *)
Lemma pool_cycle_expired ms0 st c us outs :
  pool_cycle ms0 st c → pool_closed st = true → phase c = Running us outs →
  rtc step c
    (mkCycle Done
       (ms0 ++ (pool_received st ++ pool_buf st) ++
        report (outs ++ (timed_out deadline <$> us)))
       (expired c)).
Proof.
  intros (us' & outs' & Hph & Hem & Hb) Hc Hph'.
  rewrite Hc in Hb. destruct c as [ph ms e]. simpl in *. subst ph ms.
  injection Hph' as -> ->. rewrite !app_assoc.
  destruct Hb as [->| ->].
  - etrans; [apply abandon_all|].
    eapply rtc_l; [apply step_join|]. apply rtc_once, step_report.
  - rewrite fmap_nil, app_nil_r.
    eapply rtc_l; [apply step_join|]. apply rtc_once, step_report.
Qed.

(** The units of a running cycle return if the launched units do. *)
Lemma running_units_return ms0 c inst v us outs :
  dial tgt = inr inst → probe tgt inst = inr v →
  rtc step (mkCycle Idle ms0 false) c → phase c = Running us outs →
  Forall returns (launched reg cfg ctx inst v) → Forall returns us.
Proof.
  intros Hd Hp Hinv%cycle_inv_reachable Hph Hret. unfold cycle_inv in Hinv.
  rewrite Hph in Hinv.
  destruct Hinv as (inst' & v' & X & Hd' & Hp' & _ & [_ Hu _ _]).
  rewrite Hd in Hd'. injection Hd' as <-.
  rewrite Hp in Hp'. injection Hp' as <-.
  eapply Forall_impl; [done|]. intros u (u0 & n & Hu0 & ->).
  apply (proj1 (Forall_forall _ _) Hret) in Hu0 as [r Hr]. by exists r.
Qed.

End refinement.

(** ** The goroutines of the exporter *)

Section exporter.
Context (cfg : Config) (clock : string → float) (deadline : float).
Context (cap : nat).
Implicit Types (reg : Registry) (tgt : Target) (inst : instance) (v : float).
Implicit Types (ctx : Context) (st : Pool Worker) (s : scraper).

(** The goroutine of a selected scraper: the call of [Scrape], statement
    by statement, for [primary_key]; for any other scraper, the samples
    it sends. *)
Definition goroutine ctx inst s : Worker :=
  if decide (scraper_name s = "primary_key")
  then pack (call ctx inst)
  else pack (u_pending (launch ctx inst s)).

(** The call has to send what the unit of work of [primary_key] has. *)
Lemma call_sends ctx inst :
  sends (pack (call ctx inst)) = u_pending (launch ctx inst primary_key).
Proof.
  rewrite launch_primary_key. cbn [u_pending].
  by destruct (Scrape_fresh ScrapePrimaryKey_lit ctx inst fresh_world) as [_ ->].
Qed.

Lemma goroutine_sends reg ctx inst v s :
  registry_wf reg → reg !! "primary_key" = Some primary_key →
  s ∈ selection cfg v reg →
  u_pending (launch ctx inst s) = sends (goroutine ctx inst s).
Proof.
  intros Hwf Hpk Hs. unfold goroutine.
  destruct (decide (scraper_name s = "primary_key")) as [Hname|_]; [|done].
  by rewrite (selection_primary_key cfg reg v s), call_sends.
Qed.

(** The goroutines of the selected scrapers in front of a fresh channel
    stand for the units of work the cycle launches. *)
Lemma goroutines_launched reg tgt ctx ms0 inst v :
  registry_wf reg → reg !! "primary_key" = Some primary_key →
  pool_cycle ms0 (pool_init (goroutine ctx inst <$> selection cfg v reg))
    (mkCycle (Running (launch ctx inst <$> selection cfg v reg) []) ms0 false).
Proof.
  intros Hwf Hpk. eexists _, []. simpl.
  split_and!; [done|by rewrite !app_nil_r|done|].
  apply Forall2_fmap, Forall_Forall2_diag, Forall_forall.
  intros s Hs. by eapply goroutine_sends.
Qed.

(** C13: [Scrape] on a channel it shares.  The call of [Scrape],
    statement by statement, in a pool with any other producers on a
    channel of any capacity, interleaved with them and with the consumer
    in any way: once everything is delivered on the open channel, the call
    has returned what [Scrape] returns and closed its cursor, and the
    consumer holds an
    interleaving of the samples [Scrape] appends with the samples of the
    others.  The samples of [Scrape] arrive in the order of the rows, none
    missing, none twice. *)
Theorem Scrape_shares_bounded_channel (s0 : ScrapePrimaryKey) ctx inst w
    (others : list Worker) st :
  sink_closed (w_sink w) = false →
  rtc (pool_step cap) (pool_init (pack (call ctx inst) :: others)) st →
  pool_closed st = false → pool_delivered st →
  ∃ f rest X,
    workers st = pack f :: rest ∧
    f_at f = Ended (Scrape s0 ctx inst w).1 ∧ f_open f = false ∧
    sent (w_sink (Scrape s0 ctx inst w).2) = sent (w_sink w) ++ X ∧
    merges (X :: (sends <$> others)) (pool_received st) ∧
    X `sublist_of` pool_received st.
Proof.
  intros Hopen Hrun Hc Hd.
  destruct (frame_pool_spec cap ctx inst others st Hrun Hc Hd)
    as (f & rest & ? & ? & ? & Hm).
  destruct (Scrape_fresh s0 ctx inst w Hopen) as [Ho Hs].
  exists f, rest, (sent (Scrape_spec ctx inst (mkSink [] false)).2).
  rewrite Ho. split_and!; [done..|].
  apply merges_sublist in Hm. by apply Forall_cons in Hm as [? _].
Qed.

(** C23: no deadlock among the goroutines.  In every state the pool of
    the call of [Scrape] and any other producers reaches on a channel of
    any capacity, the queue is within the capacity and every run from
    there is finite; and as long as the consumer has not closed the
    channel, some run from there delivers everything: no producer waits
    for ever at its send. *)
Theorem Scrape_pool_no_deadlock ctx inst (others : list Worker) st :
  rtc (pool_step cap) (pool_init (pack (call ctx inst) :: others)) st →
  length (pool_buf st) ≤ cap ∧ sn (pool_step cap) st ∧
  (pool_closed st = false →
   ∃ st', rtc (pool_step cap) st st' ∧ pool_delivered st' ∧
          pool_closed st' = false).
Proof.
  intros Hinv%pool_inv_reachable. split_and!.
  - by destruct Hinv.
  - apply pool_step_sn.
  - intros Hc. destruct (pool_deliver cap _ st Hinv Hc) as (st' & ? & ? & ? & _).
    eauto.
Qed.

(** The cycle the goroutines of the selected scrapers stand for is a
    cycle of the exporter. *)
Lemma goroutines_cycle reg tgt ctx ms0 inst v st :
  registry_wf reg → reg !! "primary_key" = Some primary_key →
  dial tgt = inr inst → probe tgt inst = inr v →
  rtc (pool_step cap)
      (pool_init (goroutine ctx inst <$> selection cfg v reg)) st →
  ∃ c, rtc (cycle_step reg cfg tgt ctx clock deadline) (mkCycle Idle ms0 false) c ∧
       pool_cycle ms0 st c.
Proof.
  intros Hwf Hpk Hd Hp Hrun.
  destruct (pool_steps_cycle reg cfg tgt ctx clock deadline cap ms0 _ st _
              Hrun (goroutines_launched reg tgt ctx ms0 inst v Hwf Hpk))
    as (c & Hsteps & Hsim).
  exists c. split; [|done].
  eapply rtc_l; [by apply step_probe|].
  eapply rtc_l; [apply step_select|done].
Qed.

(** C36: the exporter on a bounded channel is a cycle.  Take the
    goroutines of the selected scrapers, the call of [Scrape] among them,
    on a channel of any capacity.  Every state they reach, whether the
    consumer has closed the channel or not, stands for a state of the
    Running phase of a cycle that has emitted exactly what has been
    written to the channel.  While the channel is open the deadline of
    that cycle has not elapsed and its units of work have left to send
    what the goroutines have; once the goroutines have delivered
    everything, and if the selected scrapers return, the cycle goes on to
    its end: what the consumer has received, then the report.  Once the
    channel is closed the deadline has elapsed, unless no unit was left,
    and the cycle ends without another sample, every unit left reported
    as timed out. *)
Theorem exporter_pool_refines_cycle reg tgt ctx ms0 inst v st :
  registry_wf reg → reg !! "primary_key" = Some primary_key →
  dial tgt = inr inst → probe tgt inst = inr v →
  rtc (pool_step cap)
      (pool_init (goroutine ctx inst <$> selection cfg v reg)) st →
  ∃ c us outs,
    rtc (cycle_step reg cfg tgt ctx clock deadline) (mkCycle Idle ms0 false) c ∧
    phase c = Running us outs ∧
    emitted c = ms0 ++ pool_received st ++ pool_buf st ∧
    (pool_closed st = false →
     expired c = false ∧
     Forall2 (λ u p, u_pending u = sends p) us (workers st) ∧
     (pool_delivered st →
      Forall (λ s, returns (launch ctx inst s)) (selection cfg v reg) →
      ∃ outs',
        rtc (cycle_step reg cfg tgt ctx clock deadline) c
          (mkCycle Done (ms0 ++ pool_received st ++ report outs') false))) ∧
    (pool_closed st = true →
     (expired c = true ∨ us = []) ∧
     rtc (cycle_step reg cfg tgt ctx clock deadline) c
       (mkCycle Done
          (ms0 ++ (pool_received st ++ pool_buf st) ++
           report (outs ++ (timed_out deadline <$> us)))
          (expired c))).
Proof.
  intros Hwf Hpk Hd Hp Hrun.
  destruct (goroutines_cycle reg tgt ctx ms0 inst v st) as (c & Hreach & Hsim);
    [done..|].
  pose proof Hsim as (us & outs & Hph & Hem & Hb).
  exists c, us, outs. split_and!; try done.
  - intros Hc. rewrite Hc in Hb. destruct Hb as [? ?]. split_and!; try done.
    intros Hdel Hret. eapply pool_cycle_finish; [done..|].
    intros us' outs' Hph'.
    eapply (running_units_return reg cfg tgt ctx clock deadline ms0 c inst v);
      [done..|].
    unfold launched. by apply Forall_fmap.
  - intros Hc. split; [by rewrite Hc in Hb|]. by eapply pool_cycle_expired.
Qed.

End exporter.

(** ** The theorems on a concrete database *)

(** The call and a second producer on a channel of capacity 1. *)
Definition demo_pool : Pool Worker :=
  pool_init [pack steps_call; pack [beat 1; beat 2]].

(** A schedule on which the call finds the queue full at its first send
    and waits for the consumer. *)
Definition demo_acts : list Act :=
  [Work 0; Work 1; Work 0; Work 0; Recv; Work 0; Recv; Work 1; Work 0; Recv;
   Work 0; Recv; Work 0].

Example pool_in_turns :
  pool_received (pool_run 1 demo_acts demo_pool) =
    [beat 1; metric_of ("shop", "Log", "MyISAM");
     beat 2; metric_of ("shop", "audit", "InnoDB")].
Proof. vm_compute. reflexivity. Qed.

Lemma Scrape_shares_bounded_channel_witness :
  ∃ f rest X,
    workers (pool_run 1 demo_acts demo_pool) = pack f :: rest ∧
    f_at f = Ended (Scrape ScrapePrimaryKey_lit (mkContext None)
                      (mkInstance demo_db) demo_world).1 ∧ f_open f = false ∧
    sent (w_sink (Scrape ScrapePrimaryKey_lit (mkContext None)
                    (mkInstance demo_db) demo_world).2) =
      sent (w_sink demo_world) ++ X ∧
    merges (X :: (sends <$> [pack [beat 1; beat 2]]))
           (pool_received (pool_run 1 demo_acts demo_pool)) ∧
    X `sublist_of` pool_received (pool_run 1 demo_acts demo_pool).
Proof.
  apply (Scrape_shares_bounded_channel 1 ScrapePrimaryKey_lit (mkContext None)
           (mkInstance demo_db) demo_world [pack [beat 1; beat 2]]).
  - reflexivity.
  - apply pool_run_steps.
  - vm_compute. reflexivity.
  - apply pool_done_delivered. vm_compute. reflexivity.
Defined.

Lemma Scrape_pool_no_deadlock_witness :
  length (pool_buf (pool_run 0 [Work 0; Work 1] demo_pool)) ≤ 0 ∧
  sn (pool_step 0) (pool_run 0 [Work 0; Work 1] demo_pool) ∧
  (pool_closed (pool_run 0 [Work 0; Work 1] demo_pool) = false →
   ∃ st', rtc (pool_step 0) (pool_run 0 [Work 0; Work 1] demo_pool) st' ∧
          pool_delivered st' ∧ pool_closed st' = false).
Proof.
  apply (Scrape_pool_no_deadlock 0 (mkContext None) (mkInstance demo_db)
           [pack [beat 1; beat 2]]).
  apply pool_run_steps.
Defined.

(** The goroutines of the two scrapers of [demo_registry], against the
    server of the examples. *)
Definition demo_goroutines : Pool Worker :=
  pool_init (goroutine (mkContext None) shop <$>
             selection demo_both 8 demo_registry).

(** The consumer closes the channel while both goroutines have samples
    to send; the call of [Scrape] then comes to its send. *)
Definition demo_start : list Act :=
  [Work 1; Work 0; Work 1; Recv; Close; Work 1; Work 1].

Example pool_closed_early :
  let st := pool_run 1 demo_start demo_goroutines in
  pool_closed st = true ∧ pool_received st = [beat 1] ∧ pool_buf st = [] ∧
  worker_next <$> workers st = [Send (beat 2) (pack []); Halt].
Proof. vm_compute. repeat split. Qed.

Lemma exporter_pool_refines_cycle_witness :
  let st := pool_run 1 demo_start demo_goroutines in
  let step := cycle_step demo_registry demo_both healthy (mkContext None)
                demo_clock 10 in
  ∃ c us outs,
    rtc step (mkCycle Idle [] false) c ∧
    phase c = Running us outs ∧
    emitted c = [] ++ pool_received st ++ pool_buf st ∧
    (pool_closed st = false →
     expired c = false ∧
     Forall2 (λ u p, u_pending u = sends p) us (workers st) ∧
     (pool_delivered st →
      Forall (λ s, returns (launch (mkContext None) shop s))
        (selection demo_both 8 demo_registry) →
      ∃ outs',
        rtc step c
          (mkCycle Done ([] ++ pool_received st ++ report outs') false))) ∧
    (pool_closed st = true →
     (expired c = true ∨ us = []) ∧
     rtc step c
       (mkCycle Done
          ([] ++ (pool_received st ++ pool_buf st) ++
           report (outs ++ (timed_out 10 <$> us)))
          (expired c))).
Proof.
  apply (exporter_pool_refines_cycle demo_both demo_clock 10 1 demo_registry
           healthy (mkContext None) [] shop 8).
  - apply register_wf, scrapers_wf.
  - vm_compute. reflexivity.
  - reflexivity.
  - reflexivity.
  - apply pool_run_steps.
Defined.
