(* ===== verification/Process.v ===== *)
(** * The exporter across cycles: the instance and its connection

    From the design document (its sections 3, 4.2 and 5); the code is not
    in the repository.  An instance owns a connection that is established
    on first use and released once ([Handle], [Connection],
    [Teardown]).  The exporter process serves scrape requests one at a
    time: a request takes the connection of the instance, runs one cycle
    of [Orchestrator] on a sink of its own and responds with what the
    cycle emitted ([process_step]); [serve] is the process as a function
    of the requests.

    Shown here: whatever the number of cycles, at most one connection is
    established and it is released at most once ([handle_ok]); the
    response to a request is the whole stream of one cycle, ending with
    the reachability gauge ([response_ok]); and two cycles against
    targets that answer alike emit the same descriptors with the same
    label values, whatever the interleavings and the durations measured;
    a cycle cut short by its deadline emits a part of them, with every
    meta-metric ([cycles_shapes]). *)

From Stdlib Require Import Floats.
From S2P Require Import Prelude Prometheus Database PrimaryQuery Scraper.
From S2P Require Import Orchestrator PrimaryKey EndToEnd Exporter.

(** ** The instance *)

Inductive Conn : Type :=
| NotOpened
| Live (inst : instance)
| Released.

(** The connection of an instance, with the connections it has
    established and released so far. *)
Record Handle : Type := mkHandle {
  h_conn : Conn;
  h_dials : nat;
  h_releases : nat;
}.

Definition new_handle : Handle := mkHandle NotOpened 0 0.

(** [Connection()]: the live connection, established on first use.
    [connect] is what establishing a connection gives. *)
Definition Connection (connect : error + instance) (h : Handle)
    : (error + instance) * Handle :=
  match h_conn h with
  | Live inst => (inr inst, h)
  | NotOpened =>
      match connect with
      | inl e => (inl e, h)
      | inr inst =>
          (inr inst, mkHandle (Live inst) (S (h_dials h)) (h_releases h))
      end
  | Released => (inl (ErrDriver "sql: database is closed"), h)
  end.

(** Teardown: releases the connection if there is one. *)
Definition Teardown (h : Handle) : Handle :=
  match h_conn h with
  | Live _ => mkHandle Released (h_dials h) (S (h_releases h))
  | _ => mkHandle Released (h_dials h) (h_releases h)
  end.

(** ** The process *)

(** A cycle in flight: its target, the durations it will measure, and its
    state. *)
Record InFlight : Type := mkInFlight {
  c_target : Target;
  c_clock : string → float;
  c_state : Cycle;
}.

Record Process : Type := mkProcess {
  p_handle : Handle;
  p_cycle : option InFlight;
  p_served : list (list Metric);
}.

Definition new_process : Process := mkProcess new_handle None [].

(** The shutdown of the process: the teardown of its instance. *)
Definition Teardown_process (p : Process) : Process :=
  mkProcess (Teardown (p_handle p)) (p_cycle p) (p_served p).

(** A sample without its value. *)
Definition shape (m : Metric) : Desc * list string := (m_desc m, m_labels m).

(** A whole stream: samples, then the reachability gauge. *)
Definition response_ok (r : list Metric) : Prop :=
  ∃ X up, r = X ++ [up_gauge up].

(** Two streams with the same descriptors and label values, in order. *)
Definition shape_eq : relation (list Metric) :=
  λ ms1 ms2, shape <$> ms1 = shape <$> ms2.

(** Two outcomes of one scraper that differ at most in the duration. *)
Definition same_outcome (o1 o2 : Outcome) : Prop :=
  o_name o1 = o_name o2 ∧ o_status o1 = o_status o2.

#[export] Instance shape_eq_equivalence : Equivalence shape_eq.
Proof.
  unfold shape_eq. split; [by intros ?|by intros ??|].
  by intros ms1 ms2 ms3 -> ->.
Qed.

#[export] Instance app_shape_proper :
  Proper (shape_eq ==> shape_eq ==> shape_eq) (@app Metric).
Proof.
  intros ms1 ms2 H1 ns1 ns2 H2. unfold shape_eq in *.
  by rewrite !fmap_app, H1, H2.
Qed.

#[export] Instance same_outcome_reflexive : Reflexive same_outcome.
Proof. by intros o. Qed.

(** The report of outcomes that differ in the durations only. *)
#[export] Instance report_shape_proper :
  Proper (Forall2 same_outcome ==> shape_eq) report.
Proof.
  intros outs1 outs2 Hs. unfold report. f_equiv.
  induction Hs as [|o1 o2 outs1 outs2 [Hn Ho] _ IH]; [done|].
  cbn [mbind list_bind]. rewrite IH. f_equiv. unfold shape_eq. simpl.
  unfold shape, success_gauge, duration_gauge. simpl. by rewrite Hn.
Qed.

Section process.
Context (reg : Registry) (cfg : Config).
Context (connect : error + instance) (probe : instance → error + float).
Context (ctx : Context) (deadline : float).

Inductive process_step : Process → Process → Prop :=
| proc_request h served clock :
    process_step (mkProcess h None served)
      (mkProcess (Connection connect h).2
         (Some (mkInFlight (mkTarget (Connection connect h).1 probe) clock
                  (mkCycle Idle [] false)))
         served)
| proc_cycle h tgt clock c c' served :
    cycle_step reg cfg tgt ctx clock deadline c c' →
    process_step (mkProcess h (Some (mkInFlight tgt clock c)) served)
                 (mkProcess h (Some (mkInFlight tgt clock c')) served)
| proc_respond h tgt clock c served :
    phase c = Done →
    process_step (mkProcess h (Some (mkInFlight tgt clock c)) served)
                 (mkProcess h None (served ++ [emitted c]))
| proc_shutdown h served :
    process_step (mkProcess h None served) (mkProcess (Teardown h) None served).

(** One request served to its end on the sequential schedule of the
    cycle.  A cycle that crashes takes the process with it: the cycle
    stays in flight and no request is served after it. *)
Definition serve_one (clock : string → float) (p : Process) : Process :=
  match p_cycle p with
  | Some _ => p
  | None =>
      let r := Connection connect (p_handle p) in
      let tgt := mkTarget r.1 probe in
      let c := Collect reg cfg tgt ctx clock deadline [] in
      match phase c with
      | Done => mkProcess r.2 None (p_served p ++ [emitted c])
      | _ => mkProcess r.2 (Some (mkInFlight tgt clock c)) (p_served p)
      end
  end.

Definition serve (clocks : list (string → float)) (p : Process) : Process :=
  foldl (λ p clock, serve_one clock p) p clocks.

(** At most one connection, released at most once. *)
Definition handle_ok (h : Handle) : Prop :=
  match h_conn h with
  | NotOpened => h_dials h = 0 ∧ h_releases h = 0
  | Live inst => connect = inr inst ∧ h_dials h = 1 ∧ h_releases h = 0
  | Released => h_dials h ≤ 1 ∧ h_releases h = h_dials h
  end.

Definition in_flight_ok (f : InFlight) : Prop :=
  rtc (cycle_step reg cfg (c_target f) ctx (c_clock f) deadline)
    (mkCycle Idle [] false) (c_state f).

Record process_inv (p : Process) : Prop := {
  inv_handle : handle_ok (p_handle p);
  inv_served : Forall response_ok (p_served p);
  inv_cycle : from_option in_flight_ok True (p_cycle p);
}.

Implicit Types (h : Handle) (p : Process) (inst : instance).
Implicit Types (clock : string → float) (c : Cycle).

(** ** The connection *)

Lemma Connection_ok h : handle_ok h → handle_ok (Connection connect h).2.
Proof.
  unfold handle_ok, Connection. destruct (h_conn h) eqn:Hc; simpl;
    rewrite ?Hc; try done.
  intros [Hd Hr]. destruct connect as [e|inst] eqn:Hconn; simpl.
  - by rewrite Hc.
  - by rewrite Hd, Hr.
Qed.

(** What [Connection] returns is what establishing the connection gave,
    and from then on the connection is live. *)
Lemma Connection_live h inst :
  handle_ok h → (Connection connect h).1 = inr inst →
  connect = inr inst ∧ h_conn (Connection connect h).2 = Live inst.
Proof.
  unfold handle_ok, Connection. destruct (h_conn h) eqn:Hc; simpl.
  - intros _. destruct connect; simpl; [done|]. by intros [= ->].
  - intros [-> _] [= ->]. by rewrite Hc.
  - done.
Qed.

(** [Connection] is idempotent: a second call returns what the first
    returned and establishes nothing. *)
Lemma Connection_idem h :
  Connection connect (Connection connect h).2 = Connection connect h.
Proof.
  unfold Connection. destruct (h_conn h) eqn:Hc; simpl; rewrite ?Hc; try done.
  destruct connect; simpl; by rewrite ?Hc.
Qed.

Lemma Teardown_ok h : handle_ok h → handle_ok (Teardown h).
Proof.
  unfold handle_ok, Teardown. destruct (h_conn h); simpl; lia.
Qed.

(** Teardown releases once: a second teardown changes nothing, and a
    teardown of an instance that was never opened releases nothing. *)
Lemma Teardown_idem h : Teardown (Teardown h) = Teardown h.
Proof. unfold Teardown. by destruct (h_conn h). Qed.

Lemma Teardown_releases h :
  handle_ok h →
  h_releases (Teardown h) = h_dials h ∧ h_dials (Teardown h) = h_dials h.
Proof.
  unfold handle_ok, Teardown. destruct (h_conn h); simpl; lia.
Qed.

(** ** Responses *)

Lemma report_response outs X : response_ok (X ++ report outs).
Proof. unfold report. rewrite app_assoc. by eexists _, true. Qed.

(** What a finished cycle has emitted on a fresh sink is a whole stream. *)
Lemma cycle_response tgt clock c :
  rtc (cycle_step reg cfg tgt ctx clock deadline) (mkCycle Idle [] false) c →
  phase c = Done → response_ok (emitted c).
Proof.
  intros Hinv%cycle_inv_reachable Hdone. unfold cycle_inv in Hinv.
  rewrite Hdone in Hinv.
  destruct Hinv as [[-> _]|(inst & v & X & outs & _ & _ & -> & _)].
  - by exists [], false.
  - apply report_response.
Qed.

(** ** The invariant of the process *)

Lemma process_inv_new : process_inv new_process.
Proof. by split. Qed.

Lemma process_step_inv p p' :
  process_step p p' → process_inv p → process_inv p'.
Proof.
  intros Hstep [Hh Hs Hc]. destruct Hstep; simpl in *; split; simpl;
    auto using Connection_ok, Teardown_ok.
  - apply rtc_refl.
  - unfold in_flight_ok in *. simpl in *. by eapply rtc_r.
  - apply Forall_app. split; [done|]. apply Forall_singleton.
    by eapply cycle_response.
Qed.

Lemma process_inv_reachable p :
  rtc process_step new_process p → process_inv p.
Proof.
  apply (rtc_ind_r process_inv);
    eauto using process_inv_new, process_step_inv.
Qed.

(** ** The sequential schedule is a run of the process *)

Lemma proc_cycles h tgt clock served c c' :
  rtc (cycle_step reg cfg tgt ctx clock deadline) c c' →
  rtc process_step (mkProcess h (Some (mkInFlight tgt clock c)) served)
                   (mkProcess h (Some (mkInFlight tgt clock c')) served).
Proof.
  induction 1 as [|c c1 c' Hstep _ IH]; [done|].
  eapply rtc_l; [by apply proc_cycle|done].
Qed.

Lemma serve_one_steps clock p : rtc process_step p (serve_one clock p).
Proof.
  destruct p as [h [f|] served]; [done|]. unfold serve_one. simpl.
  eapply rtc_l; [apply (proc_request h served clock)|].
  etrans; [apply proc_cycles, Collect_run|].
  destruct (phase (Collect _ _ _ _ _ _ _)) eqn:Hph; try done.
  by apply rtc_once, proc_respond.
Qed.

(** A request that was answered: no cycle was in flight, the cycle came
    to [Done], and its stream is the response. *)
Lemma serve_one_None clock p :
  p_cycle (serve_one clock p) = None →
  p_cycle p = None ∧
  serve_one clock p =
    mkProcess (Connection connect (p_handle p)).2 None
      (p_served p ++
       [emitted (Collect reg cfg
                   (mkTarget (Connection connect (p_handle p)).1 probe)
                   ctx clock deadline [])]).
Proof.
  destruct p as [h [f|] served]; unfold serve_one; simpl; [done|].
  by destruct (phase _).
Qed.

Lemma shutdown_step p :
  p_cycle p = None → process_step p (Teardown_process p).
Proof. destruct p as [h [f|] served]; [done|]. intros _. apply proc_shutdown. Qed.

Lemma serve_steps clocks p : rtc process_step p (serve clocks p).
Proof.
  revert p. induction clocks as [|clock clocks IH]; intros p; [done|].
  simpl. etrans; [apply serve_one_steps|apply IH].
Qed.

End process.

(** ** Two cycles against an unchanged target *)

Section shape.
Context (reg : Registry) (cfg : Config) (ctx : Context) (deadline : float).
Context (clock1 clock2 : string → float).
Implicit Types (us : list WorkUnit) (ms : list Metric) (outs : list Outcome).

(** The durations a cycle measures show in the values of its samples
    only. *)
Lemma run_units_shape us ms1 ms2 outs1 outs2 :
  shape_eq ms1 ms2 → Forall2 same_outcome outs1 outs2 →
  phase (run_units clock1 deadline us ms1 outs1) =
    phase (run_units clock2 deadline us ms2 outs2) ∧
  shape_eq (emitted (run_units clock1 deadline us ms1 outs1))
           (emitted (run_units clock2 deadline us ms2 outs2)).
Proof.
  revert ms1 ms2 outs1 outs2.
  induction us as [|u us IH]; intros ms1 ms2 outs1 outs2 Hms Houts; simpl.
  { split; [done|]. by rewrite Hms, Houts. }
  destruct (u_result u) as [r|e|]; simpl.
  - apply IH; [by rewrite Hms|]. apply Forall2_app; [done|].
    by repeat constructor.
  - split; [done|]. by rewrite Hms.
  - split; [done|]. rewrite Hms. f_equiv. f_equiv.
    by apply Forall2_app.
Qed.

Lemma Collect_shape tgt :
  phase (Collect reg cfg tgt ctx clock1 deadline []) =
    phase (Collect reg cfg tgt ctx clock2 deadline []) ∧
  shape_eq (emitted (Collect reg cfg tgt ctx clock1 deadline []))
           (emitted (Collect reg cfg tgt ctx clock2 deadline [])).
Proof.
  unfold Collect. destruct (dial tgt) as [e|inst]; [done|].
  destruct (probe tgt inst) as [e|v]; [done|]. by apply run_units_shape.
Qed.

(** Two requests in a row: one connection, and two responses that differ
    at most in the values of their samples. *)
Lemma serve_twice connect probe :
  let p := serve reg cfg connect probe ctx deadline [clock1; clock2]
             new_process in
  p_cycle p = None →
  ∃ r1 r2, p_served p = [r1; r2] ∧ shape <$> r1 = shape <$> r2.
Proof.
  simpl. intros Hp.
  destruct (serve_one_None _ _ _ _ _ _ _ _ Hp) as [Hp1 ->].
  destruct (serve_one_None _ _ _ _ _ _ _ _ Hp1) as [_ ->]. simpl.
  rewrite Connection_idem. eexists _, _. split; [done|].
  apply Collect_shape.
Qed.

End shape.

(** ** Two cycles, on any schedules *)

Section cycles.
Context (reg : Registry) (cfg : Config) (ctx : Context).
Context (clock1 clock2 : string → float) (deadline1 deadline2 : float).
Implicit Types (L : list WorkUnit) (X : list Metric) (outs : list Outcome).

(** The descriptors and label values of a report are given by the names
    of its outcomes. *)
Lemma report_shape outs :
  shape <$> report outs =
    ((o_name <$> outs) ≫=
       λ n, [(scrapeSuccessDesc, [n]); (scrapeDurationDesc, [n])]) ++
    [shape (up_gauge true)].
Proof.
  unfold report. rewrite fmap_app. f_equal.
  induction outs as [|o outs IH]; [done|].
  rewrite fmap_cons. cbn [mbind list_bind]. by rewrite fmap_app, IH.
Qed.

Lemma report_shape_perm outs1 outs2 :
  o_name <$> outs1 ≡ₚ o_name <$> outs2 →
  shape <$> report outs1 ≡ₚ shape <$> report outs2.
Proof. intros Hn. by rewrite !report_shape, Hn. Qed.

(** What two finished cycles of the same units have emitted, the second
    before its deadline. *)
Lemma done_shapes L outs1 outs2 X1 X2 b1 :
  running_inv clock1 deadline1 L [] outs1 X1 b1 →
  running_inv clock2 deadline2 L [] outs2 X2 false →
  shape <$> X1 ++ report outs1 ⊆+ shape <$> X2 ++ report outs2 ∧
  (b1 = false → shape <$> X1 ++ report outs1 ≡ₚ shape <$> X2 ++ report outs2).
Proof.
  intros Hinv1 Hinv2.
  pose proof (running_inv_all_sent _ _ _ _ _ Hinv2) as HX2.
  assert (shape <$> report outs1 ≡ₚ shape <$> report outs2) as Hrep.
  { apply report_shape_perm.
    by rewrite (running_inv_outcome_names _ _ _ _ _ _ Hinv1),
      (running_inv_outcome_names _ _ _ _ _ _ Hinv2). }
  rewrite !fmap_app. split.
  - apply submseteq_app; [|by rewrite Hrep]. apply fmap_submseteq.
    rewrite HX2. by eapply running_inv_some_sent.
  - intros ->. f_equiv; [|done].
    by rewrite HX2, (running_inv_all_sent _ _ _ _ _ Hinv1).
Qed.

(** Two finished cycles, on any schedules, against targets that report
    the same version and give the scrapers the same to send. *)
Lemma cycles_shapes tgt1 tgt2 inst1 inst2 v c1 c2 :
  dial tgt1 = inr inst1 → probe tgt1 inst1 = inr v →
  dial tgt2 = inr inst2 → probe tgt2 inst2 = inr v →
  launched reg cfg ctx inst1 v = launched reg cfg ctx inst2 v →
  rtc (cycle_step reg cfg tgt1 ctx clock1 deadline1) (mkCycle Idle [] false) c1 →
  rtc (cycle_step reg cfg tgt2 ctx clock2 deadline2) (mkCycle Idle [] false) c2 →
  phase c1 = Done → phase c2 = Done → expired c2 = false →
  shape <$> emitted c1 ⊆+ shape <$> emitted c2 ∧
  (expired c1 = false → shape <$> emitted c1 ≡ₚ shape <$> emitted c2).
Proof.
  intros Hd1 Hp1 Hd2 Hp2 HL Hrun1 Hrun2 Hdone1 Hdone2 Hexp.
  destruct (cycle_done reg cfg tgt1 ctx clock1 deadline1 [] c1 inst1 v)
    as (X1 & outs1 & -> & Hinv1); [done..|].
  destruct (cycle_done reg cfg tgt2 ctx clock2 deadline2 [] c2 inst2 v)
    as (X2 & outs2 & -> & Hinv2); [done..|].
  rewrite Hexp in Hinv2. rewrite HL in Hinv1. simpl.
  by eapply done_shapes.
Qed.

End cycles.

(** ** Theorems *)

Section theorems.
Context (cfg : Config) (connect : error + instance).
Context (probe : instance → error + float) (ctx : Context) (deadline : float).

(** One connection per instance.  In every state the exporter
    process reaches over the registry of the repository, whatever the
    requests, the interleavings of the cycles and the shutdowns, at most
    one connection has been established, it has been released at most
    once, a live connection is the one that was established, and every
    response served is the whole stream of a finished cycle, ending with
    the reachability gauge. *)
Theorem process_one_connection p :
  rtc (process_step scrapers cfg connect probe ctx deadline) new_process p →
  h_dials (p_handle p) ≤ 1 ∧
  h_releases (p_handle p) ≤ h_dials (p_handle p) ∧
  (∀ inst, h_conn (p_handle p) = Live inst → connect = inr inst) ∧
  Forall response_ok (p_served p).
Proof.
  intros [Hh Hs _]%process_inv_reachable. unfold handle_ok in Hh.
  destruct (h_conn (p_handle p)) eqn:Hc; split_and!; try done; try lia.
  intros inst' [= <-]. by destruct Hh.
Qed.

End theorems.

Section idempotence.
Context (cfg : Config) (ctx : Context).

(** C39: idempotence of the cycle.  Take two cycles of the exporter
    against targets that report the same version and answer
    [primaryQuery] alike (the database has not changed), on any
    schedules, with any durations measured and any deadlines.  When both
    finish and the second does so before its deadline, every descriptor
    with its label values that the first emits the second emits too, as
    often; and when the first finishes before its deadline as well, the
    two emit the same descriptors with the same label values, as often:
    the streams differ in the values of the samples and in the order of
    the interleaving only. *)
Theorem exporter_cycles_idempotent tgt1 tgt2 inst1 inst2 v
    clock1 clock2 deadline1 deadline2 c1 c2 :
  dial tgt1 = inr inst1 → probe tgt1 inst1 = inr v →
  dial tgt2 = inr inst2 → probe tgt2 inst2 = inr v →
  db_answer (getDB inst1) primaryQuery = db_answer (getDB inst2) primaryQuery →
  rtc (cycle_step scrapers cfg tgt1 ctx clock1 deadline1)
      (mkCycle Idle [] false) c1 →
  rtc (cycle_step scrapers cfg tgt2 ctx clock2 deadline2)
      (mkCycle Idle [] false) c2 →
  phase c1 = Done → phase c2 = Done → expired c2 = false →
  shape <$> emitted c1 ⊆+ shape <$> emitted c2 ∧
  (expired c1 = false → shape <$> emitted c1 ≡ₚ shape <$> emitted c2).
Proof.
  intros Hd1 Hp1 Hd2 Hp2 Hq. eapply cycles_shapes; [done..|].
  unfold launched. rewrite selection_scrapers.
  destruct (eligible cfg v primary_key); [|done]. simpl.
  by rewrite !launch_primary_key,
    (Scrape_same_answer ScrapePrimaryKey_lit ctx inst1 inst2 _ Hq).
Qed.

End idempotence.

(** ** The theorems on a concrete target *)

Definition demo_connect : error + instance := inr shop.
Definition demo_probe : instance → error + float := λ _, inr 8%float.

(** One request served, then the shutdown. *)
Lemma process_one_connection_witness :
  let p := Teardown_process
             (serve scrapers demo_cfg demo_connect demo_probe
                (mkContext None) 10 [demo_clock] new_process) in
  h_dials (p_handle p) ≤ 1 ∧
  h_releases (p_handle p) ≤ h_dials (p_handle p) ∧
  (∀ inst, h_conn (p_handle p) = Live inst → demo_connect = inr inst) ∧
  Forall response_ok (p_served p).
Proof.
  apply (process_one_connection demo_cfg demo_connect demo_probe
           (mkContext None) 10).
  eapply rtc_r; [apply serve_steps|]. apply shutdown_step.
  vm_compute. reflexivity.
Defined.

(** The server of the examples and a second server that answers the
    query of [primary_key] as the first does and no other query; the
    cycle against the first is cut short by its deadline, the cycle
    against the second runs to its end. *)
Definition shop_replica : instance :=
  mkInstance (mkDB (λ q, if decide (q = primaryQuery)
                         then db_answer (getDB shop) primaryQuery
                         else QueryFails (ErrDriver "access denied"))).

Definition replica : Target := mkTarget (inr shop_replica) (λ _, inr 8%float).

Lemma exporter_cycles_idempotent_witness :
  let c2 := Collect scrapers demo_cfg replica (mkContext None)
              (λ _, 0.5%float) 20 [] in
  shape <$> emitted timed_out_cycle ⊆+ shape <$> emitted c2 ∧
  (expired timed_out_cycle = false →
   shape <$> emitted timed_out_cycle ≡ₚ shape <$> emitted c2).
Proof.
  apply (exporter_cycles_idempotent demo_cfg (mkContext None) healthy replica
           shop shop_replica 8 demo_clock (λ _, 0.5%float) 10 20);
    try reflexivity; [|apply Collect_run].
  apply (deadline_run demo_cfg demo_clock 10 scrapers healthy (mkContext None)
           [] shop 8 primary_key); [done..|].
  apply elem_of_selection. split; [|vm_compute; reflexivity].
  exists "primary_key". apply lookup_insert_eq.
Defined.
