(* ===== verification/Rotation.v ===== *)
(** * Reconfiguration of the instance

    From the design document (its section 3); the code is not in the
    repository.  An instance lives until the process shuts down or until
    it is reconfigured, as when the credentials of the target are
    rotated.  A reconfiguration closes the instance and puts a new one,
    not opened yet, in its place ([Reconfigure]); the next request
    establishes a connection with the new configuration.  It happens
    between cycles: the configuration of an instance does not change
    under the scrapers that read from it.

    [Managed] is the exporter with the configuration it runs under and
    the instances it has retired; [managed_step] adds the reconfiguration
    to the steps of [Process.process_step]; [run_events] is the exporter
    as a function of what happens to it.

    Shown here: whatever the requests, the cycles, the shutdowns and the
    reconfigurations, every retired instance is closed and has released
    what it established, so at most one connection is live at any time,
    and it is a connection of the current configuration
    ([managed_inv]). *)

From Stdlib Require Import Floats.
From S2P Require Import Prelude Prometheus Database Scraper Orchestrator.
From S2P Require Import PrimaryKey EndToEnd Exporter Process.

Record Managed : Type := mkManaged {
  (** what establishing a connection gives under the current
      configuration *)
  m_connect : error + instance;
  m_process : Process;
  m_retired : list Handle;
}.

Definition new_managed (connect : error + instance) : Managed :=
  mkManaged connect new_process [].

(** Reconfiguration, between cycles: the instance is closed and retired,
    and a new one takes its place.  While a cycle is in flight nothing
    changes. *)
Definition Reconfigure (connect' : error + instance) (m : Managed) : Managed :=
  match p_cycle (m_process m) with
  | Some _ => m
  | None =>
      mkManaged connect'
        (mkProcess new_handle None (p_served (m_process m)))
        (m_retired m ++ [Teardown (p_handle (m_process m))])
  end.

(** What happens to the exporter: a scrape request, measured by a clock;
    a reconfiguration; the shutdown. *)
Inductive Event : Type :=
| Request (clock : string → float)
| Rotate (connect' : error + instance)
| Shutdown.

(** The connections the instances have established and released, the
    retired ones included. *)
Definition total_dials (m : Managed) : nat :=
  sum_list_with h_dials (m_retired m) + h_dials (p_handle (m_process m)).

Definition total_releases (m : Managed) : nat :=
  sum_list_with h_releases (m_retired m) + h_releases (p_handle (m_process m)).

(** A retired instance is closed and has released what it established. *)
Definition retired_ok (h : Handle) : Prop :=
  h_conn h = Released ∧ h_dials h ≤ 1 ∧ h_releases h = h_dials h.

Section managed.
Context (reg : Registry) (cfg : Config).
Context (probe : instance → error + float) (ctx : Context) (deadline : float).
Implicit Types (m : Managed) (h : Handle) (p : Process).

Inductive managed_step : Managed → Managed → Prop :=
| man_process connect p p' retired :
    process_step reg cfg connect probe ctx deadline p p' →
    managed_step (mkManaged connect p retired) (mkManaged connect p' retired)
| man_reconfigure connect' m :
    p_cycle (m_process m) = None →
    managed_step m (Reconfigure connect' m).

Definition run_event (ev : Event) (m : Managed) : Managed :=
  match ev with
  | Request clock =>
      mkManaged (m_connect m)
        (serve_one reg cfg (m_connect m) probe ctx deadline clock (m_process m))
        (m_retired m)
  | Rotate connect' => Reconfigure connect' m
  | Shutdown =>
      match p_cycle (m_process m) with
      | Some _ => m
      | None =>
          mkManaged (m_connect m) (Teardown_process (m_process m)) (m_retired m)
      end
  end.

Definition run_events (evs : list Event) (m : Managed) : Managed :=
  foldl (λ m ev, run_event ev m) m evs.

Record managed_inv (m : Managed) : Prop := {
  inv_process :
    process_inv reg cfg (m_connect m) ctx deadline (m_process m);
  inv_retired : Forall retired_ok (m_retired m);
}.

(** ** The invariant *)

Lemma managed_inv_new connect : managed_inv (new_managed connect).
Proof. split; [apply process_inv_new|constructor]. Qed.

Lemma Teardown_retired connect h :
  handle_ok connect h → retired_ok (Teardown h).
Proof.
  unfold handle_ok, retired_ok, Teardown.
  destruct (h_conn h); simpl; intros; split_and!; try done; lia.
Qed.

Lemma Reconfigure_inv connect' m :
  managed_inv m → managed_inv (Reconfigure connect' m).
Proof.
  intros Hinv. unfold Reconfigure.
  destruct (p_cycle (m_process m)) eqn:Hcy; [done|].
  destruct Hinv as [[Hh Hs Hc] Hr]. split; simpl; [by split|].
  apply Forall_app. split; [done|].
  apply Forall_singleton. by eapply Teardown_retired.
Qed.

Lemma managed_step_inv m m' :
  managed_step m m' → managed_inv m → managed_inv m'.
Proof.
  destruct 1 as [connect p p' retired Hstep|connect' m Hcy];
    [|apply Reconfigure_inv].
  intros [Hp Hr]. split; [|done]. simpl in *. by eapply process_step_inv.
Qed.

Lemma managed_inv_reachable connect m :
  rtc managed_step (new_managed connect) m → managed_inv m.
Proof.
  apply (rtc_ind_r managed_inv);
    eauto using managed_inv_new, managed_step_inv.
Qed.

(** ** What the invariant gives *)

Lemma retired_balance retired :
  Forall retired_ok retired →
  sum_list_with h_releases retired = sum_list_with h_dials retired.
Proof.
  induction 1 as [|h retired (_ & _ & Hh) _ IH]; [done|]. simpl. lia.
Qed.

(** At most one connection is live, and the live connection is one of
    the current configuration. *)
Lemma managed_inv_live m :
  managed_inv m →
  total_dials m - total_releases m ≤ 1 ∧
  total_releases m ≤ total_dials m ∧
  ∀ inst, h_conn (p_handle (m_process m)) = Live inst →
          m_connect m = inr inst ∧ total_dials m = S (total_releases m).
Proof.
  intros [[Hh _ _] Hr%retired_balance]. unfold total_dials, total_releases.
  rewrite Hr. unfold handle_ok in Hh.
  destruct (h_conn (p_handle (m_process m))) eqn:Hc; split_and!; try done;
    try lia.
  intros inst' [= <-]. destruct Hh as (? & ? & ?). split; [done|lia].
Qed.

(** ** The events are a run *)

Lemma run_event_steps ev m : rtc managed_step m (run_event ev m).
Proof.
  destruct m as [connect p retired]. destruct ev as [clock|connect'|]; simpl.
  - pose proof (serve_one_steps reg cfg connect probe ctx deadline clock p)
      as Hrun.
    induction Hrun as [|p p1 p2 Hstep _ IH]; [done|].
    eapply rtc_l; [by apply man_process|done].
  - destruct (p_cycle p) eqn:Hcy; [unfold Reconfigure; simpl; by rewrite Hcy|].
    by apply rtc_once, man_reconfigure.
  - destruct (p_cycle p) eqn:Hcy; [done|].
    apply rtc_once, man_process. by apply shutdown_step.
Qed.

Lemma run_events_steps evs m : rtc managed_step m (run_events evs m).
Proof.
  revert m. induction evs as [|ev evs IH]; intros m; [done|].
  simpl. etrans; [apply run_event_steps|apply IH].
Qed.

End managed.

(** ** Theorems *)

Section theorems.
Context (cfg : Config).
Context (probe : instance → error + float) (ctx : Context) (deadline : float).

(** C38: one connection at a time, across reconfigurations.  In every
    state the exporter reaches over the registry of the repository,
    whatever the requests, the interleavings of the cycles, the shutdowns
    and the reconfigurations: the instance in use has established at most
    one connection and released it at most once; every retired instance
    is closed and has released what it established; so at most one
    connection is live, and a live connection is one of the current
    configuration; and every response served is the whole stream of a
    finished cycle, ending with the reachability gauge. *)
Theorem exporter_one_connection connect0 m :
  rtc (managed_step scrapers cfg probe ctx deadline) (new_managed connect0) m →
  h_dials (p_handle (m_process m)) ≤ 1 ∧
  h_releases (p_handle (m_process m)) ≤ h_dials (p_handle (m_process m)) ∧
  Forall retired_ok (m_retired m) ∧
  total_dials m - total_releases m ≤ 1 ∧
  (∀ inst, h_conn (p_handle (m_process m)) = Live inst →
           m_connect m = inr inst ∧ total_dials m = S (total_releases m)) ∧
  Forall response_ok (p_served (m_process m)).
Proof.
  intros Hinv%managed_inv_reachable.
  destruct (managed_inv_live _ _ _ _ _ Hinv) as (? & ? & ?).
  destruct Hinv as [[Hh Hs _] Hr]. unfold handle_ok in Hh.
  destruct (h_conn (p_handle (m_process m))); split_and!; try done; lia.
Qed.

End theorems.

(** ** The theorem on a concrete target *)

(** A request, a rotation to a second server, a request, the shutdown. *)
Definition demo_events : list Event :=
  [Request demo_clock; Rotate (inr shop_broken); Request demo_clock; Shutdown].

Example rotation_balance :
  let m := run_events scrapers demo_cfg demo_probe (mkContext None) 10
             demo_events (new_managed demo_connect) in
  total_dials m = 2 ∧ total_releases m = 2 ∧ length (m_retired m) = 1 ∧
  length (p_served (m_process m)) = 2.
Proof. vm_compute. repeat split. Qed.

Lemma exporter_one_connection_witness :
  let m := run_events scrapers demo_cfg demo_probe (mkContext None) 10
             demo_events (new_managed demo_connect) in
  h_dials (p_handle (m_process m)) ≤ 1 ∧
  h_releases (p_handle (m_process m)) ≤ h_dials (p_handle (m_process m)) ∧
  Forall retired_ok (m_retired m) ∧
  total_dials m - total_releases m ≤ 1 ∧
  (∀ inst, h_conn (p_handle (m_process m)) = Live inst →
           m_connect m = inr inst ∧ total_dials m = S (total_releases m)) ∧
  Forall response_ok (p_served (m_process m)).
Proof.
  apply (exporter_one_connection demo_cfg demo_probe (mkContext None) 10
           demo_connect).
  apply run_events_steps.
Defined.
